(** * The model cache and loader of "Inside The Fridge"

    A shallow embedding of [OptimizedModelLoader]
    (src/js/optimizedModelLoader.js): the cache of parsed GLB assets, the
    table of loads in flight, the cloning of a cached scene graph into a
    positioned instance and the batched material pass.

    JavaScript numbers are IEEE 754 binary64 values: Rocq's primitive
    floats.  Objects live in arenas (append-only lists) and are named by
    their index, so that two names of one object are two equal indices.
    An [async] function is a state machine over its [await] points; the
    event loop resumes any activation whose awaited promise has settled. *)

From Stdlib Require Import Floats.PrimFloat.
From stdpp Require Import gmap strings list.

Set Default Proof Using "Type".
Set Warnings "-register-all".

(** ** JavaScript values used by the loader *)

(** A property that may be absent has an [option] type: [None] is
    JavaScript's [undefined]. *)

(** [ToBoolean] on a number that may be absent: [undefined], [+0], [-0] and [NaN]
    are falsy. *)
Definition truthy (v : option float) : bool :=
  match v with
  | None => false
  | Some f => negb (PrimFloat.eqb f 0%float || PrimFloat.is_nan f)
  end.

(** [a || b] *)
Definition js_or (a b : option float) : option float :=
  if truthy a then a else b.

Module Vector3.
(** [THREE.Vector3] / [THREE.Euler], and the [{x, y, z}] literals of a
    model configuration. *)
Record t := mk { x : float; y : float; z : float }.

(** [v.set(x, y, z)] overwrites the three components. *)
Definition set (_ : t) (x y z : float) : t := mk x y z.
End Vector3.

Module Material.
(** The properties of a [THREE.Material] that the loader reads or
    writes.  Which of them exist depends on the material class
    ([shininess] on Phong materials, [roughness] on Standard ones). *)
Record t := mk {
  roughness : option float;
  metalness : option float;
  aoMapIntensity : option float;
  shininess : option float;
  needsUpdate : bool
}.
End Material.

Module MaterialConfig.
(** [modelConfig.materialConfig], as far as [processSingleMaterial]
    looks at it. *)
Record t := mk {
  enhanceRealism : bool;
  roughness : option float;
  metalness : option float;
  aoMapIntensity : option float;
  shininess : option float
}.

(** The default argument [config = {}]. *)
Definition empty : t := mk false None None None None.
End MaterialConfig.

Module ModelConfig.
(** The configuration object handed to [loadModel]. *)
Record t := mk {
  name : string;
  path : string;
  scale : option Vector3.t;
  position : option Vector3.t;
  rotation : option Vector3.t;
  processMaterials : bool;
  materialConfig : option MaterialConfig.t;
  enableShadows : bool
}.
End ModelConfig.

(** ** [processSingleMaterial] (optimizedModelLoader.js, lines 186-206) *)

Definition processSingleMaterial (material : Material.t)
    (config : MaterialConfig.t) : Material.t :=
  let material :=
    if MaterialConfig.enhanceRealism config then
      let material :=
        match Material.roughness material with
        | Some _ =>
            Material.mk
              (js_or (MaterialConfig.roughness config) (Material.roughness material))
              (Material.metalness material) (Material.aoMapIntensity material)
              (Material.shininess material) (Material.needsUpdate material)
        | None => material
        end in
      let material :=
        match Material.metalness material with
        | Some _ =>
            Material.mk (Material.roughness material)
              (js_or (MaterialConfig.metalness config) (Material.metalness material))
              (Material.aoMapIntensity material)
              (Material.shininess material) (Material.needsUpdate material)
        | None => material
        end in
      match Material.aoMapIntensity material with
      | Some _ =>
          Material.mk (Material.roughness material) (Material.metalness material)
            (js_or (MaterialConfig.aoMapIntensity config) (Some 1.0%float))
            (Material.shininess material) (Material.needsUpdate material)
      | None => material
      end
    else material in
  let material :=
    match MaterialConfig.shininess config, Material.shininess material with
    | Some s, Some _ =>
        Material.mk (Material.roughness material) (Material.metalness material)
          (Material.aoMapIntensity material) (Some s)
          (Material.needsUpdate material)
    | _, _ => material
    end in
  Material.mk (Material.roughness material) (Material.metalness material)
    (Material.aoMapIntensity material) (Material.shininess material) true.

(** ** Scene graphs *)

(** A [THREE.Object3D] with its descendants.  [M] is what a mesh holds in
    its [material] property: a material itself in what the parser
    produces, the index of a material in the arena once the object lives
    on the heap. *)
Inductive object3d (M : Type) : Type := Object3D {
  isMesh : bool;
  material : option M;
  castShadow : bool;
  receiveShadow : bool;
  position : Vector3.t;
  rotation : Vector3.t;
  scale : Vector3.t;
  children : list (object3d M)
}.
Arguments Object3D {M}.
Arguments isMesh {M}.
Arguments material {M}.
Arguments castShadow {M}.
Arguments receiveShadow {M}.
Arguments position {M}.
Arguments rotation {M}.
Arguments scale {M}.
Arguments children {M}.

(** [object.traverse(callback)] visits the object, then its children in
    order, each with its own descendants. *)
Fixpoint traverse {M} (o : object3d M) : list (object3d M) :=
  match o with
  | Object3D _ _ _ _ _ _ _ kids => o :: flat_map traverse kids
  end.

(** The two arenas of the heap: scene graphs (each cell a root object
    with its whole subtree) and materials. *)
Record heap := Heap {
  objects : list (object3d nat);
  materials : list Material.t
}.

Module GLTF.
(** What [GLTFLoader] hands to [onLoad]: only [gltf.scene] is read. *)
Record t := mk { scene : nat }.
End GLTF.

(** Storing a freshly built scene graph: every material gets a cell of
    its own at the end of the material arena, in traversal order. *)
Fixpoint store_tree (o : object3d Material.t) (ms : list Material.t)
    : object3d nat * list Material.t :=
  match o with
  | Object3D mesh mat cast recv pos rot scl kids =>
      let '(mat', ms1) :=
        match mat with
        | Some m => (Some (length ms), ms ++ [m])
        | None => (None, ms)
        end in
      let '(kids', ms2) :=
        (fix each (l : list (object3d Material.t)) (ms : list Material.t)
            : list (object3d nat) * list Material.t :=
           match l with
           | [] => ([], ms)
           | c :: l' =>
               let '(c', ms') := store_tree c ms in
               let '(l'', ms'') := each l' ms' in
               (c' :: l'', ms'')
           end) kids ms1 in
      (Object3D mesh mat' cast recv pos rot scl kids', ms2)
  end.

Definition alloc (o : object3d Material.t) (h : heap) : nat * heap :=
  let stored := store_tree o (materials h) in
  (length (objects h), Heap (objects h ++ [stored.1]) stored.2).

(** Reading a scene graph off the heap: every material index is replaced
    by the material it names (an index outside the arena names none). *)
Fixpoint load_tree (ms : list Material.t) (o : object3d nat)
    : object3d Material.t :=
  match o with
  | Object3D mesh mat cast recv pos rot scl kids =>
      Object3D mesh (mat ≫= λ r, ms !! r) cast recv pos rot scl
        (map (load_tree ms) kids)
  end.

(** Modelled from the spec: [gltf.scene.clone()] belongs to three.js,
    which is not part of the sources.  Section 4.1 words the
    instantiation step as a deep copy of the record's scene graph with no
    shared mutable substructure: the copy is a new scene graph whose
    materials are new cells with the contents of the originals. *)
Definition clone (r : nat) (h : heap) : option (nat * heap) :=
  o ← objects h !! r;
  Some (alloc (load_tree (materials h) o) h).

(** Writing to the root object of scene graph [r]. *)
Definition update_root (r : nat) (f : object3d nat → object3d nat)
    (h : heap) : heap :=
  Heap (alter f r (objects h)) (materials h).

Definition set_scale (v : Vector3.t) (o : object3d nat) : object3d nat :=
  Object3D (isMesh o) (material o) (castShadow o) (receiveShadow o)
    (position o) (rotation o)
    (Vector3.set (scale o) (Vector3.x v) (Vector3.y v) (Vector3.z v))
    (children o).

Definition set_position (v : Vector3.t) (o : object3d nat) : object3d nat :=
  Object3D (isMesh o) (material o) (castShadow o) (receiveShadow o)
    (Vector3.set (position o) (Vector3.x v) (Vector3.y v) (Vector3.z v))
    (rotation o) (scale o) (children o).

Definition set_rotation (v : Vector3.t) (o : object3d nat) : object3d nat :=
  Object3D (isMesh o) (material o) (castShadow o) (receiveShadow o)
    (position o)
    (Vector3.set (rotation o) (Vector3.x v) (Vector3.y v) (Vector3.z v))
    (scale o) (children o).

(** [if (modelConfig.f) model.f.set(...)]: an absent field writes
    nothing. *)
Definition when_given (v : option Vector3.t)
    (f : Vector3.t → object3d nat → object3d nat) (o : object3d nat)
    : object3d nat :=
  match v with
  | Some v => f v o
  | None => o
  end.

(** ** [enableShadowsOptimized] (lines 209-223) *)

Fixpoint enableShadowsOptimized (o : object3d nat) : object3d nat :=
  match o with
  | Object3D mesh mat cast recv pos rot scl kids =>
      Object3D mesh mat (if mesh then true else cast)
        (if mesh then true else recv) pos rot scl
        (map enableShadowsOptimized kids)
  end.

(** ** [processMaterialsAsync] (lines 155-183) *)

(** The [materials] array: the material of every mesh that has one, in
    traversal order. *)
Definition collect_materials (o : object3d nat) : list nat :=
  omap (λ c, if isMesh c then material c else None) (traverse o).

Definition batchSize : nat := 5.

(** [batch.forEach(material => this.processSingleMaterial(material,
    materialConfig))] *)
Definition process_batch (config : MaterialConfig.t) (batch : list nat)
    (ms : list Material.t) : list Material.t :=
  foldl (λ ms r, alter (λ m, processSingleMaterial m config) r ms) ms batch.

(** The [for] loop entered with loop variable [i]: it runs until an
    iteration reaches [await this.yieldControl()] (result [Some i], the
    iteration that is suspended) or the loop condition fails (result
    [None]).  [fuel] bounds the iterations that do not suspend; the
    function is [None] only when it runs out. *)
Fixpoint materials_loop (fuel : nat) (config : MaterialConfig.t)
    (mats : list nat) (i : nat) (ms : list Material.t)
    : option (list Material.t * option nat) :=
  if decide (i < length mats) then
    let batch := take batchSize (drop i mats) in
    let ms := process_batch config batch ms in
    if decide (i mod batchSize = 0) then Some (ms, Some i)
    else
      match fuel with
      | 0 => None
      | S fuel => materials_loop fuel config mats (i + batchSize) ms
      end
  else Some (ms, None).

(** ** The loader object and the run-time around it *)

Module LoadingStats.
(** [this.loadingStats].  [loadingTime] sums differences of
    [performance.now()], a wall-clock reading, and is left out. *)
Record t := mk { totalLoads : nat; cacheHits : nat }.
End LoadingStats.

(** The fields of an [OptimizedModelLoader].  [scene] is the list of the
    children of the [THREE.Scene] it was built with; [instanceCache] is
    never written and is left out. *)
Record loader := Loader {
  scene : list nat;
  loadedModels : gmap string nat;
  modelCache : gmap string GLTF.t;
  loadingPromises : gmap string nat;
  loadingStats : LoadingStats.t
}.

(** A promise of a [gltf] is pending ([None]) or settled. *)
Inductive settlement :=
| Fulfilled (gltf : GLTF.t)
| Rejected (error : string).

(** A call of [this.loader.load(path, onLoad, onProgress, onError)] made
    by [loadModelFromDisk].  Its callbacks close over [cacheKey] and over
    [resolve] and [reject] of the promise under construction. *)
Record request := Request {
  url : string;
  cacheKey : string;
  loadingPromise : nat;
  answered : bool
}.

(** The [onProgress] argument of [loadModelsProgressively], applied to
    [current], [total] and [modelName] ([progress] is computed from the
    first two): [true] when the call returns, [false] when it throws. *)
Definition callback : Type := nat → nat → string → bool.

(** What an [async] function was called with, and for a [loadModel] who
    awaits it: [Some (t, i)] is iteration [i] of the
    [loadModelsProgressively] activation [t]. *)
Inductive invocation :=
| LoadModel (modelConfig : ModelConfig.t) (caller : option (nat * nat))
| LoadModelsProgressively (modelConfigs : list ModelConfig.t)
    (onProgress : option callback).

(** How the promise of an activation settled. *)
Inductive outcome :=
| Returned (model : nat)
| ReturnedAll (results : list (option nat))
| Threw (error : string).

(** Where an activation is suspended, with the local variables that are
    live there. *)
Inductive frame :=
| AwaitLoading (p : nat)
    (** [loadModel], line 45: [await this.loadingPromises.get(cacheKey)] *)
| AwaitDisk (p : nat)
    (** [loadModelFromDisk], line 96: [await loadingPromise] *)
| AwaitDiskResult (r : settlement)
    (** [loadModel], line 51: [loadModelFromDisk] has returned or thrown *)
| AwaitYield (model : nat) (config : MaterialConfig.t) (mats : list nat)
    (i : nat)
    (** [processMaterialsAsync], line 178: [await this.yieldControl()] *)
| AwaitMaterials (model : nat)
    (** [createInstance], line 137: [processMaterialsAsync] has returned *)
| AwaitInstance (model : nat)
    (** [loadModel], lines 40, 46, 52: [createInstance] has returned *)
| AwaitModel (i : nat) (results : list (option nat)) (child : nat)
    (** [loadModelsProgressively], line 243: [await this.loadModel(config)] *)
| AwaitPause (i : nat) (results : list (option nat))
    (** [loadModelsProgressively], line 256: [await this.yieldControl()] *)
| Settled (o : outcome).

Record activation := Activation { call : invocation; at_ : frame }.

Record world := World {
  this : loader;
  mem : heap;
  promises : list (option settlement);
  requests : list request;
  tasks : list activation
}.

Definition init : world :=
  World (Loader [] ∅ ∅ ∅ (LoadingStats.mk 0 0)) (Heap [] []) [] [] [].

(** *** Field updates *)

Definition set_this (l : loader) (w : world) : world :=
  World l (mem w) (promises w) (requests w) (tasks w).

Definition set_mem (h : heap) (w : world) : world :=
  World (this w) h (promises w) (requests w) (tasks w).

Definition count_load (l : loader) : loader :=
  Loader (scene l) (loadedModels l) (modelCache l) (loadingPromises l)
    (LoadingStats.mk (S (LoadingStats.totalLoads (loadingStats l)))
       (LoadingStats.cacheHits (loadingStats l))).

Definition count_hit (l : loader) : loader :=
  Loader (scene l) (loadedModels l) (modelCache l) (loadingPromises l)
    (LoadingStats.mk (LoadingStats.totalLoads (loadingStats l))
       (S (LoadingStats.cacheHits (loadingStats l)))).

Definition set_modelCache (c : gmap string GLTF.t) (l : loader) : loader :=
  Loader (scene l) (loadedModels l) c (loadingPromises l) (loadingStats l).

Definition set_loadingPromises (t : gmap string nat) (l : loader) : loader :=
  Loader (scene l) (loadedModels l) (modelCache l) t (loadingStats l).

(** [this.scene.add(model); this.loadedModels.set(name, model)] *)
Definition register (name : string) (model : nat) (l : loader) : loader :=
  Loader (scene l ++ [model]) (<[name := model]> (loadedModels l))
    (modelCache l) (loadingPromises l) (loadingStats l).

(** [resolve(v)] and [reject(e)] settle a pending promise and do nothing
    to a settled one. *)
Definition settle (p : nat) (s : settlement)
    (ps : list (option settlement)) : list (option settlement) :=
  match ps !! p with
  | Some None => <[p := Some s]> ps
  | _ => ps
  end.

(** ** [createInstance] (lines 106-152) *)

(** Lines 140-151, after the material pass: shadows, [scene.add],
    [loadedModels.set], [return model]. *)
Definition createInstance_finish (modelConfig : ModelConfig.t) (model : nat)
    (w : world) : world * frame :=
  let h :=
    if ModelConfig.enableShadows modelConfig
    then Heap (alter enableShadowsOptimized model (objects (mem w)))
           (materials (mem w))
    else mem w in
  (set_this (register (ModelConfig.name modelConfig) model (this w))
     (set_mem h w),
   AwaitInstance model).

(** [processMaterialsAsync] from loop variable [i] on. *)
Definition processMaterials_from (model : nat) (config : MaterialConfig.t)
    (mats : list nat) (i : nat) (w : world) : option (world * frame) :=
  '(ms, at_yield) ← materials_loop (length mats) config mats i
                      (materials (mem w));
  let w := set_mem (Heap (objects (mem w)) ms) w in
  Some (w, match at_yield with
           | Some i => AwaitYield model config mats i
           | None => AwaitMaterials model
           end).

Definition createInstance (gltf : GLTF.t) (modelConfig : ModelConfig.t)
    (w : world) : option (world * frame) :=
  '(model, h) ← clone (GLTF.scene gltf) (mem w);
  let h := update_root model
             (when_given (ModelConfig.scale modelConfig) set_scale) h in
  let h := update_root model
             (when_given (ModelConfig.position modelConfig) set_position) h in
  let h := update_root model
             (when_given (ModelConfig.rotation modelConfig) set_rotation) h in
  let w := set_mem h w in
  if ModelConfig.processMaterials modelConfig then
    o ← objects h !! model;
    processMaterials_from model
      (default MaterialConfig.empty (ModelConfig.materialConfig modelConfig))
      (collect_materials o) 0 w
  else Some (createInstance_finish modelConfig model w).

(** ** [loadModelFromDisk] (lines 68-103), up to its [await] *)

Definition loadModelFromDisk (modelConfig : ModelConfig.t) (w : world)
    : world * frame :=
  let cacheKey := ModelConfig.path modelConfig in
  let loadingPromise := length (promises w) in
  let l := set_loadingPromises
             (<[cacheKey := loadingPromise]> (loadingPromises (this w)))
             (this w) in
  (World l (mem w) (promises w ++ [None])
     (requests w ++
        [Request (ModelConfig.path modelConfig) cacheKey loadingPromise false])
     (tasks w),
   AwaitDisk loadingPromise).

(** ** [loadModel] (lines 26-65), up to its first [await] *)

Definition loadModel (modelConfig : ModelConfig.t) (w : world)
    : option (world * frame) :=
  let cacheKey := ModelConfig.path modelConfig in
  let w := set_this (count_load (this w)) w in
  match modelCache (this w) !! cacheKey with
  | Some cachedGltf =>
      let w := set_this (count_hit (this w)) w in
      createInstance cachedGltf modelConfig w
  | None =>
      match loadingPromises (this w) !! cacheKey with
      | Some p => Some (w, AwaitLoading p)
      | None => Some (loadModelFromDisk modelConfig w)
      end
  end.

(** ** [loadModelsProgressively] (lines 233-266) *)

(** [if (onProgress) onProgress({...})]: whether control comes back. *)
Definition returns (onProgress : option callback) (current total : nat)
    (modelName : string) : bool :=
  match onProgress with
  | Some f => f current total modelName
  | None => true
  end.

(** The head of the [for] loop with loop variable [i], run by activation
    [tid]: either [this.loadModel(config)] is called and awaited (the new
    activation will be number [child]), or the loop is over and [results]
    is returned. *)
Definition progressive_loop (tid child : nat)
    (modelConfigs : list ModelConfig.t) (i : nat)
    (results : list (option nat)) (w : world)
    : option (world * frame * list activation) :=
  match modelConfigs !! i with
  | Some config =>
      '(w, f) ← loadModel config w;
      Some (w, AwaitModel i results child,
            [Activation (LoadModel config (Some (tid, i))) f])
  | None => Some (w, Settled (ReturnedAll results), [])
  end.

(** ** The event loop *)

(** What can happen to a loader: a call of [loadModel] or of
    [loadModelsProgressively], a callback of [GLTFLoader], the
    resumption of a suspended activation.  [clearCache] and [dispose]
    are not among the events: the states reached are those of a loader
    whose cache is not cleared while it is in use. *)

Inductive event :=
| Call (modelConfig : ModelConfig.t)
    (** some code calls [loader.loadModel(modelConfig)] *)
| CallProgressive (modelConfigs : list ModelConfig.t)
    (onProgress : option callback)
    (** some code calls [loader.loadModelsProgressively(...)] *)
| Resume (tid : nat)
    (** the continuation of activation [tid] runs up to its next [await] *)
| OnLoad (rid : nat) (parsed : object3d Material.t)
    (** [GLTFLoader] calls [onLoad] of request [rid] with a new scene graph *)
| OnError (rid : nat) (error : string)
    (** [GLTFLoader] calls [onError] of request [rid] *).

Definition quiet (r : option (world * frame))
    : option (world * frame * list activation) :=
  '(w, f) ← r; Some (w, f, []).

(** The code of activation [a] (number [tid]) from the [await] it is
    suspended at to the next one.  [None]: the awaited promise is still
    pending, or the activation has settled.  A timer set by
    [yieldControl] may fire at any time. *)
Definition resume (tid : nat) (a : activation) (w : world)
    : option (world * frame * list activation) :=
  match call a, at_ a with
  | LoadModel modelConfig _, AwaitLoading p =>
      match promises w !! p with
      | Some (Some (Fulfilled gltf)) => quiet (createInstance gltf modelConfig w)
      | Some (Some (Rejected error)) => Some (w, Settled (Threw error), [])
      | _ => None
      end
  | LoadModel modelConfig _, AwaitDisk p =>
      match promises w !! p with
      | Some (Some r) =>
          let cacheKey := ModelConfig.path modelConfig in
          let l := set_loadingPromises
                     (delete cacheKey (loadingPromises (this w))) (this w) in
          Some (set_this l w, AwaitDiskResult r, [])
      | _ => None
      end
  | LoadModel modelConfig _, AwaitDiskResult (Fulfilled gltf) =>
      quiet (createInstance gltf modelConfig w)
  | LoadModel modelConfig _, AwaitDiskResult (Rejected error) =>
      Some (w, Settled (Threw error), [])
  | LoadModel modelConfig _, AwaitYield model config mats i =>
      quiet (processMaterials_from model config mats (i + batchSize) w)
  | LoadModel modelConfig _, AwaitMaterials model =>
      quiet (Some (createInstance_finish modelConfig model w))
  | LoadModel modelConfig _, AwaitInstance model =>
      Some (w, Settled (Returned model), [])
  | LoadModelsProgressively modelConfigs onProgress,
    AwaitModel i results child =>
      let total := length modelConfigs in
      c ← tasks w !! child;
      config ← modelConfigs !! i;
      match at_ c with
      | Settled (Returned model) =>
          let results := results ++ [Some model] in
          if returns onProgress (i + 1) total (ModelConfig.name config)
          then Some (w, AwaitPause i results, [])
          else progressive_loop tid (length (tasks w)) modelConfigs (i + 1)
                 (results ++ [None]) w
      | Settled (Threw error) =>
          progressive_loop tid (length (tasks w)) modelConfigs (i + 1)
            (results ++ [None]) w
      | _ => None
      end
  | LoadModelsProgressively modelConfigs onProgress, AwaitPause i results =>
      progressive_loop tid (length (tasks w)) modelConfigs (i + 1) results w
  | _, _ => None
  end.

(** [onLoad] (lines 74-79): the parser's scene graph is new on the heap;
    it is cached under [cacheKey], then the promise is resolved. *)
Definition onLoad (req : request) (parsed : object3d Material.t) (w : world)
    : world :=
  let stored := alloc parsed (mem w) in
  let gltf := GLTF.mk stored.1 in
  let l := set_modelCache (<[cacheKey req := gltf]> (modelCache (this w)))
             (this w) in
  World l stored.2
    (settle (loadingPromise req) (Fulfilled gltf) (promises w))
    (requests w) (tasks w).

(** [onError] (lines 86-89). *)
Definition onError (req : request) (error : string) (w : world) : world :=
  World (this w) (mem w)
    (settle (loadingPromise req) (Rejected error) (promises w))
    (requests w) (tasks w).

(** The request has called back: it will not do so again. *)
Definition answer (rid : nat) (w : world) : world :=
  World (this w) (mem w) (promises w)
    (alter (λ r, Request (url r) (cacheKey r) (loadingPromise r) true) rid
       (requests w))
    (tasks w).

Definition open_request (rid : nat) (w : world) : option request :=
  req ← requests w !! rid;
  if answered req then None else Some req.

Definition step (e : event) (w : world) : option world :=
  match e with
  | Call modelConfig =>
      '(w, f) ← loadModel modelConfig w;
      Some (World (this w) (mem w) (promises w) (requests w)
              (tasks w ++ [Activation (LoadModel modelConfig None) f]))
  | CallProgressive modelConfigs onProgress =>
      let tid := length (tasks w) in
      '(w, f, spawned) ← progressive_loop tid (S tid) modelConfigs 0 [] w;
      Some (World (this w) (mem w) (promises w) (requests w)
              (tasks w ++
                 Activation (LoadModelsProgressively modelConfigs onProgress) f
                 :: spawned))
  | Resume tid =>
      a ← tasks w !! tid;
      '(w, f, spawned) ← resume tid a w;
      Some (World (this w) (mem w) (promises w) (requests w)
              (<[tid := Activation (call a) f]> (tasks w) ++ spawned))
  | OnLoad rid parsed =>
      req ← open_request rid w;
      Some (answer rid (onLoad req parsed w))
  | OnError rid error =>
      req ← open_request rid w;
      Some (answer rid (onError req error w))
  end.

(** A run: the events in order; [None] if one of them cannot happen. *)
Fixpoint run (es : list event) (w : world) : option world :=
  match es with
  | [] => Some w
  | e :: es => w ← step e w; run es w
  end.

(** The states that the events lead to from a new loader: those of a
    loader on which neither [clearCache] nor [dispose] has been
    called. *)
Definition reachable (w : world) : Prop := ∃ es, run es init = Some w.

(** ** [getCacheStats] (lines 269-283) *)

Module CacheStats.
(** The returned object.  [hitRate] and [averageLoadTime] are strings
    formatted by [toFixed] from the other fields and from the clock,
    and are left out. *)
Record t := mk { totalLoads : nat; cacheHits : nat; cachedModels : nat }.
End CacheStats.

Definition getCacheStats (l : loader) : CacheStats.t * loader :=
  (CacheStats.mk (LoadingStats.totalLoads (loadingStats l))
     (LoadingStats.cacheHits (loadingStats l))
     (size (modelCache l)),
   l).

(** ** [clearCache] (lines 286-291) *)

Definition clearCache (l : loader) : loader :=
  Loader (scene l) (loadedModels l) ∅ ∅ (loadingStats l).

(** ** [dispose] (lines 294-298) *)

Definition dispose (l : loader) : loader :=
  let l := clearCache l in
  Loader (scene l) ∅ (modelCache l) (loadingPromises l) (loadingStats l).

(** * [ModelLoader] (src/js/objectDragControls_fixed.js, lines 426-727)

    The loader that [OptimizedModelLoader] replaces: the same two
    tables, no statistics, and a synchronous [createModelInstance]. *)

Module ModelLoader.

(** A [gltf] object is named by the number of the request whose
    [onLoad] received it. *)
Inductive settlement :=
| Fulfilled (gltf : nat)
| Rejected (error : string).

(** A call of [this.loader.load(path, ...)] made by [loadModelFromFile];
    its callbacks resolve or reject [loadingPromise]. *)
Record request := Request {
  url : string;
  loadingPromise : nat;
  answered : bool
}.

Inductive outcome :=
| Returned (model : nat)
| Threw (error : string).

(** Where an activation of [loadModel] is suspended. *)
Inductive frame :=
| AwaitLoading (p : nat)
    (** line 456: [await this.loadingPromises.get(cacheKey)] *)
| AwaitFile (p : nat)
    (** line 466: [await loadingPromise] *)
| Settled (o : outcome).

Record activation := Activation { call : ModelConfig.t; at_ : frame }.

Inductive event :=
| Call (modelConfig : ModelConfig.t)
    (** some code calls [loader.loadModel(modelConfig)] *)
| Resume (tid : nat)
    (** the continuation of activation [tid] runs to its end *)
| OnLoad (rid : nat)
    (** [GLTFLoader] calls [onLoad] of request [rid] *)
| OnError (rid : nat) (error : string)
    (** [GLTFLoader] calls [onError] of request [rid] *).

(** The activations suspended at line 466 are the same in both lists. *)
Definition same_files (ts ts' : list activation) : Prop :=
  ∀ tid a p, at_ a = AwaitFile p → ts' !! tid = Some a ↔ ts !! tid = Some a.

Definition settle (p : nat) (s : settlement)
    (ps : list (option settlement)) : list (option settlement) :=
  match ps !! p with
  | Some None => <[p := Some s]> ps
  | _ => ps
  end.

Section loader.

(** [createModelInstance] (lines 494-530) works on the clone, the scene
    and [loadedModels], and neither reads nor writes [modelCache] and
    [loadingPromises].  It is a function on that part of the state, of
    some type [S]; it returns the instance or throws. *)
Context {S : Type}.
Variable createModelInstance : nat → ModelConfig.t → S → S * outcome.

Record world := World {
  modelCache : gmap string nat;
  loadingPromises : gmap string nat;
  rest : S;
  promises : list (option settlement);
  requests : list request;
  tasks : list activation
}.

Definition init (s : S) : world := World ∅ ∅ s [] [] [].

(** [return this.createModelInstance(gltf, modelConfig)] in an [async]
    function: the activation settles with what the call returns or
    throws. *)
Definition instantiate (gltf : nat) (modelConfig : ModelConfig.t) (w : world)
    : world * frame :=
  let r := createModelInstance gltf modelConfig (rest w) in
  (World (modelCache w) (loadingPromises w) r.1 (promises w) (requests w)
     (tasks w),
   Settled r.2).

(** [loadModelFromFile] (lines 476-491) and line 462: a new promise, a
    new request whose callbacks settle it, and the entry in
    [loadingPromises]. *)
Definition loadModelFromFile (modelConfig : ModelConfig.t) (w : world)
    : world * frame :=
  let cacheKey := ModelConfig.path modelConfig in
  let loadingPromise := length (promises w) in
  (World (modelCache w) (<[cacheKey := loadingPromise]> (loadingPromises w))
     (rest w) (promises w ++ [None])
     (requests w ++ [Request (ModelConfig.path modelConfig) loadingPromise false])
     (tasks w),
   AwaitFile loadingPromise).

(** [loadModel] (lines 440-473), up to its first [await] or its
    [return]. *)
Definition loadModel (modelConfig : ModelConfig.t) (w : world)
    : world * frame :=
  let cacheKey := ModelConfig.path modelConfig in
  match modelCache w !! cacheKey with
  | Some cachedGltf => instantiate cachedGltf modelConfig w
  | None =>
      match loadingPromises w !! cacheKey with
      | Some p => (w, AwaitLoading p)
      | None => loadModelFromFile modelConfig w
      end
  end.

(** Lines 467-471, and the [catch] block if [createModelInstance]
    throws: [modelCache.set], [loadingPromises.delete], the instance. *)
Definition store_and_instantiate (gltf : nat) (modelConfig : ModelConfig.t)
    (w : world) : world * frame :=
  let cacheKey := ModelConfig.path modelConfig in
  let cache := <[cacheKey := gltf]> (modelCache w) in
  let pending := delete cacheKey (loadingPromises w) in
  let r := createModelInstance gltf modelConfig (rest w) in
  let pending :=
    match r.2 with
    | Returned _ => pending
    | Threw _ => delete cacheKey pending
    end in
  (World cache pending r.1 (promises w) (requests w) (tasks w), Settled r.2).

(** The code of activation [a] from its [await] on.  [None]: the
    awaited promise is pending, or the activation has settled. *)
Definition resume (a : activation) (w : world) : option (world * frame) :=
  let modelConfig := call a in
  let cacheKey := ModelConfig.path modelConfig in
  match at_ a with
  | AwaitLoading p =>
      match promises w !! p with
      | Some (Some (Fulfilled cachedGltf)) =>
          Some (instantiate cachedGltf modelConfig w)
      | Some (Some (Rejected error)) => Some (w, Settled (Threw error))
      | _ => None
      end
  | AwaitFile p =>
      match promises w !! p with
      | Some (Some (Fulfilled gltf)) =>
          Some (store_and_instantiate gltf modelConfig w)
      | Some (Some (Rejected error)) =>
          Some (World (modelCache w) (delete cacheKey (loadingPromises w))
                  (rest w) (promises w) (requests w) (tasks w),
                Settled (Threw error))
      | _ => None
      end
  | Settled _ => None
  end.

Definition open_request (rid : nat) (w : world) : option request :=
  req ← requests w !! rid;
  if answered req then None else Some req.

(** [(gltf) => resolve(gltf)] or [(error) => reject(error)] of request
    [rid], which will not call back again. *)
Definition answer (rid : nat) (req : request) (s : settlement) (w : world)
    : world :=
  World (modelCache w) (loadingPromises w) (rest w)
    (settle (loadingPromise req) s (promises w))
    (alter (λ r, Request (url r) (loadingPromise r) true) rid (requests w))
    (tasks w).

Definition step (e : event) (w : world) : option world :=
  match e with
  | Call modelConfig =>
      let r := loadModel modelConfig w in
      Some (World (modelCache r.1) (loadingPromises r.1) (rest r.1)
              (promises r.1) (requests r.1)
              (tasks r.1 ++ [Activation modelConfig r.2]))
  | Resume tid =>
      a ← tasks w !! tid;
      r ← resume a w;
      Some (World (modelCache r.1) (loadingPromises r.1) (rest r.1)
              (promises r.1) (requests r.1)
              (<[tid := Activation (call a) r.2]> (tasks r.1)))
  | OnLoad rid =>
      req ← open_request rid w;
      Some (answer rid req (Fulfilled rid) w)
  | OnError rid error =>
      req ← open_request rid w;
      Some (answer rid req (Rejected error) w)
  end.

Fixpoint run (es : list event) (w : world) : option world :=
  match es with
  | [] => Some w
  | e :: es => w ← step e w; run es w
  end.

Definition reachable (s : S) (w : world) : Prop :=
  ∃ es, run es (init s) = Some w.

(** What a caller that awaited a promise settled with [r] gets: the
    instance that [createModelInstance] makes of the asset (or what it
    throws), or the error of the rejection. *)
Definition settled_with (r : settlement) (modelConfig : ModelConfig.t)
    (s : S) : S * outcome :=
  match r with
  | Fulfilled gltf => createModelInstance gltf modelConfig s
  | Rejected error => (s, Threw error)
  end.

(** The same for several callers, one after the other. *)
Fixpoint settle_each (r : settlement) (modelConfigs : list ModelConfig.t)
    (s : S) : S * list activation :=
  match modelConfigs with
  | [] => (s, [])
  | c :: cs =>
      let first := settled_with r c s in
      let others := settle_each r cs first.1 in
      (others.1, Activation c (Settled first.2) :: others.2)
  end.

(** The two tables never hold the same path. *)
Definition exclusive (w : world) : Prop :=
  ∀ k, modelCache w !! k = None ∨ loadingPromises w !! k = None.

(** What the tables, the promises, the requests and the activations
    have to do with each other. *)
Record tables_ok (w : world) : Prop := {
  t_lengths : length (promises w) = length (requests w);
  t_request : ∀ rid r, requests w !! rid = Some r → loadingPromise r = rid;
  t_answered : ∀ rid r, requests w !! rid = Some r →
    (answered r = false ↔ promises w !! rid = Some None);
  t_exclusive : ∀ k p, loadingPromises w !! k = Some p →
    modelCache w !! k = None;
  t_owner : ∀ tid a p, tasks w !! tid = Some a → at_ a = AwaitFile p →
    loadingPromises w !! ModelConfig.path (call a) = Some p ∧
    ∃ r, requests w !! p = Some r ∧ url r = ModelConfig.path (call a);
  t_owned : ∀ k p, loadingPromises w !! k = Some p →
    ∃ tid a, tasks w !! tid = Some a ∧ at_ a = AwaitFile p ∧
             ModelConfig.path (call a) = k;
  t_unique : ∀ t1 t2 a1 a2 p,
    tasks w !! t1 = Some a1 → at_ a1 = AwaitFile p →
    tasks w !! t2 = Some a2 → at_ a2 = AwaitFile p → t1 = t2
}.

End loader.

Arguments world : clear implicits.

End ModelLoader.

(** An instance constructor for examples: the state is empty, and the
    instance of an asset is named like the asset. *)
Definition plain_instance (gltf : nat) (_ : ModelConfig.t) (s : unit)
    : unit * ModelLoader.outcome :=
  (s, ModelLoader.Returned gltf).

(** [ModelLoader]: one call for "a.glb" has been made. *)
Definition ModelLoader_in_flight : ModelLoader.world unit :=
  default (ModelLoader.init ())
    (ModelLoader.run plain_instance
       [ModelLoader.Call
          (ModelConfig.mk "x" "a.glb" None None None false None false)]
       (ModelLoader.init ())).

(** * The instances of [ModelLoader] (objectDragControls_fixed.js, lines
    494-652)

    The functions that [createModelInstance] calls on the clone, and
    the registry of models.  The clone is a value here: a scene graph
    with its materials in place. *)

Module Color.
(** [THREE.Color]. *)
Record t := mk { r : float; g : float; b : float }.

(** [c.setRGB(r, g, b)] overwrites the three components. *)
Definition setRGB (_ : t) (r g b : float) : t := mk r g b.

(** [c.multiplyScalar(s)] multiplies each component by [s]. *)
Definition multiplyScalar (c : t) (s : float) : t :=
  mk (r c * s)%float (g c * s)%float (b c * s)%float.
End Color.

(** What a call gives: a value, or the [TypeError] of a property read
    off [undefined]. *)
Inductive thrown (A : Type) : Type :=
| Done (a : A)
| TypeError.
Arguments Done {A}.
Arguments TypeError {A}.

Definition and_then {A B} (x : thrown A) (f : A → thrown B) : thrown B :=
  match x with
  | Done a => f a
  | TypeError => TypeError
  end.

Module ModelInstance.

Inductive side := FrontSide | BackSide | DoubleSide.

Module MeshMaterial.
(** The properties of a material that [enhanceMaterial] and
    [applyColorChanges] read or write. *)
Record t := mk {
  needsUpdate : bool;
  side : ModelInstance.side;
  color : option Color.t;
  emissive : option Color.t;
  shininess : option float;
  roughness : option float;
  metalness : option float;
  aoMapIntensity : option float
}.
End MeshMaterial.

Module Condition.
(** [rule.condition]; [check] is the function of a ['custom']
    condition. *)
Record t := mk {
  type : string;
  check : option (Color.t → bool)
}.
End Condition.

Module ColorRule.
(** An element of [materialConfig.colorRules]; [description] is only
    logged. *)
Record t := mk {
  condition : option Condition.t;
  newColor : option Color.t;
  emissive : option Color.t
}.
End ColorRule.

Module EnhanceConfig.
(** [modelConfig.materialConfig] as [ModelLoader] reads it. *)
Record t := mk {
  changeColors : bool;
  colorRules : option (list ColorRule.t);
  shininess : option float;
  roughness : option float;
  metalness : option float;
  aoMapIntensity : option float
}.

(** The default argument [config = {}]. *)
Definition empty : t := mk false None None None None None.
End EnhanceConfig.

(** [object.material] of a mesh: one material, or an array whose
    elements may be [null]. *)
Inductive mesh_material :=
| One (m : MeshMaterial.t)
| Many (ms : list (option MeshMaterial.t)).

(** ** [matchesColorCondition] (lines 610-621) *)

Definition matchesColorCondition (color : Color.t)
    (condition : option Condition.t) : thrown bool :=
  match condition with
  | None => TypeError
  | Some condition =>
      if decide (Condition.type condition = "pink") then
        Done ((0.7 <? Color.r color)%float && (Color.g color <? 0.7)%float
              && (Color.b color <? 0.7)%float)
      else if decide (Condition.type condition = "dark") then
        Done ((Color.r color <? 0.2)%float && (Color.g color <? 0.2)%float
              && (Color.b color <? 0.2)%float)
      else if decide (Condition.type condition = "custom") then
        match Condition.check condition with
        | Some check => Done (check color)
        | None => TypeError
        end
      else Done false
  end.

Section with_three.

(** [emissive.set(r, g, b)]: what [THREE.Color.set] makes of three
    numbers differs between versions of three.js, which is not part of
    the sources. *)
Variable Color_set : Color.t → float → float → float → Color.t.

(** ** [applyColorChanges] (lines 582-607) *)

(** The body of [colorRules.forEach], on [material.color] and
    [material.emissive]: [color] is [material.color] itself, so a rule
    sees the colour that the rules before it have set. *)
Definition apply_rule (ce : Color.t * option Color.t) (rule : ColorRule.t)
    : thrown (Color.t * option Color.t) :=
  and_then (matchesColorCondition ce.1 (ColorRule.condition rule)) (λ matches,
    if matches then
      let color :=
        match ColorRule.newColor rule with
        | Some n => Color.setRGB ce.1 (Color.r n) (Color.g n) (Color.b n)
        | None => ce.1
        end in
      match ColorRule.emissive rule with
      | Some e =>
          match ce.2 with
          | Some emissive =>
              Done (color,
                    Some (Color_set emissive (Color.r e) (Color.g e) (Color.b e)))
          | None => TypeError
          end
      | None => Done (color, ce.2)
      end
    else Done ce).

Fixpoint apply_rules (ce : Color.t * option Color.t)
    (rules : list ColorRule.t) : thrown (Color.t * option Color.t) :=
  match rules with
  | [] => Done ce
  | rule :: rules =>
      and_then (apply_rule ce rule) (λ ce, apply_rules ce rules)
  end.

Definition is_black (c : Color.t) : bool :=
  (Color.r c =? 0)%float && (Color.g c =? 0)%float && (Color.b c =? 0)%float.

Definition applyColorChanges (material : MeshMaterial.t)
    (colorRules : option (list ColorRule.t)) : thrown MeshMaterial.t :=
  match MeshMaterial.color material with
  | None => Done material
  | Some color =>
      and_then
        (apply_rules (color, MeshMaterial.emissive material)
           (default [] colorRules))
        (λ ce,
           match ce.2 with
           | None => TypeError
           | Some emissive =>
               Done (MeshMaterial.mk (MeshMaterial.needsUpdate material)
                       (MeshMaterial.side material)
                       (Some ce.1)
                       (Some (if is_black emissive
                              then Color_set emissive 0.1 0.1 0.1
                              else emissive))
                       (MeshMaterial.shininess material)
                       (MeshMaterial.roughness material)
                       (MeshMaterial.metalness material)
                       (MeshMaterial.aoMapIntensity material))
           end)
  end.

(** ** [enhanceMaterial] (lines 551-579) *)

(** [if (material.p !== undefined) material.p = config.p || fallback] *)
Definition or_default (c : option float) (fallback : float)
    (p : option float) : option float :=
  if p then js_or c (Some fallback) else p.

Definition enhanceMaterial (material : option MeshMaterial.t)
    (config : EnhanceConfig.t) : thrown (option MeshMaterial.t) :=
  match material with
  | None => Done None
  | Some material =>
      let material :=
        MeshMaterial.mk true DoubleSide
          (MeshMaterial.color material) (MeshMaterial.emissive material)
          (MeshMaterial.shininess material) (MeshMaterial.roughness material)
          (MeshMaterial.metalness material)
          (MeshMaterial.aoMapIntensity material) in
      and_then
        (if EnhanceConfig.changeColors config
         then applyColorChanges material (EnhanceConfig.colorRules config)
         else Done material)
        (λ material,
           Done (Some
             (MeshMaterial.mk (MeshMaterial.needsUpdate material)
                (MeshMaterial.side material)
                (MeshMaterial.color material) (MeshMaterial.emissive material)
                (or_default (EnhanceConfig.shininess config) 80
                   (MeshMaterial.shininess material))
                (or_default (EnhanceConfig.roughness config) 0.5
                   (MeshMaterial.roughness material))
                (or_default (EnhanceConfig.metalness config) 0.6
                   (MeshMaterial.metalness material))
                (or_default (EnhanceConfig.aoMapIntensity config) 0.8
                   (MeshMaterial.aoMapIntensity material)))))
  end.

(** ** [processMaterials] (lines 533-548) *)

(** [object.material.forEach(mat => this.enhanceMaterial(mat,
    materialConfig))] *)
Fixpoint enhance_each (ms : list (option MeshMaterial.t))
    (config : EnhanceConfig.t) : thrown (list (option MeshMaterial.t)) :=
  match ms with
  | [] => Done []
  | m :: ms =>
      and_then (enhanceMaterial m config) (λ m,
        and_then (enhance_each ms config) (λ ms, Done (m :: ms)))
  end.

(** The materials of a mesh: an array is enhanced element by element,
    anything else is handed to [enhanceMaterial] as it is. *)
Definition enhance_mesh (material : option mesh_material)
    (config : EnhanceConfig.t) : thrown (option mesh_material) :=
  match material with
  | Some (Many ms) =>
      and_then (enhance_each ms config) (λ ms, Done (Some (Many ms)))
  | Some (One m) =>
      and_then (enhanceMaterial (Some m) config) (λ m,
        Done (option_map One m))
  | None => Done None
  end.

(** [model.traverse(...)]: the object first, then its children in
    order. *)
Fixpoint process (materialConfig : EnhanceConfig.t)
    (model : object3d mesh_material) : thrown (object3d mesh_material) :=
  match model with
  | Object3D mesh mat cast recv pos rot scl kids =>
      and_then
        (if mesh then
           and_then (enhance_mesh mat materialConfig) (λ mat,
             Done (mat, true, true))
         else Done (mat, cast, recv))
        (λ '(mat, cast, recv),
           and_then
             ((fix each (l : list (object3d mesh_material))
                 : thrown (list (object3d mesh_material)) :=
                 match l with
                 | [] => Done []
                 | c :: l =>
                     and_then (process materialConfig c) (λ c,
                       and_then (each l) (λ l, Done (c :: l)))
                 end) kids)
             (λ kids, Done (Object3D mesh mat cast recv pos rot scl kids)))
  end.

(** [materialConfig = {}] when the caller passes [undefined]. *)
Definition processMaterials (model : object3d mesh_material)
    (materialConfig : option EnhanceConfig.t)
    : thrown (object3d mesh_material) :=
  process (default EnhanceConfig.empty materialConfig) model.

End with_three.

(** ** [enableShadows] (lines 624-631) *)

Fixpoint enableShadows {M} (model : object3d M) : object3d M :=
  match model with
  | Object3D mesh mat cast recv pos rot scl kids =>
      Object3D mesh mat (if mesh then true else cast)
        (if mesh then true else recv) pos rot scl (map enableShadows kids)
  end.

(** ** The registry: the end of [createModelInstance] (lines 524-527),
    [getModel], [removeModel], [getLoadedModelNames] (lines 634-652)
    and [dispose] (lines 719-723) *)

(** A JavaScript [Map] keeps its keys in the order of their first
    insertion. *)
Fixpoint Map_get (k : string) (m : list (string * nat)) : option nat :=
  match m with
  | [] => None
  | (k', v) :: m => if decide (k' = k) then Some v else Map_get k m
  end.

Fixpoint Map_set (k : string) (v : nat) (m : list (string * nat))
    : list (string * nat) :=
  match m with
  | [] => [(k, v)]
  | (k', v') :: m =>
      if decide (k' = k) then (k, v) :: m else (k', v') :: Map_set k v m
  end.

Fixpoint Map_delete (k : string) (m : list (string * nat))
    : list (string * nat) :=
  match m with
  | [] => []
  | (k', v') :: m =>
      if decide (k' = k) then m else (k', v') :: Map_delete k m
  end.

(** The children of the scene and the [loadedModels] map; a model is
    named by the number of clones made before it. *)
Record registry := Registry {
  clones : nat;
  scene : list nat;
  loadedModels : list (string * nat)
}.

Definition empty : registry := Registry 0 [] [].

(** [const model = gltf.scene.clone(); ...; this.scene.add(model);
    this.loadedModels.set(modelConfig.name, model); return model] *)
Definition register (name : string) (reg : registry) : registry * nat :=
  let model := clones reg in
  (Registry (S model) (scene reg ++ [model])
     (Map_set name model (loadedModels reg)), model).

Definition getModel (name : string) (reg : registry) : option nat :=
  Map_get name (loadedModels reg).

(** [scene.remove(model)] takes the model out of the children of the
    scene. *)
Definition removeModel (name : string) (reg : registry) : registry * bool :=
  match Map_get name (loadedModels reg) with
  | Some model =>
      (Registry (clones reg) (filter (λ c, c ≠ model) (scene reg))
         (Map_delete name (loadedModels reg)), true)
  | None => (reg, false)
  end.

Definition getLoadedModelNames (reg : registry) : list string :=
  (loadedModels reg).*1.

(** [dispose] as far as the registry goes: [this.loadedModels.clear()]. *)
Definition dispose (reg : registry) : registry :=
  Registry (clones reg) (scene reg) [].

(** The calls that change the registry. *)
Inductive call :=
| CreateModelInstance (name : string)
| RemoveModel (name : string)
| Dispose.

Definition step (c : call) (reg : registry) : registry :=
  match c with
  | CreateModelInstance name => (register name reg).1
  | RemoveModel name => (removeModel name reg).1
  | Dispose => dispose reg
  end.

Definition run (cs : list call) (reg : registry) : registry :=
  foldl (λ reg c, step c reg) reg cs.

End ModelInstance.


(** * [ObjectDragControls] (objectDragControls_fixed.js, lines 6-420)

    Selecting an object with a number key and dragging it with the
    mouse.  The draggable objects and the materials of their meshes are
    named by numbers; two meshes may have one material. *)

Module ObjectDragControls.

(** [material.color] and [material.emissive]. *)
Record material := Material {
  color : option Color.t;
  emissive : option Color.t
}.

(** A descendant of a draggable object that [traverse] finds to be a
    mesh with a material: the material, and the two entries that the
    highlight keeps in [child.userData]. *)
Record mesh := Mesh {
  material_ : nat;
  originalColor : option Color.t;
  originalEmissive : option Color.t
}.

(** A draggable object.  [userData_name] is what the controls read of
    [object.userData] apart from the highlight: [None] if the object has
    no [userData], otherwise [userData.name] ([None] if it has none).
    [meshes] are the objects that [object.traverse] visits and finds to
    be a mesh with a material, in the order of the traversal: the object
    itself comes first when it is a mesh, and then the two entries that
    the highlight writes into [object.userData] are those of that first
    element. *)
Record object := Object {
  userData_name : option (option string);
  position : Vector3.t;
  meshes : list mesh
}.

(** [clientX], [clientY] of a mouse event and the bounding rectangle of
    the canvas. *)
Record pointer := Pointer {
  clientX : float;
  clientY : float;
  left : float;
  top : float;
  width : float;
  height : float
}.

(** The fields of the controls, and what they reach of the page:
    [cameraControls.isEnabled] if there are camera controls, whether
    the two listeners are attached, [document.body.style.cursor], the
    objects and the materials.  [selectedObjectIndex] is [None] for
    [-1], [mouse] is the [Vector2], [planeConstant] is
    [intersectionPlane.constant]. *)
Record t := mk {
  cameraControls : option bool;
  allObjects : list nat;
  selectedObject : option nat;
  selectedObjectIndex : option string;
  isDragging : bool;
  mouse : float * float;
  planeConstant : float;
  objectMapping : gmap string (string * option nat);
  dragOffset : Vector3.t;
  isEnabled : bool;
  listening : bool;
  cursor : string;
  objects : nat → object;
  materials : nat → material
}.

Definition set_cameraControls (v : option bool) (st : t) : t :=
  mk v (allObjects st) (selectedObject st) (selectedObjectIndex st)
    (isDragging st) (mouse st) (planeConstant st) (objectMapping st)
    (dragOffset st) (isEnabled st) (listening st) (cursor st) (objects st)
    (materials st).

Definition set_allObjects (v : list nat) (st : t) : t :=
  mk (cameraControls st) v (selectedObject st) (selectedObjectIndex st)
    (isDragging st) (mouse st) (planeConstant st) (objectMapping st)
    (dragOffset st) (isEnabled st) (listening st) (cursor st) (objects st)
    (materials st).

Definition set_selection (object : option nat) (index : option string) (dragging : bool)
    (st : t) : t :=
  mk (cameraControls st) (allObjects st) object index dragging (mouse st)
    (planeConstant st) (objectMapping st) (dragOffset st) (isEnabled st)
    (listening st) (cursor st) (objects st) (materials st).

Definition set_mouse (v : float * float) (st : t) : t :=
  mk (cameraControls st) (allObjects st) (selectedObject st)
    (selectedObjectIndex st) (isDragging st) v (planeConstant st)
    (objectMapping st) (dragOffset st) (isEnabled st) (listening st)
    (cursor st) (objects st) (materials st).

Definition set_planeConstant (v : float) (st : t) : t :=
  mk (cameraControls st) (allObjects st) (selectedObject st)
    (selectedObjectIndex st) (isDragging st) (mouse st) v (objectMapping st)
    (dragOffset st) (isEnabled st) (listening st) (cursor st) (objects st)
    (materials st).

Definition set_objectMapping (v : gmap string (string * option nat))
    (st : t) : t :=
  mk (cameraControls st) (allObjects st) (selectedObject st)
    (selectedObjectIndex st) (isDragging st) (mouse st) (planeConstant st) v
    (dragOffset st) (isEnabled st) (listening st) (cursor st) (objects st)
    (materials st).

Definition set_dragOffset (v : Vector3.t) (st : t) : t :=
  mk (cameraControls st) (allObjects st) (selectedObject st)
    (selectedObjectIndex st) (isDragging st) (mouse st) (planeConstant st)
    (objectMapping st) v (isEnabled st) (listening st) (cursor st)
    (objects st) (materials st).

Definition set_isEnabled (v : bool) (st : t) : t :=
  mk (cameraControls st) (allObjects st) (selectedObject st)
    (selectedObjectIndex st) (isDragging st) (mouse st) (planeConstant st)
    (objectMapping st) (dragOffset st) v (listening st) (cursor st)
    (objects st) (materials st).

Definition set_listening (v : bool) (st : t) : t :=
  mk (cameraControls st) (allObjects st) (selectedObject st)
    (selectedObjectIndex st) (isDragging st) (mouse st) (planeConstant st)
    (objectMapping st) (dragOffset st) (isEnabled st) v (cursor st)
    (objects st) (materials st).

Definition set_cursor (v : string) (st : t) : t :=
  mk (cameraControls st) (allObjects st) (selectedObject st)
    (selectedObjectIndex st) (isDragging st) (mouse st) (planeConstant st)
    (objectMapping st) (dragOffset st) (isEnabled st) (listening st) v
    (objects st) (materials st).

Definition set_objects (v : nat → object) (st : t) : t :=
  mk (cameraControls st) (allObjects st) (selectedObject st)
    (selectedObjectIndex st) (isDragging st) (mouse st) (planeConstant st)
    (objectMapping st) (dragOffset st) (isEnabled st) (listening st)
    (cursor st) v (materials st).

Definition set_materials (v : nat → material) (st : t) : t :=
  mk (cameraControls st) (allObjects st) (selectedObject st)
    (selectedObjectIndex st) (isDragging st) (mouse st) (planeConstant st)
    (objectMapping st) (dragOffset st) (isEnabled st) (listening st)
    (cursor st) (objects st) v.

(** [f] with the value at [i] replaced. *)
Definition store {A} (i : nat) (a : A) (f : nat → A) : nat → A :=
  λ j, if decide (j = i) then a else f j.

(** What a method leaves: the state, after a return or after a
    [TypeError] that stopped it. *)
Inductive completion :=
| Normal (st : t)
| Throw (st : t).

Definition state_of (c : completion) : t :=
  match c with
  | Normal st => st
  | Throw st => st
  end.

Definition and_then (c : completion) (f : t → completion) : completion :=
  match c with
  | Normal st => f st
  | Throw st => Throw st
  end.

(** [this.objectMapping] as the constructor makes it (lines 26-36). *)
Definition initialMapping : gmap string (string * option nat) :=
  list_to_map
    [("1", ("Corona Extra", None)); ("2", ("Corona Bottle", None));
     ("3", ("Egg Carton", None)); ("4", ("Open Egg Carton", None));
     ("5", ("Cheese", None)); ("6", ("Pickled Cucumbers", None));
     ("7", ("Banana Crate", None)); ("8", ("AA Batteries", None));
     ("9", ("Egg", None))].

(** The constructor (lines 7-55), on a page with the given camera
    controls, cursor, objects and materials. *)
Definition constructor (cameraControls : option bool) (cursor : string)
    (objects : nat → object) (materials : nat → material) : t :=
  mk cameraControls [] None None false (0%float, 0%float) 0%float
    initialMapping (Vector3.mk 0 0 0) true false cursor objects materials.

(** ** [initializeDragObjects] (lines 71-104) *)

(** The body of the loop over the keys, for the object [obj] of name
    [objectName]. *)
Definition map_key (objectName : string) (obj : nat)
    (mapping : string * option nat) : string * option nat :=
  if decide (mapping.1 = objectName) then (mapping.1, Some obj)
  else if bool_decide (mapping.1 = "Egg") && String.prefix "Egg " objectName
  then (if mapping.2 then mapping else (mapping.1, Some obj))
  else mapping.

(** The body of [foodObjects.forEach]; an empty name is falsy. *)
Definition initialize_object (st : t) (obj : option nat) : t :=
  match obj with
  | None => st
  | Some obj =>
      match userData_name (objects st obj) with
      | None => st
      | Some name =>
          let st := set_allObjects (allObjects st ++ [obj]) st in
          match name with
          | None => st
          | Some objectName =>
              if decide (objectName = "") then st
              else set_objectMapping
                     (map_key objectName obj <$> objectMapping st) st
          end
      end
  end.

Definition initializeDragObjects (foodObjects : list (option nat)) (st : t)
    : t :=
  let st := set_allObjects [] st in
  let st := foldl initialize_object st foodObjects in
  set_listening true st.

(** ** [addObjectHighlight] (lines 235-255) *)

Definition highlight_mesh (m : mesh) (mats : nat → material)
    : mesh * (nat → material) :=
  let mat := mats (material_ m) in
  let original :=
    match originalColor m, color mat with
    | None, Some c => Some c
    | kept, _ => kept
    end in
  let brighter := option_map (λ c, Color.multiplyScalar c 1.3) (color mat) in
  match emissive mat with
  | Some e =>
      (Mesh (material_ m) original (Some e),
       store (material_ m)
         (Material brighter (Some (Color.setRGB e 0.1 0.1 0.2))) mats)
  | None =>
      (Mesh (material_ m) original (originalEmissive m),
       store (material_ m) (Material brighter None) mats)
  end.

Fixpoint highlight_each (ms : list mesh) (mats : nat → material)
    : list mesh * (nat → material) :=
  match ms with
  | [] => ([], mats)
  | m :: ms =>
      let r := highlight_mesh m mats in
      let rs := highlight_each ms r.2 in
      (r.1 :: rs.1, rs.2)
  end.

Definition addObjectHighlight (object : nat) (st : t) : t :=
  let o := objects st object in
  let r := highlight_each (meshes o) (materials st) in
  set_materials r.2
    (set_objects (store object (Object (userData_name o) (position o) r.1)
                    (objects st)) st).

(** ** [removeObjectHighlight] (lines 260-278) *)

(** The body of the traversal: the materials afterwards, and whether
    [copy] was called on a colour that the material does not have. *)
Definition restore_mesh (m : mesh) (mats : nat → material)
    : (nat → material) * bool :=
  let mat := mats (material_ m) in
  match originalColor m, color mat with
  | Some _, None => (mats, true)
  | original, _ =>
      let restored :=
        match original with
        | Some c => Some c
        | None => color mat
        end in
      match originalEmissive m, emissive mat with
      | Some _, None =>
          (store (material_ m) (Material restored None) mats, true)
      | Some e, Some _ =>
          (store (material_ m) (Material restored (Some e)) mats, false)
      | None, Some e =>
          (store (material_ m)
             (Material restored (Some (Color.setRGB e 0 0 0))) mats, false)
      | None, None =>
          (store (material_ m) (Material restored None) mats, false)
      end
  end.

Fixpoint restore_each (ms : list mesh) (mats : nat → material)
    : (nat → material) * bool :=
  match ms with
  | [] => (mats, false)
  | m :: ms =>
      let r := restore_mesh m mats in
      if r.2 then r else restore_each ms r.1
  end.

Definition removeObjectHighlight (st : t) : completion :=
  match selectedObject st with
  | Some object =>
      let r := restore_each (meshes (objects st object)) (materials st) in
      if r.2 then Throw (set_materials r.1 st)
      else Normal (set_materials r.1 st)
  | None => Normal st
  end.

(** ** [selectObject] (lines 183-204) and [deselectObject] (lines
    209-230) *)

Definition selectObject (object : nat) (key : string) (st : t) : t :=
  let st := set_selection (Some object) (Some key) true st in
  let st := set_dragOffset (position (objects st object)) st in
  let st := addObjectHighlight object st in
  let st :=
    if cameraControls st then set_cameraControls (Some false) st else st in
  let st := set_cursor "grabbing" st in
  set_planeConstant (- Vector3.y (position (objects st object)))%float st.

Definition deselectObject (st : t) : completion :=
  and_then
    (if selectedObject st
     then and_then (removeObjectHighlight st) (λ st,
            Normal (set_selection None None false st))
     else Normal st)
    (λ st,
       let st :=
         if cameraControls st then set_cameraControls (Some true) st
         else st in
       Normal (set_cursor "default" st)).

(** ** [onKeyDown] (lines 140-150) and [handleObjectSelection] (lines
    155-178) *)

(** [key >= '1' && key <= '9'] compares strings, character by
    character. *)
Definition number_key (key : string) : bool :=
  String.leb "1" key && String.leb key "9".

(** The properties that the object literal [this.objectMapping]
    inherits from [Object.prototype].  For such a key
    [this.objectMapping[key]] is a function, or the prototype itself for
    ["__proto__"]; it has no [object], so the test of line 158 holds and the
    method warns and returns.
    For any other key that is not in the mapping the value is
    [undefined] and reading its [object] is a [TypeError]. *)
Definition Object_prototype : list string :=
  ["constructor"; "__defineGetter__"; "__defineSetter__"; "hasOwnProperty";
   "__lookupGetter__"; "__lookupSetter__"; "isPrototypeOf";
   "propertyIsEnumerable"; "toString"; "valueOf"; "__proto__";
   "toLocaleString"].

Definition handleObjectSelection (key : string) (st : t) : completion :=
  match objectMapping st !! key with
  | None =>
      if bool_decide (key ∈ Object_prototype) then Normal st else Throw st
  | Some (_, None) => Normal st
  | Some (_, Some object) =>
      if decide (selectedObject st = Some object) then deselectObject st
      else
        and_then (if selectedObject st then deselectObject st else Normal st)
          (λ st, Normal (selectObject object key st))
  end.

Definition onKeyDown (key : string) (st : t) : completion :=
  if isEnabled st then
    if number_key key then handleObjectSelection key st else Normal st
  else Normal st.

Section with_raycaster.

(** What [raycaster.setFromCamera(this.mouse, this.camera)] and
    [raycaster.ray.intersectPlane(this.intersectionPlane,
    intersectionPoint)] leave in [intersectionPoint], for the mouse
    coordinates and the constant of the plane. *)
Variable intersectPlane : float * float → float → Vector3.t.

(** ** [updateSelectedObjectPosition] (lines 298-314) and [onMouseMove]
    (lines 283-293) *)

(** [intersectionPoint] is an object, so the test of line 308 holds. *)
Definition updateSelectedObjectPosition (st : t) : t :=
  match selectedObject st with
  | None => st
  | Some object =>
      let intersectionPoint := intersectPlane (mouse st) (planeConstant st) in
      let o := objects st object in
      set_objects
        (store object
           (Object (userData_name o)
              (Vector3.mk (Vector3.x intersectionPoint)
                 (Vector3.y (position o)) (Vector3.z intersectionPoint))
              (meshes o))
           (objects st)) st
  end.

Definition onMouseMove (event : pointer) (st : t) : t :=
  if negb (isEnabled st) || negb (isDragging st)
     || negb (bool_decide (is_Some (selectedObject st)))
  then st
  else
    let st :=
      set_mouse
        (((clientX event - left event) / width event) * 2 - 1,
         - ((clientY event - top event) / height event) * 2 + 1)%float st in
    updateSelectedObjectPosition st.

End with_raycaster.

(** ** [addDragObject] (lines 319-324) and [removeDragObject] (lines
    329-348) *)

(** [object.userData.name || 'object'] inside the message that is
    logged: a [TypeError] if the object has no [userData]. *)
Definition log_name (object : nat) (st : t) : completion :=
  if userData_name (objects st object) then Normal st else Throw st.

Definition addDragObject (object : option nat) (st : t) : completion :=
  match object with
  | Some object =>
      if bool_decide (object ∈ allObjects st) then Normal st
      else log_name object (set_allObjects (allObjects st ++ [object]) st)
  | None => Normal st
  end.

(** [allObjects.indexOf(object)] *)
Fixpoint indexOf (object : nat) (l : list nat) : option nat :=
  match l with
  | [] => None
  | x :: l => if decide (x = object) then Some 0 else S <$> indexOf object l
  end.

Definition unmap (object : nat) (mapping : string * option nat)
    : string * option nat :=
  if decide (mapping.2 = Some object) then (mapping.1, None) else mapping.

Definition removeDragObject (object : nat) (st : t) : completion :=
  match indexOf object (allObjects st) with
  | Some index =>
      and_then
        (if decide (selectedObject st = Some object) then deselectObject st
         else Normal st)
        (λ st,
           let st := set_allObjects (delete index (allObjects st)) st in
           let st :=
             set_objectMapping (unmap object <$> objectMapping st) st in
           log_name object st)
  | None => Normal st
  end.

(** ** [setEnabled] (lines 353-361) *)

Definition setEnabled (enabled : bool) (st : t) : completion :=
  let st := set_isEnabled enabled st in
  if negb enabled && bool_decide (is_Some (selectedObject st))
  then deselectObject st
  else Normal st.

(** ** [getObjectMappingStatus] (lines 377-388) *)

(** For each key: [name], [mapped] and [selected]. *)
Definition getObjectMappingStatus (st : t)
    : gmap string (string * bool * bool) :=
  (λ mapping : string * option nat,
     (mapping.1, bool_decide (mapping.2 ≠ None),
      bool_decide (selectedObject st = mapping.2)))
  <$> objectMapping st.

(** ** [assignObjectToKey] (lines 393-398) *)

(** A key that passes the test of line 394 starts with a digit and so
    names no inherited property: outside the mapping
    [this.objectMapping[key]] is [undefined]. *)

Definition assignObjectToKey (key : string) (object : option nat) (st : t)
    : completion :=
  if number_key key then
    match object with
    | Some object =>
        match objectMapping st !! key with
        | Some mapping =>
            log_name object
              (set_objectMapping
                 (<[key := (mapping.1, Some object)]> (objectMapping st)) st)
        | None => Throw st
        end
    | None => Normal st
    end
  else Normal st.

(** ** [dispose] (lines 403-419) *)

Definition dispose (st : t) : completion :=
  and_then (if selectedObject st then deselectObject st else Normal st)
    (λ st,
       let st := set_listening false st in
       let st := set_allObjects [] st in
       Normal
         (set_objectMapping
            ((λ mapping : string * option nat, (mapping.1, None))
             <$> objectMapping st) st)).

(** ** The methods, called in any order *)

Inductive call :=
| InitializeDragObjects (foodObjects : list (option nat))
| OnKeyDown (key : string)
| HandleObjectSelection (key : string)
| SelectObject (object : nat) (key : string)
| DeselectObject
| AddObjectHighlight (object : nat)
| RemoveObjectHighlight
| OnMouseMove (event : pointer)
| UpdateSelectedObjectPosition
| AddDragObject (object : option nat)
| RemoveDragObject (object : nat)
| SetEnabled (enabled : bool)
| AssignObjectToKey (key : string) (object : option nat)
| Dispose.

Section calls.

Variable intersectPlane : float * float → float → Vector3.t.

Definition step (c : call) (st : t) : completion :=
  match c with
  | InitializeDragObjects foodObjects =>
      Normal (initializeDragObjects foodObjects st)
  | OnKeyDown key => onKeyDown key st
  | HandleObjectSelection key => handleObjectSelection key st
  | SelectObject object key => Normal (selectObject object key st)
  | DeselectObject => deselectObject st
  | AddObjectHighlight object => Normal (addObjectHighlight object st)
  | RemoveObjectHighlight => removeObjectHighlight st
  | OnMouseMove event => Normal (onMouseMove intersectPlane event st)
  | UpdateSelectedObjectPosition =>
      Normal (updateSelectedObjectPosition intersectPlane st)
  | AddDragObject object => addDragObject object st
  | RemoveDragObject object => removeDragObject object st
  | SetEnabled enabled => setEnabled enabled st
  | AssignObjectToKey key object => assignObjectToKey key object st
  | Dispose => dispose st
  end.

(** A method that throws leaves the controls as they are at that
    point; the next call finds them so. *)
Definition run (cs : list call) (st : t) : t :=
  foldl (λ st c, state_of (step c st)) st cs.

End calls.

End ObjectDragControls.

(** * [MemoryManager] (memoryManager.js, lines 4-217)

    The objects that main.js registers for cleanup, the model loader
    among them, and the periodic cleanup that calls their [dispose]. *)

Module MemoryManager.

(** What the manager reads of a registered object: whether [dispose]
    is a function, whether [parent] is an object (not [null] or
    [undefined]), the length of [children] and the [transparent] and
    [opacity] of [material], where there are such properties. *)
Record view := View {
  dispose_is_function : bool;
  has_parent : bool;
  children : option nat;
  material : option (bool * option float)
}.

(** An element of [disposables]: each call of [register] makes a new
    one. *)
Record item := Item { object : nat; name : string }.

Record t := mk {
  disposables : list item;
  intervalId : option nat;
  isMonitoring : bool
}.

Definition constructor : t := mk [] None false.

(** ** [isObjectUnused] (lines 116-129) *)

Definition isObjectUnused (v : view) : bool :=
  if negb (has_parent v) then true
  else
    match children v, material v with
    | Some 0, Some (true, Some opacity) => (opacity =? 0)%float
    | _, _ => false
    end.

Section objects.

(** The objects live in a world [W]: [look o w] is what object [o]
    shows in [w], [dispose_of o w] the world after [o.dispose()] and
    whether that call threw. *)
Context {W : Type}.
Variable look : nat → W → view.
Variable dispose_of : nat → W → W * bool.

(** ** [register] (lines 14-19) *)

Definition register (object : option nat) (name : string) (w : W) (m : t)
    : t :=
  match object with
  | Some o =>
      if dispose_is_function (look o w)
      then mk (disposables m ++ [Item o name]) (intervalId m) (isMonitoring m)
      else m
  | None => m
  end.

(** ** [cleanupUnused] (lines 63-85) *)

(** The body of [disposables.forEach], on the items kept so far and
    the world: an item is deleted after its [dispose] has returned; if
    [dispose] throws, the [catch] leaves the item where it is. *)
Definition cleanup_item (acc : list item * W) (it : item) : list item * W :=
  let v := look (object it) acc.2 in
  if dispose_is_function v && isObjectUnused v then
    let r := dispose_of (object it) acc.2 in
    if r.2 then (acc.1 ++ [it], r.1) else (acc.1, r.1)
  else (acc.1 ++ [it], acc.2).

Definition cleanupUnused (m : t) (w : W) : t * W :=
  let r := foldl cleanup_item ([], w) (disposables m) in
  (mk r.1 (intervalId m) (isMonitoring m), r.2).

(** ** [forceCleanup] (lines 88-113) *)

Definition force_item (w : W) (it : item) : W :=
  if dispose_is_function (look (object it) w)
  then (dispose_of (object it) w).1
  else w.

Definition forceCleanup (m : t) (w : W) : t * W :=
  (mk [] (intervalId m) (isMonitoring m), foldl force_item w (disposables m)).

(** ** [startMonitoring] (lines 22-32) and the callback of the timer *)

(** [logMemoryUsage] (lines 45-60); [high] tells whether
    [performance.memory] exists and [used > limit * 0.8]. *)
Definition logMemoryUsage (high : bool) (m : t) (w : W) : t * W :=
  if high then forceCleanup m w else (m, w).

(** The function given to [setInterval]. *)
Definition tick (high : bool) (m : t) (w : W) : t * W :=
  let r := logMemoryUsage high m w in
  cleanupUnused r.1 r.2.

(** [id] is what [setInterval] returns. *)
Definition startMonitoring (id : nat) (m : t) : t :=
  if isMonitoring m then m else mk (disposables m) (Some id) true.

(** ** [stopMonitoring] (lines 35-42) and [dispose] (lines 212-216) *)

(** [if (this.intervalId)]: the identifier 0 is falsy. *)
Definition stopMonitoring (m : t) : t :=
  match intervalId m with
  | Some (S _) => mk (disposables m) None false
  | _ => m
  end.

Definition dispose (m : t) (w : W) : t * W :=
  forceCleanup (stopMonitoring m) w.

End objects.

End MemoryManager.

(** * Auxiliary notions for the proofs *)

(** Frames of [createInstance] and of what follows it. *)
Definition instancing (f : frame) : Prop :=
  match f with
  | AwaitYield _ _ _ _ | AwaitMaterials _ | AwaitInstance _ => True
  | _ => False
  end.

(** What the tables are: everything but the heap, the scene and the
    registry of instances. *)
Definition same_tables (w w' : world) : Prop :=
  modelCache (this w') = modelCache (this w) ∧
  loadingPromises (this w') = loadingPromises (this w) ∧
  loadingStats (this w') = loadingStats (this w) ∧
  promises w' = promises w ∧
  requests w' = requests w ∧
  tasks w' = tasks w.

(** The three branches of [loadModel]. *)
Inductive loadModel_branch (cfg : ModelConfig.t) (w w' : world) (f : frame) : Prop :=
| branch_hit cachedGltf :
    modelCache (this w) !! ModelConfig.path cfg = Some cachedGltf →
    createInstance cachedGltf cfg
      (set_this (count_hit (count_load (this w))) w) = Some (w', f) →
    loadModel_branch cfg w w' f
| branch_wait p :
    modelCache (this w) !! ModelConfig.path cfg = None →
    loadingPromises (this w) !! ModelConfig.path cfg = Some p →
    w' = set_this (count_load (this w)) w →
    f = AwaitLoading p →
    loadModel_branch cfg w w' f
| branch_disk :
    modelCache (this w) !! ModelConfig.path cfg = None →
    loadingPromises (this w) !! ModelConfig.path cfg = None →
    (w', f) = loadModelFromDisk cfg (set_this (count_load (this w)) w) →
    loadModel_branch cfg w w' f.

(** *** The table view of a world and its transitions *)

(** The activation that is suspended inside [loadModelFromDisk] owns the
    entry of its path in [loadingPromises]. *)
Definition owner_of (a : activation) : option (string * nat) :=
  match call a, at_ a with
  | LoadModel cfg _, AwaitDisk p => Some (ModelConfig.path cfg, p)
  | _, _ => None
  end.

Definition owners (w : world) : list (option (string * nat)) :=
  owner_of <$> tasks w.

Definition mark_answered (r : request) : request :=
  Request (url r) (cacheKey r) (loadingPromise r) true.

Inductive tstep (w w' : world) : Prop :=
| t_quiet n :
    modelCache (this w') = modelCache (this w) →
    loadingPromises (this w') = loadingPromises (this w) →
    promises w' = promises w →
    requests w' = requests w →
    owners w' = owners w ++ replicate n None →
    tstep w w'
| t_disk n k :
    modelCache (this w) !! k = None →
    loadingPromises (this w) !! k = None →
    modelCache (this w') = modelCache (this w) →
    loadingPromises (this w') =
      <[k := length (promises w)]> (loadingPromises (this w)) →
    promises w' = promises w ++ [None] →
    requests w' = requests w ++ [Request k k (length (promises w)) false] →
    owners w' = owners w ++ replicate n None ++ [Some (k, length (promises w))] →
    tstep w w'
| t_release tid k p r :
    owners w !! tid = Some (Some (k, p)) →
    promises w !! p = Some (Some r) →
    modelCache (this w') = modelCache (this w) →
    loadingPromises (this w') = delete k (loadingPromises (this w)) →
    promises w' = promises w →
    requests w' = requests w →
    owners w' = <[tid := None]> (owners w) →
    tstep w w'
| t_onLoad rid req g :
    requests w !! rid = Some req →
    answered req = false →
    modelCache (this w') = <[cacheKey req := g]> (modelCache (this w)) →
    loadingPromises (this w') = loadingPromises (this w) →
    promises w' = settle (loadingPromise req) (Fulfilled g) (promises w) →
    requests w' = alter mark_answered rid (requests w) →
    owners w' = owners w →
    tstep w w'
| t_onError rid req e :
    requests w !! rid = Some req →
    answered req = false →
    modelCache (this w') = modelCache (this w) →
    loadingPromises (this w') = loadingPromises (this w) →
    promises w' = settle (loadingPromise req) (Rejected e) (promises w) →
    requests w' = alter mark_answered rid (requests w) →
    owners w' = owners w →
    tstep w w'.

(** What a call of [loadModel] does to the tables, whoever makes it. *)
Inductive loadModel_tables (cfg : ModelConfig.t) (w w' : world) (f : frame) : Prop :=
| lt_quiet :
    modelCache (this w') = modelCache (this w) →
    loadingPromises (this w') = loadingPromises (this w) →
    promises w' = promises w →
    requests w' = requests w →
    tasks w' = tasks w →
    (∀ c, owner_of (Activation (LoadModel cfg c) f) = None) →
    loadModel_tables cfg w w' f
| lt_disk :
    modelCache (this w) !! ModelConfig.path cfg = None →
    loadingPromises (this w) !! ModelConfig.path cfg = None →
    modelCache (this w') = modelCache (this w) →
    loadingPromises (this w') =
      <[ModelConfig.path cfg := length (promises w)]> (loadingPromises (this w)) →
    promises w' = promises w ++ [None] →
    requests w' = requests w ++
      [Request (ModelConfig.path cfg) (ModelConfig.path cfg) (length (promises w)) false] →
    tasks w' = tasks w →
    f = AwaitDisk (length (promises w)) →
    loadModel_tables cfg w w' f.

(** The cases of [resume], one per [await] and way of leaving it. *)
Inductive resume_case (tid : nat) (a : activation) (w w' : world) (f : frame)
    (spawned : list activation) : Prop :=
| r_loading_ok cfg c p gltf :
    call a = LoadModel cfg c → at_ a = AwaitLoading p →
    promises w !! p = Some (Some (Fulfilled gltf)) →
    createInstance gltf cfg w = Some (w', f) → spawned = [] →
    resume_case tid a w w' f spawned
| r_loading_err cfg c p error :
    call a = LoadModel cfg c → at_ a = AwaitLoading p →
    promises w !! p = Some (Some (Rejected error)) →
    w' = w → f = Settled (Threw error) → spawned = [] →
    resume_case tid a w w' f spawned
| r_disk cfg c p r :
    call a = LoadModel cfg c → at_ a = AwaitDisk p →
    promises w !! p = Some (Some r) →
    w' = set_this (set_loadingPromises
                     (delete (ModelConfig.path cfg) (loadingPromises (this w)))
                     (this w)) w →
    f = AwaitDiskResult r → spawned = [] →
    resume_case tid a w w' f spawned
| r_disk_ok cfg c gltf :
    call a = LoadModel cfg c → at_ a = AwaitDiskResult (Fulfilled gltf) →
    createInstance gltf cfg w = Some (w', f) → spawned = [] →
    resume_case tid a w w' f spawned
| r_disk_err cfg c error :
    call a = LoadModel cfg c → at_ a = AwaitDiskResult (Rejected error) →
    w' = w → f = Settled (Threw error) → spawned = [] →
    resume_case tid a w w' f spawned
| r_yield cfg c model config mats i :
    call a = LoadModel cfg c → at_ a = AwaitYield model config mats i →
    processMaterials_from model config mats (i + batchSize) w = Some (w', f) →
    spawned = [] →
    resume_case tid a w w' f spawned
| r_materials cfg c model :
    call a = LoadModel cfg c → at_ a = AwaitMaterials model →
    createInstance_finish cfg model w = (w', f) → spawned = [] →
    resume_case tid a w w' f spawned
| r_instance cfg c model :
    call a = LoadModel cfg c → at_ a = AwaitInstance model →
    w' = w → f = Settled (Returned model) → spawned = [] →
    resume_case tid a w w' f spawned
| r_model_ok cfgs cb i results child ch config model :
    call a = LoadModelsProgressively cfgs cb →
    at_ a = AwaitModel i results child →
    tasks w !! child = Some ch → cfgs !! i = Some config →
    at_ ch = Settled (Returned model) →
    returns cb (i + 1) (length cfgs) (ModelConfig.name config) = true →
    w' = w → f = AwaitPause i (results ++ [Some model]) → spawned = [] →
    resume_case tid a w w' f spawned
| r_model_caught cfgs cb i results child ch config model :
    call a = LoadModelsProgressively cfgs cb →
    at_ a = AwaitModel i results child →
    tasks w !! child = Some ch → cfgs !! i = Some config →
    at_ ch = Settled (Returned model) →
    returns cb (i + 1) (length cfgs) (ModelConfig.name config) = false →
    progressive_loop tid (length (tasks w)) cfgs (i + 1)
      ((results ++ [Some model]) ++ [None]) w = Some (w', f, spawned) →
    resume_case tid a w w' f spawned
| r_model_err cfgs cb i results child ch config error :
    call a = LoadModelsProgressively cfgs cb →
    at_ a = AwaitModel i results child →
    tasks w !! child = Some ch → cfgs !! i = Some config →
    at_ ch = Settled (Threw error) →
    progressive_loop tid (length (tasks w)) cfgs (i + 1)
      (results ++ [None]) w = Some (w', f, spawned) →
    resume_case tid a w w' f spawned
| r_pause cfgs cb i results :
    call a = LoadModelsProgressively cfgs cb →
    at_ a = AwaitPause i results →
    progressive_loop tid (length (tasks w)) cfgs (i + 1) results w
      = Some (w', f, spawned) →
    resume_case tid a w w' f spawned.

(** *** The invariant of the tables *)

Record tables_ok (w : world) : Prop := {
  t_lengths : length (promises w) = length (requests w);
  t_request : ∀ rid r, requests w !! rid = Some r →
    loadingPromise r = rid ∧ cacheKey r = url r;
  t_answered : ∀ rid r, requests w !! rid = Some r →
    (answered r = false ↔ promises w !! rid = Some None);
  t_open : ∀ rid r, requests w !! rid = Some r → answered r = false →
    loadingPromises (this w) !! url r = Some rid;
  t_owned : ∀ k p, loadingPromises (this w) !! k = Some p →
    ∃ tid, owners w !! tid = Some (Some (k, p));
  t_owner : ∀ tid k p, owners w !! tid = Some (Some (k, p)) →
    loadingPromises (this w) !! k = Some p ∧
    ∃ r, requests w !! p = Some r ∧ url r = k;
  t_unique : ∀ t1 t2 k1 k2 p,
    owners w !! t1 = Some (Some (k1, p)) →
    owners w !! t2 = Some (Some (k2, p)) → t1 = t2;
  t_both : ∀ k g p, modelCache (this w) !! k = Some g →
    loadingPromises (this w) !! k = Some p →
    promises w !! p = Some (Some (Fulfilled g));
  t_cached : ∀ k g, modelCache (this w) !! k = Some g →
    ∃ rid r, requests w !! rid = Some r ∧ url r = k ∧
             promises w !! rid = Some (Some (Fulfilled g));
  t_fulfilled : ∀ rid r g, requests w !! rid = Some r →
    promises w !! rid = Some (Some (Fulfilled g)) →
    modelCache (this w) !! url r = Some g
}.

(** Every material index in a scene graph, in traversal order. *)
Definition refs (o : object3d nat) : list nat := omap material (traverse o).

(** The loop of [store_tree] over the children. *)
Definition store_forest : list (object3d Material.t) → list Material.t →
    list (object3d nat) * list Material.t :=
  fix each l ms :=
    match l with
    | [] => ([], ms)
    | c :: l' =>
        let '(c', ms') := store_tree c ms in
        let '(l'', ms'') := each l' ms' in
        (c' :: l'', ms'')
    end.

(** Every material index in the object arena names a material. *)
Definition bounded (h : heap) : Prop :=
  ∀ i o r, objects h !! i = Some o → r ∈ refs o → r < length (materials h).

(** How a stretch of code that writes to scene graph [m] only, and to
    its materials, changes the heap. *)
Record evolves (m : nat) (h h' : heap) : Prop := {
  ev_objects : length (objects h) ≤ length (objects h');
  ev_materials : length (materials h) ≤ length (materials h');
  ev_others : ∀ i o, objects h !! i = Some o → i ≠ m →
    objects h' !! i = Some o;
  ev_shape : ∀ i o, objects h !! i = Some o →
    ∃ o', objects h' !! i = Some o' ∧ refs o' = refs o ∧
          collect_materials o' = collect_materials o;
  ev_fresh : ∀ i o r, length (objects h) ≤ i → objects h' !! i = Some o →
    r ∈ refs o → length (materials h) ≤ r;
  ev_bounded : bounded h → bounded h';
  ev_frame : ∀ r x, materials h !! r = Some x →
    (∀ o, objects h !! m = Some o → r ∉ refs o) →
    materials h' !! r = Some x
}.

(** Frames that hold an instance. *)
Definition model_of (f : frame) : option nat :=
  match f with
  | AwaitYield m _ _ _ | AwaitMaterials m | AwaitInstance m
  | Settled (Returned m) => Some m
  | _ => None
  end.

(** The [materials] array of a suspended material pass is what
    [traverse] finds in the instance. *)
Definition yield_ok (h : heap) (f : frame) : Prop :=
  match f with
  | AwaitYield m _ mats _ =>
      ∃ o, objects h !! m = Some o ∧ mats = collect_materials o
  | _ => True
  end.

(** The parsed assets that exist: the values of fulfilled promises. *)
Definition fulfilled (w : world) (g : GLTF.t) : Prop :=
  ∃ p, promises w !! p = Some (Some (Fulfilled g)).

(** No material is named by two scene graphs. *)
Definition separated (h : heap) : Prop :=
  ∀ i j o o' r, objects h !! i = Some o → objects h !! j = Some o' →
    r ∈ refs o → r ∈ refs o' → i = j.

Record heap_ok (w : world) : Prop := {
  h_bounded : bounded (mem w);
  h_separated : separated (mem w);
  h_gltf : ∀ g, fulfilled w g → GLTF.scene g < length (objects (mem w));
  h_result : ∀ tid a g, tasks w !! tid = Some a →
    at_ a = AwaitDiskResult (Fulfilled g) → fulfilled w g;
  h_model : ∀ tid a m, tasks w !! tid = Some a →
    model_of (at_ a) = Some m → m < length (objects (mem w));
  h_apart : ∀ g tid a, fulfilled w g → tasks w !! tid = Some a →
    model_of (at_ a) ≠ Some (GLTF.scene g);
  h_yield : ∀ tid a, tasks w !! tid = Some a → yield_ok (mem w) (at_ a);
  h_unique : ∀ t1 t2 a1 a2 m, tasks w !! t1 = Some a1 → tasks w !! t2 = Some a2 →
    model_of (at_ a1) = Some m → model_of (at_ a2) = Some m → t1 = t2
}.

(** What a stretch of code between two [await]s of one activation does
    to the heap: [old] is the instance the activation held before, [f]
    the frame it is left in. *)
Definition seg_ok (w w1 : world) (old : option nat) (f : frame) : Prop :=
  (∀ g, fulfilled w1 g ↔ fulfilled w g) ∧
  yield_ok (mem w1) f ∧
  (∀ g, f = AwaitDiskResult (Fulfilled g) → fulfilled w g) ∧
  length (objects (mem w1)) ≤ S (length (objects (mem w))) ∧
  ((model_of f = None ∧ mem w1 = mem w) ∨
   (∃ m, model_of f = Some m ∧ evolves m (mem w) (mem w1) ∧
      m < length (objects (mem w1)) ∧
      (old = Some m ∧ length (objects (mem w1)) = length (objects (mem w)) ∨
       m = length (objects (mem w))))).

(** Frames that hold neither an instance nor a parsed asset. *)
Definition inert (f : frame) : Prop :=
  model_of f = None ∧ ∀ g, f ≠ AwaitDiskResult (Fulfilled g).

(** The held instance of activation [t], if any. *)
Definition held (w : world) (t : nat) : option nat :=
  a ← tasks w !! t; model_of (at_ a).

(** The heap view of a step of the event loop. *)
Inductive hstep (w w' : world) : Prop :=
| hs_seg w1 f t :
    seg_ok w w1 (held w t) f →
    mem w' = mem w1 → promises w' = promises w1 →
    (∀ t' x, tasks w' !! t' = Some x →
       tasks w !! t' = Some x ∨ inert (at_ x) ∨ (t' = t ∧ at_ x = f)) →
    hstep w w'
| hs_onLoad parsed g :
    mem w' = (alloc parsed (mem w)).2 →
    GLTF.scene g = length (objects (mem w)) →
    (∀ g', fulfilled w g' → fulfilled w' g') →
    (∀ g', fulfilled w' g' → fulfilled w g' ∨ g' = g) →
    tasks w' = tasks w →
    hstep w w'
| hs_onError :
    mem w' = mem w →
    (∀ g, fulfilled w' g ↔ fulfilled w g) →
    tasks w' = tasks w →
    hstep w w'.

(** The state of a path in the loader: cached as soon as an asset is
    stored for it, else pending while an entry of [loadingPromises] names
    it. *)
Inductive status := Uncached | Pending | Cached.

Definition status_of (w : world) (k : string) : status :=
  match modelCache (this w) !! k, loadingPromises (this w) !! k with
  | Some _, _ => Cached
  | None, Some _ => Pending
  | None, None => Uncached
  end.

(** The two tables never hold the same path. *)
Definition exclusive (w : world) : Prop :=
  ∀ k, modelCache (this w) !! k = None ∨ loadingPromises (this w) !! k = None.

Definition plain : Vector3.t := Vector3.mk 0 0 0.
Definition unit_scale : Vector3.t := Vector3.mk 1 1 1.

(** A scene with one mesh. *)
Definition one_mesh : object3d Material.t :=
  Object3D false None false false plain plain unit_scale
    [Object3D true
       (Some (Material.mk (Some 0.5%float) (Some 0%float) (Some 1%float) None false))
       false false plain plain unit_scale []].

Definition just (name path : string) : ModelConfig.t :=
  ModelConfig.mk name path None None None false None false.

(** The world right after [onLoad] of the only request has run, before
    any continuation: activation 0 is still suspended in
    [loadModelFromDisk]. *)
Definition just_loaded : list event :=
  [Call (just "x" "a.glb"); OnLoad 0 one_mesh].

(** A loader with one load of "a.glb" in flight. *)
Definition loading : world :=
  default init (run [Call (just "x" "a.glb")] init).

(** The activation gets its asset from a promise that settled with [s],
    or already did. *)
Definition got (s : settlement) (w : world) (f : frame) : Prop :=
  match f with
  | AwaitLoading p | AwaitDisk p => promises w !! p = Some (Some s)
  | AwaitDiskResult r => r = s
  | AwaitYield _ _ _ _ | AwaitMaterials _ | AwaitInstance _
  | Settled (Returned _) => ∃ g, s = Fulfilled g
  | Settled (Threw error) => s = Rejected error
  | _ => False
  end.

(** Activation [t] is one of [loadModel] and [got s] holds of it. *)
Definition gets (s : settlement) (w : world) (t : nat) : Prop :=
  ∃ a cfg c, tasks w !! t = Some a ∧ call a = LoadModel cfg c ∧ got s w (at_ a).

(** How far an instance is from being returned. *)
Definition rank (f : frame) : nat :=
  match f with
  | AwaitYield _ _ mats i => 3 + (length mats - i)
  | AwaitMaterials _ => 2
  | AwaitInstance _ => 1
  | _ => 0
  end.

Definition hits (w : world) : nat := LoadingStats.cacheHits (loadingStats (this w)).
Definition loads (w : world) : nat := LoadingStats.totalLoads (loadingStats (this w)).

(** The calls of [loadModel] that are made in a step from [w] to [w']:
    those of the activations that the step starts.  [f] is where the
    call is when the step ends. *)
Definition called_in (w w' : world) (cfg : ModelConfig.t) (f : frame) : Prop :=
  ∃ t c, length (tasks w) ≤ t ∧
         tasks w' !! t = Some (Activation (LoadModel cfg c) f).

(** Activation [a] is a call of [loadModel] for path [k]. *)
Definition calls_for (k : string) (a : activation) : bool :=
  match call a with
  | LoadModel modelConfig _ => bool_decide (ModelConfig.path modelConfig = k)
  | LoadModelsProgressively _ _ => false
  end.

(** Activation [t] of [v] is a call of [loadModel] for path [k] made
    when [t0] activations had been started: by any code, the loop of
    [loadModelsProgressively] included. *)
Definition caller (k : string) (t0 : nat) (v : world) (t : nat) : Prop :=
  t0 ≤ t ∧ ∃ a, tasks v !! t = Some a ∧ calls_for k a = true.

(** The load that the call [first], activation [t0], started with
    request [rid] and promise [p], while that promise is pending. *)
Record one_load (p rid t0 : nat) (first : ModelConfig.t) (v : world)
    : Prop := {
  o_requests : ∀ r req, rid ≤ r → requests v !! r = Some req →
    url req = ModelConfig.path first → r = rid;
  o_request : requests v !! rid
    = Some (Request (ModelConfig.path first) (ModelConfig.path first) p false);
  o_cache : modelCache (this v) !! ModelConfig.path first = None;
  o_pending : loadingPromises (this v) !! ModelConfig.path first = Some p;
  o_first : tasks v !! t0
    = Some (Activation (LoadModel first None) (AwaitDisk p));
  o_callers : ∀ t a, caller (ModelConfig.path first) t0 v t →
    tasks v !! t = Some a →
    at_ a = AwaitLoading p ∨ (t = t0 ∧ at_ a = AwaitDisk p)
}.

(** While "a.glb" is loading: a call for another path, a second call
    for "a.glb", the answer to the other request and the resumption of
    its load, which takes its path out of [loadingPromises], and a
    third call for "a.glb". *)
Definition interleaved : list event :=
  [Call (just "y" "b.glb"); Call (just "z" "a.glb"); OnLoad 1 one_mesh;
   Resume 1; Call (just "u" "a.glb")].

Definition is_call (e : event) : bool :=
  match e with
  | Call _ | CallProgressive _ _ => true
  | _ => false
  end.

(** [loadModel cfg] is called in [w] and, before any other call, its
    promise is fulfilled with an instance: [w'] is a world where this has
    happened. *)
Definition serves (cfg : ModelConfig.t) (w w' : world) : Prop :=
  ∃ w1 body,
    step (Call cfg) w = Some w1 ∧ run body w1 = Some w' ∧
    Forall (λ e, is_call e = false) body ∧
    ∃ a model, tasks w' !! length (tasks w) = Some a ∧
               at_ a = Settled (Returned model).

(** A sequential history: the requests are served one after the other. *)
Fixpoint history (cfgs : list ModelConfig.t) (w w' : world) : Prop :=
  match cfgs with
  | [] => w' = w
  | cfg :: cfgs => ∃ w1, serves cfg w w1 ∧ history cfgs w1 w'
  end.

(** Every activation has settled. *)
Definition quiescent (w : world) : Prop :=
  ∀ t a, tasks w !! t = Some a → ∃ o, at_ a = Settled o.

Definition no_open_request (w : world) : Prop :=
  ∀ rid req, requests w !! rid = Some req → answered req = true.

(** Where the one request that is being served stands. *)
Inductive phase (w : world) (cfg : ModelConfig.t) (v : world) : Prop :=
| ph_hit g :
    modelCache (this w) !! ModelConfig.path cfg = Some g →
    modelCache (this v) = modelCache (this w) →
    hits v = S (hits w) →
    no_open_request v →
    phase w cfg v
| ph_pending a p :
    modelCache (this w) !! ModelConfig.path cfg = None →
    modelCache (this v) = modelCache (this w) →
    hits v = hits w →
    tasks v !! length (tasks w) = Some a → at_ a = AwaitDisk p →
    promises v !! p = Some None →
    (∀ rid req, requests v !! rid = Some req → answered req = false → rid = p) →
    phase w cfg v
| ph_loaded g :
    modelCache (this w) !! ModelConfig.path cfg = None →
    modelCache (this v) = <[ModelConfig.path cfg := g]> (modelCache (this w)) →
    hits v = hits w →
    no_open_request v →
    phase w cfg v
| ph_failed error :
    gets (Rejected error) v (length (tasks w)) →
    phase w cfg v.

Record serving (w : world) (cfg : ModelConfig.t) (v : world) : Prop := {
  sv_tables : tables_ok v;
  sv_loads : loads v = S (loads w);
  sv_length : length (tasks v) = S (length (tasks w));
  sv_others : ∀ t a, tasks v !! t = Some a → t ≠ length (tasks w) →
    ∃ o, at_ a = Settled o;
  sv_self : ∃ a c, tasks v !! length (tasks w) = Some a ∧
                   call a = LoadModel cfg c;
  sv_phase : phase w cfg v
}.

(** Three requests served in turn; the third asks for the first path
    again. *)
Definition after (es : list event) : world := default init (run es init).

Definition first_served : list event :=
  [Call (just "x" "a.glb"); OnLoad 0 one_mesh; Resume 0; Resume 0; Resume 0].

Definition second_served : list event :=
  first_served ++
  [Call (just "y" "b.glb"); OnLoad 1 one_mesh; Resume 1; Resume 1; Resume 1].

Definition third_served : list event :=
  second_served ++ [Call (just "z" "a.glb"); Resume 2].

(** ** The transform of an instance *)

(** Position, rotation and scale of the root of a scene graph. *)
Definition transform (o : object3d nat) : Vector3.t * Vector3.t * Vector3.t :=
  (position o, rotation o, scale o).

Definition identity : Vector3.t * Vector3.t * Vector3.t :=
  (plain, plain, unit_scale).

(** The three transform fields are omitted. *)
Definition no_transform (cfg : ModelConfig.t) : Prop :=
  ModelConfig.position cfg = None ∧ ModelConfig.rotation cfg = None ∧
  ModelConfig.scale cfg = None.

(** What [createInstance] makes of the transform of the clone. *)
Definition configured (cfg : ModelConfig.t)
    (t : Vector3.t * Vector3.t * Vector3.t)
    : Vector3.t * Vector3.t * Vector3.t :=
  (default t.1.1 (ModelConfig.position cfg),
   default t.1.2 (ModelConfig.rotation cfg),
   default t.2 (ModelConfig.scale cfg)).

(** Every root object of [h] is in [h'], with the transform it had. *)
Definition roots_kept (h h' : heap) : Prop :=
  ∀ i o, objects h !! i = Some o →
    ∃ o', objects h' !! i = Some o' ∧ transform o' = transform o.

(** An asset whose root is scaled by two. *)
Definition scaled_asset : object3d Material.t :=
  Object3D false None false false plain plain (Vector3.mk 2 2 2) [].

Definition scaled_instance : list event :=
  [Call (just "x" "a.glb"); OnLoad 0 scaled_asset; Resume 0; Resume 0].

(** The asset is loaded and cached; its request has just called back. *)
Definition scaled_cached : world :=
  after [Call (just "x" "a.glb"); OnLoad 0 scaled_asset].

(** ** The example scenario *)

(** [{path: "a.glb", name, position: (1, 2, 3)}] *)
Definition placed (name : string) : ModelConfig.t :=
  ModelConfig.mk name "a.glb" None (Some (Vector3.mk 1 2 3)) None false None
    false.

(** Two calls back to back, then the answer of [GLTFLoader] with scene
    graph [parsed], then the continuations in the order of the job
    queue. *)
Definition scenario (parsed : object3d Material.t) : list event :=
  [Call (placed "x"); Call (placed "y"); OnLoad 0 parsed;
   Resume 0; Resume 1; Resume 0; Resume 1; Resume 0].

(** ** The batches of the material pass *)

(** The batch of the iteration with loop variable [i]:
    [materials.slice(i, i + batchSize)]. *)
Definition batch_at (mats : list nat) (i : nat) : list nat :=
  take batchSize (drop i mats).

(** Where the material pass of instance [model] stands once the
    iteration with loop variable [i] has been tried. *)
Definition pass_at (model : nat) (config : MaterialConfig.t) (mats : list nat)
    (i : nat) : frame :=
  if decide (i < length mats) then AwaitYield model config mats i
  else AwaitMaterials model.

Definition a_mesh : object3d Material.t :=
  Object3D true
    (Some (Material.mk (Some 0.5%float) (Some 0%float) (Some 1%float) None false))
    false false plain plain unit_scale [].

(** A scene with six meshes, each with a material of its own. *)
Definition six_meshes : object3d Material.t :=
  Object3D false None false false plain plain unit_scale (replicate 6 a_mesh).

(** [{name, path: "six.glb", processMaterials: true}] *)
Definition enhanced (name : string) : ModelConfig.t :=
  ModelConfig.mk name "six.glb" None None None true None false.

Definition six_cached : world :=
  after [Call (enhanced "x"); OnLoad 0 six_meshes].

(** ** The cached scene graphs are never written *)

(** The scene graph in cell [r] with the contents of its materials: what
    a reader of the heap sees from [r]. *)
Definition snapshot (h : heap) (r : nat) : option (object3d Material.t) :=
  load_tree (materials h) <$> objects h !! r.

(** The scene graphs in cells [i] and [j] are different cells and name
    no material in common. *)
Definition disjoint_graphs (h : heap) (i j : nat) : Prop :=
  i ≠ j ∧
  ∃ oi oj, objects h !! i = Some oi ∧ objects h !! j = Some oj ∧
           refs oi ## refs oj.

(** ** [loadModelsProgressively]: the results *)

(** The progress callback, if there is one, returns to its caller. *)
Definition faithful (onProgress : option callback) : Prop :=
  ∀ current total modelName, returns onProgress current total modelName = true.

(** What the loop pushes for a call of [loadModel] that settled with
    [o]: the model, or [null] in the [catch] block. *)
Definition delivered (o : outcome) (r : option nat) : Prop :=
  match o with
  | Returned model => r = Some model
  | Threw _ => r = None
  | ReturnedAll _ => False
  end.

(** Every entry of [results] is what the call of [loadModel] made by
    iteration [j] of activation [t], for [modelConfigs[j]], settled
    with. *)
Definition entries (ts : list activation) (t : nat)
    (cfgs : list ModelConfig.t) (results : list (option nat)) : Prop :=
  ∀ j r, results !! j = Some r →
    ∃ cfg c o, cfgs !! j = Some cfg ∧
      ts !! c = Some (Activation (LoadModel cfg (Some (t, j))) (Settled o)) ∧
      delivered o r.

(** The frames of [loadModelsProgressively], with what holds of the
    local variables there. *)
Definition loop_ok (ts : list activation) (t : nat)
    (cfgs : list ModelConfig.t) (cb : option callback) (f : frame) : Prop :=
  match f with
  | AwaitModel i results child =>
      (∃ cfg ch, cfgs !! i = Some cfg ∧ ts !! child = Some ch ∧
                 call ch = LoadModel cfg (Some (t, i))) ∧
      (faithful cb → length results = i ∧ entries ts t cfgs results)
  | AwaitPause i results =>
      i < length cfgs ∧
      (faithful cb → length results = S i ∧ entries ts t cfgs results)
  | Settled (ReturnedAll results) =>
      faithful cb → length results = length cfgs ∧ entries ts t cfgs results
  | _ => False
  end.

(** The frames of [loadModel]. *)
Definition load_frame (f : frame) : Prop :=
  match f with
  | AwaitModel _ _ _ | AwaitPause _ _ | Settled (ReturnedAll _) => False
  | _ => True
  end.

(** Activation [a], number [t], is at a frame of the function it runs;
    a promise it awaits is one of the [n] promises there are. *)
Definition task_ok (n : nat) (ts : list activation) (t : nat)
    (a : activation) : Prop :=
  match call a with
  | LoadModel _ _ =>
      load_frame (at_ a) ∧
      ∀ p, at_ a = AwaitLoading p ∨ at_ a = AwaitDisk p → p < n
  | LoadModelsProgressively cfgs cb => loop_ok ts t cfgs cb (at_ a)
  end.

Definition calls_ok (w : world) : Prop :=
  ∀ t a, tasks w !! t = Some a →
    task_ok (length (promises w)) (tasks w) t a.

(** Activations stay, with their calls; the settled ones as they are. *)
Definition grows (ts ts' : list activation) : Prop :=
  ∀ c x, ts !! c = Some x →
    ∃ x', ts' !! c = Some x' ∧ call x' = call x ∧
          ∀ o, at_ x = Settled o → x' = x.

(** ** [loadModelsProgressively]: the loop comes to its end *)






(** [if (material.p !== undefined) material.p = config.p || fallback] *)
Definition guarded_or (c fallback p : option float) : option float :=
  if p then js_or c fallback else p.

(** ** [enableShadowsOptimized] *)

(** What [enableShadowsOptimized] does to one object of the graph. *)
Definition shadowed (c c' : object3d nat) : Prop :=
  isMesh c' = isMesh c ∧ material c' = material c ∧
  position c' = position c ∧ rotation c' = rotation c ∧ scale c' = scale c ∧
  castShadow c' = (isMesh c || castShadow c) ∧
  receiveShadow c' = (isMesh c || receiveShadow c).

(** ** The scene and [loadedModels] *)

(** The instance that an activation has added to the scene: the
    activation is past line 149. *)
Definition registered (f : frame) : option nat :=
  match f with
  | AwaitInstance m | Settled (Returned m) => Some m
  | _ => None
  end.

(** What the scene and [loadedModels] have to do with the activations. *)
Record registry_ok (w : world) : Prop := {
  r_scene : ∀ m, m ∈ scene (this w) ↔
    ∃ t a, tasks w !! t = Some a ∧ registered (at_ a) = Some m;
  r_once : NoDup (scene (this w));
  r_named : ∀ name m, loadedModels (this w) !! name = Some m →
    ∃ t a cfg c, tasks w !! t = Some a ∧ call a = LoadModel cfg c ∧
                 ModelConfig.name cfg = name ∧ registered (at_ a) = Some m;
  r_known : ∀ t a cfg c m, tasks w !! t = Some a → call a = LoadModel cfg c →
    registered (at_ a) = Some m →
    is_Some (loadedModels (this w) !! ModelConfig.name cfg)
}.

(** How a step changes the scene and [loadedModels]: not at all, or by
    the registration of one new instance by activation [t]. *)
Inductive reg_change (w w' : world) : Prop :=
| reg_none :
    scene (this w') = scene (this w) →
    loadedModels (this w') = loadedModels (this w) →
    (∀ t' x, tasks w' !! t' = Some x →
       registered (at_ x) = None ∨
       ∃ a, tasks w !! t' = Some a ∧ call a = call x ∧
            registered (at_ a) = registered (at_ x)) →
    reg_change w w'
| reg_one t cfg c m :
    scene (this w') = scene (this w) ++ [m] →
    loadedModels (this w')
      = <[ModelConfig.name cfg := m]> (loadedModels (this w)) →
    tasks w' !! t = Some (Activation (LoadModel cfg c) (AwaitInstance m)) →
    (∀ a, tasks w !! t = Some a → registered (at_ a) = None) →
    (∀ t' a, tasks w !! t' = Some a → t' ≠ t → model_of (at_ a) ≠ Some m) →
    (∀ t' x, tasks w' !! t' = Some x → t' ≠ t →
       registered (at_ x) = None ∨
       ∃ a, tasks w !! t' = Some a ∧ call a = call x ∧
            registered (at_ a) = registered (at_ x)) →
    reg_change w w'.

(** What a stretch of code ending at frame [f] did to the registry:
    nothing, or it registered the instance of frame [f] for [cfg]. *)
Definition reg_seg (cfg : ModelConfig.t) (w w1 : world) (f : frame) : Prop :=
  (registered f = None ∧ scene (this w1) = scene (this w) ∧
   loadedModels (this w1) = loadedModels (this w)) ∨
  (∃ m, f = AwaitInstance m ∧ scene (this w1) = scene (this w) ++ [m] ∧
        loadedModels (this w1)
          = <[ModelConfig.name cfg := m]> (loadedModels (this w))).

(** The activations of [ts] are those of [w], but for some that have
    moved between frames without a registered instance. *)
Definition unregistered_moves (w : world) (ts : list activation) : Prop :=
  ∀ t' x, ts !! t' = Some x →
    registered (at_ x) = None ∨
    ∃ a, tasks w !! t' = Some a ∧ call a = call x ∧
         registered (at_ a) = registered (at_ x).

(** ** The counters *)

(** The activation runs [loadModel]. *)
Definition is_load (a : activation) : bool :=
  match call a with
  | LoadModel _ _ => true
  | LoadModelsProgressively _ _ => false
  end.

(** The calls of [loadModel] made so far, by whomever. *)
Definition load_calls (ts : list activation) : nat :=
  length (filter (λ a, is_load a = true) ts).

(** The requests that [GLTFLoader] has answered. *)
Definition answers (rs : list request) : nat :=
  length (filter (λ r, answered r = true) rs).

Record counters_ok (w : world) : Prop := {
  c_loads : loads w = load_calls (tasks w);
  c_fetches : hits w + length (requests w) ≤ loads w;
  c_cached : size (modelCache (this w)) ≤ answers (requests w)
}.

(** ** [clearCache] while a load is in flight *)

(** Some code calls [loader.clearCache()]. *)
Definition cleared (w : world) : world := set_this (clearCache (this w)) w.

(** One load is in flight. *)
Definition one_in_flight : world := after [Call (just "x" "a.glb")].

(** ** [loadModelsProgressively] with any progress callback *)

(** What iteration [i] pushes onto [results] when the call of
    [loadModel] for [config] settled with [o]: the model, and [null]
    after it if [onProgress] throws (lines 244-252 are inside the [try]);
    [null] alone if the call threw. *)
Definition pushes (cb : option callback) (total i : nat)
    (config : ModelConfig.t) (o : outcome) : list (option nat) :=
  match o with
  | Returned model =>
      if returns cb (i + 1) total (ModelConfig.name config)
      then [Some model] else [Some model; None]
  | Threw _ => [None]
  | ReturnedAll _ => []
  end.

(** [results] after [n] iterations of the loop of activation [t]. *)
Inductive traced (ts : list activation) (t : nat) (cfgs : list ModelConfig.t)
    (cb : option callback) : nat → list (option nat) → Prop :=
| traced_nil : traced ts t cfgs cb 0 []
| traced_snoc i rs cfg c o :
    traced ts t cfgs cb i rs →
    cfgs !! i = Some cfg →
    ts !! c = Some (Activation (LoadModel cfg (Some (t, i))) (Settled o)) →
    (∀ all, o ≠ ReturnedAll all) →
    traced ts t cfgs cb (S i) (rs ++ pushes cb (length cfgs) i cfg o).

Definition frame_traced (ts : list activation) (t : nat)
    (cfgs : list ModelConfig.t) (cb : option callback) (f : frame) : Prop :=
  match f with
  | AwaitModel i rs _ => traced ts t cfgs cb i rs
  | AwaitPause i rs => traced ts t cfgs cb (S i) rs
  | Settled (ReturnedAll rs) => traced ts t cfgs cb (length cfgs) rs
  | _ => True
  end.

Definition trace_ok (w : world) : Prop :=
  ∀ t a cfgs cb, tasks w !! t = Some a →
    call a = LoadModelsProgressively cfgs cb →
    frame_traced (tasks w) t cfgs cb (at_ a).

(** A progress callback that throws whatever it is told. *)
Definition throwing : option callback := Some (λ _ _ _, false).

Definition progress_throws : list event :=
  [CallProgressive [just "x" "a.glb"] throwing; OnLoad 0 one_mesh;
   Resume 1; Resume 1; Resume 1; Resume 0].

Definition returned_two : activation :=
  Activation (LoadModelsProgressively [just "x" "a.glb"] throwing)
    (Settled (ReturnedAll [Some 1; None])).

(** ** What [ModelLoader] does to the materials of an instance *)

(** A property after [enhanceMaterial]: absent if it was absent; else
    the configured value when that is truthy and [fallback] when not,
    whatever it was before. *)
Definition overwritten (c : option float) (fallback : float)
    (before after : option float) : Prop :=
  match before with
  | None => after = None
  | Some _ =>
      ∃ v, after = Some v ∧ truthy (Some v) = true ∧
        (truthy c = true → c = Some v) ∧ (truthy c = false → v = fallback)
  end.

(** [m] is a material of the object [o]. *)
Definition material_of (o : object3d ModelInstance.mesh_material)
    (m : ModelInstance.MeshMaterial.t) : Prop :=
  material o = Some (ModelInstance.One m) ∨
  ∃ ms, material o = Some (ModelInstance.Many ms) ∧ Some m ∈ ms.

(** An object before and after [ModelLoader.processMaterials]. *)
Definition processed (o o' : object3d ModelInstance.mesh_material) : Prop :=
  isMesh o' = isMesh o ∧ position o' = position o ∧
  rotation o' = rotation o ∧ scale o' = scale o ∧
  (isMesh o = true → castShadow o' = true ∧ receiveShadow o' = true) ∧
  (isMesh o = false →
     material o' = material o ∧ castShadow o' = castShadow o ∧
     receiveShadow o' = receiveShadow o).

(** [processMaterials] on the children of an object, in order. *)
Definition process_each
    (Color_set : Color.t → float → float → float → Color.t)
    (cfg : ModelInstance.EnhanceConfig.t)
    (kids : list (object3d ModelInstance.mesh_material))
    : thrown (list (object3d ModelInstance.mesh_material)) :=
  foldr (λ c rest,
           and_then (ModelInstance.process Color_set cfg c) (λ c,
             and_then rest (λ l, Done (c :: l))))
    (Done []) kids.

(** A group with one mesh whose material has a colour and no
    [emissive] property, as a [MeshBasicMaterial] has. *)
Definition unlit_material : ModelInstance.MeshMaterial.t :=
  ModelInstance.MeshMaterial.mk false ModelInstance.FrontSide
    (Some (Color.mk 0.8 0.2 0.2)) None None None None None.

Definition unlit_mesh : object3d ModelInstance.mesh_material :=
  Object3D true (Some (ModelInstance.One unlit_material)) false false
    (Vector3.mk 0 0 0) (Vector3.mk 0 0 0) (Vector3.mk 1 1 1) [].

Definition unlit_model : object3d ModelInstance.mesh_material :=
  Object3D false None false false
    (Vector3.mk 0 0 0) (Vector3.mk 0 0 0) (Vector3.mk 1 1 1) [unlit_mesh].

Definition recolour : ModelInstance.EnhanceConfig.t :=
  ModelInstance.EnhanceConfig.mk true None None None None None.

(** ** The registry of [ModelLoader] *)

(** What every sequence of calls keeps of the registry. *)
Record registry_sound (reg : ModelInstance.registry) : Prop := {
  s_scene : NoDup (ModelInstance.scene reg);
  s_made : ∀ m, m ∈ ModelInstance.scene reg → m < ModelInstance.clones reg;
  s_names : NoDup (ModelInstance.loadedModels reg).*1;
  s_bound : ∀ name m,
    ModelInstance.Map_get name (ModelInstance.loadedModels reg) = Some m →
    m ∈ ModelInstance.scene reg;
  s_once : ∀ name1 name2 m,
    ModelInstance.Map_get name1 (ModelInstance.loadedModels reg) = Some m →
    ModelInstance.Map_get name2 (ModelInstance.loadedModels reg) = Some m →
    name1 = name2
}.

(** A model in the scene that no name is bound to. *)
Definition orphan (m : nat) (reg : ModelInstance.registry) : Prop :=
  m ∈ ModelInstance.scene reg ∧
  ∀ name, ModelInstance.getModel name reg ≠ Some m.

(** ** [ObjectDragControls]: what every sequence of calls keeps *)

(** The selection is told by three fields that agree; while an object
    is selected the cursor is the grabbing hand and the camera controls
    are off; the nine keys keep their names. *)
Record coherent (st : ObjectDragControls.t) : Prop := {
  c_dragging :
    ObjectDragControls.isDragging st = true
    ↔ is_Some (ObjectDragControls.selectedObject st);
  c_index :
    is_Some (ObjectDragControls.selectedObjectIndex st)
    ↔ is_Some (ObjectDragControls.selectedObject st);
  c_cursor :
    is_Some (ObjectDragControls.selectedObject st) →
    ObjectDragControls.cursor st = "grabbing";
  c_camera :
    is_Some (ObjectDragControls.selectedObject st) →
    ObjectDragControls.cameraControls st ≠ Some true;
  c_names : ∀ key,
    fst <$> (ObjectDragControls.objectMapping st !! key)
    = fst <$> (ObjectDragControls.initialMapping !! key)
}.

(** Two states with the same selection, cursor, camera controls and
    key names. *)
Definition same_controls (st st' : ObjectDragControls.t) : Prop :=
  ObjectDragControls.isDragging st' = ObjectDragControls.isDragging st ∧
  ObjectDragControls.selectedObject st' = ObjectDragControls.selectedObject st ∧
  ObjectDragControls.selectedObjectIndex st'
    = ObjectDragControls.selectedObjectIndex st ∧
  ObjectDragControls.cursor st' = ObjectDragControls.cursor st ∧
  ObjectDragControls.cameraControls st' = ObjectDragControls.cameraControls st ∧
  ∀ key,
    fst <$> (ObjectDragControls.objectMapping st' !! key)
    = fst <$> (ObjectDragControls.objectMapping st !! key).

(** ** What the controls never do to an object *)

(** Every object has in [st'] the [userData.name], the position and the
    materials it has in [st]. *)
Definition fixed (st st' : ObjectDragControls.t) : Prop :=
  ∀ o,
    ObjectDragControls.userData_name (ObjectDragControls.objects st' o)
      = ObjectDragControls.userData_name (ObjectDragControls.objects st o) ∧
    ObjectDragControls.position (ObjectDragControls.objects st' o)
      = ObjectDragControls.position (ObjectDragControls.objects st o) ∧
    ObjectDragControls.material_ <$>
        ObjectDragControls.meshes (ObjectDragControls.objects st' o)
      = ObjectDragControls.material_ <$>
        ObjectDragControls.meshes (ObjectDragControls.objects st o).

(** The same but for the [x] and [z] of the position of the selected
    object. *)
Definition level (st st' : ObjectDragControls.t) : Prop :=
  ∀ o,
    ObjectDragControls.userData_name (ObjectDragControls.objects st' o)
      = ObjectDragControls.userData_name (ObjectDragControls.objects st o) ∧
    Vector3.y (ObjectDragControls.position (ObjectDragControls.objects st' o))
      = Vector3.y
          (ObjectDragControls.position (ObjectDragControls.objects st o)) ∧
    (ObjectDragControls.selectedObject st ≠ Some o →
       ObjectDragControls.position (ObjectDragControls.objects st' o)
       = ObjectDragControls.position (ObjectDragControls.objects st o)) ∧
    ObjectDragControls.material_ <$>
        ObjectDragControls.meshes (ObjectDragControls.objects st' o)
      = ObjectDragControls.material_ <$>
        ObjectDragControls.meshes (ObjectDragControls.objects st o).

(** ** The highlight of the selected object *)

(** A material while its object is selected: brighter, with a bluish
    glow if it can glow. *)
Definition highlighted (mat : ObjectDragControls.material)
    : ObjectDragControls.material :=
  ObjectDragControls.Material
    (option_map (λ c, Color.multiplyScalar c 1.3)
       (ObjectDragControls.color mat))
    (option_map (λ e, Color.setRGB e 0.1 0.1 0.2)
       (ObjectDragControls.emissive mat)).

(** A mesh whose [userData] holds no colour but those of its material:
    no [originalColor] or the colour of the material, and no
    [originalEmissive] if the material has no [emissive]. *)
Definition clean_mesh (mats : nat → ObjectDragControls.material)
    (m : ObjectDragControls.mesh) : Prop :=
  (ObjectDragControls.originalColor m = None ∨
   ObjectDragControls.originalColor m
   = ObjectDragControls.color (mats (ObjectDragControls.material_ m))) ∧
  (ObjectDragControls.emissive (mats (ObjectDragControls.material_ m)) = None →
   ObjectDragControls.originalEmissive m = None).

(** An object that the highlight can be taken off again: no two of its
    meshes have the same material, and its meshes are clean. *)
Definition restorable (object : nat) (st : ObjectDragControls.t) : Prop :=
  NoDup (ObjectDragControls.material_ <$>
           ObjectDragControls.meshes (ObjectDragControls.objects st object)) ∧
  Forall (clean_mesh (ObjectDragControls.materials st))
    (ObjectDragControls.meshes (ObjectDragControls.objects st object)).

(** ** Which object a key gets from [initializeDragObjects] *)

(** The elements of [foodObjects] that are objects with a [userData],
    each with its name. *)
Definition draggable (objects : nat → ObjectDragControls.object)
    (foodObjects : list (option nat)) : list (nat * option string) :=
  omap (λ obj : option nat,
          obj ≫= λ o, (λ name, (o, name)) <$>
                        ObjectDragControls.userData_name (objects o))
    foodObjects.

(** Those of the name [name], and those whose name starts with
    ['Egg ']. *)
Definition called (name : string) (es : list (nat * option string))
    : list (nat * option string) :=
  filter (λ e, e.2 = Some name) es.

Definition numbered_eggs (es : list (nat * option string))
    : list (nat * option string) :=
  filter (λ e, from_option (String.prefix "Egg ") false e.2 = true) es.

(** The object of the key of name [name] that had [old] before: the
    last object of that name; failing that what the key had, but for
    ['Egg'], which takes the first numbered egg if it had nothing. *)
Definition mapped_object (name : string) (old : option nat)
    (es : list (nat * option string)) : option nat :=
  match last (called name es) with
  | Some e => Some e.1
  | None =>
      if decide (name = "Egg") then
        match old with
        | Some o => Some o
        | None => fst <$> head (numbered_eggs es)
        end
      else old
  end.

(** ** A fridge with an egg carton and an egg *)

(** Object 0 is the egg carton, every other object an egg; each has one
    mesh with a material of its own. *)
Definition fridge_objects (o : nat) : ObjectDragControls.object :=
  match o with
  | 0 =>
      ObjectDragControls.Object (Some (Some "Egg Carton")) (Vector3.mk 1 2 3)
        [ObjectDragControls.Mesh 0 None None]
  | S _ =>
      ObjectDragControls.Object (Some (Some "Egg 1")) (Vector3.mk 0 2 0)
        [ObjectDragControls.Mesh o None None]
  end.

Definition fridge_materials (_ : nat) : ObjectDragControls.material :=
  ObjectDragControls.Material (Some (Color.mk 0.5 0.25 0.125))
    (Some (Color.mk 0 0 0)).

Definition fresh_controls : ObjectDragControls.t :=
  ObjectDragControls.constructor (Some true) "default" fridge_objects
    fridge_materials.

Definition fridge : ObjectDragControls.t :=
  ObjectDragControls.initializeDragObjects [Some 0; Some 1] fresh_controls.

Definition no_raycast (_ : float * float) (_ : float) : Vector3.t :=
  Vector3.mk 0 0 0.

(** Objects whose two meshes have material 7. *)
Definition shared_objects (_ : nat) : ObjectDragControls.object :=
  ObjectDragControls.Object (Some (Some "Cheese")) (Vector3.mk 1 2 3)
    [ObjectDragControls.Mesh 7 None None; ObjectDragControls.Mesh 7 None None].

Definition cheese : ObjectDragControls.t :=
  ObjectDragControls.initializeDragObjects [Some 0]
    (ObjectDragControls.constructor None "default" shared_objects
       fridge_materials).

(** ** The memory manager and the model loader *)

(** The loader [optimizedLoader] as main.js registers it: its
    [dispose] is the method of lines 294-298, which does not throw, and
    it has no [parent]; the [dispose] of any other registered object
    leaves the loader alone. *)
Record loader_registered (look : nat → loader → MemoryManager.view)
    (dispose_of : nat → loader → loader * bool) (optimizedLoader : nat)
    : Prop := {
  l_function : ∀ l,
    MemoryManager.dispose_is_function (look optimizedLoader l) = true;
  l_parent : ∀ l, MemoryManager.has_parent (look optimizedLoader l) = false;
  l_dispose : ∀ l, dispose_of optimizedLoader l = (dispose l, false);
  l_others : ∀ o l, o ≠ optimizedLoader → (dispose_of o l).1 = l
}.

(** The page of main.js (lines 61-68): object 0 is the renderer, object
    1 the model loader; neither has a [parent]. *)
Definition page_look (_ : nat) (_ : loader) : MemoryManager.view :=
  MemoryManager.View true false None None.

Definition page_dispose (o : nat) (l : loader) : loader * bool :=
  if decide (o = 1) then (dispose l, false) else (l, false).

(** A loader with one cached asset and one instance of it. *)
Definition stocked : loader :=
  Loader [0] {["fridge" := 0]} {["models/fridge.glb" := GLTF.mk 0]} ∅
    (LoadingStats.mk 1 0).

Definition monitored : MemoryManager.t :=
  MemoryManager.startMonitoring 1
    (MemoryManager.register page_look (Some 1) "Optimized Model Loader" stocked
       (MemoryManager.register page_look (Some 0) "WebGL Renderer" stocked
          MemoryManager.constructor)).

(** * Lemmas and theorems *)

Lemma same_tables_refl w : same_tables w w.
Proof. by repeat split. Qed.

Lemma processMaterials_from_tables model config mats i w w' f :
  processMaterials_from model config mats i w = Some (w', f) →
  same_tables w w' ∧ instancing f.
Proof.
  unfold processMaterials_from. intros H.
  destruct (materials_loop _ _ _ _ _) as [[ms [j|]]|]; simplify_eq/=; by repeat split.
Qed.

Lemma createInstance_finish_tables cfg model w w' f :
  createInstance_finish cfg model w = (w', f) →
  same_tables w w' ∧ instancing f.
Proof. unfold createInstance_finish. intros; simplify_eq/=. by repeat split. Qed.

Lemma createInstance_tables gltf cfg w w' f :
  createInstance gltf cfg w = Some (w', f) →
  same_tables w w' ∧ instancing f.
Proof.
  unfold createInstance. intros H.
  destruct (clone _ _) as [[model h]|]; [|done]. cbn [mbind option_bind] in H.
  destruct (ModelConfig.processMaterials cfg).
  - destruct (objects _ !! model); [|done]. cbn [mbind option_bind] in H.
    apply processMaterials_from_tables in H as [H ?]. split; [|done].
    destruct H as (?&?&?&?&?&?). by repeat split.
  - apply (inj Some) in H. apply createInstance_finish_tables in H as [H ?].
    split; [|done]. destruct H as (?&?&?&?&?&?). by repeat split.
Qed.

Lemma loadModelFromDisk_spec cfg w :
  loadModelFromDisk cfg w =
    (World (set_loadingPromises
              (<[ModelConfig.path cfg := length (promises w)]>
                 (loadingPromises (this w))) (this w))
       (mem w) (promises w ++ [None])
       (requests w ++ [Request (ModelConfig.path cfg) (ModelConfig.path cfg)
                         (length (promises w)) false])
       (tasks w),
     AwaitDisk (length (promises w))).
Proof. done. Qed.

Lemma loadModel_branches cfg w w' f :
  loadModel cfg w = Some (w', f) → loadModel_branch cfg w w' f.
Proof.
  unfold loadModel. cbn [this set_this count_load modelCache loadingPromises].
  destruct (modelCache (this w) !! _) as [g|] eqn:Hc.
  - intros H. by eapply branch_hit.
  - destruct (loadingPromises (this w) !! _) as [p|] eqn:Hp.
    + intros H. apply (inj Some) in H. eapply branch_wait; [done..| |]; congruence.
    + intros H. apply (inj Some) in H. by eapply branch_disk.
Qed.

Lemma instancing_owner cfg c f :
  instancing f → owner_of (Activation (LoadModel cfg c) f) = None.
Proof. by destruct f. Qed.

Lemma loadModel_tables_spec cfg w w' f :
  loadModel cfg w = Some (w', f) → loadModel_tables cfg w w' f.
Proof.
  intros [g Hc H|p Hc Hp -> ->|Hc Hp H]%loadModel_branches.
  - apply createInstance_tables in H as [(?&?&?&?&?&?) Hf].
    apply lt_quiet; try done. intros c. by apply instancing_owner.
  - by apply lt_quiet.
  - rewrite loadModelFromDisk_spec in H. simplify_eq. by apply lt_disk.
Qed.

Lemma progressive_loop_spec tid child cfgs i results w w' f spawned :
  progressive_loop tid child cfgs i results w = Some (w', f, spawned) →
  (cfgs !! i = None ∧ w' = w ∧ f = Settled (ReturnedAll results) ∧ spawned = []) ∨
  (∃ config f0, cfgs !! i = Some config ∧
     loadModel config w = Some (w', f0) ∧
     f = AwaitModel i results child ∧
     spawned = [Activation (LoadModel config (Some (tid, i))) f0]).
Proof.
  unfold progressive_loop. destruct (cfgs !! i) as [config|]; intros H.
  - right. destruct (loadModel config w) as [[w1 f0]|] eqn:E; [|done].
    cbn [mbind option_bind] in H. simplify_eq. by exists config, f0.
  - left. by simplify_eq.
Qed.

Lemma quiet_Some r w' f spawned :
  quiet r = Some (w', f, spawned) → r = Some (w', f) ∧ spawned = [].
Proof. destruct r as [[??]|]; cbn; intros; by simplify_eq. Qed.

Lemma resume_cases tid a w w' f spawned :
  resume tid a w = Some (w', f, spawned) → resume_case tid a w w' f spawned.
Proof.
  unfold resume.
  destruct (call a) as [cfg c|cfgs cb] eqn:Hcall, (at_ a) as [p|p|[g|e]|m mc mats i|m|m|i rs ch|i rs|o] eqn:Hat;
    try done.
  - destruct (promises w !! p) as [[[g|e]|]|] eqn:Hp; try done.
    + intros [H ->]%quiet_Some. by eapply r_loading_ok.
    + intros H; simplify_eq. by eapply r_loading_err.
  - destruct (promises w !! p) as [[r|]|] eqn:Hp; try done.
    intros H; simplify_eq. by eapply r_disk.
  - intros [H ->]%quiet_Some. by eapply r_disk_ok.
  - intros H; simplify_eq. by eapply r_disk_err.
  - intros [H ->]%quiet_Some. by eapply r_yield.
  - intros [H ->]%quiet_Some. apply (inj Some) in H. by eapply r_materials.
  - intros H; simplify_eq. by eapply r_instance.
  - destruct (tasks w !! ch) as [c|] eqn:Hch; [|done]. cbn [mbind option_bind].
    destruct (cfgs !! i) as [config|] eqn:Hi; [|done]. cbn [mbind option_bind].
    destruct (at_ c) as [| | | | | | | |[model|?|error]] eqn:Hc; try done.
    + destruct (returns _ _ _ _) eqn:Hr.
      * intros H; simplify_eq. by eapply r_model_ok.
      * intros H. by eapply r_model_caught.
    + intros H. by eapply r_model_err.
  - intros H. by eapply r_pause.
Qed.

Lemma owners_app w ts :
  owner_of <$> (tasks w ++ ts) = owners w ++ (owner_of <$> ts).
Proof. apply fmap_app. Qed.

Lemma owners_insert_quiet w tid a a' :
  tasks w !! tid = Some a → owner_of a = None → owner_of a' = None →
  owner_of <$> <[tid := a']> (tasks w) = owners w.
Proof.
  intros Ha Ho Ho'. rewrite list_fmap_insert, Ho'. unfold owners.
  apply list_insert_id. by rewrite list_lookup_fmap, Ha, <-Ho.
Qed.

(** A call of [loadModel] followed by the start of [n] more activations
    that own nothing and of the called one. *)
Lemma loadModel_tstep cfg c w w1 f w' n :
  loadModel cfg w = Some (w1, f) →
  this w' = this w1 → promises w' = promises w1 → requests w' = requests w1 →
  owners w' = owners w ++ replicate n None ++
                [owner_of (Activation (LoadModel cfg c) f)] →
  tstep w w'.
Proof.
  intros [? ? ? ? ? Ho|? ? ? ? ? ? ? ?]%loadModel_tables_spec Ht Hp Hr Hw.
  - apply (t_quiet _ _ (S n)); rewrite ?Ht, ?Hp, ?Hr; try done.
    rewrite Hw, Ho. f_equal. by rewrite replicate_S_end.
  - subst f. eapply (t_disk _ _ n); rewrite ?Ht, ?Hp, ?Hr; done.
Qed.

Lemma progressive_loop_tstep tid child cfgs i results w w1 f spawned w' n :
  progressive_loop tid child cfgs i results w = Some (w1, f, spawned) →
  this w' = this w1 → promises w' = promises w1 → requests w' = requests w1 →
  owners w' = owners w ++ replicate n None ++ (owner_of <$> spawned) →
  tstep w w'.
Proof.
  intros [(?&->&->&->)|(config&f0&?&Hl&->&->)]%progressive_loop_spec Ht Hp Hr Hw.
  - apply (t_quiet _ _ n); rewrite ?Ht, ?Hp, ?Hr; try done.
    by rewrite Hw, app_nil_r.
  - eapply loadModel_tstep; [done..|]. exact Hw.
Qed.

Lemma alloc_eq o h :
  alloc o h =
    (length (objects h),
     Heap (objects h ++ [(store_tree o (materials h)).1])
       (store_tree o (materials h)).2).
Proof. done. Qed.

Lemma onLoad_eq req parsed w :
  onLoad req parsed w =
    let gltf := GLTF.mk (length (objects (mem w))) in
    World (set_modelCache (<[cacheKey req := gltf]> (modelCache (this w))) (this w))
      (alloc parsed (mem w)).2
      (settle (loadingPromise req) (Fulfilled gltf) (promises w))
      (requests w) (tasks w).
Proof. done. Qed.

Lemma quiet_resume_tstep w w1 tid a f :
  tasks w !! tid = Some a → same_tables w w1 →
  owner_of a = None → owner_of (Activation (call a) f) = None →
  tstep w (World (this w1) (mem w1) (promises w1) (requests w1)
             (<[tid := Activation (call a) f]> (tasks w1) ++ [])).
Proof.
  intros Ha (?&?&?&?&?&Ht) Ho Ho'. apply (t_quiet _ _ 0); try done.
  unfold owners at 1; cbn [tasks]. rewrite Ht, !app_nil_r.
  by eapply owners_insert_quiet.
Qed.

Lemma loop_resume_tstep w w1 tid a cfgs cb i results f spawned :
  tasks w !! tid = Some a → call a = LoadModelsProgressively cfgs cb →
  progressive_loop tid (length (tasks w)) cfgs i results w
    = Some (w1, f, spawned) →
  tstep w (World (this w1) (mem w1) (promises w1) (requests w1)
             (<[tid := Activation (call a) f]> (tasks w1) ++ spawned)).
Proof.
  intros Ha Hcall Hl.
  eapply (progressive_loop_tstep _ _ _ _ _ _ _ _ _ _ 0); [done..|].
  unfold owners at 1; cbn [tasks]. rewrite fmap_app. cbn [replicate app].
  f_equal.
  assert (tasks w1 = tasks w) as ->.
  { apply progressive_loop_spec in Hl as [(?&->&->&->)|(config&f0&?&Hl&->&->)];
      [done|].
    by apply loadModel_tables_spec in Hl as [? ? ? ? Ho ?|? ? ? ? ? ? Ho ?]. }
  eapply owners_insert_quiet; [done|..]; unfold owner_of; cbn; by rewrite Hcall.
Qed.

Lemma step_tstep e w w' : step e w = Some w' → tstep w w'.
Proof.
  destruct e as [cfg|cfgs cb|tid|rid parsed|rid error]; cbn [step].
  - destruct (loadModel cfg w) as [[w1 f]|] eqn:Hl; [|done].
    cbn [mbind option_bind]. intros H; simplify_eq.
    eapply (loadModel_tstep _ None _ _ _ _ 0); [done..|].
    unfold owners; cbn [tasks]. rewrite fmap_app.
    by apply loadModel_tables_spec in Hl as [? ? ? ? Ho ?|? ? ? ? ? ? Ho ?]; rewrite Ho.
  - destruct (progressive_loop _ _ _ _ _ _) as [[[w1 f] spawned]|] eqn:Hl; [|done].
    cbn [mbind option_bind]. intros H; simplify_eq.
    eapply (progressive_loop_tstep _ _ _ _ _ _ _ _ _ _ 1); [done..|].
    unfold owners; cbn [tasks]. rewrite fmap_app, fmap_cons.
    apply progressive_loop_spec in Hl as [(?&->&->&->)|(config&f0&?&Hl&->&->)].
    + done.
    + by apply loadModel_tables_spec in Hl as [? ? ? ? Ho ?|? ? ? ? ? ? Ho ?]; rewrite Ho.
  - destruct (tasks w !! tid) as [a|] eqn:Ha; [|done]. cbn [mbind option_bind].
    destruct (resume tid a w) as [[[w1 f] spawned]|] eqn:Hr; [|done].
    cbn [mbind option_bind]. intros H; simplify_eq.
    assert (∀ g cfg, createInstance g cfg w = Some (w1, f) →
              same_tables w w1 ∧ ∀ c, owner_of (Activation (LoadModel cfg c) f) = None)
      as Hci.
    { intros g cfg [? ?]%createInstance_tables. split; [done|].
      intros c. by apply instancing_owner. }
    destruct (resume_cases _ _ _ _ _ _ Hr)
      as [cfg c p g Hc Hat Hp Hi ->|cfg c p error Hc Hat Hp -> -> ->
         |cfg c p r Hc Hat Hp -> -> ->|cfg c g Hc Hat Hi ->
         |cfg c error Hc Hat -> -> ->|cfg c m mc mats i Hc Hat Hi ->
         |cfg c m Hc Hat Hi ->|cfg c m Hc Hat -> -> ->
         |cfgs cb i rs ch chd config m Hc Hat Hch Hi Hs Hret -> -> ->
         |cfgs cb i rs ch chd config m Hc Hat Hch Hi Hs Hret Hl
         |cfgs cb i rs ch chd config error Hc Hat Hch Hi Hs Hl
         |cfgs cb i rs Hc Hat Hl].
    + apply Hci in Hi as [? Ho].
      apply quiet_resume_tstep;
        [done|done|unfold owner_of; by rewrite Hc, Hat|rewrite Hc; apply Ho].
    + apply quiet_resume_tstep; [done|apply same_tables_refl|..];
        unfold owner_of; cbn; by rewrite Hc, ?Hat.
    + eapply (t_release _ _ tid (ModelConfig.path cfg) p r); try done.
      * unfold owners. rewrite list_lookup_fmap, Ha. cbn.
        unfold owner_of. by rewrite Hc, Hat.
      * unfold owners; cbn. rewrite app_nil_r, list_fmap_insert. f_equal.
        unfold owner_of; cbn. by rewrite Hc.
    + apply Hci in Hi as [? Ho].
      apply quiet_resume_tstep;
        [done|done|unfold owner_of; by rewrite Hc, Hat|rewrite Hc; apply Ho].
    + apply quiet_resume_tstep; [done|apply same_tables_refl|..];
        unfold owner_of; cbn; by rewrite Hc, ?Hat.
    + apply processMaterials_from_tables in Hi as [? Hf].
      apply quiet_resume_tstep;
        [done|done|unfold owner_of; by rewrite Hc, Hat
        |rewrite Hc; by apply instancing_owner].
    + apply createInstance_finish_tables in Hi as [? Hf].
      apply quiet_resume_tstep;
        [done|done|unfold owner_of; by rewrite Hc, Hat
        |rewrite Hc; by apply instancing_owner].
    + apply quiet_resume_tstep; [done|apply same_tables_refl|..];
        unfold owner_of; cbn; by rewrite Hc, ?Hat.
    + apply quiet_resume_tstep; [done|apply same_tables_refl|..];
        unfold owner_of; cbn; by rewrite Hc, ?Hat.
    + by eapply loop_resume_tstep.
    + by eapply loop_resume_tstep.
    + by eapply loop_resume_tstep.
  - unfold open_request. destruct (requests w !! rid) as [req|] eqn:Hreq; [|done].
    cbn [mbind option_bind]. destruct (answered req) eqn:Hans; [done|].
    intros H; apply (inj Some) in H; subst w'. rewrite onLoad_eq. by eapply t_onLoad.
  - unfold open_request. destruct (requests w !! rid) as [req|] eqn:Hreq; [|done].
    cbn [mbind option_bind]. destruct (answered req) eqn:Hans; [done|].
    intros H; apply (inj Some) in H; subst w'. by eapply t_onError.
Qed.

(** No load is in flight for a cached path. *)
Lemma open_uncached w rid req :
  tables_ok w → requests w !! rid = Some req → answered req = false →
  modelCache (this w) !! url req = None.
Proof.
  intros [] Hreq Hans.
  destruct (modelCache (this w) !! url req) as [g|] eqn:Hg; [|done].
  pose proof (t_both0 _ _ _ Hg (t_open0 _ _ Hreq Hans)).
  pose proof (proj1 (t_answered0 _ _ Hreq) Hans). congruence.
Qed.

Lemma lookup_app_Nones {A} (l : list (option A)) n i x :
  (l ++ replicate n None) !! i = Some (Some x) ↔ l !! i = Some (Some x).
Proof.
  rewrite lookup_app_Some, lookup_replicate. naive_solver.
Qed.

Lemma lookup_app_Nones_one {A} (l : list (option A)) n i x y :
  (l ++ replicate n None ++ [Some y]) !! i = Some (Some x) ↔
  l !! i = Some (Some x) ∨ (i = length l + n ∧ x = y).
Proof.
  rewrite app_assoc, lookup_app_Some, lookup_app_Nones, length_app,
    length_replicate, list_lookup_singleton_Some.
  split; [|naive_solver lia]. intros [?|(?&?&?)]; [by left|right].
  split; [lia|congruence].
Qed.

Lemma lookup_insert_None_Some {A} (l : list (option A)) t i x :
  <[t := None]> l !! i = Some (Some x) ↔ i ≠ t ∧ l !! i = Some (Some x).
Proof. rewrite list_lookup_insert_Some. naive_solver. Qed.

Lemma settle_length p s ps : length (settle p s ps) = length ps.
Proof. unfold settle. repeat case_match; by rewrite ?length_insert. Qed.

Lemma settle_lookup_ne p s ps q : p ≠ q → settle p s ps !! q = ps !! q.
Proof.
  intros. unfold settle. repeat case_match; try done.
  by rewrite list_lookup_insert_ne.
Qed.

Lemma settle_lookup_pending p s ps :
  ps !! p = Some None → settle p s ps !! p = Some (Some s).
Proof.
  intros H. unfold settle. rewrite H. apply list_lookup_insert_eq.
  by eapply lookup_lt_Some.
Qed.

Lemma settle_lookup_settled p s ps q r :
  ps !! q = Some (Some r) → settle p s ps !! q = Some (Some r).
Proof.
  intros H. destruct (decide (p = q)) as [->|]; [|by rewrite settle_lookup_ne].
  unfold settle. by rewrite H.
Qed.

Lemma tables_ok_init : tables_ok init.
Proof.
  split; cbn; try done; intros *; by rewrite lookup_empty.
Qed.

Lemma tables_ok_quiet w w' n :
  tables_ok w →
  modelCache (this w') = modelCache (this w) →
  loadingPromises (this w') = loadingPromises (this w) →
  promises w' = promises w →
  requests w' = requests w →
  owners w' = owners w ++ replicate n None →
  tables_ok w'.
Proof.
  intros [] Hc Hl Hp Hr Ho. split; rewrite ?Hc, ?Hl, ?Hp, ?Hr; try done.
  - intros k p [tid ?]%t_owned0. exists tid. by rewrite Ho, lookup_app_Nones.
  - intros tid k p. rewrite Ho, lookup_app_Nones. apply t_owner0.
  - intros t1 t2 k1 k2 p. rewrite Ho, !lookup_app_Nones. apply t_unique0.
Qed.

Lemma tables_ok_disk w w' n k :
  tables_ok w →
  modelCache (this w) !! k = None →
  loadingPromises (this w) !! k = None →
  modelCache (this w') = modelCache (this w) →
  loadingPromises (this w') =
    <[k := length (promises w)]> (loadingPromises (this w)) →
  promises w' = promises w ++ [None] →
  requests w' = requests w ++ [Request k k (length (promises w)) false] →
  owners w' = owners w ++ replicate n None ++ [Some (k, length (promises w))] →
  tables_ok w'.
Proof.
  intros [] Hck Hlk Hc Hl Hp Hr Ho.
  assert (∀ tid k' p, owners w !! tid = Some (Some (k', p)) →
            k' ≠ k ∧ p < length (promises w)) as Hold.
  { intros tid k' p [? (r&?%lookup_lt_Some&?)]%t_owner0. split; [|lia].
    intros ->. congruence. }
  split; rewrite ?Hc, ?Hl, ?Hp, ?Hr.
  - rewrite !length_app. cbn. lia.
  - intros rid r [?|[? [Hi <-]%list_lookup_singleton_Some]]%lookup_app_Some;
      [by eapply t_request0|]. cbn. split; [lia|done].
  - intros rid r [Hr'|[? [Hi <-]%list_lookup_singleton_Some]]%lookup_app_Some.
    + rewrite lookup_app_l by (apply lookup_lt_Some in Hr'; lia).
      by apply t_answered0.
    + cbn. assert (rid = length (promises w)) as -> by lia.
      by rewrite lookup_app_r, Nat.sub_diag.
  - intros rid r [Hr'|[? [Hi <-]%list_lookup_singleton_Some]]%lookup_app_Some Ha.
    + specialize (t_open0 _ _ Hr' Ha).
      rewrite lookup_insert_ne; [done|]. congruence.
    + cbn. assert (rid = length (promises w)) as -> by lia.
      by rewrite lookup_insert_eq.
  - intros k' p. rewrite lookup_insert_Some.
    intros [[<- <-]|[? [tid ?]%t_owned0]].
    + exists (length (owners w) + n). rewrite Ho, lookup_app_Nones_one. by right.
    + exists tid. rewrite Ho, lookup_app_Nones_one. by left.
  - intros tid k' p. rewrite Ho, lookup_app_Nones_one.
    intros [Hold'|[-> ?]]; simplify_eq.
    + destruct (Hold _ _ _ Hold') as [? ?].
      destruct (t_owner0 _ _ _ Hold') as [? (r&?&?)].
      rewrite lookup_insert_ne by done. split; [done|].
      exists r. by rewrite lookup_app_l by lia.
    + rewrite lookup_insert_eq. split; [done|]. eexists.
      by rewrite lookup_app_r, t_lengths0, Nat.sub_diag by lia.
  - intros t1 t2 k1 k2 p. rewrite Ho, !lookup_app_Nones_one.
    intros [H1|[-> ?]] [H2|[-> ?]]; simplify_eq.
    + by eapply t_unique0.
    + apply Hold in H1. lia.
    + apply Hold in H2. lia.
    + done.
  - intros k' g p Hg. rewrite lookup_insert_Some.
    intros [[<- <-]|[? Hp']]; [congruence|].
    specialize (t_both0 _ _ _ Hg Hp').
    by rewrite lookup_app_l by (apply lookup_lt_Some in t_both0; lia).
  - intros k' g (rid&r&Hr'&?&Hp')%t_cached0. exists rid, r.
    rewrite !lookup_app_l; [done|..]; by eapply lookup_lt_Some.
  - intros rid r g [Hr'|[? [Hi <-]%list_lookup_singleton_Some]]%lookup_app_Some.
    + rewrite lookup_app_l by (apply lookup_lt_Some in Hr'; lia).
      by apply t_fulfilled0.
    + assert (rid = length (promises w)) as -> by lia.
      by rewrite lookup_app_r, Nat.sub_diag.
Qed.

Lemma tables_ok_release w w' tid k p r :
  tables_ok w →
  owners w !! tid = Some (Some (k, p)) →
  promises w !! p = Some (Some r) →
  modelCache (this w') = modelCache (this w) →
  loadingPromises (this w') = delete k (loadingPromises (this w)) →
  promises w' = promises w →
  requests w' = requests w →
  owners w' = <[tid := None]> (owners w) →
  tables_ok w'.
Proof.
  intros [] Htid Hpr Hc Hl Hp Hr Ho.
  destruct (t_owner0 _ _ _ Htid) as [Hk _].
  split; rewrite ?Hc, ?Hl, ?Hp, ?Hr; try done.
  - intros rid r' Hr' Ha. specialize (t_open0 _ _ Hr' Ha).
    rewrite lookup_delete_ne; [done|]. intros Heq. rewrite <-Heq in t_open0.
    pose proof (proj1 (t_answered0 _ _ Hr') Ha). congruence.
  - intros k' p' [? [tid' Ht']%t_owned0]%lookup_delete_Some. exists tid'.
    rewrite Ho, lookup_insert_None_Some. split; [congruence|done].
  - intros tid' k' p'. rewrite Ho, lookup_insert_None_Some. intros [? Ht'].
    destruct (t_owner0 _ _ _ Ht') as [Hk' ?]. split; [|done].
    rewrite lookup_delete_ne; [done|]. intros <-.
    assert (p' = p) as -> by congruence. by eapply H, t_unique0.
  - intros t1 t2 k1 k2 p'. rewrite Ho, !lookup_insert_None_Some.
    intros [_ ?] [_ ?]. by eapply t_unique0.
  - intros k' g p' Hg [? ?]%lookup_delete_Some. by eapply t_both0.
Qed.

Lemma tables_ok_answer w w' rid req s :
  tables_ok w →
  requests w !! rid = Some req →
  answered req = false →
  modelCache (this w') =
    match s with
    | Fulfilled g => <[cacheKey req := g]> (modelCache (this w))
    | Rejected _ => modelCache (this w)
    end →
  loadingPromises (this w') = loadingPromises (this w) →
  promises w' = settle (loadingPromise req) s (promises w) →
  requests w' = alter mark_answered rid (requests w) →
  owners w' = owners w →
  tables_ok w'.
Proof.
  intros Hw Hreq Hans Hc Hl Hp Hr Ho.
  pose proof (open_uncached _ _ _ Hw Hreq Hans) as Hunc. destruct Hw.
  destruct (t_request0 _ _ Hreq) as [Hlp Hkey].
  pose proof (t_open0 _ _ Hreq Hans) as Hopen.
  pose proof (proj1 (t_answered0 _ _ Hreq) Hans) as Hpend.
  rewrite Hlp in Hp.
  split; rewrite ?Hl, ?Hp, ?Hr, ?Ho.
  - by rewrite settle_length, length_alter.
  - intros rid' r'. destruct (decide (rid = rid')) as [<-|?].
    + rewrite list_lookup_alter_eq, Hreq; cbn. intros [= <-]. by cbn.
    + rewrite list_lookup_alter_ne by done. apply t_request0.
  - intros rid' r'. destruct (decide (rid = rid')) as [<-|?].
    + rewrite list_lookup_alter_eq, Hreq; cbn. intros [= <-]. cbn.
      rewrite settle_lookup_pending by done. naive_solver.
    + rewrite list_lookup_alter_ne, settle_lookup_ne by done.
      apply t_answered0.
  - intros rid' r'. destruct (decide (rid = rid')) as [<-|?].
    + rewrite list_lookup_alter_eq, Hreq; cbn. by intros [= <-].
    + rewrite list_lookup_alter_ne by done. apply t_open0.
  - done.
  - intros tid k p [? (r&Hrp&?)]%t_owner0. split; [done|].
    destruct (decide (rid = p)) as [<-|?].
    + exists (mark_answered req). rewrite list_lookup_alter_eq, Hreq.
      by simplify_eq.
    + exists r. by rewrite list_lookup_alter_ne.
  - done.
  - intros k g p Hg Hk.
    assert (match s with
            | Fulfilled g' => k = cacheKey req ∧ g = g'
            | Rejected _ => False
            end ∨ modelCache (this w) !! k = Some g) as [Hs|Hold].
    { rewrite Hc in Hg. destruct s; [|by right].
      apply lookup_insert_Some in Hg. naive_solver. }
    + destruct s as [g'|]; [|done]. destruct Hs as [-> ->].
      rewrite Hkey, Hopen in Hk. simplify_eq.
      by rewrite settle_lookup_pending.
    + by eapply settle_lookup_settled, t_both0.
  - intros k g Hg.
    assert (match s with
            | Fulfilled g' => k = cacheKey req ∧ g = g'
            | Rejected _ => False
            end ∨ modelCache (this w) !! k = Some g) as [Hs|Hold].
    { rewrite Hc in Hg. destruct s; [|by right].
      apply lookup_insert_Some in Hg. naive_solver. }
    + destruct s as [g'|]; [|done]. destruct Hs as [-> ->].
      exists rid, (mark_answered req).
      rewrite list_lookup_alter_eq, Hreq, settle_lookup_pending by done.
      by rewrite Hkey.
    + destruct (t_cached0 _ _ Hold) as (rid'&r'&?&?&Hf). exists rid', r'.
      rewrite list_lookup_alter_ne by congruence.
      by erewrite settle_lookup_settled.
  - intros rid' r' g. destruct (decide (rid = rid')) as [<-|?].
    + rewrite list_lookup_alter_eq, Hreq, settle_lookup_pending by done; cbn.
      intros [= <-] [= ->]. cbn. by rewrite Hc, Hkey, lookup_insert_eq.
    + rewrite list_lookup_alter_ne, settle_lookup_ne by done.
      intros Hr' Hg. specialize (t_fulfilled0 _ _ _ Hr' Hg).
      rewrite Hc. destruct s; [|done].
      rewrite lookup_insert_ne; [done|]. congruence.
Qed.

Lemma tables_ok_tstep w w' : tables_ok w → tstep w w' → tables_ok w'.
Proof.
  intros Hw [n|n k|tid k p r|rid req g|rid req e].
  - by eapply tables_ok_quiet.
  - by eapply tables_ok_disk.
  - by eapply tables_ok_release.
  - by eapply (tables_ok_answer _ _ rid req (Fulfilled g)).
  - by eapply (tables_ok_answer _ _ rid req (Rejected e)).
Qed.

Lemma tables_ok_step e w w' : tables_ok w → step e w = Some w' → tables_ok w'.
Proof. intros Hw ?%step_tstep. by eapply tables_ok_tstep. Qed.

Lemma run_app es1 es2 w :
  run (es1 ++ es2) w = w' ← run es1 w; run es2 w'.
Proof.
  revert w. induction es1 as [|e es1 IH]; intros w; [done|].
  cbn [app run]. destruct (step e w); [apply IH|done].
Qed.

Lemma run_invariant (P : world → Prop) es w w' :
  (∀ e w w', P w → step e w = Some w' → P w') →
  P w → run es w = Some w' → P w'.
Proof.
  intros Hstep. revert w. induction es as [|e es IH]; intros w Hw; cbn [run].
  - by intros [= <-].
  - destruct (step e w) as [w1|] eqn:He; [|done]. cbn [mbind option_bind].
    apply IH. by eapply Hstep.
Qed.

Lemma tables_ok_reachable w : reachable w → tables_ok w.
Proof.
  intros [es Hes].
  by eapply (run_invariant tables_ok), Hes; [apply tables_ok_step|apply tables_ok_init].
Qed.

Lemma object3d_forall {M} (P : object3d M → Prop) :
  (∀ mesh mat cast recv pos rot scl kids,
     Forall P kids → P (Object3D mesh mat cast recv pos rot scl kids)) →
  ∀ o, P o.
Proof.
  intros H. fix IH 1. intros [mesh mat cast recv pos rot scl kids].
  apply H. induction kids as [|c kids IHkids]; constructor; [apply IH|done].
Qed.

Lemma refs_unfold mesh mat cast recv pos rot scl kids :
  refs (Object3D mesh mat cast recv pos rot scl kids) =
    option_list mat ++ flat_map refs kids.
Proof.
  unfold refs at 1. cbn [traverse omap list_omap material].
  assert (omap material (flat_map traverse kids) = flat_map refs kids) as ->.
  { induction kids as [|c kids IH]; [done|]. cbn [flat_map].
    by rewrite omap_app, IH. }
  by destruct mat.
Qed.

Lemma collect_unfold mesh mat cast recv pos rot scl kids :
  collect_materials (Object3D mesh mat cast recv pos rot scl kids) =
    (if mesh then option_list mat else []) ++ flat_map collect_materials kids.
Proof.
  unfold collect_materials at 1. cbn [traverse omap list_omap isMesh material].
  assert (omap (λ c, if isMesh c then material c else None) (flat_map traverse kids)
          = flat_map collect_materials kids) as ->.
  { induction kids as [|c kids IH]; [done|]. cbn [flat_map].
    by rewrite omap_app, IH. }
  by destruct mesh, mat.
Qed.

Lemma collect_refs o : collect_materials o ⊆ refs o.
Proof.
  induction o as [mesh mat cast recv pos rot scl kids IH] using object3d_forall.
  rewrite collect_unfold, refs_unfold.
  assert (flat_map collect_materials kids ⊆ flat_map refs kids).
  { induction IH as [|c kids Hc _ IH]; [done|]. cbn [flat_map].
    intros r [?|?]%elem_of_app; apply elem_of_app; [left|right]; auto. }
  intros r [Hr|?]%elem_of_app; apply elem_of_app; [left|right; auto].
  by destruct mesh; [|apply elem_of_nil in Hr].
Qed.

Lemma store_tree_unfold mesh mat cast recv pos rot scl kids ms :
  store_tree (Object3D mesh mat cast recv pos rot scl kids) ms =
    let '(mat', ms1) :=
      match mat with
      | Some m => (Some (length ms), ms ++ [m])
      | None => (None, ms)
      end in
    let '(kids', ms2) := store_forest kids ms1 in
    (Object3D mesh mat' cast recv pos rot scl kids', ms2).
Proof. done. Qed.

(** [store_tree] appends to the arena, and the stored tree names exactly
    the new cells. *)
Lemma store_tree_spec o ms :
  ∃ news, (store_tree o ms).2 = ms ++ news ∧
          refs (store_tree o ms).1 = seq (length ms) (length news).
Proof.
  revert ms.
  induction o as [mesh mat cast recv pos rot scl kids IH] using object3d_forall.
  intros ms. rewrite store_tree_unfold.
  assert (∀ ms1, ∃ news, (store_forest kids ms1).2 = ms1 ++ news ∧
            flat_map refs (store_forest kids ms1).1
              = seq (length ms1) (length news)) as Hkids.
  { induction IH as [|c kids Hc _ IHk]; intros ms1.
    - exists []. by rewrite app_nil_r.
    - cbn [store_forest]. destruct (Hc ms1) as (n1&E1&R1).
      destruct (store_tree c ms1) as [c' ms']. cbn [fst snd] in *. subst ms'.
      destruct (IHk (ms1 ++ n1)) as (n2&E2&R2). fold store_forest in *.
      destruct (store_forest kids (ms1 ++ n1)) as [l'' ms'']. cbn [fst snd] in *.
      exists (n1 ++ n2). subst ms''. rewrite app_assoc. split; [done|].
      cbn [flat_map]. rewrite R1, R2, !length_app, seq_app. done. }
  destruct mat as [m|].
  - destruct (Hkids (ms ++ [m])) as (news&E&R).
    destruct (store_forest kids (ms ++ [m])) as [kids' ms2]. cbn [fst snd] in *.
    exists (m :: news). subst ms2. rewrite <-app_assoc. split; [done|].
    rewrite refs_unfold, R, length_app. cbn. by rewrite Nat.add_1_r.
  - destruct (Hkids ms) as (news&E&R).
    destruct (store_forest kids ms) as [kids' ms2]. cbn [fst snd] in *.
    exists news. split; [done|]. by rewrite refs_unfold, R.
Qed.

Lemma enableShadows_refs o :
  refs (enableShadowsOptimized o) = refs o ∧
  collect_materials (enableShadowsOptimized o) = collect_materials o.
Proof.
  induction o as [mesh mat cast recv pos rot scl kids IH] using object3d_forall.
  cbn [enableShadowsOptimized]. rewrite !refs_unfold, !collect_unfold.
  assert (flat_map refs (map enableShadowsOptimized kids) = flat_map refs kids ∧
          flat_map collect_materials (map enableShadowsOptimized kids)
            = flat_map collect_materials kids) as [-> ->]; [|done].
  induction IH as [|c kids [Hc1 Hc2] _ [IH1 IH2]]; [done|]. cbn [map flat_map].
  by rewrite Hc1, Hc2, IH1, IH2.
Qed.

Lemma evolves_refl m h : evolves m h h.
Proof.
  split; try done.
  - intros i o ?. by exists o.
  - intros i o r Hi Ho. apply lookup_lt_Some in Ho. lia.
Qed.

Lemma evolves_trans m h1 h2 h3 :
  bounded h1 → evolves m h1 h2 → evolves m h2 h3 → evolves m h1 h3.
Proof.
  intros Hb [] []. split.
  - lia.
  - lia.
  - eauto.
  - intros i o (o'&?&<-&<-)%ev_shape0. eauto.
  - intros i o r Hi Ho Hr.
    destruct (decide (length (objects h2) ≤ i)).
    + etrans; [|by eapply ev_fresh1]. done.
    + destruct (lookup_lt_is_Some_2 (objects h2) i) as [o2 Ho2]; [lia|].
      destruct (ev_shape1 _ _ Ho2) as (o'&?&Hrefs&_). simplify_eq.
      rewrite Hrefs in Hr. eauto.
  - eauto.
  - intros r x Hr Hm. apply ev_frame1; [by apply ev_frame0|].
    intros o2 Ho2 Hin.
    destruct (objects h1 !! m) as [o1|] eqn:Ho1.
    + destruct (ev_shape0 _ _ Ho1) as (o'&?&Hrefs&_). simplify_eq.
      rewrite Hrefs in Hin. by eapply Hm.
    + apply lookup_ge_None in Ho1.
      pose proof (ev_fresh0 _ _ _ Ho1 Ho2 Hin). apply lookup_lt_Some in Hr. lia.
Qed.

Lemma evolves_alloc m o h :
  bounded h → (alloc o h).1 = length (objects h) ∧ evolves m h (alloc o h).2.
Proof.
  intros Hb. rewrite alloc_eq. cbn [fst snd]. split; [done|].
  destruct (store_tree_spec o (materials h)) as (news&E&R).
  assert (∀ i o' r, (objects h ++ [(store_tree o (materials h)).1]) !! i = Some o' →
            length (objects h) ≤ i → r ∈ refs o' →
            length (materials h) ≤ r < length (materials h ++ news)) as Hnew.
  { intros i o' r [?%lookup_lt_Some|[_ [_ <-]%list_lookup_singleton_Some]]%lookup_app_Some ?;
      [lia|].
    rewrite R, elem_of_seq, length_app. lia. }
  split; cbn [objects materials]; rewrite ?E.
  - rewrite length_app. lia.
  - rewrite length_app. lia.
  - intros i o' Ho' _. by apply lookup_app_l_Some.
  - intros i o' Ho'. exists o'. by rewrite (lookup_app_l_Some _ _ _ _ Ho').
  - intros i o' r Hi Ho' Hr. by eapply Hnew.
  - intros _ i o' r Ho' Hr. cbn [objects materials] in *.
    destruct (decide (length (objects h) ≤ i)); [by eapply Hnew|].
    rewrite lookup_app_l in Ho' by lia. rewrite length_app.
    specialize (Hb _ _ _ Ho' Hr). lia.
  - intros r x Hr _. by apply lookup_app_l_Some.
Qed.

Lemma evolves_update_root m f h :
  (∀ o, refs (f o) = refs o ∧ collect_materials (f o) = collect_materials o) →
  evolves m h (update_root m f h).
Proof.
  intros Hf. split; cbn [update_root objects materials]; try done.
  - by rewrite length_alter.
  - intros i o Ho ?. by rewrite list_lookup_alter_ne.
  - intros i o Ho. destruct (decide (m = i)) as [->|].
    + exists (f o). by rewrite list_lookup_alter_eq, Ho, !(proj1 (Hf o)), !(proj2 (Hf o)).
    + exists o. by rewrite list_lookup_alter_ne.
  - intros i o r Hi Ho%lookup_lt_Some. rewrite length_alter in Ho. lia.
  - intros Hb i o r. cbn [update_root objects materials].
    destruct (decide (m = i)) as [->|].
    + rewrite list_lookup_alter_eq. destruct (objects h !! i) as [o0|] eqn:Ho0; [|done].
      cbn. intros [= <-]. rewrite (proj1 (Hf o0)). by eapply Hb.
    + rewrite list_lookup_alter_ne by done. apply Hb.
Qed.

Lemma process_batch_length config batch ms :
  length (process_batch config batch ms) = length ms.
Proof.
  unfold process_batch. revert ms.
  induction batch as [|r batch IH]; intros ms; [done|].
  cbn [foldl]. by rewrite IH, length_alter.
Qed.

Lemma process_batch_frame config batch ms r :
  r ∉ batch → process_batch config batch ms !! r = ms !! r.
Proof.
  unfold process_batch. revert ms.
  induction batch as [|r' batch IH]; intros ms Hr; [done|].
  apply not_elem_of_cons in Hr as [? ?]. cbn [foldl].
  by rewrite IH, list_lookup_alter_ne.
Qed.

Lemma evolves_process_batch m config batch h o :
  objects h !! m = Some o → batch ⊆ refs o →
  evolves m h (Heap (objects h) (process_batch config batch (materials h))).
Proof.
  intros Ho Hsub. split; cbn [objects materials]; try done.
  - by rewrite process_batch_length.
  - intros i o' ?. by exists o'.
  - intros i o' r Hi Ho'%lookup_lt_Some. lia.
  - intros Hb i o' r ??. cbn [objects materials] in *.
    rewrite process_batch_length. by eapply Hb.
  - intros r x Hr Hm. rewrite process_batch_frame; [done|].
    intros Hin%Hsub. by eapply Hm.
Qed.

Lemma set_root_shape v f o :
  f = set_scale ∨ f = set_position ∨ f = set_rotation →
  refs (when_given v f o) = refs o ∧
  collect_materials (when_given v f o) = collect_materials o.
Proof.
  intros Hf. destruct v as [v|]; [|done]. destruct o.
  by destruct Hf as [-> | [-> | ->]]; unfold when_given, set_scale, set_position,
    set_rotation; simpl;
    rewrite !refs_unfold, !collect_unfold.
Qed.

Lemma materials_loop_frame fuel config mats i ms ms' y :
  materials_loop fuel config mats i ms = Some (ms', y) →
  length ms' = length ms ∧ ∀ r, r ∉ mats → ms' !! r = ms !! r.
Proof.
  assert (∀ j ms r, r ∉ mats →
            process_batch config (take batchSize (drop j mats)) ms !! r = ms !! r)
    as Hbatch.
  { intros j ms0 r Hr. apply process_batch_frame. intros Hin. apply Hr.
    by eapply subseteq_drop, subseteq_take. }
  revert i ms. induction fuel as [|fuel IH]; intros i ms; cbn [materials_loop];
    (case_decide; [|intros ?; by simplify_eq]);
    (case_decide; [intros ?; simplify_eq; split;
                     [apply process_batch_length|by apply Hbatch]|]).
  - done.
  - intros [Hlen Hfr]%IH. rewrite process_batch_length in Hlen. split; [done|].
    intros r Hr. by rewrite Hfr, Hbatch.
Qed.

Lemma evolves_write_materials m h ms' o :
  objects h !! m = Some o →
  length ms' = length (materials h) →
  (∀ r, r ∉ refs o → ms' !! r = materials h !! r) →
  evolves m h (Heap (objects h) ms').
Proof.
  intros Ho Hlen Hfr. split; cbn [objects materials]; try done.
  - by rewrite Hlen.
  - intros i o' ?. by exists o'.
  - intros i o' r Hi Ho'%lookup_lt_Some. lia.
  - intros Hb i o' r ??. cbn [objects materials] in *. rewrite Hlen. by eapply Hb.
  - intros r x Hr Hm. rewrite Hfr; [done|]. by eapply Hm.
Qed.

Lemma processMaterials_from_evolves m config mats i w w' f o :
  objects (mem w) !! m = Some o → mats = collect_materials o →
  processMaterials_from m config mats i w = Some (w', f) →
  evolves m (mem w) (mem w') ∧ model_of f = Some m ∧ yield_ok (mem w') f ∧
  (f = AwaitMaterials m ∨ ∃ j, f = AwaitYield m config mats j) ∧
  objects (mem w') = objects (mem w).
Proof.
  intros Ho Hmats. unfold processMaterials_from.
  destruct (materials_loop _ _ _ _ _) as [[ms y]|] eqn:Hloop; [|done].
  cbn [mbind option_bind]. intros ?; simplify_eq. cbn [mem set_mem].
  apply materials_loop_frame in Hloop as [Hlen Hfr]. split.
  { eapply evolves_write_materials; [done..|].
    intros r Hr. apply Hfr. intros Hin. by apply Hr, collect_refs. }
  destruct y as [j|]; cbn; [|by auto]. split_and!; [done| |by eauto|done].
  by exists o.
Qed.

Lemma createInstance_finish_evolves cfg m w w' f :
  createInstance_finish cfg m w = (w', f) →
  evolves m (mem w) (mem w') ∧ f = AwaitInstance m ∧
  length (objects (mem w')) = length (objects (mem w)).
Proof.
  unfold createInstance_finish. intros ?; simplify_eq. cbn [mem set_this set_mem].
  destruct (ModelConfig.enableShadows cfg); [|by split; [apply evolves_refl|]].
  split_and!; [|done|by cbn; rewrite length_alter].
  apply (evolves_update_root m enableShadowsOptimized), enableShadows_refs.
Qed.

Lemma alloc_lookup o h :
  objects (alloc o h).2 !! length (objects h) = Some (store_tree o (materials h)).1.
Proof.
  rewrite alloc_eq. cbn [snd objects]. by rewrite lookup_app_r, Nat.sub_diag.
Qed.

Lemma createInstance_evolves gltf cfg w w' f :
  bounded (mem w) →
  createInstance gltf cfg w = Some (w', f) →
  let m := length (objects (mem w)) in
  GLTF.scene gltf < length (objects (mem w)) ∧
  evolves m (mem w) (mem w') ∧
  model_of f = Some m ∧ yield_ok (mem w') f ∧
  length (objects (mem w')) = S m.
Proof.
  intros Hb. unfold createInstance, clone.
  destruct (objects (mem w) !! GLTF.scene gltf) as [src|] eqn:Hsrc; [|done].
  cbn [mbind option_bind].
  destruct (evolves_alloc (length (objects (mem w))) (load_tree (materials (mem w)) src)
              (mem w) Hb) as [Hm Hev0].
  pose proof (alloc_lookup (load_tree (materials (mem w)) src) (mem w)) as Hnew.
  destruct (alloc _ _) as [model h0] eqn:Halloc. cbn [fst snd] in *. subst model.
  set (m := length (objects (mem w))) in *.
  set (h1 := update_root m (when_given (ModelConfig.scale cfg) set_scale) h0).
  set (h2 := update_root m (when_given (ModelConfig.position cfg) set_position) h1).
  set (h3 := update_root m (when_given (ModelConfig.rotation cfg) set_rotation) h2).
  assert (evolves m h0 h1) as Hev1.
  { apply evolves_update_root. intros o. apply set_root_shape. auto. }
  assert (evolves m h1 h2) as Hev2.
  { apply evolves_update_root. intros o. apply set_root_shape. auto. }
  assert (evolves m h2 h3) as Hev3.
  { apply evolves_update_root. intros o. apply set_root_shape. auto. }
  pose proof (ev_bounded _ _ _ Hev0 Hb) as Hb0.
  pose proof (ev_bounded _ _ _ Hev1 Hb0) as Hb1.
  pose proof (ev_bounded _ _ _ Hev2 Hb1) as Hb2.
  assert (evolves m (mem w) h3) as Hev.
  { eapply evolves_trans; [done|exact Hev0|].
    eapply evolves_trans; [done|exact Hev1|].
    eapply evolves_trans; [done|exact Hev2|exact Hev3]. }
  assert (is_Some (objects h3 !! m)) as [o3 Ho3].
  { destruct (ev_shape _ _ _ Hev1 _ _ Hnew) as (o1&Ho1&_).
    destruct (ev_shape _ _ _ Hev2 _ _ Ho1) as (o2&Ho2&_).
    destruct (ev_shape _ _ _ Hev3 _ _ Ho2) as (o3&Ho3&_). by exists o3. }
  assert (length (objects h3) = S m) as Hlen3.
  { unfold h3, h2, h1, update_root. cbn [objects]. rewrite !length_alter.
    apply (f_equal (λ x, length (objects x.2))) in Halloc. cbn [snd] in Halloc.
    rewrite <-Halloc, alloc_eq. cbn [snd objects]. rewrite length_app. cbn. lia. }
  intros Hrest. split; [by eapply lookup_lt_Some|].
  destruct (ModelConfig.processMaterials cfg).
  - rewrite Ho3 in Hrest. cbn [mbind option_bind] in Hrest.
    eapply processMaterials_from_evolves in Hrest as (Hev4&?&?&_&Hobj); [|done..].
    cbn [mem set_mem] in Hev4, Hobj. split_and!; try done.
    + eapply evolves_trans; [done|exact Hev|exact Hev4].
    + by rewrite Hobj.
  - apply (inj Some) in Hrest.
    apply createInstance_finish_evolves in Hrest as (Hev4&->&Hlen).
    cbn [mem set_mem] in Hev4, Hlen. split_and!; try done.
    + eapply evolves_trans; [done|exact Hev|exact Hev4].
    + by rewrite Hlen.
Qed.

Lemma evolves_separated m h h' :
  bounded h → separated h → evolves m h h' →
  length (objects h') ≤ S (length (objects h)) → separated h'.
Proof.
  intros Hb Hs [] Hlen i j o o' r Ho Ho' Hr Hr'.
  destruct (decide (length (objects h) ≤ i)), (decide (length (objects h) ≤ j)).
  - apply lookup_lt_Some in Ho, Ho'. lia.
  - destruct (lookup_lt_is_Some_2 (objects h) j) as [o0 Ho0]; [lia|].
    destruct (ev_shape0 _ _ Ho0) as (?&?&Hrefs&_). simplify_eq.
    rewrite Hrefs in Hr'. specialize (Hb _ _ _ Ho0 Hr').
    specialize (ev_fresh0 _ _ _ l Ho Hr). lia.
  - destruct (lookup_lt_is_Some_2 (objects h) i) as [o0 Ho0]; [lia|].
    destruct (ev_shape0 _ _ Ho0) as (?&?&Hrefs&_). simplify_eq.
    rewrite Hrefs in Hr. specialize (Hb _ _ _ Ho0 Hr).
    specialize (ev_fresh0 _ _ _ l Ho' Hr'). lia.
  - destruct (lookup_lt_is_Some_2 (objects h) i) as [o0 Ho0]; [lia|].
    destruct (lookup_lt_is_Some_2 (objects h) j) as [o1 Ho1]; [lia|].
    destruct (ev_shape0 _ _ Ho0) as (?&?&Hrefs&_).
    destruct (ev_shape0 _ _ Ho1) as (?&?&Hrefs'&_). simplify_eq.
    rewrite Hrefs in Hr. rewrite Hrefs' in Hr'. by eapply Hs.
Qed.

Lemma seg_ok_inert w old f :
  model_of f = None → (∀ g, f ≠ AwaitDiskResult (Fulfilled g)) →
  seg_ok w w old f.
Proof.
  intros Hf Hg. split_and!; try done.
  - by destruct f.
  - intros g ->. by destruct (Hg g).
  - lia.
  - by left.
Qed.

Lemma same_objects_length_S h h' :
  objects h' = objects h → length (objects h') ≤ S (length (objects h)).
Proof. intros ->. lia. Qed.

Lemma createInstance_seg gltf cfg w w1 f old :
  heap_ok w → createInstance gltf cfg w = Some (w1, f) → seg_ok w w1 old f.
Proof.
  intros Hw Hci.
  destruct (createInstance_tables _ _ _ _ _ Hci) as [(_&_&_&Hp&_&_) Hf].
  apply createInstance_evolves in Hci as (_&Hev&Hm&Hy&Hlen); [|apply Hw].
  split_and!; try done.
  - unfold fulfilled. by rewrite Hp.
  - intros g ->. done.
  - lia.
  - right. eexists. split_and!; [done..|lia|by right].
Qed.

Lemma seg_ok_proper w w1 v v1 old f :
  mem v = mem w → promises v = promises w →
  mem v1 = mem w1 → promises v1 = promises w1 →
  seg_ok w w1 old f → seg_ok v v1 old f.
Proof.
  unfold seg_ok, fulfilled. intros -> -> -> ->. done.
Qed.

Lemma heap_ok_proper w v :
  mem v = mem w → promises v = promises w → tasks v = tasks w →
  heap_ok w → heap_ok v.
Proof.
  intros Hm Hp Ht []. split; unfold fulfilled in *; rewrite ?Hm, ?Hp, ?Ht; done.
Qed.

Lemma loadModel_seg cfg w w1 f old :
  heap_ok w → loadModel cfg w = Some (w1, f) → seg_ok w w1 old f.
Proof.
  intros Hw [g Hc H|p Hc Hp -> ->|Hc Hp H]%loadModel_branches.
  - eapply seg_ok_proper; [..|eapply createInstance_seg, H]; try done.
    by eapply heap_ok_proper, Hw.
  - by eapply (seg_ok_proper w w), (seg_ok_inert w).
  - rewrite loadModelFromDisk_spec in H. simplify_eq. split_and!; try done.
    + intros g. unfold fulfilled. cbn [promises set_this]. split.
      * intros [p [?|[_ [_ [=]]%list_lookup_singleton_Some]]%lookup_app_Some].
        by exists p.
      * intros [p Hp']. exists p. by apply lookup_app_l_Some.
    + cbn. lia.
    + by left.
Qed.

Lemma resume_seg tid a w w1 f spawned cfg c :
  heap_ok w → tasks w !! tid = Some a → call a = LoadModel cfg c →
  resume tid a w = Some (w1, f, spawned) →
  seg_ok w w1 (model_of (at_ a)) f ∧ spawned = [] ∧ tasks w1 = tasks w.
Proof.
  intros Hw Ha Hcall Hr.
  destruct (resume_cases _ _ _ _ _ _ Hr)
    as [cfg' c' p g Hc Hat Hp Hi ->|cfg' c' p error Hc Hat Hp -> -> ->
       |cfg' c' p r Hc Hat Hp -> -> ->|cfg' c' g Hc Hat Hi ->
       |cfg' c' error Hc Hat -> -> ->|cfg' c' m mc mats i Hc Hat Hi ->
       |cfg' c' m Hc Hat Hi ->|cfg' c' m Hc Hat -> -> ->
       |cfgs cb i rs ch chd config m Hc Hat Hch Hi Hs Hret -> -> ->
       |cfgs cb i rs ch chd config m Hc Hat Hch Hi Hs Hret Hl
       |cfgs cb i rs ch chd config error Hc Hat Hch Hi Hs Hl
       |cfgs cb i rs Hc Hat Hl]; try congruence.
  - split_and!; [by eapply createInstance_seg|done|].
    by apply createInstance_tables in Hi as [(_&_&_&_&_&?) _].
  - split_and!; [by apply seg_ok_inert|done..].
  - split_and!; [|done..]. eapply (seg_ok_proper w w); [done..|].
    split_and!; try done.
    + intros g [= ->]. by exists p.
    + lia.
    + by left.
  - split_and!; [by eapply createInstance_seg|done|].
    by apply createInstance_tables in Hi as [(_&_&_&_&_&?) _].
  - split_and!; [by apply seg_ok_inert|done..].
  - pose proof (h_yield _ Hw _ _ Ha) as Hy. rewrite Hat in Hy.
    destruct Hy as (o&Ho&Hmats).
    destruct (processMaterials_from_tables _ _ _ _ _ _ _ Hi) as [(_&_&_&Hp&_&Ht) _].
    eapply processMaterials_from_evolves in Hi as (Hev&Hm&Hy&_&Hobj); [|done..].
    split_and!; [|done..]. rewrite Hat. split_and!; try done.
    + unfold fulfilled. by rewrite Hp.
    + intros g ->. done.
    + rewrite Hobj. lia.
    + right. exists m. rewrite Hobj. split_and!; [done..| |by left].
      by eapply lookup_lt_Some.
  - pose proof (h_model _ Hw _ _ m Ha) as Hm. rewrite Hat in Hm.
    specialize (Hm eq_refl).
    destruct (createInstance_finish_tables _ _ _ _ _ Hi) as [(_&_&_&Hp&_&Ht) _].
    apply createInstance_finish_evolves in Hi as (Hev&->&Hlen).
    split_and!; [|done..]. rewrite Hat. split_and!; try done.
    + unfold fulfilled. by rewrite Hp.
    + lia.
    + right. exists m. split_and!; [done..|lia|by left].
  - pose proof (h_model _ Hw _ _ m Ha) as Hm. rewrite Hat in Hm.
    specialize (Hm eq_refl).
    split_and!; [|done..]. rewrite Hat. split_and!; try done.
    + lia.
    + right. exists m. split_and!; [done|apply evolves_refl|done|by left].
Qed.

Lemma yield_ok_evolves m h h' f :
  evolves m h h' → yield_ok h f → yield_ok h' f.
Proof.
  intros Hev. destruct f; try done. cbn. intros (o&Ho&->).
  destruct (ev_shape _ _ _ Hev _ _ Ho) as (o'&?&_&?). by exists o'.
Qed.

Lemma heap_ok_hstep w w' : heap_ok w → hstep w w' → heap_ok w'.
Proof.
  intros Hw [w1 f t (Hful&Hy&Hres&Hlen&Hcase) Hmem Hprom Htasks
            |parsed g Hmem Hg Hmono Hnew Htasks|Hmem Hful Htasks].
  - assert (∀ g, fulfilled w' g ↔ fulfilled w g) as Hful'.
    { intros g. unfold fulfilled. rewrite Hprom. apply Hful. }
    assert (∃ m, evolves m (mem w) (mem w')) as [m0 Hev0].
    { rewrite Hmem. destruct Hcase as [[_ ->]|(m&_&?&_)]; [|by exists m].
      exists 0. apply evolves_refl. }
    assert (length (objects (mem w)) ≤ length (objects (mem w'))) as Hle
      by apply Hev0.
    split.
    + eapply ev_bounded; [done|apply Hw].
    + eapply evolves_separated; [apply Hw..|done|]. by rewrite Hmem.
    + intros g Hg%Hful'. eapply Nat.lt_le_trans; [by eapply h_gltf|done].
    + intros t' x g [Hx|[[_ Hx]|[-> Hx]]]%Htasks Hat.
      * apply Hful'. by eapply h_result.
      * by destruct (Hx g).
      * apply Hful', Hres. congruence.
    + intros t' x m [Hx|[[Hx _]|[-> Hx]]]%Htasks Hm.
      * eapply Nat.lt_le_trans; [by eapply h_model|done].
      * congruence.
      * rewrite Hx in Hm. rewrite Hmem.
        destruct Hcase as [[? _]|(m'&?&_&?&_)]; [congruence|]. by simplify_eq.
    + intros g t' x Hg%Hful' [Hx|[[Hx _]|[-> Hx]]]%Htasks Hm.
      * by eapply (h_apart _ Hw).
      * congruence.
      * rewrite Hx in Hm.
        destruct Hcase as [[? _]|(m'&?&_&_&[[Hold _]| ->])]; [congruence|..];
          simplify_eq.
        -- unfold held in Hold. destruct (tasks w !! t) as [a|] eqn:Ha; [|done].
           by eapply (h_apart _ Hw).
        -- apply (h_gltf _ Hw) in Hg. lia.
    + intros t' x [Hx|[[Hx _]|[-> Hx]]]%Htasks.
      * eapply yield_ok_evolves; [done|]. by eapply h_yield.
      * by destruct (at_ x).
      * by rewrite Hx, Hmem.
    + assert (∀ t' x m, tasks w' !! t' = Some x → model_of (at_ x) = Some m →
                (tasks w !! t' = Some x ∧ m < length (objects (mem w))) ∨
                (t' = t ∧ (held w t = Some m ∨ m = length (objects (mem w)))))
        as Hsplit.
      { intros t' x m [Hx|[[Hx _]|[-> Hx]]]%Htasks Hm.
        - left. split; [done|]. by eapply h_model.
        - congruence.
        - right. split; [done|]. rewrite Hx in Hm.
          destruct Hcase as [[? _]|(m'&?&_&_&[[Hold _]| ->])]; [congruence|..];
            simplify_eq; auto. }
      intros t1 t2 a1 a2 m Ha1 Ha2 Hm1 Hm2.
      destruct (Hsplit _ _ _ Ha1 Hm1) as [[Ho1 ?]|[-> Hh1]],
        (Hsplit _ _ _ Ha2 Hm2) as [[Ho2 ?]|[-> Hh2]]; try done.
      * by eapply (h_unique _ Hw).
      * destruct Hh2 as [Hh2|?]; [|lia]. unfold held in Hh2.
        destruct (tasks w !! t) as [a|] eqn:Ha; [|done].
        by eapply (h_unique _ Hw).
      * destruct Hh1 as [Hh1|?]; [|lia]. unfold held in Hh1.
        destruct (tasks w !! t) as [a|] eqn:Ha; [|done].
        by eapply (h_unique _ Hw).
  - destruct (evolves_alloc (length (objects (mem w))) parsed (mem w))
      as [_ Hev]; [apply Hw|]. rewrite <-Hmem in Hev.
    assert (length (objects (mem w')) = S (length (objects (mem w)))) as Hlen.
    { rewrite Hmem, alloc_eq. cbn. rewrite length_app. cbn. lia. }
    split; rewrite ?Htasks.
    + eapply ev_bounded; [done|apply Hw].
    + eapply evolves_separated; [apply Hw..|done|lia].
    + intros g' [Hg'| ->]%Hnew; [|lia]. apply (h_gltf _ Hw) in Hg'. lia.
    + intros. eapply Hmono, h_result; eauto.
    + intros t' x m Hx Hm. pose proof (h_model _ Hw _ _ _ Hx Hm). lia.
    + intros g' t' x [Hg'| ->]%Hnew Hx; [by eapply (h_apart _ Hw)|].
      intros Hm. pose proof (h_model _ Hw _ _ _ Hx Hm). lia.
    + intros t' x Hx. eapply yield_ok_evolves; [done|]. by eapply h_yield.
    + apply Hw.
  - destruct Hw. split; rewrite ?Hmem, ?Htasks; try done.
    + intros g ?%Hful. auto.
    + intros t' x g ??. apply Hful. eauto.
    + intros g t' x ?%Hful. eauto.
Qed.

Lemma progressive_loop_seg tid child cfgs i results w w1 f spawned :
  heap_ok w →
  progressive_loop tid child cfgs i results w = Some (w1, f, spawned) →
  inert f ∧ tasks w1 = tasks w ∧
  ((spawned = [] ∧ w1 = w) ∨
   (∃ config f0 c, spawned = [Activation (LoadModel config c) f0] ∧
      seg_ok w w1 None f0)).
Proof.
  intros Hw [(?&->&->&->)|(config&f0&?&Hl&->&->)]%progressive_loop_spec.
  - split_and!; [done|done|by left].
  - split_and!; [done| |right; eexists _, _, _; split; [done|by eapply loadModel_seg]].
    by apply loadModel_tables_spec in Hl as [? ? ? ? Ho ?|? ? ? ? ? ? Ho ?].
Qed.

Lemma held_None w t : length (tasks w) ≤ t → held w t = None.
Proof. intros ?. unfold held. by rewrite lookup_ge_None_2. Qed.

Lemma step_hstep e w w' : heap_ok w → step e w = Some w' → hstep w w'.
Proof.
  intros Hw. destruct e as [cfg|cfgs cb|tid|rid parsed|rid error]; cbn [step].
  - destruct (loadModel cfg w) as [[w1 f]|] eqn:Hl; [|done].
    cbn [mbind option_bind]. intros H; apply (inj Some) in H; subst w'.
    eapply (hs_seg _ _ w1 f (length (tasks w))); [|done..|].
    + rewrite held_None by done. by eapply loadModel_seg.
    + cbn [tasks].
      assert (tasks w1 = tasks w) as ->
        by by apply loadModel_tables_spec in Hl as [? ? ? ? Ho ?|? ? ? ? ? ? Ho ?].
      intros t' x [?|[? [? <-]%list_lookup_singleton_Some]]%lookup_app_Some.
      { by left. }
      right; right. split; [lia|done].
  - destruct (progressive_loop _ _ _ _ _ _) as [[[w1 f] spawned]|] eqn:Hl; [|done].
    cbn [mbind option_bind]. intros H; apply (inj Some) in H; subst w'.
    apply progressive_loop_seg in Hl
      as (Hf&Ht&[[-> ->]|(config&f0&c&->&Hseg)]); [| |done].
    + eapply (hs_seg _ _ w f 0); [|done..|].
      * apply seg_ok_inert; apply Hf.
      * cbn [tasks].
        intros t' x [?|[? [? <-]%list_lookup_singleton_Some]]%lookup_app_Some.
        { by left. }
        by right; left.
    + eapply (hs_seg _ _ w1 f0 (S (length (tasks w)))); [|done..|].
      * rewrite held_None by lia. done.
      * cbn [tasks]. rewrite Ht.
        intros t' x [?|[? Hx]]%lookup_app_Some; [by left|right].
        destruct (t' - length (tasks w)) as [|[|n]] eqn:Hn; cbn in Hx;
          simplify_eq; [by left|right]. split; [lia|done].
  - destruct (tasks w !! tid) as [a|] eqn:Ha; [|done]. cbn [mbind option_bind].
    destruct (resume tid a w) as [[[w1 f] spawned]|] eqn:Hr; [|done].
    cbn [mbind option_bind]. intros H; apply (inj Some) in H; subst w'.
    destruct (call a) as [cfg c|cfgs cb] eqn:Hcall.
    + eapply resume_seg in Hr as (Hseg&->&Ht); [|done..].
      eapply (hs_seg _ _ w1 f tid); [|done..|].
      * unfold held. by rewrite Ha.
      * cbn [tasks]. rewrite Ht, app_nil_r.
        intros t' x [(->&<-&_)|[_ ?]]%list_lookup_insert_Some; auto.
    + assert (inert f ∧ tasks w1 = tasks w ∧
              ((spawned = [] ∧ w1 = w) ∨
               (∃ config f0 c, spawned = [Activation (LoadModel config c) f0] ∧
                  seg_ok w w1 None f0))) as (Hf&Ht&Hsp).
      { destruct (resume_cases _ _ _ _ _ _ Hr)
          as [cfg' c' p g Hc Hat Hp Hi ->|cfg' c' p error Hc Hat Hp -> -> ->
             |cfg' c' p r Hc Hat Hp -> -> ->|cfg' c' g Hc Hat Hi ->
             |cfg' c' error Hc Hat -> -> ->|cfg' c' m mc mats i Hc Hat Hi ->
             |cfg' c' m Hc Hat Hi ->|cfg' c' m Hc Hat -> -> ->
             |cfgs' cb' i rs ch chd config m Hc Hat Hch Hi Hs Hret -> -> ->
             |cfgs' cb' i rs ch chd config m Hc Hat Hch Hi Hs Hret Hl
             |cfgs' cb' i rs ch chd config error Hc Hat Hch Hi Hs Hl
             |cfgs' cb' i rs Hc Hat Hl]; try congruence.
        - split_and!; [done|done|by left].
        - by eapply progressive_loop_seg.
        - by eapply progressive_loop_seg.
        - by eapply progressive_loop_seg. }
      destruct Hsp as [[-> ->]|(config&f0&c&->&Hseg)].
      * eapply (hs_seg _ _ w f tid); [|done..|].
        -- apply seg_ok_inert; apply Hf.
        -- cbn [tasks]. rewrite app_nil_r.
           intros t' x [(->&<-&_)|[_ ?]]%list_lookup_insert_Some; auto.
      * eapply (hs_seg _ _ w1 f0 (length (tasks w))); [|done..|].
        -- rewrite held_None by lia. done.
        -- cbn [tasks]. rewrite Ht.
           intros t' x [Hx|[Hlen [Hi <-]%list_lookup_singleton_Some]]%lookup_app_Some.
           ++ apply list_lookup_insert_Some in Hx as [(->&<-&_)|[_ ?]]; auto.
           ++ rewrite length_insert in Hlen, Hi. right; right. split; [lia|done].
  - unfold open_request. destruct (requests w !! rid) as [req|] eqn:Hreq; [|done].
    cbn [mbind option_bind]. destruct (answered req) eqn:Hans; [done|].
    intros H; apply (inj Some) in H; subst w'. rewrite onLoad_eq.
    eapply (hs_onLoad _ _ parsed (GLTF.mk (length (objects (mem w))))); try done.
    + intros g' [p Hp]. exists p. cbn. by apply settle_lookup_settled.
    + intros g' [p Hp]. cbn in Hp.
      destruct (decide (loadingPromise req = p)) as [<-|?].
      * unfold settle in Hp.
        destruct (promises w !! loadingPromise req) as [[s|]|] eqn:Hq.
        -- left. exists (loadingPromise req). congruence.
        -- rewrite list_lookup_insert_eq in Hp by by eapply lookup_lt_Some.
           right. congruence.
        -- congruence.
      * rewrite settle_lookup_ne in Hp by done. left. by exists p.
  - unfold open_request. destruct (requests w !! rid) as [req|] eqn:Hreq; [|done].
    cbn [mbind option_bind]. destruct (answered req) eqn:Hans; [done|].
    intros H; apply (inj Some) in H; subst w'.
    eapply hs_onError; try done. intros g. split.
    + intros [p Hp]. cbn in Hp.
      destruct (decide (loadingPromise req = p)) as [<-|?].
      * unfold settle in Hp.
        destruct (promises w !! loadingPromise req) as [[s|]|] eqn:Hq.
        -- exists (loadingPromise req). congruence.
        -- rewrite list_lookup_insert_eq in Hp by by eapply lookup_lt_Some.
           congruence.
        -- congruence.
      * rewrite settle_lookup_ne in Hp by done. by exists p.
    + intros [p Hp]. exists p. cbn. by apply settle_lookup_settled.
Qed.

Lemma heap_ok_init : heap_ok init.
Proof. split; cbn; try done; unfold fulfilled; cbn; naive_solver. Qed.

Lemma heap_ok_step e w w' : heap_ok w → step e w = Some w' → heap_ok w'.
Proof. intros Hw ?%step_hstep; [|done]. by eapply heap_ok_hstep. Qed.

Lemma heap_ok_reachable w : reachable w → heap_ok w.
Proof.
  intros [es Hes].
  by eapply (run_invariant heap_ok), Hes; [apply heap_ok_step|apply heap_ok_init].
Qed.

Lemma status_moves w w' k :
  tables_ok w → tstep w w' →
  (∀ g, modelCache (this w) !! k = Some g → modelCache (this w') !! k = Some g) ∧
  match status_of w k, status_of w' k with
  | Uncached, Uncached | Uncached, Pending
  | Pending, Pending | Pending, Cached | Cached, Cached => True
  | Pending, Uncached =>
      ∃ p error, loadingPromises (this w) !! k = Some p ∧
                 promises w !! p = Some (Some (Rejected error))
  | _, _ => False
  end.
Proof.
  intros Hw Hstep. unfold status_of.
  destruct Hstep as [n Hc Hl|n k' Hck Hlk Hc Hl|tid k' p r Ho Hp Hc Hl
                    |rid req g Hreq Hans Hc Hl|rid req e Hreq Hans Hc Hl];
    rewrite Hc, Hl.
  - split; [done|]. by repeat case_match.
  - split; [done|]. destruct (decide (k' = k)) as [->|].
    + rewrite Hck, Hlk, lookup_insert_eq. done.
    + rewrite lookup_insert_ne by done. by repeat case_match.
  - split; [done|]. destruct (t_owner _ Hw _ _ _ Ho) as [Hk (rq&Hrq&Hurl)].
    destruct (decide (k' = k)) as [->|].
    + rewrite lookup_delete_eq, Hk.
      destruct (modelCache (this w) !! k) as [g|] eqn:Hg; [done|].
      destruct r as [g|error]; [|by eauto].
      pose proof (t_fulfilled _ Hw _ _ _ Hrq Hp). congruence.
    + rewrite lookup_delete_ne by done. by repeat case_match.
  - pose proof (open_uncached _ _ _ Hw Hreq Hans) as Hunc.
    pose proof (t_open _ Hw _ _ Hreq Hans) as Hopen.
    destruct (t_request _ Hw _ _ Hreq) as [_ Hkey]. rewrite Hkey.
    destruct (decide (url req = k)) as [<-|].
    + rewrite Hunc, Hopen, lookup_insert_eq. done.
    + rewrite lookup_insert_ne by done. split; [done|]. by repeat case_match.
  - split; [done|]. by repeat case_match.
Qed.

(** C3, counterexample.  After [onLoad] has stored the asset and resolved
    the promise, and before [loadModelFromDisk] resumes, the path is in
    [modelCache] and in [loadingPromises] at once, in a state where the
    load is suspended at its [await]: the two tables are not exclusive
    in every reachable state. *)
Lemma lifecycle_not_exclusive :
  ¬ (∀ w, reachable w → exclusive w).
Proof.
  intros H.
  destruct (run just_loaded init) as [w|] eqn:Hrun; [|by vm_compute in Hrun].
  destruct (H w (ex_intro _ just_loaded Hrun) "a.glb") as [Hk|Hk];
    vm_compute in Hrun; apply (inj Some) in Hrun; subst w; by vm_compute in Hk.
Qed.

(** C3, amended.  As long as neither [clearCache] nor [dispose] is
    called: in every state that calls of [loadModel] and of
    [loadModelsProgressively], resumptions and callbacks of [GLTFLoader]
    lead to, a path that is both cached and pending has a pending entry
    whose promise is already fulfilled with the cached asset; and every
    such step moves a path along uncached -> pending -> cached only,
    keeps a cached asset as it is, and takes a pending path back to
    uncached only when its promise was rejected.  [clearCache] and
    [dispose] empty both tables: they take every path back to uncached,
    whatever is in flight. *)
Theorem lifecycle (w : world) (Hw : reachable w) :
  (∀ k g p,
     modelCache (this w) !! k = Some g →
     loadingPromises (this w) !! k = Some p →
     promises w !! p = Some (Some (Fulfilled g))) ∧
  (∀ e w' k, step e w = Some w' →
     (∀ g, modelCache (this w) !! k = Some g →
           modelCache (this w') !! k = Some g) ∧
     match status_of w k, status_of w' k with
     | Uncached, Uncached | Uncached, Pending
     | Pending, Pending | Pending, Cached | Cached, Cached => True
     | Pending, Uncached =>
         ∃ p error, loadingPromises (this w) !! k = Some p ∧
                    promises w !! p = Some (Some (Rejected error))
     | _, _ => False
     end) ∧
  (modelCache (clearCache (this w)) = ∅ ∧
   loadingPromises (clearCache (this w)) = ∅ ∧
   modelCache (dispose (this w)) = ∅ ∧
   loadingPromises (dispose (this w)) = ∅).
Proof.
  apply tables_ok_reachable in Hw. split; [apply Hw|]. split; [|done].
  intros e w' k Hstep%step_tstep. by apply status_moves.
Qed.

Lemma lifecycle_witness :
  ∃ w, run just_loaded init = Some w ∧
       modelCache (this w) !! "a.glb" = Some (GLTF.mk 0) ∧
       loadingPromises (this w) !! "a.glb" = Some 0 ∧
       promises w !! 0 = Some (Some (Fulfilled (GLTF.mk 0))).
Proof.
  destruct (run just_loaded init) as [w|] eqn:Hrun; [|by vm_compute in Hrun].
  exists w. split; [done|].
  assert (Hc : modelCache (this w) !! "a.glb" = Some (GLTF.mk 0)).
  { vm_compute in Hrun. apply (inj Some) in Hrun. by subst w. }
  assert (Hl : loadingPromises (this w) !! "a.glb" = Some 0).
  { vm_compute in Hrun. apply (inj Some) in Hrun. by subst w. }
  split; [done|]. split; [done|].
  exact (proj1 (lifecycle w (ex_intro _ just_loaded Hrun)) _ _ _ Hc Hl).
Defined.

Lemma step_Resume tid a w w1 f spawned :
  tasks w !! tid = Some a → resume tid a w = Some (w1, f, spawned) →
  step (Resume tid) w =
    Some (World (this w1) (mem w1) (promises w1) (requests w1)
            (<[tid := Activation (call a) f]> (tasks w1) ++ spawned)).
Proof. intros Ha Hr. cbn [step]. by rewrite Ha; cbn; rewrite Hr. Qed.

Lemma step_Call cfg w w1 f :
  loadModel cfg w = Some (w1, f) →
  step (Call cfg) w =
    Some (World (this w1) (mem w1) (promises w1) (requests w1)
            (tasks w1 ++ [Activation (LoadModel cfg None) f])).
Proof. intros Hl. cbn [step]. by rewrite Hl. Qed.

Lemma loadModel_disk cfg w :
  modelCache (this w) !! ModelConfig.path cfg = None →
  loadingPromises (this w) !! ModelConfig.path cfg = None →
  loadModel cfg w =
    Some (loadModelFromDisk cfg (set_this (count_load (this w)) w)).
Proof. intros Hc Hl. unfold loadModel. cbn. by rewrite Hc, Hl. Qed.

Lemma loadModel_wait cfg w p :
  modelCache (this w) !! ModelConfig.path cfg = None →
  loadingPromises (this w) !! ModelConfig.path cfg = Some p →
  loadModel cfg w = Some (set_this (count_load (this w)) w, AwaitLoading p).
Proof. intros Hc Hl. unfold loadModel. cbn. by rewrite Hc, Hl. Qed.

Lemma owner_of_disk cfg c p :
  owner_of (Activation (LoadModel cfg c) (AwaitDisk p))
    = Some (ModelConfig.path cfg, p).
Proof. done. Qed.

(** What the tables say about an activation suspended in
    [loadModelFromDisk]. *)
Lemma suspended_disk w tid cfg c p :
  tables_ok w →
  tasks w !! tid = Some (Activation (LoadModel cfg c) (AwaitDisk p)) →
  loadingPromises (this w) !! ModelConfig.path cfg = Some p ∧
  ∃ req, requests w !! p = Some req ∧ url req = ModelConfig.path cfg ∧
         loadingPromise req = p ∧ cacheKey req = ModelConfig.path cfg.
Proof.
  intros Hw Ha.
  destruct (t_owner _ Hw tid (ModelConfig.path cfg) p) as [Hl (req&Hreq&Hurl)].
  { unfold owners. by rewrite list_lookup_fmap, Ha. }
  split; [done|]. exists req. destruct (t_request _ Hw _ _ Hreq) as [? ?].
  split_and!; congruence.
Qed.

(** C6.  A load that fails: [onError] rejects the promise; the activation
    suspended in [loadModelFromDisk] resumes, deletes the entry of its
    path from [loadingPromises] (once), and rethrows, so that the caller's
    [loadModel] throws the same error; nothing was stored in
    [modelCache]; and the next [loadModel] of that path starts a new
    request. *)
Theorem cleanup_on_failure (w : world) (tid : nat) (cfg : ModelConfig.t)
    (c : option (nat * nat)) (p : nat) (error : string)
    (again : ModelConfig.t) :
  reachable w →
  tasks w !! tid = Some (Activation (LoadModel cfg c) (AwaitDisk p)) →
  promises w !! p = Some None →
  ModelConfig.path again = ModelConfig.path cfg →
  ∃ w0 w1 w2 w3,
    step (OnError p error) w = Some w0 ∧
    step (Resume tid) w0 = Some w1 ∧
    step (Resume tid) w1 = Some w2 ∧
    step (Call again) w2 = Some w3 ∧
    tasks w2 !! tid = Some (Activation (LoadModel cfg c) (Settled (Threw error))) ∧
    loadingPromises (this w0) !! ModelConfig.path cfg = Some p ∧
    loadingPromises (this w1) =
      delete (ModelConfig.path cfg) (loadingPromises (this w)) ∧
    loadingPromises (this w2) = loadingPromises (this w1) ∧
    modelCache (this w) !! ModelConfig.path cfg = None ∧
    modelCache (this w2) = modelCache (this w) ∧
    requests w3 = requests w2 ++
      [Request (ModelConfig.path cfg) (ModelConfig.path cfg)
         (length (promises w2)) false] ∧
    tasks w3 = tasks w2 ++
      [Activation (LoadModel again None) (AwaitDisk (length (promises w2)))].
Proof.
  intros Hw%tables_ok_reachable Ha Hp Hagain.
  destruct (suspended_disk _ _ _ _ _ Hw Ha) as (Hl&req&Hreq&Hurl&Hlp&Hkey).
  assert (answered req = false) as Hans by by apply (t_answered _ Hw _ _ Hreq).
  assert (modelCache (this w) !! ModelConfig.path cfg = None) as Hc.
  { rewrite <-Hurl. by eapply open_uncached. }
  set (w0 := answer p (onError req error w)).
  assert (step (OnError p error) w = Some w0) as H0.
  { cbn [step]. unfold open_request. by rewrite Hreq; cbn; rewrite Hans. }
  assert (promises w0 !! p = Some (Some (Rejected error))) as Hp0.
  { cbn. rewrite Hlp. by apply settle_lookup_pending. }
  set (w1 := World
               (set_loadingPromises
                  (delete (ModelConfig.path cfg) (loadingPromises (this w)))
                  (this w))
               (mem w0) (promises w0) (requests w0)
               (<[tid := Activation (LoadModel cfg c)
                           (AwaitDiskResult (Rejected error))]> (tasks w))).
  assert (step (Resume tid) w0 = Some w1) as H1.
  { erewrite step_Resume;
      [|exact Ha|by unfold resume; cbn [call at_]; rewrite Hp0].
    cbn. by rewrite app_nil_r. }
  assert (tid < length (tasks w)) as Htid by by eapply lookup_lt_Some.
  set (w2 := World (this w1) (mem w1) (promises w1) (requests w1)
               (<[tid := Activation (LoadModel cfg c)
                           (Settled (Threw error))]> (tasks w))).
  assert (step (Resume tid) w1 = Some w2) as H2.
  { erewrite step_Resume; [|by apply list_lookup_insert_eq|done].
    cbn. by rewrite app_nil_r, list_insert_insert_eq. }
  eexists w0, w1, w2, _. split_and!.
  4: { apply step_Call, loadModel_disk; rewrite Hagain; cbn; [done|].
       apply lookup_delete_eq. }
  all: try done.
  - cbn. by apply list_lookup_insert_eq.
  - cbn. by rewrite Hagain.
Qed.

Lemma cleanup_on_failure_witness :
  ∃ w0 w1 w2 w3,
    step (OnError 0 "404") loading = Some w0 ∧
    step (Resume 0) w0 = Some w1 ∧
    step (Resume 0) w1 = Some w2 ∧
    step (Call (just "y" "a.glb")) w2 = Some w3 ∧
    tasks w2 !! 0 =
      Some (Activation (LoadModel (just "x" "a.glb") None)
              (Settled (Threw "404"))) ∧
    loadingPromises (this w0) !! "a.glb" = Some 0 ∧
    loadingPromises (this w1) = delete "a.glb" (loadingPromises (this loading)) ∧
    loadingPromises (this w2) = loadingPromises (this w1) ∧
    modelCache (this loading) !! "a.glb" = None ∧
    modelCache (this w2) = modelCache (this loading) ∧
    requests w3 = requests w2 ++ [Request "a.glb" "a.glb" (length (promises w2)) false] ∧
    tasks w3 = tasks w2 ++
      [Activation (LoadModel (just "y" "a.glb") None)
         (AwaitDisk (length (promises w2)))].
Proof.
  apply (cleanup_on_failure loading 0 (just "x" "a.glb") None 0 "404"
           (just "y" "a.glb")).
  - exists [Call (just "x" "a.glb")]. by vm_compute.
  - by vm_compute.
  - by vm_compute.
  - reflexivity.
Defined.

(** C10.  With [enhanceRealism] on, a [roughness] or [metalness] of 0 in
    the configuration leaves the material's value as it was, and an
    [aoMapIntensity] of 0 gives 1.0; whatever the configuration, each of
    the three properties is afterwards either what it was or a truthy
    (non-zero) number, so that none can be set to zero. *)
Theorem zero_is_ignored (material : Material.t) :
  (∀ me ao sh,
     Material.roughness
       (processSingleMaterial material
          (MaterialConfig.mk true (Some 0%float) me ao sh))
     = Material.roughness material) ∧
  (∀ ro ao sh,
     Material.metalness
       (processSingleMaterial material
          (MaterialConfig.mk true ro (Some 0%float) ao sh))
     = Material.metalness material) ∧
  (∀ ro me sh,
     Material.aoMapIntensity
       (processSingleMaterial material
          (MaterialConfig.mk true ro me (Some 0%float) sh))
     = (Material.aoMapIntensity material ≫= λ _, Some 1%float)) ∧
  (∀ config,
     let after := processSingleMaterial material config in
     (Material.roughness after = Material.roughness material ∨
      truthy (Material.roughness after) = true) ∧
     (Material.metalness after = Material.metalness material ∨
      truthy (Material.metalness after) = true) ∧
     (Material.aoMapIntensity after = Material.aoMapIntensity material ∨
      truthy (Material.aoMapIntensity after) = true)).
Proof.
  destruct material as [ro0 me0 ao0 sh0 nu0]. split_and!.
  - intros me ao sh. unfold processSingleMaterial. cbn.
    by destruct ro0, me0, ao0, sh, sh0.
  - intros ro ao sh. unfold processSingleMaterial. cbn.
    by destruct ro0, me0, ao0, sh, sh0.
  - intros ro me sh. unfold processSingleMaterial. cbn.
    by destruct ro0, me0, ao0, sh, sh0.
  - intros [er ro me ao sh]. unfold processSingleMaterial. cbn.
    destruct er; cbn.
    + unfold js_or.
      destruct ro0, me0, ao0, sh, sh0; cbn;
        destruct (truthy ro) eqn:?, (truthy me) eqn:?, (truthy ao) eqn:?;
        cbn; auto.
    + destruct sh, sh0; cbn; auto.
Qed.

Lemma materials_loop_total fuel config mats i ms :
  length mats - i ≤ fuel → is_Some (materials_loop fuel config mats i ms).
Proof.
  revert i ms. induction fuel as [|fuel IH]; intros i ms Hfuel;
    cbn [materials_loop]; (case_decide; [|by eauto]);
    (case_decide; [by eauto|]).
  - lia.
  - apply IH. unfold batchSize. lia.
Qed.

Lemma materials_loop_yield fuel config mats i ms ms' j :
  materials_loop fuel config mats i ms = Some (ms', Some j) →
  i ≤ j < length mats.
Proof.
  revert i ms. induction fuel as [|fuel IH]; intros i ms; cbn [materials_loop];
    (case_decide; [|by intros ?; simplify_eq]);
    (case_decide; [by intros ?; simplify_eq; lia|]).
  - done.
  - intros ?%IH. unfold batchSize in *. lia.
Qed.

Lemma processMaterials_from_total m config mats i w :
  is_Some (processMaterials_from m config mats i w).
Proof.
  unfold processMaterials_from.
  destruct (materials_loop_total (length mats) config mats i (materials (mem w)))
    as [[ms y] ->]; [lia|]. by eexists.
Qed.

Lemma update_root_lookup m f h :
  objects (update_root m f h) !! m = f <$> objects h !! m.
Proof. apply list_lookup_alter_eq. Qed.

Lemma createInstance_total gltf cfg w :
  GLTF.scene gltf < length (objects (mem w)) →
  is_Some (createInstance gltf cfg w).
Proof.
  intros [src Hsrc]%lookup_lt_is_Some. unfold createInstance, clone.
  rewrite Hsrc. cbn [mbind option_bind].
  pose proof (alloc_lookup (load_tree (materials (mem w)) src) (mem w)) as Hnew.
  rewrite alloc_eq in *. cbn [fst snd mbind option_bind] in *.
  destruct (ModelConfig.processMaterials cfg); [|by eexists].
  rewrite !update_root_lookup, Hnew.
  cbn [fmap option_fmap option_map mbind option_bind].
  apply processMaterials_from_total.
Qed.

(** A step changes the frame of the activation it resumes and of no
    other. *)
Lemma step_tasks e w w' t a :
  step e w = Some w' → tasks w !! t = Some a →
  tasks w' !! t = Some a ∨
  (e = Resume t ∧ ∃ w1 f spawned,
     resume t a w = Some (w1, f, spawned) ∧
     tasks w' !! t = Some (Activation (call a) f)).
Proof.
  intros Hstep Ha.
  assert (∀ cfg w1 f, loadModel cfg w = Some (w1, f) → tasks w1 = tasks w) as Hlm.
  { intros cfg w1 f Hl.
    by apply loadModel_tables_spec in Hl as [? ? ? ? Ho ?|? ? ? ? ? ? Ho ?]. }
  assert (∀ tid child cfgs i rs w1 f sp,
            progressive_loop tid child cfgs i rs w = Some (w1, f, sp) →
            tasks w1 = tasks w) as Hpl.
  { intros ???????? [(?&->&->&->)|(config&f0&?&Hl&->&->)]%progressive_loop_spec;
      eauto. }
  destruct e as [cfg|cfgs cb|tid|rid parsed|rid error]; cbn [step] in Hstep.
  - destruct (loadModel cfg w) as [[w1 f]|] eqn:Hl; [|done].
    apply (inj Some) in Hstep; subst w'. left. cbn [tasks].
    erewrite Hlm by done. by apply lookup_app_l_Some.
  - destruct (progressive_loop _ _ _ _ _ _) as [[[w1 f] spawned]|] eqn:Hl; [|done].
    apply (inj Some) in Hstep; subst w'. left. cbn [tasks].
    erewrite Hpl by done. by apply lookup_app_l_Some.
  - destruct (tasks w !! tid) as [a'|] eqn:Ha'; [|done].
    cbn [mbind option_bind] in Hstep.
    destruct (resume tid a' w) as [[[w1 f] spawned]|] eqn:Hr; [|done].
    apply (inj Some) in Hstep; subst w'. cbn [tasks].
    assert (tasks w1 = tasks w) as ->.
    { destruct (resume_cases _ _ _ _ _ _ Hr); subst; try done;
        try (by eapply createInstance_tables; eauto);
        try (by eapply Hpl; eauto).
      - by eapply processMaterials_from_tables.
      - by eapply createInstance_finish_tables. }
    destruct (decide (tid = t)) as [->|].
    + right. split; [done|]. simplify_eq. exists w1, f, spawned. split; [done|].
      apply lookup_app_l_Some, list_lookup_insert_eq. by eapply lookup_lt_Some.
    + left. apply lookup_app_l_Some. by rewrite list_lookup_insert_ne.
  - unfold open_request in Hstep. destruct (requests w !! rid) as [req|]; [|done].
    cbn [mbind option_bind] in Hstep. destruct (answered req); [done|].
    apply (inj Some) in Hstep; subst w'. left. by rewrite onLoad_eq.
  - unfold open_request in Hstep. destruct (requests w !! rid) as [req|]; [|done].
    cbn [mbind option_bind] in Hstep. destruct (answered req); [done|].
    apply (inj Some) in Hstep; subst w'. by left.
Qed.

(** A settled promise stays as it is. *)
Lemma step_settled e w w' p s :
  step e w = Some w' → promises w !! p = Some (Some s) →
  promises w' !! p = Some (Some s).
Proof.
  intros [n ? ? Hp|n k ? ? ? ? Hp|tid k p' r ? ? ? ? Hp
         |rid req g ? ? ? ? Hp|rid req e' ? ? ? ? Hp]%step_tstep Hs; rewrite Hp;
    try done.
  - by apply lookup_app_l_Some.
  - by apply settle_lookup_settled.
  - by apply settle_lookup_settled.
Qed.

Lemma instancing_got g w f : instancing f → got (Fulfilled g) w f.
Proof. destruct f; try done; by exists g. Qed.

Lemma gets_step s e w w' t :
  step e w = Some w' → gets s w t → gets s w' t.
Proof.
  intros Hstep (a&cfg&c&Ha&Hcall&Hgot).
  destruct (step_tasks _ _ _ _ _ Hstep Ha) as [Ha'|(_&w1&f&sp&Hr&Ha')].
  - exists a, cfg, c. split_and!; [done..|].
    destruct (at_ a) as [p|p| | | | | | |[]]; try done;
      by eapply step_settled.
  - exists (Activation (call a) f), cfg, c. split_and!; [done..|]. cbn [at_].
    assert (∀ p s', promises w !! p = Some (Some s') →
              promises w' !! p = Some (Some s')) as Hst
      by (intros; by eapply step_settled).
    destruct (resume_cases _ _ _ _ _ _ Hr)
      as [cfg' c' p g Hc Hat Hp Hi ->|cfg' c' p error Hc Hat Hp -> -> ->
         |cfg' c' p r Hc Hat Hp -> -> ->|cfg' c' g Hc Hat Hi ->
         |cfg' c' error Hc Hat -> -> ->|cfg' c' m mc mats i Hc Hat Hi ->
         |cfg' c' m Hc Hat Hi ->|cfg' c' m Hc Hat -> -> ->
         |cfgs cb i rs ch chd config m Hc Hat Hch Hi Hs Hret -> -> ->
         |cfgs cb i rs ch chd config m Hc Hat Hch Hi Hs Hret Hl
         |cfgs cb i rs ch chd config error Hc Hat Hch Hi Hs Hl
         |cfgs cb i rs Hc Hat Hl]; try congruence; rewrite Hat in Hgot;
      cbn in Hgot.
    + assert (s = Fulfilled g) as -> by congruence.
      by eapply instancing_got, createInstance_tables.
    + cbn. congruence.
    + cbn. congruence.
    + subst s. by eapply instancing_got, createInstance_tables.
    + by cbn.
    + destruct Hgot as [g ->].
      by eapply instancing_got, processMaterials_from_tables.
    + destruct Hgot as [g ->].
      by eapply instancing_got, createInstance_finish_tables.
    + done.
Qed.

Lemma gets_run s es w w' t : run es w = Some w' → gets s w t → gets s w' t.
Proof.
  intros Hrun Hg. revert Hrun.
  apply (run_invariant (λ w, gets s w t)); [|done].
  intros e v v' ??. by eapply gets_step.
Qed.

(** What the caller of [loadModel] sees once the promise it awaits has
    settled and the activation has run to its end. *)
Lemma gets_outcome s w t a o :
  gets s w t → tasks w !! t = Some a → at_ a = Settled o →
  match s with
  | Fulfilled _ => ∃ model, o = Returned model
  | Rejected error => o = Threw error
  end.
Proof.
  intros (a'&cfg&c&Ha'&_&Hgot) Ha Hat. simplify_eq. rewrite Hat in Hgot.
  destruct o as [m| |e]; cbn in Hgot; try done.
  - destruct Hgot as [g ->]. by eexists.
  - by subst s.
Qed.

Lemma loadModel_tasks cfg w w1 f :
  loadModel cfg w = Some (w1, f) → tasks w1 = tasks w.
Proof.
  intros Hl. by apply loadModel_tables_spec in Hl as [? ? ? ? Ho ?|? ? ? ? ? ? Ho ?].
Qed.

Lemma progressive_loop_tasks tid child cfgs i rs w w1 f sp :
  progressive_loop tid child cfgs i rs w = Some (w1, f, sp) →
  tasks w1 = tasks w.
Proof.
  intros [(?&->&->&->)|(config&f0&?&Hl&->&->)]%progressive_loop_spec; [done|].
  by eapply loadModel_tasks.
Qed.

Lemma resume_tasks t a w w1 f spawned :
  resume t a w = Some (w1, f, spawned) → tasks w1 = tasks w.
Proof.
  intros Hr. destruct (resume_cases _ _ _ _ _ _ Hr); subst; try done;
    try (by eapply createInstance_tables; eauto);
    try (by eapply progressive_loop_tasks; eauto).
  - by eapply processMaterials_from_tables.
  - by eapply createInstance_finish_tables.
Qed.

Lemma resume_installed t a w w1 f spawned :
  tasks w !! t = Some a → resume t a w = Some (w1, f, spawned) →
  ∃ w', step (Resume t) w = Some w' ∧
        tasks w' !! t = Some (Activation (call a) f).
Proof.
  intros Ha Hr. eexists. split; [by eapply step_Resume|]. cbn [tasks].
  apply lookup_app_l_Some, list_lookup_insert_eq.
  erewrite resume_tasks by done. by eapply lookup_lt_Some.
Qed.

Lemma run_Resumes_app n1 n2 t w w1 w2 :
  run (replicate n1 (Resume t)) w = Some w1 →
  run (replicate n2 (Resume t)) w1 = Some w2 →
  run (replicate (n1 + n2) (Resume t)) w = Some w2.
Proof. intros H1 H2. by rewrite replicate_add, run_app, H1. Qed.

(** An instance under construction is returned after finitely many
    resumptions. *)
Lemma drive_instancing n w t a cfg c :
  rank (at_ a) ≤ n →
  tasks w !! t = Some a → call a = LoadModel cfg c →
  instancing (at_ a) ∨ (∃ m, at_ a = Settled (Returned m)) →
  ∃ k w' m, run (replicate k (Resume t)) w = Some w' ∧
            tasks w' !! t = Some (Activation (call a) (Settled (Returned m))).
Proof.
  revert w a. induction n as [|n IH]; intros w a Hrank Ha Hcall Hf.
  - destruct Hf as [Hf|[m Hm]].
    + destruct (at_ a); try done; cbn in Hrank; lia.
    + exists 0, w, m. split; [done|]. rewrite Ha. destruct a. cbn in *. congruence.
  - destruct Hf as [Hf|[m Hm]].
    2: { exists 0, w, m. split; [done|]. rewrite Ha. destruct a. cbn in *. congruence. }
    assert (∃ w1 f, resume t a w = Some (w1, f, []) ∧ rank f ≤ n ∧
              (instancing f ∨ ∃ m, f = Settled (Returned m))) as (w1&f&Hr&Hn&Hf').
    { unfold resume. rewrite Hcall.
      destruct (at_ a) as [| | |m mc mats i|m|m| | |] eqn:Hat; try done.
      - destruct (processMaterials_from_total m mc mats (i + batchSize) w)
          as [[w1 f] Hp]. exists w1, f. rewrite Hp. split; [done|].
        pose proof Hp as [_ Hinst]%processMaterials_from_tables.
        split; [|by left]. unfold processMaterials_from in Hp.
        destruct (materials_loop _ _ _ _ _) as [[ms [j|]]|] eqn:Hloop;
          cbn in Hp; simplify_eq; cbn in *; [|lia].
        apply materials_loop_yield in Hloop. unfold batchSize in *. lia.
      - eexists _, _. split; [done|]. cbn in *. split; [lia|by left].
      - eexists _, _. split; [done|]. cbn in *. split; [lia|right; by eexists]. }
    destruct (resume_installed _ _ _ _ _ _ Ha Hr) as (w'&Hstep&Ha').
    destruct (IH w' (Activation (call a) f) Hn Ha' Hcall Hf')
      as (k&w''&m&Hrun&Hfin).
    exists (S k), w'', m. split; [|done]. cbn [replicate run]. by rewrite Hstep.
Qed.

(** An activation whose promise has settled runs to its end after
    finitely many resumptions. *)
Lemma drive s w t :
  heap_ok w → gets s w t →
  ∃ k w' a o, run (replicate k (Resume t)) w = Some w' ∧
              tasks w' !! t = Some a ∧ at_ a = Settled o.
Proof.
  intros Hw (a&cfg&c&Ha&Hcall&Hgot).
  assert (∀ w a, tasks w !! t = Some a → call a = LoadModel cfg c →
            instancing (at_ a) ∨ (∃ m, at_ a = Settled (Returned m)) →
            ∃ k w' a' o, run (replicate k (Resume t)) w = Some w' ∧
                         tasks w' !! t = Some a' ∧ at_ a' = Settled o) as Hinst.
  { intros v b Hb Hc Hf.
    destruct (drive_instancing _ v t b cfg c (Nat.le_refl _) Hb Hc Hf)
      as (k&w'&m&?&?). by eexists k, w', _, _. }
  assert (∀ w g, heap_ok w → fulfilled w g → ∀ a, tasks w !! t = Some a →
            call a = LoadModel cfg c →
            (∀ w1 f, createInstance g cfg w = Some (w1, f) →
                     resume t a w = Some (w1, f, [])) →
            ∃ k w' a' o, run (replicate k (Resume t)) w = Some w' ∧
                         tasks w' !! t = Some a' ∧ at_ a' = Settled o) as Hci.
  { intros v g Hv Hg b Hb Hc Hres.
    destruct (createInstance_total g cfg v) as [[w1 f] Hi]; [by eapply h_gltf|].
    destruct (resume_installed _ _ _ _ _ _ Hb (Hres _ _ Hi)) as (w'&Hstep&Hb').
    destruct (Hinst w' _ Hb' Hc) as (k&w''&a'&o&Hrun&?&?).
    { left. by eapply createInstance_tables. }
    exists (S k), w'', a', o. split; [|done]. cbn [replicate run]. by rewrite Hstep. }
  assert (∀ w a e, tasks w !! t = Some a →
            resume t a w = Some (w, Settled (Threw e), []) →
            ∃ k w' a' o, run (replicate k (Resume t)) w = Some w' ∧
                         tasks w' !! t = Some a' ∧ at_ a' = Settled o) as Herr.
  { intros v b e Hb Hres.
    destruct (resume_installed _ _ _ _ _ _ Hb Hres) as (w'&Hstep&Hb').
    exists 1, w', (Activation (call b) (Settled (Threw e))), (Threw e).
    split; [|done]. cbn [replicate run]. by rewrite Hstep. }
  destruct (at_ a) as [p|p|r| | | | | |o] eqn:Hat; cbn in Hgot; try done.
  - destruct s as [g|e].
    + eapply Hci; [done|by exists p|done..|]. intros w1 f Hi.
      unfold resume. by rewrite Hcall, Hat, Hgot, Hi.
    + eapply Herr; [done|]. unfold resume. by rewrite Hcall, Hat, Hgot.
  - assert (resume t a w =
              Some (set_this (set_loadingPromises
                      (delete (ModelConfig.path cfg) (loadingPromises (this w)))
                      (this w)) w, AwaitDiskResult s, [])) as Hr.
    { unfold resume. by rewrite Hcall, Hat, Hgot. }
    destruct (resume_installed _ _ _ _ _ _ Ha Hr) as (w'&Hstep&Ha').
    assert (heap_ok w') as Hw' by by eapply heap_ok_step.
    assert (∃ k w'' a' o, run (replicate k (Resume t)) w' = Some w'' ∧
              tasks w'' !! t = Some a' ∧ at_ a' = Settled o)
      as (k&w''&a'&o&Hrun&?&?).
    { destruct s as [g|e].
      - eapply Hci; [done|by eapply h_result|done..|]. intros w1 f Hi.
        unfold resume. cbn [call at_]. by rewrite Hcall, Hi.
      - eapply Herr; [done|]. unfold resume. cbn [call at_]. by rewrite Hcall. }
    exists (S k), w'', a', o. split; [|done]. cbn [replicate run]. by rewrite Hstep.
  - subst r. destruct s as [g|e].
    + eapply Hci; [done|by eapply h_result|done..|]. intros w1 f Hi.
      unfold resume. by rewrite Hcall, Hat, Hi.
    + eapply Herr; [done|]. unfold resume. by rewrite Hcall, Hat.
  - eapply Hinst; [done..|]. rewrite Hat. by left.
  - eapply Hinst; [done..|]. rewrite Hat. by left.
  - eapply Hinst; [done..|]. rewrite Hat. by left.
  - by exists 0, w, a, o.
Qed.

Lemma settled_stable e w w' t a o :
  step e w = Some w' → tasks w !! t = Some a → at_ a = Settled o →
  tasks w' !! t = Some a.
Proof.
  intros Hstep Ha Hat.
  destruct (step_tasks _ _ _ _ _ Hstep Ha) as [?|(_&w1&f&sp&Hr&_)]; [done|].
  unfold resume in Hr. rewrite Hat in Hr. by destruct (call a).
Qed.

Lemma settled_stable_run es w w' t a o :
  run es w = Some w' → tasks w !! t = Some a → at_ a = Settled o →
  tasks w' !! t = Some a.
Proof.
  intros Hrun Ha Hat. revert Hrun.
  apply (run_invariant (λ w, tasks w !! t = Some a)); [|done].
  intros e v v' ??. by eapply settled_stable.
Qed.

Lemma reachable_run es w w' : reachable w → run es w = Some w' → reachable w'.
Proof.
  intros [es0 H0] Hrun. exists (es0 ++ es). by rewrite run_app, H0.
Qed.

Lemma heap_ok_run es w w' : heap_ok w → run es w = Some w' → heap_ok w'.
Proof.
  intros Hw. apply (run_invariant heap_ok); [|done]. apply heap_ok_step.
Qed.

(** All activations of [ts] can be run to their end. *)
Lemma drive_all s ts w :
  heap_ok w → Forall (gets s w) ts →
  ∃ es w', run es w = Some w' ∧
    Forall (λ t, ∃ a o, tasks w' !! t = Some a ∧ at_ a = Settled o) ts.
Proof.
  intros Hw Hts. revert w Hw Hts.
  induction ts as [|t ts IH]; intros w Hw Hts.
  - by exists [], w.
  - apply Forall_cons in Hts as [Ht Hts].
    destruct (drive s w t Hw Ht) as (k&w1&a&o&Hrun1&Ha&Hat).
    destruct (IH w1) as (es&w2&Hrun2&Hall).
    { by eapply heap_ok_run. }
    { eapply Forall_impl; [done|]. intros t' ?. by eapply gets_run. }
    exists (replicate k (Resume t) ++ es), w2. split.
    + by rewrite run_app, Hrun1.
    + constructor; [|done]. exists a, o. split; [|done].
      by eapply settled_stable_run.
Qed.

Lemma run_cons e es w w'' :
  run (e :: es) w = Some w'' ↔ ∃ w', step e w = Some w' ∧ run es w' = Some w''.
Proof.
  cbn [run]. destruct (step e w) as [w'|]; cbn; naive_solver.
Qed.

(** [loadModel] counts the call, and counts a hit when the path is
    cached. *)
Lemma loadModel_stats cfg w w1 f :
  loadModel cfg w = Some (w1, f) →
  loadingStats (this w1) =
    LoadingStats.mk
      (S (LoadingStats.totalLoads (loadingStats (this w))))
      (if modelCache (this w) !! ModelConfig.path cfg
       then S (LoadingStats.cacheHits (loadingStats (this w)))
       else LoadingStats.cacheHits (loadingStats (this w))).
Proof.
  intros [g Hc H|p Hc Hp -> ->|Hc Hp H]%loadModel_branches; rewrite Hc.
  - apply createInstance_tables in H as [(_&_&->&_) _]. done.
  - done.
  - rewrite loadModelFromDisk_spec in H. by simplify_eq.
Qed.

(** The continuations of [loadModel] leave the counters, the cache and
    the requests as they are, and start no activation. *)
Lemma resume_loadModel t a w w1 f spawned cfg c :
  call a = LoadModel cfg c → resume t a w = Some (w1, f, spawned) →
  loadingStats (this w1) = loadingStats (this w) ∧
  modelCache (this w1) = modelCache (this w) ∧
  requests w1 = requests w ∧ spawned = [].
Proof.
  intros Hcall Hr.
  destruct (resume_cases _ _ _ _ _ _ Hr)
    as [cfg' c' p g Hc Hat Hp Hi ->|cfg' c' p error Hc Hat Hp -> -> ->
       |cfg' c' p r Hc Hat Hp -> -> ->|cfg' c' g Hc Hat Hi ->
       |cfg' c' error Hc Hat -> -> ->|cfg' c' m mc mats i Hc Hat Hi ->
       |cfg' c' m Hc Hat Hi ->|cfg' c' m Hc Hat -> -> ->
       |cfgs cb i rs ch chd config m Hc Hat Hch Hi Hs Hret -> -> ->
       |cfgs cb i rs ch chd config m Hc Hat Hch Hi Hs Hret Hl
       |cfgs cb i rs ch chd config error Hc Hat Hch Hi Hs Hl
       |cfgs cb i rs Hc Hat Hl]; try congruence; try done.
  - by apply createInstance_tables in Hi as [(->&_&->&_&->&_) _].
  - by apply createInstance_tables in Hi as [(->&_&->&_&->&_) _].
  - by apply processMaterials_from_tables in Hi as [(->&_&->&_&->&_) _].
  - by apply createInstance_finish_tables in Hi as [(->&_&->&_&->&_) _].
Qed.

(** A step makes at most one call of [loadModel]; the loader is then as
    that call leaves it. *)
Lemma step_calls e w w' :
  step e w = Some w' →
  (loadingStats (this w') = loadingStats (this w) ∧
   ∀ t a, length (tasks w) ≤ t → tasks w' !! t = Some a →
          ∃ cfgs cb, call a = LoadModelsProgressively cfgs cb) ∨
  (∃ cfg c w1 f,
     loadModel cfg w = Some (w1, f) ∧
     this w' = this w1 ∧ promises w' = promises w1 ∧ requests w' = requests w1 ∧
     called_in w w' cfg f ∧
     ∀ t a, length (tasks w) ≤ t → tasks w' !! t = Some a →
            (∃ cfgs cb, call a = LoadModelsProgressively cfgs cb) ∨
            a = Activation (LoadModel cfg c) f).
Proof.
  intros Hstep.
  assert (∀ tid child cfgs cb i rs w1 f sp (old : list activation) g,
            length old = length (tasks w) →
            progressive_loop tid child cfgs i rs w = Some (w1, f, sp) →
            w' = World (this w1) (mem w1) (promises w1) (requests w1)
                   (old ++ g (Activation (LoadModelsProgressively cfgs cb) f) sp) →
            (∀ x sp, g x sp = sp ∨ g x sp = x :: sp) →
            (loadingStats (this w') = loadingStats (this w) ∧
             ∀ t a, length (tasks w) ≤ t → tasks w' !! t = Some a →
                    ∃ cfgs cb, call a = LoadModelsProgressively cfgs cb) ∨
            (∃ cfg c w1 f,
               loadModel cfg w = Some (w1, f) ∧
               this w' = this w1 ∧ promises w' = promises w1 ∧
               requests w' = requests w1 ∧
               called_in w w' cfg f ∧
               ∀ t a, length (tasks w) ≤ t → tasks w' !! t = Some a →
                      (∃ cfgs cb, call a = LoadModelsProgressively cfgs cb) ∨
                      a = Activation (LoadModel cfg c) f)) as Hpl.
  { intros tid child cfgs cb i rs w1 f sp old g Hlen
      [(?&->&->&->)|(config&f0&?&Hl&->&->)]%progressive_loop_spec -> Hg.
    - left. split; [done|]. cbn [tasks]. intros t a Ht.
      rewrite lookup_app_r by lia.
      destruct (Hg (Activation (LoadModelsProgressively cfgs cb)
                      (Settled (ReturnedAll rs))) []) as [-> | ->].
      + by rewrite lookup_nil.
      + destruct (t - length old) as [|n]; [|by rewrite lookup_cons, lookup_nil].
        cbn. intros [= <-]. by eexists _, _.
    - right. exists config, (Some (tid, i)), w1, f0. split_and!; [done..| |].
      + exists (length old +
                length (g (Activation (LoadModelsProgressively cfgs cb)
                             (AwaitModel i rs child))
                          [Activation (LoadModel config (Some (tid, i))) f0]) - 1),
          (Some (tid, i)).
        cbn [tasks].
        destruct (Hg (Activation (LoadModelsProgressively cfgs cb)
                        (AwaitModel i rs child))
                    [Activation (LoadModel config (Some (tid, i))) f0])
          as [-> | ->]; cbn [length].
        * split; [lia|]. rewrite lookup_app_r by lia.
          by replace (length old + 1 - 1 - length old) with 0 by lia.
        * split; [lia|]. rewrite lookup_app_r by lia.
          by replace (length old + 2 - 1 - length old) with 1 by lia.
      + cbn [tasks]. intros t a Ht. rewrite lookup_app_r by lia.
        destruct (Hg (Activation (LoadModelsProgressively cfgs cb)
                        (AwaitModel i rs child))
                    [Activation (LoadModel config (Some (tid, i))) f0])
          as [-> | ->].
        * destruct (t - length old) as [|n]; [|by rewrite lookup_cons, lookup_nil].
          cbn. intros [= <-]. by right.
        * destruct (t - length old) as [|[|n]]; cbn.
          -- intros [= <-]. left. by eexists _, _.
          -- intros [= <-]. by right.
          -- done. }
  destruct e as [cfg|cfgs cb|tid|rid parsed|rid error]; cbn [step] in Hstep.
  - destruct (loadModel cfg w) as [[w1 f]|] eqn:Hl; [|done].
    apply (inj Some) in Hstep; subst w'. right.
    pose proof (loadModel_tasks _ _ _ _ Hl) as Ht.
    exists cfg, None, w1, f. split_and!; [done..| |].
    + exists (length (tasks w)), None. split; [done|]. cbn [tasks].
      by rewrite Ht, lookup_app_r, Nat.sub_diag by lia.
    + cbn [tasks]. rewrite Ht. intros t a Hge. rewrite lookup_app_r by lia.
      destruct (t - length (tasks w)) as [|n]; [|by rewrite lookup_cons, lookup_nil].
      cbn. intros [= <-]. by right.
  - destruct (progressive_loop _ _ _ _ _ _) as [[[w1 f] spawned]|] eqn:Hl; [|done].
    apply (inj Some) in Hstep.
    destruct (Hpl _ _ _ cb _ _ _ _ _ (tasks w1) (λ x sp, x :: sp)
                (f_equal length (progressive_loop_tasks _ _ _ _ _ _ _ _ _ Hl))
                Hl) as [H|H];
      [by rewrite Hstep|by right|by left|by right].
  - destruct (tasks w !! tid) as [a|] eqn:Ha; [|done].
    cbn [mbind option_bind] in Hstep.
    destruct (resume tid a w) as [[[w1 f] spawned]|] eqn:Hr; [|done].
    apply (inj Some) in Hstep.
    pose proof (resume_tasks _ _ _ _ _ _ Hr) as Ht.
    destruct (call a) as [cfg c|cfgs cb] eqn:Hcall.
    + left. subst w'. cbn [this tasks].
      destruct (resume_loadModel _ _ _ _ _ _ _ _ Hcall Hr) as (->&_&_&->).
      split; [done|]. intros t b Hge.
      rewrite app_nil_r, Ht. intros Hb%lookup_lt_Some.
      rewrite length_insert in Hb. lia.
    + assert (length (<[tid := Activation (LoadModelsProgressively cfgs cb) f]>
                         (tasks w1)) = length (tasks w)) as Hlen
        by by rewrite length_insert, Ht.
      destruct (resume_cases _ _ _ _ _ _ Hr)
        as [cfg' c' p g Hc Hat Hp Hi ->|cfg' c' p error Hc Hat Hp -> -> ->
           |cfg' c' p r Hc Hat Hp -> -> ->|cfg' c' g Hc Hat Hi ->
           |cfg' c' error Hc Hat -> -> ->|cfg' c' m mc mats i Hc Hat Hi ->
           |cfg' c' m Hc Hat Hi ->|cfg' c' m Hc Hat -> -> ->
           |cfgs' cb' i rs ch chd config m Hc Hat Hch Hi Hs Hret -> -> ->
           |cfgs' cb' i rs ch chd config m Hc Hat Hch Hi Hs Hret Hl
           |cfgs' cb' i rs ch chd config error Hc Hat Hch Hi Hs Hl
           |cfgs' cb' i rs Hc Hat Hl]; try congruence.
      * left. subst w'. cbn. split; [done|]. intros t b Hge.
        rewrite app_nil_r. intros Hb%lookup_lt_Some.
        rewrite length_insert in Hb. lia.
      * assert (cfgs' = cfgs) as -> by congruence.
        destruct (Hpl _ _ _ cb _ _ _ _ _ _ (λ x sp, sp) Hlen Hl) as [H|H];
          [by rewrite Hstep|by left|by left|by right].
      * assert (cfgs' = cfgs) as -> by congruence.
        destruct (Hpl _ _ _ cb _ _ _ _ _ _ (λ x sp, sp) Hlen Hl) as [H|H];
          [by rewrite Hstep|by left|by left|by right].
      * assert (cfgs' = cfgs) as -> by congruence.
        destruct (Hpl _ _ _ cb _ _ _ _ _ _ (λ x sp, sp) Hlen Hl) as [H|H];
          [by rewrite Hstep|by left|by left|by right].
  - unfold open_request in Hstep. destruct (requests w !! rid) as [req|]; [|done].
    cbn [mbind option_bind] in Hstep. destruct (answered req); [done|].
    apply (inj Some) in Hstep; subst w'. left. rewrite onLoad_eq. cbn.
    split; [done|]. intros t a Hge Hb%lookup_lt_Some. lia.
  - unfold open_request in Hstep. destruct (requests w !! rid) as [req|]; [|done].
    cbn [mbind option_bind] in Hstep. destruct (answered req); [done|].
    apply (inj Some) in Hstep; subst w'. left. cbn.
    split; [done|]. intros t a Hge Hb%lookup_lt_Some. lia.
Qed.

(** The hit counter and the branches of [loadModel]: a call that finds
    its path in the cache counts a hit and goes on to [createInstance];
    a call that does not counts none and is suspended on the promise of
    the load; and nothing but a call of [loadModel] moves the
    counters. *)
Lemma hit_on_branch_1 e w w' :
  step e w = Some w' →
  (∀ cfg f, called_in w w' cfg f →
     loads w' = S (loads w) ∧
     match modelCache (this w) !! ModelConfig.path cfg with
     | Some _ => hits w' = S (hits w) ∧ instancing f
     | None => hits w' = hits w ∧ ∃ p, f = AwaitLoading p ∨ f = AwaitDisk p
     end) ∧
  ((∀ cfg f, ¬ called_in w w' cfg f) → hits w' = hits w ∧ loads w' = loads w).
Proof.
  intros [[Hs Hnew]|(cfg0&c0&w1&f0&Hl&Hthis&_&_&Hcalled&Hnew)]%step_calls.
  - split.
    + intros cfg f (t&c&Hge&Ht).
      destruct (Hnew _ _ Hge Ht) as (cfgs&cb&?). done.
    + intros _. unfold hits, loads. by rewrite Hs.
  - split.
    + intros cfg f (t&c&Hge&Ht).
      destruct (Hnew _ _ Hge Ht) as [(cfgs&cb&?)|Heq]; [done|].
      assert (cfg = cfg0 ∧ f = f0) as [-> ->] by (by simplify_eq).
      pose proof (loadModel_stats _ _ _ _ Hl) as Hs.
      unfold hits, loads. rewrite Hthis, Hs. cbn. split; [done|].
      apply loadModel_branches in Hl as [g Hc H|p Hc Hp -> ->|Hc Hp H];
        rewrite Hc.
      * split; [done|]. by eapply createInstance_tables.
      * split; [done|]. eauto.
      * split; [done|]. rewrite loadModelFromDisk_spec in H.
        simplify_eq. eauto.
    + intros Hno. by destruct (Hno _ _ Hcalled).
Qed.

Lemma calls_for_spec k a :
  calls_for k a = true ↔
  ∃ cfg c, call a = LoadModel cfg c ∧ ModelConfig.path cfg = k.
Proof.
  unfold calls_for. destruct (call a) as [cfg c|cfgs cb].
  - rewrite bool_decide_eq_true. split.
    + intros. by exists cfg, c.
    + by intros (cfg'&c'&[= <- _]&?).
  - split; [done|]. by intros (?&?&?&_).
Qed.

Lemma promise_stays e v v' p :
  step e v = Some v' → is_Some (promises v !! p) → is_Some (promises v' !! p).
Proof.
  intros Hstep [[s|] Hs]; [eexists; by eapply step_settled|].
  destruct (step_tstep _ _ _ Hstep)
    as [n ? ? Hp|n k ? ? ? ? Hp|tid k p' r ? ? ? ? Hp
       |rid req g ? ? ? ? Hp|rid req e' ? ? ? ? Hp]; rewrite Hp; eauto.
  - eexists. by apply lookup_app_l_Some.
  - destruct (decide (loadingPromise req = p)) as [->|].
    + eexists. by apply settle_lookup_pending.
    + rewrite settle_lookup_ne by done. eauto.
  - destruct (decide (loadingPromise req = p)) as [->|].
    + eexists. by apply settle_lookup_pending.
    + rewrite settle_lookup_ne by done. eauto.
Qed.

Lemma pending_before e v v' p :
  step e v = Some v' → is_Some (promises v !! p) →
  promises v' !! p = Some None → promises v !! p = Some None.
Proof.
  intros Hstep [[s|] Hs] Hp; [|done].
  pose proof (step_settled _ _ _ _ _ Hstep Hs). congruence.
Qed.

(** While its promise is pending the load stays as it is: no step makes
    a second request for the path, takes the path out of
    [loadingPromises] or puts it into the cache, and every call for the
    path waits for the promise. *)
Lemma one_load_step p rid t0 first e v v' :
  tables_ok v → one_load p rid t0 first v →
  step e v = Some v' → promises v' !! p = Some None →
  one_load p rid t0 first v'.
Proof.
  intros Htab [F1 F6 F2 F3 F5 F4] Hstep Hp'.
  set (k := ModelConfig.path first) in *.
  assert (p = rid) as Hrid by by destruct (t_request _ Htab _ _ F6).
  assert (promises v !! p = Some None) as Hp.
  { eapply pending_before; [done| |done].
    apply lookup_lt_is_Some. rewrite (t_lengths _ Htab), Hrid.
    by eapply lookup_lt_Some. }
  assert (∀ t a, caller k t0 v t → tasks v !! t = Some a →
            tasks v' !! t = Some a) as Hkeep.
  { intros t a Hc Ha.
    destruct (step_tasks _ _ _ _ _ Hstep Ha) as [?|(_&w1&f&sp&Hr&_)]; [done|].
    pose proof (F4 t a Hc Ha) as Hat.
    destruct Hc as (_&a'&Ha'&(cfg&c&Hcall&_)%calls_for_spec).
    assert (a' = a) as -> by congruence.
    unfold resume in Hr. rewrite Hcall in Hr.
    destruct Hat as [Hat|[_ Hat]]; by rewrite Hat, Hp in Hr. }
  assert (caller k t0 v t0) as Hfirst.
  { split; [lia|]. eexists. split; [done|]. apply calls_for_spec.
    by eexists _, _. }
  assert (∀ t a, caller k t0 v' t → tasks v' !! t = Some a →
            at_ a = AwaitLoading p ∨ (t = t0 ∧ at_ a = AwaitDisk p)) as F4'.
  { intros t a (Hge&a'&Ha'&(cfg&c&Hcall&Hk)%calls_for_spec) Ha.
    assert (a' = a) as -> by congruence. clear Ha'.
    destruct (decide (t < length (tasks v))) as [Hlt|Hnew].
    - destruct (lookup_lt_is_Some_2 _ _ Hlt) as [a0 Ha0].
      assert (call a0 = call a) as Hcall0.
      { destruct (step_tasks _ _ _ _ _ Hstep Ha0) as [?|(_&?&?&?&_&?)];
          by simplify_eq. }
      assert (caller k t0 v t) as Hc.
      { split; [done|]. exists a0. split; [done|]. apply calls_for_spec.
        exists cfg, c. by rewrite Hcall0. }
      pose proof (Hkeep _ _ Hc Ha0). simplify_eq. by apply F4.
    - destruct (step_calls _ _ _ Hstep)
        as [[_ Hn]|(cfg0&c0&w1&f0&Hl&_&_&_&_&Hn)].
      + destruct (Hn t a) as (?&?&?); [lia|done|congruence].
      + destruct (Hn t a) as [(?&?&?)| ->]; [lia|done|congruence|].
        cbn in Hcall. simplify_eq. left. cbn.
        apply loadModel_branches in Hl as [g Hc H|p' Hc Hp0 -> ->|Hc Hp0 H];
          congruence. }
  destruct (step_tstep _ _ _ Hstep)
    as [n Hc Hl Hpr Hrq _|n k' Hck Hlk Hc Hl Hpr Hrq _
       |tid k' p' r Ho Hpr' Hc Hl Hpr Hrq _
       |rid' req g Hreq Hans Hc Hl Hpr Hrq _
       |rid' req e' Hreq Hans Hc Hl Hpr Hrq _].
  - split; fold k; rewrite ?Hc, ?Hl, ?Hrq; auto.
  - assert (k' ≠ k) by congruence.
    split; fold k; rewrite ?Hc, ?Hl, ?Hrq; auto.
    + intros r rq Hge [?|[_ Hnew]]%lookup_app_Some Hu; [by eapply F1|].
      destruct (r - length (requests v)) as [|m]; [|done].
      cbn in Hnew. by simplify_eq.
    + by apply lookup_app_l_Some.
    + by rewrite lookup_insert_ne.
  - assert (k' ≠ k).
    { intros ->. destruct (t_owner _ Htab _ _ _ Ho) as [Hl' _]. congruence. }
    split; fold k; rewrite ?Hc, ?Hl, ?Hrq; auto.
    by rewrite lookup_delete_ne.
  - destruct (t_request _ Htab _ _ Hreq) as [Hlp Hkey].
    assert (rid' ≠ p).
    { intros ->. rewrite Hpr, Hlp in Hp'.
      by rewrite settle_lookup_pending in Hp'. }
    assert (url req ≠ k).
    { intros Hu. pose proof (t_open _ Htab _ _ Hreq Hans). congruence. }
    split; fold k; rewrite ?Hc, ?Hl, ?Hrq; auto.
    + intros r rq Hge Hr Hu.
      destruct (decide (rid' = r)) as [->|].
      * rewrite list_lookup_alter_eq, Hreq in Hr. cbn in Hr.
        apply (inj Some) in Hr; subst rq. by eapply (F1 r req).
      * rewrite list_lookup_alter_ne in Hr by done. by eapply F1.
    + rewrite list_lookup_alter_ne by congruence. done.
    + rewrite lookup_insert_ne by congruence. done.
  - destruct (t_request _ Htab _ _ Hreq) as [Hlp Hkey].
    assert (rid' ≠ p).
    { intros ->. rewrite Hpr, Hlp in Hp'.
      by rewrite settle_lookup_pending in Hp'. }
    split; fold k; rewrite ?Hc, ?Hl, ?Hrq; auto.
    + intros r rq Hge Hr Hu.
      destruct (decide (rid' = r)) as [->|].
      * rewrite list_lookup_alter_eq, Hreq in Hr. cbn in Hr.
        apply (inj Some) in Hr; subst rq. by eapply (F1 r req).
      * rewrite list_lookup_alter_ne in Hr by done. by eapply F1.
    + rewrite list_lookup_alter_ne by congruence. done.
Qed.

(** C1.  A call [first] of [loadModel] for a path that is neither cached
    nor pending starts one request and has put the path into
    [loadingPromises] when it is suspended for the first time.
    Whatever the loader is asked to do afterwards, in any order (calls
    of [loadModel] for this path or another, calls of
    [loadModelsProgressively], resumptions of any activation, answers to
    other requests), as long as the promise of the request is pending:
    no other request has been made for the path, the path is still in
    [loadingPromises] with that promise and not in the cache, and every
    call made for the path since, [first] included, awaits that promise.
    The request can then be answered.  If it succeeds, none of these
    callers can end otherwise than by returning an instance, and all of
    them can be run to that end; if it fails, none can end otherwise
    than by throwing the error of the request, and all of them can be
    run to that end. *)
Theorem one_fetch (w : world) (first : ModelConfig.t) :
  let k := ModelConfig.path first in
  let p := length (promises w) in
  let rid := length (requests w) in
  let t0 := length (tasks w) in
  reachable w →
  modelCache (this w) !! k = None →
  loadingPromises (this w) !! k = None →
  ∃ w1,
    step (Call first) w = Some w1 ∧
    loadingPromises (this w1) !! k = Some p ∧
    requests w1 = requests w ++ [Request k k p false] ∧
    tasks w1 = tasks w ++ [Activation (LoadModel first None) (AwaitDisk p)] ∧
    ∀ es v, run es w1 = Some v → promises v !! p = Some None →
      (∀ r req, rid ≤ r → requests v !! r = Some req → url req = k →
                r = rid) ∧
      requests v !! rid = Some (Request k k p false) ∧
      modelCache (this v) !! k = None ∧
      loadingPromises (this v) !! k = Some p ∧
      caller k t0 v t0 ∧
      (∀ t a, caller k t0 v t → tasks v !! t = Some a →
         at_ a = AwaitLoading p ∨ (t = t0 ∧ at_ a = AwaitDisk p)) ∧
      (∀ parsed, is_Some (step (OnLoad rid parsed) v)) ∧
      (∀ error, is_Some (step (OnError rid error) v)) ∧
      (∀ parsed es' v', run (OnLoad rid parsed :: es') v = Some v' →
         (∀ t a o, caller k t0 v t → tasks v' !! t = Some a →
                   at_ a = Settled o → ∃ model, o = Returned model) ∧
         ∃ es'' v'', run es'' v' = Some v'' ∧
           ∀ t, caller k t0 v t →
                ∃ a model, tasks v'' !! t = Some a ∧
                           at_ a = Settled (Returned model)) ∧
      (∀ error es' v', run (OnError rid error :: es') v = Some v' →
         (∀ t a o, caller k t0 v t → tasks v' !! t = Some a →
                   at_ a = Settled o → o = Threw error) ∧
         ∃ es'' v'', run es'' v' = Some v'' ∧
           ∀ t, caller k t0 v t →
                ∃ a, tasks v'' !! t = Some a ∧ at_ a = Settled (Threw error)).
Proof.
  intros k p rid t0 Hreach Hc Hl.
  pose proof (tables_ok_reachable _ Hreach) as Htab.
  set (w1 := World (this (loadModelFromDisk first
                            (set_this (count_load (this w)) w)).1)
               (mem w) (promises w ++ [None])
               (requests w ++ [Request k k p false])
               (tasks w ++ [Activation (LoadModel first None) (AwaitDisk p)])).
  assert (step (Call first) w = Some w1) as Hstep1.
  { erewrite step_Call; [|by apply loadModel_disk]. done. }
  assert (loadingPromises (this w1) !! k = Some p) as Hl1
    by apply lookup_insert_eq.
  assert (reachable w1) as Hreach1.
  { eapply (reachable_run [Call first]); [done|]. cbn [run]. by rewrite Hstep1. }
  assert (one_load p rid t0 first w1) as Hone1.
  { split; fold k.
    - intros r req Hge Hr _. apply lookup_lt_Some in Hr.
      cbn in Hr. rewrite length_app in Hr. cbn in Hr. unfold rid in *. lia.
    - cbn. unfold rid. by rewrite lookup_app_r, Nat.sub_diag by lia.
    - done.
    - done.
    - cbn. unfold t0. by rewrite lookup_app_r, Nat.sub_diag by lia.
    - intros t a [Hge _] Ha. right. cbn in Ha.
      assert (t = t0) as ->.
      { apply lookup_lt_Some in Ha. rewrite length_app in Ha. cbn in Ha.
        unfold t0 in *. lia. }
      split; [done|]. unfold t0 in Ha.
      rewrite lookup_app_r, Nat.sub_diag in Ha by lia. cbn in Ha.
      by apply (inj Some) in Ha; subst a. }
  assert (∀ es v, run es w1 = Some v →
            tables_ok v ∧ is_Some (promises v !! p) ∧
            (promises v !! p = Some None → one_load p rid t0 first v)) as Hinv.
  { intros es v.
    apply (run_invariant
             (λ v, tables_ok v ∧ is_Some (promises v !! p) ∧
                   (promises v !! p = Some None → one_load p rid t0 first v))).
    - intros e u u' (Htu&Hsome&Hone) Hs. split_and!.
      + by eapply tables_ok_step.
      + by eapply promise_stays.
      + intros Hp'. eapply one_load_step; [done| |done..].
        apply Hone. by eapply pending_before.
    - split_and!; [by apply tables_ok_reachable| |done].
      exists None. cbn. unfold p. by rewrite lookup_app_r, Nat.sub_diag by lia. }
  exists w1. split_and!; [done..|].
  intros es v Hrun Hp.
  destruct (Hinv es v Hrun) as (Htv&_&Hone).
  destruct (Hone Hp) as [F1 F6 F2 F3 F5 F4]. fold k in F1, F6, F2, F3, F4.
  assert (reachable v) as Hreachv by by eapply reachable_run.
  assert (caller k t0 v t0) as Hfirst.
  { split; [lia|]. eexists. split; [done|]. apply calls_for_spec.
    by eexists _, _. }
  set (ts := filter (λ t, calls_for k <$> tasks v !! t = Some true)
               (seq t0 (length (tasks v) - t0))).
  assert (∀ t, caller k t0 v t → t ∈ ts) as Hts.
  { intros t (Hge&a&Ha&Hk). apply list_elem_of_filter. split.
    - rewrite Ha. cbn. by rewrite Hk.
    - apply elem_of_seq. apply lookup_lt_Some in Ha. lia. }
  assert (∀ s e es' v',
            (∀ u, step e v = Some u →
                  promises u !! p = Some (Some s) ∧ tasks u = tasks v) →
            run (e :: es') v = Some v' →
            (∀ t, caller k t0 v t → gets s v' t) ∧
            ∃ es'' v'', run es'' v' = Some v'' ∧
              ∀ t, caller k t0 v t →
                   gets s v'' t ∧
                   ∃ a o, tasks v'' !! t = Some a ∧ at_ a = Settled o) as Hboth.
  { intros s e es' v' He (u&Hu&Hes)%run_cons.
    destruct (He u Hu) as [Hpu Htu].
    assert (∀ t, caller k t0 v t → gets s v' t) as Hgets.
    { intros t Hcl. pose proof Hcl as (_&a&Ha&(cfg&c&Hcall&_)%calls_for_spec).
      eapply gets_run; [exact Hes|]. exists a, cfg, c.
      rewrite Htu. split_and!; [done..|].
      destruct (F4 t a Hcl Ha) as [-> |[_ ->]]; done. }
    split; [done|].
    destruct (drive_all s ts v') as (es''&v''&Hrun''&Hall).
    { apply heap_ok_reachable. eapply reachable_run; [exact Hreachv|].
      apply run_cons. eauto. }
    { apply Forall_forall. intros t [Hpred Hseq]%list_elem_of_filter.
      apply Hgets. split; [apply elem_of_seq in Hseq; lia|].
      destruct (tasks v !! t) as [a|]; [|done]. exists a. split; [done|].
      cbn in Hpred. congruence. }
    exists es'', v''. split; [done|]. intros t Hcl. split.
    - eapply gets_run; [done|]. by apply Hgets.
    - eapply Forall_forall in Hall; [done|]. by apply Hts. }
  assert (∀ parsed,
            step (OnLoad rid parsed) v
            = Some (answer rid (onLoad (Request k k p false) parsed v)))
    as HonLoad.
  { intros parsed. cbn [step]. unfold open_request. by rewrite F6. }
  assert (∀ error,
            step (OnError rid error) v
            = Some (answer rid (onError (Request k k p false) error v)))
    as HonError.
  { intros error. cbn [step]. unfold open_request. by rewrite F6. }
  assert (∀ parsed u, step (OnLoad rid parsed) v = Some u →
            promises u !! p
            = Some (Some (Fulfilled (GLTF.mk (length (objects (mem v)))))) ∧
            tasks u = tasks v) as HonLoad'.
  { intros parsed u Hu. rewrite HonLoad in Hu. apply (inj Some) in Hu; subst u.
    rewrite onLoad_eq. cbn. split; [|done]. by apply settle_lookup_pending. }
  assert (∀ error u, step (OnError rid error) v = Some u →
            promises u !! p = Some (Some (Rejected error)) ∧
            tasks u = tasks v) as HonError'.
  { intros error u Hu. rewrite HonError in Hu.
    apply (inj Some) in Hu; subst u.
    cbn. split; [|done]. by apply settle_lookup_pending. }
  split_and!; try done.
  - intros parsed. by rewrite HonLoad.
  - intros error. by rewrite HonError.
  - intros parsed es' v' Hrun'.
    destruct (Hboth (Fulfilled (GLTF.mk (length (objects (mem v))))) _ _ _
                (HonLoad' parsed) Hrun') as (Hgets&es''&v''&Hrun''&Hall).
    split.
    + intros t a o Hcl Ha Hat.
      by apply (gets_outcome _ _ _ _ _ (Hgets t Hcl) Ha Hat).
    + exists es'', v''. split; [done|]. intros t [Hg (a&o&Ha&Hat)]%Hall.
      destruct (gets_outcome _ _ _ _ _ Hg Ha Hat) as [m ->]. by exists a, m.
  - intros error es' v' Hrun'.
    destruct (Hboth (Rejected error) _ _ _ (HonError' error) Hrun')
      as (Hgets&es''&v''&Hrun''&Hall).
    split.
    + intros t a o Hcl Ha Hat.
      by apply (gets_outcome _ _ _ _ _ (Hgets t Hcl) Ha Hat).
    + exists es'', v''. split; [done|]. intros t [Hg (a&o&Ha&Hat)]%Hall.
      rewrite (gets_outcome _ _ _ _ _ Hg Ha Hat) in Hat. by exists a.
Qed.

Lemma one_fetch_witness :
  ∃ w1 v,
    step (Call (just "x" "a.glb")) init = Some w1 ∧
    run interleaved w1 = Some v ∧
    promises v !! 0 = Some None ∧
    length (requests v) = 2 ∧
    loadingPromises (this v) !! "a.glb" = Some 0 ∧
    caller "a.glb" 0 v 3 ∧
    ∀ t a, caller "a.glb" 0 v t → tasks v !! t = Some a →
           at_ a = AwaitLoading 0 ∨ (t = 0 ∧ at_ a = AwaitDisk 0).
Proof.
  destruct (one_fetch init (just "x" "a.glb")) as (w1&Hstep&_&_&_&Hall).
  - by exists [].
  - reflexivity.
  - reflexivity.
  - assert (w1 = after [Call (just "x" "a.glb")]) as Hw1.
    { vm_compute in Hstep. apply (inj Some) in Hstep. subst w1.
      vm_compute. reflexivity. }
    destruct (run interleaved w1) as [v|] eqn:Hrun;
      [|by rewrite Hw1 in Hrun; vm_compute in Hrun].
    assert (v = after (Call (just "x" "a.glb") :: interleaved)) as Hv.
    { rewrite Hw1 in Hrun. vm_compute in Hrun. apply (inj Some) in Hrun.
      subst v. vm_compute. reflexivity. }
    assert (promises v !! 0 = Some None) as Hp
      by (rewrite Hv; vm_compute; reflexivity).
    destruct (Hall interleaved v Hrun Hp) as (_&_&_&Hl&_&Hcallers&_).
    exists w1, v. split_and!; [done..| |exact Hl| |exact Hcallers].
    + rewrite Hv. vm_compute. reflexivity.
    + rewrite Hv. split; [lia|]. eexists. split; [vm_compute; reflexivity|].
      vm_compute. reflexivity.
Defined.

Lemma quiescent_tables w :
  tables_ok w → quiescent w →
  loadingPromises (this w) = ∅ ∧ no_open_request w.
Proof.
  intros Hw Hq.
  assert (∀ k, loadingPromises (this w) !! k = None) as Hl.
  { intros k. destruct (loadingPromises (this w) !! k) as [p|] eqn:Hp; [|done].
    destruct (t_owned _ Hw _ _ Hp) as [tid Ho]. unfold owners in Ho.
    rewrite list_lookup_fmap in Ho.
    destruct (tasks w !! tid) as [a|] eqn:Ha; [|done].
    destruct (Hq _ _ Ha) as [o Hat]. cbn in Ho. unfold owner_of in Ho.
    rewrite Hat in Ho. by destruct (call a). }
  split; [by apply map_empty|].
  intros rid req Hreq. destruct (answered req) eqn:Hans; [done|].
  pose proof (t_open _ Hw _ _ Hreq Hans). congruence.
Qed.

Lemma serving_start w cfg w1 :
  tables_ok w → quiescent w → step (Call cfg) w = Some w1 →
  serving w cfg w1.
Proof.
  intros Hw Hq Hstep. pose proof (tables_ok_step _ _ _ Hw Hstep) as Hw1.
  destruct (quiescent_tables _ Hw Hq) as [Hl Hno].
  cbn [step] in Hstep.
  destruct (loadModel cfg w) as [[v f]|] eqn:Hlm; [|done].
  apply (inj Some) in Hstep. subst w1.
  pose proof (loadModel_stats _ _ _ _ Hlm) as Hstats.
  pose proof (loadModel_tasks _ _ _ _ Hlm) as Ht.
  split; try done.
  - unfold loads. cbn. by rewrite Hstats.
  - cbn. rewrite Ht, length_app. cbn. lia.
  - cbn. rewrite Ht. intros t a [?|[? [? ?]%list_lookup_singleton_Some]]%lookup_app_Some ?;
      [by eapply Hq|lia].
  - cbn. rewrite Ht. eexists _, None.
    by rewrite lookup_app_r, Nat.sub_diag by lia.
  - destruct (loadModel_branches _ _ _ _ Hlm) as [g Hc H|p Hc Hp -> ->|Hc Hp H].
    + apply createInstance_tables in H as [(Hc'&_&_&_&Hr&_) _].
      eapply ph_hit; [done|done| |].
      * unfold hits. cbn. by rewrite Hstats, Hc.
      * intros rid req. cbn. rewrite Hr. apply Hno.
    + rewrite Hl, lookup_empty in Hp. done.
    + rewrite loadModelFromDisk_spec in H. apply pair_equal_spec in H as [Hv Hf].
      assert (promises v = promises w ++ [None]) as Hpv by by rewrite Hv.
      assert (requests v = requests w ++
                [Request (ModelConfig.path cfg) (ModelConfig.path cfg)
                   (length (promises w)) false]) as Hrv by by rewrite Hv.
      assert (modelCache (this v) = modelCache (this w)) as Hcv by by rewrite Hv.
      clear Hv. subst f.
      eapply (ph_pending _ _ _ _ (length (promises w))).
      * done.
      * done.
      * unfold hits. cbn. by rewrite Hstats, Hc.
      * cbn. rewrite Ht. by rewrite lookup_app_r, Nat.sub_diag by lia.
      * done.
      * cbn. rewrite Hpv. by rewrite lookup_app_r, Nat.sub_diag by lia.
      * cbn. rewrite Hrv.
        intros rid req [Hreq|[? [? <-]%list_lookup_singleton_Some]]%lookup_app_Some Hans.
        -- apply Hno in Hreq. congruence.
        -- pose proof (t_lengths _ Hw). lia.
Qed.

Lemma onLoad_view rid req parsed v :
  let v' := answer rid (onLoad req parsed v) in
  loadingStats (this v') = loadingStats (this v) ∧ tasks v' = tasks v ∧
  modelCache (this v') =
    <[cacheKey req := GLTF.mk (length (objects (mem v)))]> (modelCache (this v)) ∧
  requests v' = alter mark_answered rid (requests v).
Proof. cbn zeta. by rewrite onLoad_eq. Qed.

Lemma serving_same_tasks w cfg v v' :
  serving w cfg v → tables_ok v' →
  loadingStats (this v') = loadingStats (this v) → tasks v' = tasks v →
  phase w cfg v' → serving w cfg v'.
Proof.
  intros [] ? Hs Ht ?. split; unfold loads in *; rewrite ?Hs, ?Ht; done.
Qed.

Lemma serving_step w cfg e v v' :
  is_call e = false → step e v = Some v' → serving w cfg v → serving w cfg v'.
Proof.
  intros He Hstep Hsv.
  pose proof Hsv as [Htab Hloads Hlen Hothers (a&c&Ha&Hcall) Hphase].
  pose proof (tables_ok_step _ _ _ Htab Hstep) as Htab'.
  assert (∀ rid req, no_open_request v → open_request rid v = Some req → False)
    as Hclosed.
  { intros rid req Hno. unfold open_request.
    destruct (requests v !! rid) as [r|] eqn:Hr; [|done]. cbn.
    rewrite (Hno _ _ Hr). done. }
  destruct e as [?|? ?|tid|rid parsed|rid error]; try done; cbn [step] in Hstep.
  - (* a continuation: of the request being served *)
    destruct (tasks v !! tid) as [b|] eqn:Hb; [|done].
    cbn [mbind option_bind] in Hstep.
    destruct (resume tid b v) as [[[w1 f] spawned]|] eqn:Hr; [|done].
    apply (inj Some) in Hstep.
    assert (tid = length (tasks w)) as ->.
    { destruct (decide (tid = length (tasks w))) as [|Hne]; [done|].
      destruct (Hothers _ _ Hb Hne) as [o Ho]. unfold resume in Hr.
      rewrite Ho in Hr. by destruct (call b). }
    assert (b = a) as -> by congruence. subst v'.
    pose proof (resume_tasks _ _ _ _ _ _ Hr) as Ht.
    pose proof (resume_loadModel _ _ _ _ _ _ _ _ Hcall Hr) as (Hs&Hc&Hrq&->).
    assert (step (Resume (length (tasks w))) v =
              Some (World (this w1) (mem w1) (promises w1) (requests w1)
                      (<[length (tasks w) := Activation (call a) f]> (tasks w1) ++ [])))
      as Hstep by by eapply step_Resume.
    split; try done.
    + unfold loads in *. cbn. by rewrite Hs.
    + cbn. by rewrite app_nil_r, length_insert, Ht.
    + cbn. rewrite app_nil_r, Ht. intros t b' Hb' Hne.
      rewrite list_lookup_insert_ne in Hb' by done. by eapply Hothers.
    + cbn. rewrite app_nil_r, Ht. exists (Activation (call a) f), c.
      split; [|done]. apply list_lookup_insert_eq. by eapply lookup_lt_Some.
    + destruct Hphase as [g Hg Hcv Hh Hno|a' p Hg Hcv Hh Ha' Hat Hp Hopen
                         |g Hg Hcv Hh Hno|error Hgets].
      * eapply ph_hit; [done|by cbn; rewrite Hc|by unfold hits in *; cbn; rewrite Hs|].
        intros rid req. cbn. rewrite Hrq. apply Hno.
      * simplify_eq. unfold resume in Hr. by rewrite Hcall, Hat, Hp in Hr.
      * eapply ph_loaded; [done|by cbn; rewrite Hc|by unfold hits in *; cbn; rewrite Hs|].
        intros rid req. cbn. rewrite Hrq. apply Hno.
      * eapply ph_failed. by eapply gets_step.
  - destruct (open_request rid v) as [req|] eqn:Hreq; [|done].
    apply (inj Some) in Hstep.
    assert (step (OnLoad rid parsed) v = Some v') as Hstep'
      by by cbn [step]; rewrite Hreq; cbn; rewrite Hstep.
    destruct (onLoad_view rid req parsed v) as (Hs&Ht&Hc&Hrq).
    rewrite Hstep in Hs, Ht, Hc, Hrq.
    eapply serving_same_tasks; [exact Hsv|done..|].
    destruct Hphase as [g Hg Hcv Hh Hno|a' p Hg Hcv Hh Ha' Hat Hp Hopen
                       |g Hg Hcv Hh Hno|error Hgets].
    + by destruct (Hclosed _ _ Hno Hreq).
    + unfold open_request in Hreq.
      destruct (requests v !! rid) as [r|] eqn:Hr; [|done]. cbn in Hreq.
      destruct (answered r) eqn:Hans; [done|].
      assert (r = req) as -> by congruence.
      assert (rid = p) as -> by by eapply Hopen.
      destruct (suspended_disk v (length (tasks w)) cfg c p Htab)
        as (_&req'&Hreq'&Hurl&_&Hkey).
      { assert (a' = a) as -> by congruence.
        rewrite Ha. destruct a. cbn in *. congruence. }
      assert (req' = req) as -> by congruence.
      eapply ph_loaded; [done|by rewrite Hc, Hkey, Hcv
                        |by unfold hits in *; rewrite Hs|].
      intros rid req0. rewrite Hrq. destruct (decide (p = rid)) as [<-|Hne].
      * rewrite list_lookup_alter_eq, Hreq'. cbn. by intros [= <-].
      * rewrite list_lookup_alter_ne by done. intros Hrq'.
        destruct (answered req0) eqn:Hans'; [done|].
        by destruct Hne; symmetry; eapply Hopen.
    + by destruct (Hclosed _ _ Hno Hreq).
    + eapply ph_failed. by eapply gets_step.
  - destruct (open_request rid v) as [req|] eqn:Hreq; [|done].
    apply (inj Some) in Hstep.
    assert (step (OnError rid error) v = Some v') as Hstep'
      by by cbn [step]; rewrite Hreq; cbn; rewrite Hstep.
    eapply serving_same_tasks; [exact Hsv|done|by subst v'|by subst v'|].
    destruct Hphase as [g Hg Hcv Hh Hno|a' p Hg Hcv Hh Ha' Hat Hp Hopen
                       |g Hg Hcv Hh Hno|error' Hgets].
    + by destruct (Hclosed _ _ Hno Hreq).
    + unfold open_request in Hreq.
      destruct (requests v !! rid) as [r|] eqn:Hr; [|done]. cbn in Hreq.
      destruct (answered r) eqn:Hans; [done|].
      assert (r = req) as -> by congruence.
      assert (rid = p) as -> by by eapply Hopen.
      destruct (t_request _ Htab _ _ Hr) as [Hlp _].
      eapply (ph_failed _ _ _ error). exists a, cfg, c. subst v'. cbn.
      assert (a' = a) as -> by congruence.
      split_and!; [done..|]. rewrite Hat. cbn. rewrite Hlp.
      by apply settle_lookup_pending.
    + by destruct (Hclosed _ _ Hno Hreq).
    + eapply ph_failed. by eapply gets_step.
Qed.

Lemma serving_run w cfg body v v' :
  Forall (λ e, is_call e = false) body → run body v = Some v' →
  serving w cfg v → serving w cfg v'.
Proof.
  intros Hbody. revert v. induction Hbody as [|e body He _ IH]; intros v; cbn [run].
  - by intros [= <-].
  - destruct (step e v) as [v1|] eqn:Hstep; [|done]. cbn [mbind option_bind].
    intros Hrun Hv. eapply IH; [done|]. by eapply serving_step.
Qed.

(** What serving one request does to the counters and to the cache. *)
Lemma serves_spec w cfg w' :
  tables_ok w → quiescent w → serves cfg w w' →
  tables_ok w' ∧ quiescent w' ∧ loads w' = S (loads w) ∧
  match modelCache (this w) !! ModelConfig.path cfg with
  | Some _ => modelCache (this w') = modelCache (this w) ∧ hits w' = S (hits w)
  | None =>
      (∃ g, modelCache (this w') =
              <[ModelConfig.path cfg := g]> (modelCache (this w))) ∧
      hits w' = hits w
  end.
Proof.
  intros Hw Hq (w1&body&Hcall&Hrun&Hbody&a&model&Ha&Hat).
  pose proof (serving_run w cfg body w1 w' Hbody Hrun
                (serving_start _ _ _ Hw Hq Hcall)) as [Htab Hloads Hlen Hothers _ Hph].
  split_and!; [done| |done|].
  - intros t b Hb. destruct (decide (t = length (tasks w))) as [->|Hne].
    + simplify_eq. by eexists.
    + by eapply Hothers.
  - destruct Hph as [g Hg Hcv Hh Hno|a' p Hg Hcv Hh Ha' Hat' Hp Hopen
                    |g Hg Hcv Hh Hno|error Hgets].
    + by rewrite Hg.
    + congruence.
    + rewrite Hg. eauto.
    + pose proof (gets_outcome _ _ _ _ _ Hgets Ha Hat). done.
Qed.

Lemma history_stats cfgs w w' :
  tables_ok w → quiescent w → history cfgs w w' →
  loads w' = loads w + length cfgs ∧
  dom (modelCache (this w')) =
    dom (modelCache (this w)) ∪ list_to_set (ModelConfig.path <$> cfgs) ∧
  hits w' + size (modelCache (this w')) =
    hits w + size (modelCache (this w)) + length cfgs.
Proof.
  revert w. induction cfgs as [|cfg cfgs IH]; intros w Hw Hq; cbn [history].
  - intros ->. cbn [fmap list_fmap length]. rewrite list_to_set_nil.
    split_and!; [lia|set_solver|lia].
  - intros (w1&Hs&Hh).
    destruct (serves_spec _ _ _ Hw Hq Hs) as (Hw1&Hq1&Hl1&Hc1).
    destruct (IH _ Hw1 Hq1 Hh) as (Hl&Hd&Hsz). cbn [length fmap list_fmap].
    destruct (modelCache (this w) !! ModelConfig.path cfg) as [g|] eqn:Hg.
    + destruct Hc1 as [Hc1 Hh1]. rewrite Hc1 in *. split_and!; [lia| |lia].
      rewrite Hd. apply elem_of_dom_2 in Hg. set_solver.
    + destruct Hc1 as [[g Hc1] Hh1]. rewrite Hc1 in *.
      rewrite map_size_insert_None in Hsz by done.
      rewrite dom_insert_L in Hd. split_and!; [lia| |lia].
      rewrite Hd. set_solver.
Qed.

(** C5.  After a sequential history of requests, each served before the
    next is made, [getCacheStats] reports as many loads as requests, as
    many cached models as distinct paths (the misses), and the remaining
    requests as hits.  The hit counter is incremented on branch 1 only:
    in any step of the loader, a call of [loadModel] that finds its own
    path in the cache adds one hit and goes on to [createInstance]; a
    call whose path is not cached adds none and is suspended on the
    promise of the load, the pending one (branch 2) or its own
    (branch 3); and a step in which [loadModel] is not called leaves the
    two counters as they are.  [getCacheStats] leaves the loader as it
    is. *)
Theorem statistics :
  (∀ cfgs w, history cfgs init w →
     let distinct : gset string := list_to_set (ModelConfig.path <$> cfgs) in
     getCacheStats (this w) =
       (CacheStats.mk (length cfgs) (length cfgs - size distinct) (size distinct),
        this w)) ∧
  (∀ e w w', step e w = Some w' →
     (∀ cfg f, called_in w w' cfg f →
        loads w' = S (loads w) ∧
        match modelCache (this w) !! ModelConfig.path cfg with
        | Some _ => hits w' = S (hits w) ∧ instancing f
        | None => hits w' = hits w ∧ ∃ p, f = AwaitLoading p ∨ f = AwaitDisk p
        end) ∧
     ((∀ cfg f, ¬ called_in w w' cfg f) →
      hits w' = hits w ∧ loads w' = loads w)) ∧
  (∀ l, (getCacheStats l).2 = l).
Proof.
  split_and!; [|apply hit_on_branch_1|done].
  intros cfgs w Hh distinct.
  destruct (history_stats cfgs init w) as (Hl&Hd&Hsz); [apply tables_ok_init| |done|].
  { intros t a. cbn. by rewrite lookup_nil. }
  unfold getCacheStats. f_equal.
  assert (size (modelCache (this w)) = size distinct) as Hsize.
  { rewrite <-size_dom, Hd.
    change (modelCache (this init)) with (∅ : gmap string GLTF.t).
    by rewrite dom_empty_L, (left_id_L ∅ (∪)). }
  unfold hits, loads in *.
  change (modelCache (this init)) with (∅ : gmap string GLTF.t) in Hsz.
  rewrite map_size_empty in Hsz. cbn in Hl, Hsz.
  rewrite Hsize in *. f_equal; lia.
Qed.

Lemma statistics_witness :
  history [just "x" "a.glb"; just "y" "b.glb"; just "z" "a.glb"] init
    (after third_served) ∧
  getCacheStats (this (after third_served)) =
    (CacheStats.mk 3 1 2, this (after third_served)).
Proof.
  assert (history [just "x" "a.glb"; just "y" "b.glb"; just "z" "a.glb"] init
            (after third_served)) as Hh.
  { exists (after first_served). split.
    { exists (after [Call (just "x" "a.glb")]),
        [OnLoad 0 one_mesh; Resume 0; Resume 0; Resume 0].
      split_and!; [by vm_compute|by vm_compute|by repeat constructor|].
      eexists _, _. split; by vm_compute. }
    exists (after second_served). split.
    { exists (after (first_served ++ [Call (just "y" "b.glb")])),
        [OnLoad 1 one_mesh; Resume 1; Resume 1; Resume 1].
      split_and!; [by vm_compute|by vm_compute|by repeat constructor|].
      eexists _, _. split; by vm_compute. }
    exists (after third_served). split; [|done].
    exists (after (second_served ++ [Call (just "z" "a.glb")])), [Resume 2].
    split_and!; [by vm_compute|by vm_compute|by repeat constructor|].
    eexists _, _. split; by vm_compute. }
  split; [exact Hh|].
  exact (proj1 statistics _ _ Hh).
Defined.

Lemma roots_kept_refl h : roots_kept h h.
Proof. intros i o Ho. by exists o. Qed.

Lemma roots_kept_trans h1 h2 h3 :
  roots_kept h1 h2 → roots_kept h2 h3 → roots_kept h1 h3.
Proof.
  intros H12 H23 i o Ho.
  destruct (H12 _ _ Ho) as (o2&Ho2&Ht2).
  destruct (H23 _ _ Ho2) as (o3&Ho3&Ht3).
  exists o3. split; [done|congruence].
Qed.

Lemma roots_kept_objects h h' : objects h' = objects h → roots_kept h h'.
Proof. intros Heq i o Ho. exists o. by rewrite Heq. Qed.

Lemma store_tree_transform o ms :
  transform (store_tree o ms).1 = (position o, rotation o, scale o).
Proof.
  destruct o as [mesh mat cast recv pos rot scl kids]. cbn [store_tree].
  by repeat case_match.
Qed.

Lemma load_tree_transform ms o :
  (position (load_tree ms o), rotation (load_tree ms o), scale (load_tree ms o))
  = transform o.
Proof. by destruct o. Qed.

Lemma enableShadows_transform o :
  transform (enableShadowsOptimized o) = transform o.
Proof. by destruct o. Qed.

Lemma vector_set v u :
  Vector3.set v (Vector3.x u) (Vector3.y u) (Vector3.z u) = u.
Proof. by destruct u. Qed.

Lemma processMaterials_from_objects m config mats i w w' f :
  processMaterials_from m config mats i w = Some (w', f) →
  objects (mem w') = objects (mem w) ∧ this w' = this w.
Proof.
  unfold processMaterials_from.
  destruct (materials_loop _ _ _ _ _) as [[ms y]|]; [|done].
  cbn. intros Heq. apply (inj Some), pair_equal_spec in Heq as [<- _]. done.
Qed.

Lemma createInstance_finish_roots cfg m w w' f :
  createInstance_finish cfg m w = (w', f) → roots_kept (mem w) (mem w').
Proof.
  unfold createInstance_finish. intros Heq.
  apply pair_equal_spec in Heq as [<- _]. cbn.
  destruct (ModelConfig.enableShadows cfg); [|apply roots_kept_refl].
  intros i o Ho. cbn. destruct (decide (i = m)) as [->|].
  - exists (enableShadowsOptimized o). rewrite list_lookup_alter_eq, Ho.
    split; [done|apply enableShadows_transform].
  - exists o. by rewrite list_lookup_alter_ne.
Qed.

(** [createInstance] makes a new scene graph whose root has the
    transform of the root of [gltf.scene], but for the fields that the
    configuration gives; the scene graphs that were there keep theirs. *)
Lemma createInstance_transform gltf cfg w w' f :
  createInstance gltf cfg w = Some (w', f) →
  ∃ src o,
    objects (mem w) !! GLTF.scene gltf = Some src ∧
    model_of f = Some (length (objects (mem w))) ∧
    objects (mem w') !! length (objects (mem w)) = Some o ∧
    transform o = configured cfg (transform src) ∧
    roots_kept (mem w) (mem w').
Proof.
  unfold createInstance, clone.
  destruct (objects (mem w) !! GLTF.scene gltf) as [src|] eqn:Hsrc; [|done].
  cbn [mbind option_bind]. rewrite alloc_eq.
  set (c := (store_tree (load_tree (materials (mem w)) src) (materials (mem w))).1).
  set (ms := (store_tree (load_tree (materials (mem w)) src) (materials (mem w))).2).
  set (m := length (objects (mem w))).
  set (o3 := when_given (ModelConfig.rotation cfg) set_rotation
               (when_given (ModelConfig.position cfg) set_position
                  (when_given (ModelConfig.scale cfg) set_scale c))).
  set (h3 := update_root m _ (update_root m _ (update_root m _ _))).
  assert (objects h3 !! m = Some o3) as Ho3.
  { unfold h3. rewrite !update_root_lookup. cbn [objects].
    unfold m. by rewrite list_lookup_middle. }
  assert (transform o3 = configured cfg (transform src)) as Ht3.
  { assert (transform c = transform src) as Hc.
    { unfold c. by rewrite store_tree_transform, load_tree_transform. }
    unfold o3, configured, transform in *.
    apply pair_equal_spec in Hc as [[Hp Hr]%pair_equal_spec Hs].
    destruct (ModelConfig.rotation cfg), (ModelConfig.position cfg),
      (ModelConfig.scale cfg); cbn; rewrite ?vector_set; congruence. }
  assert (∀ i o, objects (mem w) !! i = Some o → objects h3 !! i = Some o)
    as Hold.
  { intros i o Ho. pose proof (lookup_lt_Some _ _ _ Ho).
    unfold h3, update_root. cbn [objects].
    rewrite !list_lookup_alter_ne by (unfold m; lia).
    by rewrite lookup_app_l. }
  intros Hrest. exists src.
  destruct (ModelConfig.processMaterials cfg).
  - rewrite Ho3 in Hrest. cbn [mbind option_bind] in Hrest.
    pose proof Hrest as Hobj%processMaterials_from_objects.
    destruct Hobj as [Hobj _]. cbn [mem set_mem] in Hobj.
    exists o3. split_and!; [done| |by rewrite Hobj|done|].
    + unfold processMaterials_from in Hrest.
      destruct (materials_loop _ _ _ _ _) as [[? [j|]]|]; [| |done];
        cbn in Hrest; by apply (inj Some), pair_equal_spec in Hrest as [_ <-].
    + intros i o Ho. exists o. rewrite Hobj. auto.
  - apply (inj Some) in Hrest.
    pose proof Hrest as Hk%createInstance_finish_roots.
    cbn [mem set_mem] in Hk.
    destruct (Hk _ _ Ho3) as (o4&Ho4&Ht4).
    exists o4. split_and!; [done| |done|congruence|].
    + unfold createInstance_finish in Hrest.
      by apply pair_equal_spec in Hrest as [_ <-].
    + intros i o Ho. by apply Hk, Hold.
Qed.

Lemma loadModel_roots cfg w w' f :
  loadModel cfg w = Some (w', f) → roots_kept (mem w) (mem w').
Proof.
  intros [g Hg Hci|p Hc Hp -> ->|Hc Hp Heq]%loadModel_branches.
  - by apply createInstance_transform in Hci as (?&?&?&?&?&?&?).
  - apply roots_kept_refl.
  - rewrite loadModelFromDisk_spec in Heq.
    apply pair_equal_spec in Heq as [-> _]. apply roots_kept_refl.
Qed.

Lemma progressive_loop_roots tid child cfgs i rs w w' f spawned :
  progressive_loop tid child cfgs i rs w = Some (w', f, spawned) →
  roots_kept (mem w) (mem w').
Proof.
  intros [(_&->&_)|(cfg&f0&_&Hl&_)]%progressive_loop_spec.
  - apply roots_kept_refl.
  - by eapply loadModel_roots.
Qed.

Lemma resume_roots tid a w w' f spawned :
  resume tid a w = Some (w', f, spawned) → roots_kept (mem w) (mem w').
Proof.
  intros Hr. apply resume_cases in Hr.
  destruct Hr; subst; try apply roots_kept_refl;
    try (by eapply progressive_loop_roots).
  - by apply createInstance_transform in H2 as (?&?&?&?&?&?&?).
  - by apply createInstance_transform in H1 as (?&?&?&?&?&?&?).
  - apply roots_kept_objects. by eapply processMaterials_from_objects.
  - by eapply createInstance_finish_roots.
Qed.

(** No step of the event loop changes the transform of a scene graph
    that is on the heap already. *)
Lemma step_roots e w w' : step e w = Some w' → roots_kept (mem w) (mem w').
Proof.
  destruct e as [cfg|cfgs cb|t|rid parsed|rid error]; cbn [step].
  - destruct (loadModel cfg w) as [[w1 f]|] eqn:Hl; [|done]. cbn.
    intros Heq. apply (inj Some) in Heq as <-.
    exact (loadModel_roots _ _ _ _ Hl).
  - destruct (progressive_loop _ _ _ _ _ _) as [[[w1 f] sp]|] eqn:Hl; [|done].
    cbn. intros Heq. apply (inj Some) in Heq as <-.
    exact (progressive_loop_roots _ _ _ _ _ _ _ _ _ Hl).
  - destruct (tasks w !! t) as [a|]; [|done]. cbn.
    destruct (resume t a w) as [[[w1 f] sp]|] eqn:Hr; [|done]. cbn.
    intros Heq. apply (inj Some) in Heq as <-.
    exact (resume_roots _ _ _ _ _ _ Hr).
  - destruct (open_request rid w) as [req|]; [|done]. cbn.
    intros Heq. apply (inj Some) in Heq as <-. cbn [mem answer].
    rewrite onLoad_eq. cbn [mem]. rewrite alloc_eq.
    intros i o Ho. exists o. split; [|done]. cbn [snd objects].
    rewrite lookup_app_l; [done|by eapply lookup_lt_Some].
  - destruct (open_request rid w) as [req|]; [|done]. cbn.
    intros Heq. apply (inj Some) in Heq as <-. apply roots_kept_refl.
Qed.

Lemma run_roots es w w' : run es w = Some w' → roots_kept (mem w) (mem w').
Proof.
  revert w. induction es as [|e es IH]; intros w Hrun.
  - apply (inj Some) in Hrun as <-. apply roots_kept_refl.
  - apply run_cons in Hrun as (w1&Hs&Hrun).
    eapply roots_kept_trans; [by eapply step_roots|by apply IH].
Qed.

(** C8, counterexample.  An asset whose root has scale (2, 2, 2) is
    loaded with a configuration that gives no position, no rotation and
    no scale: the instance has scale (2, 2, 2).  So it is not the case
    that every instance made from a configuration without transform
    fields has the identity transform. *)
Lemma default_transform_not_identity :
  ¬ (∀ w t a cfg c m o,
       reachable w → tasks w !! t = Some a → call a = LoadModel cfg c →
       no_transform cfg → model_of (at_ a) = Some m →
       objects (mem w) !! m = Some o → transform o = identity).
Proof.
  intros H.
  destruct (run scaled_instance init) as [w|] eqn:Hrun;
    [|by vm_compute in Hrun].
  assert (reachable w) as Hw by by exists scaled_instance.
  vm_compute in Hrun. apply (inj Some) in Hrun.
  specialize (H w 0 (Activation (LoadModel (just "x" "a.glb") None) (AwaitInstance 1))
                (just "x" "a.glb") None 1
                (Object3D false None false false plain plain (Vector3.mk 2 2 2) [])
                Hw).
  subst w. specialize (H eq_refl eq_refl (conj eq_refl (conj eq_refl eq_refl))
                         eq_refl eq_refl).
  apply (f_equal (λ t, PrimFloat.ltb (Vector3.x t.2) 1.5)) in H.
  vm_compute in H. discriminate.
Qed.

(** C8.  An instance has the transform of the root of the cached scene
    graph it was cloned from, but for the fields that the configuration
    gives, and keeps it in every later state.  When position, rotation
    and scale are all omitted, the instance has the identity transform
    exactly when the root of the cached scene graph has it. *)
Theorem omitted_transform_is_inherited gltf cfg w w1 f :
  createInstance gltf cfg w = Some (w1, f) →
  ∃ src m o,
    objects (mem w) !! GLTF.scene gltf = Some src ∧
    model_of f = Some m ∧
    objects (mem w1) !! m = Some o ∧
    transform o = configured cfg (transform src) ∧
    (no_transform cfg → transform o = transform src ∧
       (transform o = identity ↔ transform src = identity)) ∧
    ∀ es w2, run es w1 = Some w2 →
      ∃ o2 src2, objects (mem w2) !! m = Some o2 ∧
             transform o2 = transform o ∧
             objects (mem w2) !! GLTF.scene gltf = Some src2 ∧
             transform src2 = transform src.
Proof.
  intros Hci.
  destruct (createInstance_transform _ _ _ _ _ Hci) as (src&o&Hsrc&Hm&Ho&Ht&Hk).
  exists src, (length (objects (mem w))), o. split_and!; [done..| |].
  - intros (Hp&Hr&Hs).
    assert (transform o = transform src) as ->; [|done].
    rewrite Ht. unfold configured. rewrite Hp, Hr, Hs. cbn [default].
    by destruct (transform src) as [[??]?].
  - intros es w2 Hrun. apply run_roots in Hrun.
    destruct (Hrun _ _ Ho) as (o2&?&?).
    destruct (Hk _ _ Hsrc) as (src1&Hsrc1&?).
    destruct (Hrun _ _ Hsrc1) as (src2&?&?).
    exists o2, src2. split_and!; [done..|congruence].
Qed.

Lemma omitted_transform_witness :
  ∃ w1 f,
    createInstance (GLTF.mk 0) (just "y" "a.glb") scaled_cached = Some (w1, f) ∧
    ∃ src m o,
      objects (mem scaled_cached) !! 0 = Some src ∧
      model_of f = Some m ∧
      objects (mem w1) !! m = Some o ∧
      transform o = configured (just "y" "a.glb") (transform src) ∧
      (no_transform (just "y" "a.glb") → transform o = transform src ∧
         (transform o = identity ↔ transform src = identity)) ∧
      ∀ es w2, run es w1 = Some w2 →
        ∃ o2 src2, objects (mem w2) !! m = Some o2 ∧
               transform o2 = transform o ∧
               objects (mem w2) !! 0 = Some src2 ∧
               transform src2 = transform src.
Proof.
  assert (∃ w1 f, createInstance (GLTF.mk 0) (just "y" "a.glb") scaled_cached
                  = Some (w1, f)) as (w1&f&H).
  { eexists _, _. vm_compute. reflexivity. }
  exists w1, f. split; [exact H|].
  exact (omitted_transform_is_inherited _ _ _ _ _ H).
Defined.

(** C4, counterexample.  After the scenario the statistics do not show
    one hit: the second call found the path in [loadingPromises], not in
    [modelCache], and line 38 did not run. *)
Lemma scenario_hits_not_one :
  ¬ (∃ w, run (scenario one_mesh) init = Some w ∧
          CacheStats.cacheHits (getCacheStats (this w)).1 = 1 ∧
          CacheStats.totalLoads (getCacheStats (this w)).1 = 2).
Proof.
  intros (w&Hrun&Hhits&_). vm_compute in Hrun.
  apply (inj Some) in Hrun. subst w. vm_compute in Hhits. discriminate.
Qed.

(** C4.  In the scenario, whatever scene graph the file holds, there is
    one request, for "a.glb"; both calls return, with two different
    instances that are registered under "x" and "y" and have position
    (1, 2, 3); and the statistics show two loads, no hit and one cached
    model. *)
Theorem scenario_outcome parsed :
  ∃ w mx my ox oy,
    run (scenario parsed) init = Some w ∧
    requests w = [Request "a.glb" "a.glb" 0 true] ∧
    tasks w = [Activation (LoadModel (placed "x") None) (Settled (Returned mx));
               Activation (LoadModel (placed "y") None) (Settled (Returned my))] ∧
    mx ≠ my ∧
    loadedModels (this w) !! "x" = Some mx ∧
    loadedModels (this w) !! "y" = Some my ∧
    objects (mem w) !! mx = Some ox ∧ position ox = Vector3.mk 1 2 3 ∧
    objects (mem w) !! my = Some oy ∧ position oy = Vector3.mk 1 2 3 ∧
    getCacheStats (this w) = (CacheStats.mk 2 0 1, this w).
Proof.
  eexists _, 2, 1, _, _. split; [vm_compute; reflexivity|].
  split_and!; try reflexivity; try done.
Qed.

Lemma batch_at_length mats i : length (batch_at mats i) ≤ batchSize.
Proof. unfold batch_at. rewrite length_take. lia. Qed.

Lemma batch_at_end mats i : length mats ≤ i → batch_at mats i = [].
Proof. intros. unfold batch_at. by rewrite drop_ge. Qed.

(** Entered with a multiple of [batchSize], the loop runs one iteration
    and suspends, or ends at once when no material is left. *)
Lemma materials_loop_batch fuel config mats i ms :
  i mod batchSize = 0 →
  materials_loop fuel config mats i ms =
    Some (process_batch config (batch_at mats i) ms,
          if decide (i < length mats) then Some i else None).
Proof.
  intros Hi. destruct fuel; cbn [materials_loop]; repeat case_decide;
    try done; rewrite batch_at_end by lia; done.
Qed.

Lemma processMaterials_from_batch model config mats i w :
  i mod batchSize = 0 →
  processMaterials_from model config mats i w =
    Some (set_mem (Heap (objects (mem w))
                     (process_batch config (batch_at mats i)
                        (materials (mem w)))) w,
          pass_at model config mats i).
Proof.
  intros Hi. unfold processMaterials_from, pass_at.
  rewrite materials_loop_batch by done. cbn. by case_decide.
Qed.

Lemma next_batch i : i mod batchSize = 0 → (i + batchSize) mod batchSize = 0.
Proof.
  unfold batchSize. intros Hi.
  rewrite Nat.Div0.add_mod, Hi. done.
Qed.

(** With [processMaterials] set, [createInstance] runs up to the first
    [await this.yieldControl()] (or up to the end of the pass when the
    instance has no material): the clone is on the heap with its
    transform written, the first batch has been processed, and the
    loader object is as it was. *)
Lemma createInstance_first_batch gltf cfg w w1 f :
  ModelConfig.processMaterials cfg = true →
  createInstance gltf cfg w = Some (w1, f) →
  ∃ model h0 o,
    let config :=
      default MaterialConfig.empty (ModelConfig.materialConfig cfg) in
    let mats := collect_materials o in
    clone (GLTF.scene gltf) (mem w) = Some (model, h0) ∧
    objects (mem w1) !! model = Some o ∧
    this w1 = this w ∧ tasks w1 = tasks w ∧
    f = pass_at model config mats 0 ∧
    materials (mem w1) = process_batch config (batch_at mats 0) (materials h0).
Proof.
  intros Hpm. unfold createInstance. rewrite Hpm.
  destruct (clone _ _) as [[model h0]|] eqn:Hclone; [|done].
  cbn [mbind option_bind].
  set (h3 := update_root model _ (update_root model _ (update_root model _ _))).
  change (objects (mem (set_mem h3 w))) with (objects h3).
  destruct (objects h3 !! model) as [o|] eqn:Ho; [|done].
  cbn [mbind option_bind].
  rewrite processMaterials_from_batch by done.
  intros Heq. apply (inj Some), pair_equal_spec in Heq as [<- <-].
  exists model, h0, o. cbn. done.
Qed.

(** C7.  When [processMaterials] is set, [createInstance] processes the
    first batch and, unless the instance has no material, suspends at
    [await this.yieldControl()] before anything is added to the scene or
    to [loadedModels].  Each time the activation is resumed there it
    processes the next batch, of at most five materials, and suspends
    again if materials are left after that batch; the loader object is
    untouched until the pass is over.  So an instance with more than
    five materials is suspended at least twice before it is
    registered. *)
Theorem material_pass_yields gltf cfg w w1 f :
  ModelConfig.processMaterials cfg = true →
  createInstance gltf cfg w = Some (w1, f) →
  ∃ model h0 o,
    let config :=
      default MaterialConfig.empty (ModelConfig.materialConfig cfg) in
    let mats := collect_materials o in
    clone (GLTF.scene gltf) (mem w) = Some (model, h0) ∧
    objects (mem w1) !! model = Some o ∧
    this w1 = this w ∧
    f = pass_at model config mats 0 ∧
    materials (mem w1) = process_batch config (batch_at mats 0) (materials h0) ∧
    (batchSize < length mats →
       f = AwaitYield model config mats 0 ∧
       pass_at model config mats batchSize
         = AwaitYield model config mats batchSize) ∧
    ∀ i t a c v,
      i mod batchSize = 0 →
      call a = LoadModel cfg c → at_ a = AwaitYield model config mats i →
      ∃ v1,
        resume t a v
          = Some (v1, pass_at model config mats (i + batchSize), []) ∧
        this v1 = this v ∧ tasks v1 = tasks v ∧
        objects (mem v1) = objects (mem v) ∧
        materials (mem v1)
          = process_batch config (batch_at mats (i + batchSize))
              (materials (mem v)) ∧
        length (batch_at mats (i + batchSize)) ≤ 5 ∧
        (i + batchSize) mod batchSize = 0.
Proof.
  intros Hpm Hci.
  destruct (createInstance_first_batch _ _ _ _ _ Hpm Hci)
    as (model&h0&o&Hclone&Ho&Hthis&_&Hf&Hms).
  exists model, h0, o. cbn zeta. split_and!; [done..| |].
  - intros Hlen. rewrite Hf. unfold pass_at.
    rewrite !decide_True by lia. done.
  - intros i t a c v Hi Hcall Hat.
    eexists. unfold resume. rewrite Hcall, Hat.
    rewrite processMaterials_from_batch by by apply next_batch.
    cbn [quiet mbind option_bind].
    split_and!; [done..|apply batch_at_length|by apply next_batch].
Qed.

Lemma material_pass_witness :
  ModelConfig.processMaterials (enhanced "y") = true ∧
  ∃ w1 f,
    createInstance (GLTF.mk 0) (enhanced "y") six_cached = Some (w1, f) ∧
    ∃ model h0 o,
      let config :=
        default MaterialConfig.empty
          (ModelConfig.materialConfig (enhanced "y")) in
      let mats := collect_materials o in
      clone 0 (mem six_cached) = Some (model, h0) ∧
      objects (mem w1) !! model = Some o ∧
      this w1 = this six_cached ∧
      f = pass_at model config mats 0 ∧
      materials (mem w1)
        = process_batch config (batch_at mats 0) (materials h0) ∧
      (batchSize < length mats →
         f = AwaitYield model config mats 0 ∧
         pass_at model config mats batchSize
           = AwaitYield model config mats batchSize) ∧
      ∀ i t a c v,
        i mod batchSize = 0 →
        call a = LoadModel (enhanced "y") c →
        at_ a = AwaitYield model config mats i →
        ∃ v1,
          resume t a v
            = Some (v1, pass_at model config mats (i + batchSize), []) ∧
          this v1 = this v ∧ tasks v1 = tasks v ∧
          objects (mem v1) = objects (mem v) ∧
          materials (mem v1)
            = process_batch config (batch_at mats (i + batchSize))
                (materials (mem v)) ∧
          length (batch_at mats (i + batchSize)) ≤ 5 ∧
          (i + batchSize) mod batchSize = 0.
Proof.
  split; [reflexivity|].
  assert (∃ w1 f, createInstance (GLTF.mk 0) (enhanced "y") six_cached
                  = Some (w1, f)) as (w1&f&H).
  { eexists _, _. vm_compute. reflexivity. }
  exists w1, f. split; [exact H|].
  exact (material_pass_yields (GLTF.mk 0) (enhanced "y") _ _ _ eq_refl H).
Defined.

(** A run in which another call is served between the two suspensions
    of a material pass over six materials: activation 1 is the pass,
    activation 2 the other call; the pass is registered last. *)
Example pass_interleaved :
  ∃ w w',
    run [Call (enhanced "x"); OnLoad 0 six_meshes; Call (enhanced "y")] init
      = Some w ∧
    (∃ mats, at_ <$> tasks w !! 1 = Some (AwaitYield 1 MaterialConfig.empty mats 0) ∧
             length mats = 6) ∧
    loadedModels (this w) !! "y" = None ∧
    run [Resume 1; Call (just "z" "six.glb"); Resume 2; Resume 1; Resume 1] w
      = Some w' ∧
    scene (this w') = [2; 1] ∧
    at_ <$> tasks w' !! 1 = Some (AwaitInstance 1) ∧
    at_ <$> tasks w' !! 2 = Some (Settled (Returned 2)).
Proof.
  eexists _, _. split; [vm_compute; reflexivity|].
  split; [eexists; split; [vm_compute; reflexivity|reflexivity]|].
  split; [reflexivity|].
  split; [vm_compute; reflexivity|]. done.
Qed.

Lemma load_tree_ext ms ms' o :
  (∀ r, r ∈ refs o → ms' !! r = ms !! r) →
  load_tree ms' o = load_tree ms o.
Proof.
  induction o as [mesh mat cast recv pos rot scl kids IH] using object3d_forall.
  rewrite refs_unfold. intros Hr. cbn [load_tree]. f_equal.
  - destruct mat as [r|]; [|done]. cbn. apply Hr, elem_of_app. left.
    cbn. apply list_elem_of_here.
  - assert (∀ r, r ∈ flat_map refs kids → ms' !! r = ms !! r) as Hk.
    { intros r ?. apply Hr, elem_of_app. by right. }
    clear Hr. induction IH as [|c kids Hc _ IHk]; [done|]. cbn [map].
    f_equal.
    + apply Hc. intros r ?. apply Hk. cbn [flat_map]. apply elem_of_app. by left.
    + apply IHk. intros r ?. apply Hk. cbn [flat_map]. apply elem_of_app. by right.
Qed.

(** Code that writes to scene graph [m] leaves every other one as it
    was, materials included. *)
Lemma evolves_snapshot m h h' i :
  bounded h → separated h → evolves m h h' →
  i ≠ m → i < length (objects h) →
  snapshot h' i = snapshot h i.
Proof.
  intros Hb Hs Hev Hi Hlt. unfold snapshot.
  destruct (lookup_lt_is_Some_2 _ _ Hlt) as [o Ho].
  rewrite (ev_others _ _ _ Hev _ _ Ho Hi), Ho. cbn. f_equal.
  apply load_tree_ext. intros r Hr.
  destruct (lookup_lt_is_Some_2 (materials h) r) as [x Hx];
    [by eapply Hb|].
  rewrite Hx. eapply ev_frame; [done..|].
  intros om Hom Hr'. apply Hi. by eapply Hs.
Qed.

(** A step writes to one scene graph at most: a new one, or the instance
    that an activation holds. *)
Lemma hstep_writes w w' :
  heap_ok w → hstep w w' →
  ∃ m, evolves m (mem w) (mem w') ∧
       (length (objects (mem w)) ≤ m ∨ ∃ t, held w t = Some m).
Proof.
  intros Hw [w1 f t (Hful&Hy&Hres&Hlen&Hcase) Hmem Hprom Htasks
            |parsed g Hmem Hg Hmono Hnew Htasks|Hmem Hful Htasks].
  - rewrite Hmem.
    destruct Hcase as [[_ ->]|(m&_&Hev&_&[[Hold _]| ->])].
    + exists (length (objects (mem w))). split; [apply evolves_refl|by left].
    + exists m. split; [done|]. right. by exists t.
    + eexists. split; [done|by left].
  - exists (length (objects (mem w))). rewrite Hmem. split; [|by left].
    by apply evolves_alloc, Hw.
  - exists (length (objects (mem w))). rewrite Hmem.
    split; [apply evolves_refl|by left].
Qed.

Lemma cached_fulfilled w k g :
  tables_ok w → modelCache (this w) !! k = Some g → fulfilled w g.
Proof. intros Hw Hg. destruct (t_cached _ Hw _ _ Hg) as (rid&_&_&_&?). by exists rid. Qed.

Lemma step_cached e w w' g :
  heap_ok w → step e w = Some w' → fulfilled w g →
  snapshot (mem w') (GLTF.scene g) = snapshot (mem w) (GLTF.scene g).
Proof.
  intros Hw Hstep Hg.
  destruct (hstep_writes w w' Hw) as (m&Hev&Hm); [by eapply step_hstep|].
  pose proof (h_gltf _ Hw _ Hg) as Hlt.
  eapply evolves_snapshot; [apply Hw..|done| |done].
  destruct Hm as [?|[t Ht]]; [lia|].
  unfold held in Ht. destruct (tasks w !! t) as [a|] eqn:Ha; [|done].
  cbn in Ht. intros <-. by eapply (h_apart _ Hw).
Qed.

Lemma step_cache_kept e w w' k g :
  tables_ok w → step e w = Some w' →
  modelCache (this w) !! k = Some g → modelCache (this w') !! k = Some g.
Proof.
  intros Hw Hstep. apply step_tstep in Hstep.
  by apply (status_moves w w' k Hw Hstep).
Qed.

Lemma run_cached es w w' k g :
  tables_ok w → heap_ok w → run es w = Some w' →
  modelCache (this w) !! k = Some g →
  modelCache (this w') !! k = Some g ∧
  snapshot (mem w') (GLTF.scene g) = snapshot (mem w) (GLTF.scene g).
Proof.
  revert w. induction es as [|e es IH]; intros w Ht Hh Hrun Hg.
  - by apply (inj Some) in Hrun as <-.
  - apply run_cons in Hrun as (w1&Hs&Hrun).
    destruct (IH w1) as [? ->]; [by eapply tables_ok_step|by eapply heap_ok_step
                                |done|by eapply step_cache_kept|].
    split; [done|]. eapply step_cached; [done..|by eapply cached_fulfilled].
Qed.

Lemma separated_disjoint h i j :
  separated h → i ≠ j →
  i < length (objects h) → j < length (objects h) →
  disjoint_graphs h i j.
Proof.
  intros Hs Hij Hi Hj. split; [done|].
  destruct (lookup_lt_is_Some_2 _ _ Hi) as [oi Hoi].
  destruct (lookup_lt_is_Some_2 _ _ Hj) as [oj Hoj].
  exists oi, oj. split_and!; [done..|].
  intros r Hr Hr'. apply Hij. by eapply Hs.
Qed.

(** C2.  Modelled from the spec as far as [clone] goes (three.js is
    not part of the sources; the deep copy is section 4.1's wording).
    In every reachable state, for every cached asset: its scene graph
    is on the heap; [createInstance] with any configuration leaves it as
    it was, materials included; so does every run of the event loop from
    that state, and the asset stays cached; every instance that an
    activation holds is another cell and names none of the asset's
    materials.  Two instances held by different activations are
    different cells and name no material in common. *)
Theorem cached_asset_is_never_written (w : world) :
  reachable w →
  (∀ k g, modelCache (this w) !! k = Some g →
     is_Some (snapshot (mem w) (GLTF.scene g)) ∧
     (∀ cfg w1 f, createInstance g cfg w = Some (w1, f) →
        snapshot (mem w1) (GLTF.scene g) = snapshot (mem w) (GLTF.scene g) ∧
        ∃ m, model_of f = Some m ∧ disjoint_graphs (mem w1) m (GLTF.scene g)) ∧
     (∀ es w', run es w = Some w' →
        modelCache (this w') !! k = Some g ∧
        snapshot (mem w') (GLTF.scene g) = snapshot (mem w) (GLTF.scene g)) ∧
     (∀ t a m, tasks w !! t = Some a → model_of (at_ a) = Some m →
        disjoint_graphs (mem w) m (GLTF.scene g))) ∧
  (∀ t1 t2 a1 a2 m1 m2,
     t1 ≠ t2 → tasks w !! t1 = Some a1 → tasks w !! t2 = Some a2 →
     model_of (at_ a1) = Some m1 → model_of (at_ a2) = Some m2 →
     disjoint_graphs (mem w) m1 m2).
Proof.
  intros Hw.
  pose proof (tables_ok_reachable _ Hw) as Ht.
  pose proof (heap_ok_reachable _ Hw) as Hh.
  split.
  - intros k g Hg.
    pose proof (cached_fulfilled _ _ _ Ht Hg) as Hful.
    pose proof (h_gltf _ Hh _ Hful) as Hlt.
    split_and!.
    + unfold snapshot. destruct (lookup_lt_is_Some_2 _ _ Hlt) as [o ->].
      by eexists.
    + intros cfg w1 f Hci.
      destruct (createInstance_evolves _ _ _ _ _ (h_bounded _ Hh) Hci)
        as (_&Hev&Hm&_&Hlen).
      split.
      * eapply evolves_snapshot; [apply Hh|apply Hh|exact Hev|lia|done].
      * eexists. split; [done|].
        apply separated_disjoint; [|lia..].
        eapply evolves_separated; [apply Hh..|done|lia].
    + intros es w' Hrun. by eapply run_cached.
    + intros t a m Ha Hm. apply separated_disjoint; [apply Hh| | |done].
      * intros ->. by eapply (h_apart _ Hh).
      * by eapply h_model.
  - intros t1 t2 a1 a2 m1 m2 Hne Ha1 Ha2 Hm1 Hm2.
    apply separated_disjoint;
      [apply Hh| |exact (h_model _ Hh _ _ _ Ha1 Hm1)
      |exact (h_model _ Hh _ _ _ Ha2 Hm2)].
    intros ->. apply Hne. exact (h_unique _ Hh _ _ _ _ _ Ha1 Ha2 Hm1 Hm2).
Qed.

Lemma cached_asset_witness :
  reachable (after third_served) ∧
  (∀ k g, modelCache (this (after third_served)) !! k = Some g →
     is_Some (snapshot (mem (after third_served)) (GLTF.scene g)) ∧
     (∀ cfg w1 f, createInstance g cfg (after third_served) = Some (w1, f) →
        snapshot (mem w1) (GLTF.scene g)
          = snapshot (mem (after third_served)) (GLTF.scene g) ∧
        ∃ m, model_of f = Some m ∧ disjoint_graphs (mem w1) m (GLTF.scene g)) ∧
     (∀ es w', run es (after third_served) = Some w' →
        modelCache (this w') !! k = Some g ∧
        snapshot (mem w') (GLTF.scene g)
          = snapshot (mem (after third_served)) (GLTF.scene g)) ∧
     (∀ t a m, tasks (after third_served) !! t = Some a →
        model_of (at_ a) = Some m →
        disjoint_graphs (mem (after third_served)) m (GLTF.scene g))) ∧
  (∀ t1 t2 a1 a2 m1 m2,
     t1 ≠ t2 → tasks (after third_served) !! t1 = Some a1 →
     tasks (after third_served) !! t2 = Some a2 →
     model_of (at_ a1) = Some m1 → model_of (at_ a2) = Some m2 →
     disjoint_graphs (mem (after third_served)) m1 m2).
Proof.
  assert (reachable (after third_served)) as H.
  { exists third_served. vm_compute. reflexivity. }
  split; [exact H|]. exact (cached_asset_is_never_written _ H).
Defined.


Lemma entries_grows ts ts' t cfgs rs :
  grows ts ts' → entries ts t cfgs rs → entries ts' t cfgs rs.
Proof.
  intros Hg He j r Hr. destruct (He _ _ Hr) as (cfg&c&o&Hcfg&Hc&Hd).
  destruct (Hg _ _ Hc) as (x'&Hx'&_&Hst).
  rewrite (Hst o eq_refl) in Hx'. by exists cfg, c, o.
Qed.

Lemma loop_ok_grows ts ts' t cfgs cb f :
  grows ts ts' → loop_ok ts t cfgs cb f → loop_ok ts' t cfgs cb f.
Proof.
  intros Hg. destruct f as [| | | | | |i rs child|i rs|[]]; cbn; try done.
  - intros [(cfg&ch&Hcfg&Hch&Hcall) Hf]. split.
    + destruct (Hg _ _ Hch) as (x'&Hx'&Hc&_).
      exists cfg, x'. by rewrite Hc.
    + intros [? ?]%Hf. split; [done|by eapply entries_grows].
  - intros [? Hf]. split; [done|].
    intros [? ?]%Hf. split; [done|by eapply entries_grows].
  - intros Hf [? ?]%Hf. split; [done|by eapply entries_grows].
Qed.

Lemma task_ok_grows n n' ts ts' t a :
  n ≤ n' → grows ts ts' → task_ok n ts t a → task_ok n' ts' t a.
Proof.
  intros Hn Hg. unfold task_ok. destruct (call a).
  - intros [? Hp]. split; [done|]. intros p Hf. specialize (Hp p Hf). lia.
  - by apply loop_ok_grows.
Qed.

Lemma step_grows e w w' : step e w = Some w' → grows (tasks w) (tasks w').
Proof.
  intros Hstep c x Hx.
  destruct (step_tasks _ _ _ _ _ Hstep Hx) as [Hx'|(->&w1&f&sp&Hr&Hx')].
  - by exists x.
  - eexists. split; [done|]. split; [done|].
    intros o Ho. pose proof (settled_stable _ _ _ _ _ _ Hstep Hx Ho). congruence.
Qed.

Lemma step_promises e w w' :
  step e w = Some w' → length (promises w) ≤ length (promises w').
Proof.
  intros [n ? ? -> ? ?|n k ? ? ? ? -> ? ?|tid k p r ? ? ? ? -> ? ?
         |rid req g ? ? ? ? -> ? ?|rid req err ? ? ? ? -> ? ?]%step_tstep;
    rewrite ?length_app, ?settle_length; lia.
Qed.

Lemma instancing_task_ok n ts t cfg c f :
  instancing f → task_ok n ts t (Activation (LoadModel cfg c) f).
Proof. destruct f; try done; (split; [done|]); by intros p [|]. Qed.

Lemma loadModel_task_ok cfg c w w1 f ts t :
  tables_ok w → loadModel cfg w = Some (w1, f) →
  task_ok (length (promises w1)) ts t (Activation (LoadModel cfg c) f).
Proof.
  intros Hw [g Hg Hci|p Hc Hp -> ->|Hc Hp Heq]%loadModel_branches.
  - apply instancing_task_ok. by eapply createInstance_tables.
  - split; [done|]. intros q [[= <-]|[=]]. cbn.
    destruct (t_owned _ Hw _ _ Hp) as (tid&Ho).
    destruct (t_owner _ Hw _ _ _ Ho) as (_&r&Hr&_).
    rewrite (t_lengths _ Hw). by eapply lookup_lt_Some.
  - rewrite loadModelFromDisk_spec in Heq.
    apply pair_equal_spec in Heq as [-> ->].
    split; [done|]. intros q [[=]|[= <-]]. cbn. rewrite length_app. cbn. lia.
Qed.

Lemma resume_task_ok t a cfg c w w1 f sp n ts :
  call a = LoadModel cfg c → resume t a w = Some (w1, f, sp) →
  sp = [] ∧ task_ok n ts t (Activation (call a) f).
Proof.
  intros Hcall Hr. apply resume_cases in Hr.
  destruct Hr; try congruence; subst; rewrite Hcall; (split; [done|]);
    try (apply instancing_task_ok;
         first [by eapply createInstance_tables
               |by eapply processMaterials_from_tables
               |by eapply createInstance_finish_tables]);
    by (split; [done|]; intros q [|]).
Qed.

(** The head of the loop, entered with [i ≤ total] and well-formed
    [results], leaves a well-formed frame and, if it calls [loadModel],
    a well-formed activation. *)
Lemma progressive_loop_ok t child cfgs cb i rs w w1 f sp ts' :
  tables_ok w →
  progressive_loop t child cfgs i rs w = Some (w1, f, sp) →
  i ≤ length cfgs →
  (faithful cb → length rs = i ∧ entries ts' t cfgs rs) →
  (∀ x, sp = [x] → ts' !! child = Some x) →
  loop_ok ts' t cfgs cb f ∧
  (∀ u, Forall (task_ok (length (promises w1)) ts' u) sp) ∧
  length (promises w) ≤ length (promises w1).
Proof.
  intros Hw Hl Hi Hrs Hchild.
  apply progressive_loop_spec in Hl
    as [(Hcfg&->&->&->)|(cfg&f0&Hcfg&Hl&->&->)].
  - split_and!; [|done..]. cbn. intros [Hlen ?]%Hrs. split; [|done].
    apply lookup_ge_None in Hcfg. lia.
  - split_and!.
    + cbn. split; [|done]. eexists cfg, _. split_and!; [done|by apply Hchild|done].
    + intros u. apply Forall_singleton. by eapply loadModel_task_ok.
    + apply loadModel_tables_spec in Hl as [? ? -> ? ? ?|? ? ? ? -> ? ? ?];
        rewrite ?length_app; lia.
Qed.

Lemma entries_snoc ts t cfgs rs cfg c o r :
  entries ts t cfgs rs →
  cfgs !! length rs = Some cfg →
  ts !! c = Some (Activation (LoadModel cfg (Some (t, length rs))) (Settled o)) →
  delivered o r →
  entries ts t cfgs (rs ++ [r]).
Proof.
  intros He Hcfg Hc Hd j r' [?|[Hle [Hj <-]%list_lookup_singleton_Some]]%lookup_app_Some.
  - by apply He.
  - assert (j = length rs) as -> by lia. by exists cfg, c, o.
Qed.

Lemma calls_ok_step e w w' :
  tables_ok w → calls_ok w → step e w = Some w' → calls_ok w'.
Proof.
  intros Ht Hc Hstep.
  pose proof (step_grows _ _ _ Hstep) as Hg.
  pose proof (step_promises _ _ _ Hstep) as Hn.
  assert (∀ t a, tasks w !! t = Some a →
            task_ok (length (promises w')) (tasks w') t a) as Hold.
  { intros t a Ha. eapply task_ok_grows; [done..|by apply Hc]. }
  destruct e as [cfg|cfgs cb|t|rid parsed|rid error]; cbn [step] in Hstep.
  - destruct (loadModel cfg w) as [[w1 f]|] eqn:Hl; [|done].
    cbn in Hstep. apply (inj Some) in Hstep. subst w'.
    unfold calls_ok. cbn [tasks promises] in *.
    pose proof (loadModel_tasks _ _ _ _ Hl) as Hts.
    intros t a [Ha|[_ [_ <-]%list_lookup_singleton_Some]]%lookup_app_Some.
    + apply Hold. by rewrite <-Hts.
    + by eapply loadModel_task_ok.
  - destruct (progressive_loop _ _ _ _ _ _) as [[[w1 f] sp]|] eqn:Hl; [|done].
    cbn in Hstep. apply (inj Some) in Hstep. subst w'.
    unfold calls_ok. cbn [tasks promises] in *.
    pose proof (progressive_loop_tasks _ _ _ _ _ _ _ _ _ Hl) as Hts.
    edestruct (progressive_loop_ok _ _ _ cb _ _ _ _ _ _
                 (tasks w1 ++ Activation (LoadModelsProgressively cfgs cb) f :: sp)
                 Ht Hl) as (Hf&Hsp&_).
    { lia. }
    { intros _. split; [done|]. by intros j r Hr. }
    { intros x ->. rewrite Hts.
      by rewrite lookup_app_r, Nat.sub_succ_l, Nat.sub_diag by lia. }
    intros t a [Ha|[Hlen Ha]]%lookup_app_Some.
    + apply Hold. by rewrite <-Hts.
    + apply lookup_cons_Some in Ha as [[Hz <-]|[_ Ha]].
      * assert (t = length (tasks w)) as -> by (rewrite Hts in *; lia).
        exact Hf.
      * eapply Forall_lookup_1; [apply Hsp|done].
  - destruct (tasks w !! t) as [a0|] eqn:Ha0; [|done]. cbn in Hstep.
    destruct (resume t a0 w) as [[[w1 f] sp]|] eqn:Hr; [|done].
    cbn in Hstep. apply (inj Some) in Hstep. subst w'.
    unfold calls_ok. cbn [tasks promises] in *.
    pose proof (resume_tasks _ _ _ _ _ _ Hr) as Hts.
    set (ts' := <[t := Activation (call a0) f]> (tasks w1) ++ sp) in *.
    assert (task_ok (length (promises w1)) ts' t (Activation (call a0) f) ∧
            ∀ u, Forall (task_ok (length (promises w1)) ts' u) sp) as [Hnew Hsp].
    { destruct (call a0) as [cfg c|cfgs cb] eqn:Hcall.
      - destruct (resume_task_ok _ _ _ _ _ _ _ _ (length (promises w1)) ts' Hcall Hr)
          as [-> ?]. by rewrite Hcall in *.
      - pose proof (Hc _ _ Ha0) as Hinv. unfold task_ok in Hinv.
        rewrite Hcall in Hinv. unfold task_ok at 1. cbn [call at_].
        assert (∀ x, sp = [x] → ts' !! length (tasks w) = Some x) as Hchild.
        { intros x ->. unfold ts'.
          rewrite lookup_app_r; rewrite length_insert, Hts; [|done].
          by rewrite Nat.sub_diag. }
        apply resume_cases in Hr.
        destruct Hr as [| | | | | | | |cfgs' cb' i rs child ch config model Hc' Hat Hch Hcfg Hset Hret -> -> ->
                       |cfgs' cb' i rs child ch config model Hc' Hat Hch Hcfg Hset Hret Hl
                       |cfgs' cb' i rs child ch config err Hc' Hat Hch Hcfg Hset Hl
                       |cfgs' cb' i rs Hc' Hat Hl]; try congruence;
          assert (cfgs' = cfgs ∧ cb' = cb) as [-> ->] by (split; congruence);
          rewrite Hat in Hinv; cbn in Hinv.
        + split; [|done]. cbn. split; [by eapply lookup_lt_Some|].
          destruct Hinv as [(cfg0&ch0&Hcfg0&Hch0&Hcall0) Hf].
          intros [Hlen He]%Hf. rewrite length_app. cbn. split; [lia|].
          subst i. assert (cfg0 = config) as -> by congruence.
          assert (ch0 = ch) as -> by congruence.
          eapply (entries_snoc _ _ _ _ config child (Returned model));
            [by eapply entries_grows| done| |done].
          destruct (Hg _ _ Hch) as (x'&Hx'&_&Hst).
          rewrite (Hst _ Hset) in Hx'. rewrite Hx'.
          destruct ch as [cl fr]. cbn in *. by subst.
        + eapply progressive_loop_ok in Hl as (?&?&_); [done|done| | |done].
          * apply lookup_lt_Some in Hcfg. lia.
          * intros Hfaith. by rewrite Hfaith in Hret.
        + destruct Hinv as [(cfg0&ch0&Hcfg0&Hch0&Hcall0) Hf].
          eapply progressive_loop_ok in Hl as (?&?&_); [done|done| | |done].
          * apply lookup_lt_Some in Hcfg. lia.
          * intros [Hlen He]%Hf. rewrite length_app. cbn. split; [lia|].
            subst i. assert (cfg0 = config) as -> by congruence.
            assert (ch0 = ch) as -> by congruence.
            eapply (entries_snoc _ _ _ _ config child (Threw err));
              [by eapply entries_grows| done| |done].
            destruct (Hg _ _ Hch) as (x'&Hx'&_&Hst).
            rewrite (Hst _ Hset) in Hx'. rewrite Hx'.
            destruct ch as [cl fr]. cbn in *. by subst.
        + destruct Hinv as [Hi Hf].
          eapply progressive_loop_ok in Hl as (?&?&_); [done|done| | |done].
          * lia.
          * intros [Hlen He]%Hf. split; [lia|]. by eapply entries_grows. }
    intros t' a [Ha|[_ Ha]]%lookup_app_Some.
    + destruct (decide (t' = t)) as [->|Hne].
      * rewrite list_lookup_insert_eq in Ha
          by (rewrite Hts; by eapply lookup_lt_Some).
        by apply (inj Some) in Ha as <-.
      * rewrite list_lookup_insert_ne in Ha by done.
        apply Hold. by rewrite <-Hts.
    + eapply Forall_lookup_1; [apply Hsp|done].
  - destruct (open_request rid w) as [req|]; [|done].
    cbn in Hstep. apply (inj Some) in Hstep. subst w'.
    intros t a Ha. by apply Hold.
  - destruct (open_request rid w) as [req|]; [|done].
    cbn in Hstep. apply (inj Some) in Hstep. subst w'.
    intros t a Ha. by apply Hold.
Qed.

Lemma calls_ok_reachable w : reachable w → calls_ok w.
Proof.
  intros [es Hrun].
  apply (run_invariant (λ w, tables_ok w ∧ calls_ok w) es init w);
    [|split; [apply tables_ok_init|by intros t a Ha]|done].
  intros e v v' [? ?] Hstep.
  split; [by eapply tables_ok_step|by eapply calls_ok_step].
Qed.












(** * Further properties of [OptimizedModelLoader] *)

(** ** [processSingleMaterial] *)

Lemma js_or_idemp a b : js_or a (js_or a b) = js_or a b.
Proof. unfold js_or. by destruct (truthy a). Qed.

Lemma js_or_is_Some a b : is_Some b → is_Some (js_or a b).
Proof.
  unfold js_or. destruct (truthy a) eqn:Ha; [|done].
  intros _. destruct a; [by eexists|done].
Qed.

Lemma guarded_or_is_Some c fb p :
  is_Some fb → is_Some (guarded_or c fb p) ↔ is_Some p.
Proof.
  intros Hfb. destruct p as [p|]; cbn; [|done].
  split; [by eexists|]. intros _. by apply js_or_is_Some.
Qed.

(** The fields of a processed material. *)
Lemma processSingleMaterial_eq (material : Material.t)
    (config : MaterialConfig.t) :
  processSingleMaterial material config =
    let enhance := MaterialConfig.enhanceRealism config in
    Material.mk
      (if enhance
       then guarded_or (MaterialConfig.roughness config)
              (Material.roughness material) (Material.roughness material)
       else Material.roughness material)
      (if enhance
       then guarded_or (MaterialConfig.metalness config)
              (Material.metalness material) (Material.metalness material)
       else Material.metalness material)
      (if enhance
       then guarded_or (MaterialConfig.aoMapIntensity config) (Some 1.0%float)
              (Material.aoMapIntensity material)
       else Material.aoMapIntensity material)
      (if Material.shininess material
       then from_option Some (Material.shininess material)
              (MaterialConfig.shininess config)
       else None)
      true.
Proof.
  destruct material as [ro me ao sh nu], config as [en cr cm ca cs].
  unfold processSingleMaterial. cbn.
  by destruct en, ro, me, ao, sh, cs.
Qed.

Lemma guarded_or_self c p :
  guarded_or c (guarded_or c p p) (guarded_or c p p) = guarded_or c p p.
Proof.
  destruct p as [p|]; [|done]. cbn.
  destruct (js_or_is_Some c (Some p)) as [v Hv]; [by eexists|].
  rewrite Hv. cbn. by rewrite <-Hv, js_or_idemp.
Qed.

Lemma guarded_or_const c fb p :
  is_Some fb → guarded_or c fb (guarded_or c fb p) = guarded_or c fb p.
Proof.
  intros Hfb. destruct p as [p|]; [|done]. cbn.
  destruct (js_or_is_Some c fb Hfb) as [v Hv]. by rewrite Hv.
Qed.

(** X1.  Processing a material again with the same configuration
    changes nothing: a material that several meshes share, and that
    [processMaterialsAsync] therefore collects several times, ends as if
    it had been processed once. *)
Theorem processSingleMaterial_idempotent (material : Material.t)
    (config : MaterialConfig.t) :
  processSingleMaterial (processSingleMaterial material config) config
  = processSingleMaterial material config.
Proof.
  rewrite (processSingleMaterial_eq (processSingleMaterial _ _)).
  rewrite !processSingleMaterial_eq. cbn.
  destruct (MaterialConfig.enhanceRealism config); f_equal;
    rewrite ?guarded_or_self, ?guarded_or_const by (by eexists); try done;
    by destruct (Material.shininess material), (MaterialConfig.shininess config).
Qed.

(** X2.  [processSingleMaterial] neither gives a material a property it
    lacks nor takes one away; it always sets [needsUpdate]; it copies
    [config.shininess] whenever the configuration and the material both
    have one, zero included; and unless [enhanceRealism] is set it
    leaves roughness, metalness and the intensity of the ambient
    occlusion map as they are. *)
Theorem processSingleMaterial_shape (material : Material.t)
    (config : MaterialConfig.t) :
  let after := processSingleMaterial material config in
  (is_Some (Material.roughness after) ↔ is_Some (Material.roughness material)) ∧
  (is_Some (Material.metalness after) ↔ is_Some (Material.metalness material)) ∧
  (is_Some (Material.aoMapIntensity after)
     ↔ is_Some (Material.aoMapIntensity material)) ∧
  (is_Some (Material.shininess after) ↔ is_Some (Material.shininess material)) ∧
  Material.needsUpdate after = true ∧
  (∀ s s0, MaterialConfig.shininess config = Some s →
           Material.shininess material = Some s0 →
           Material.shininess after = Some s) ∧
  (MaterialConfig.shininess config = None →
     Material.shininess after = Material.shininess material) ∧
  (MaterialConfig.enhanceRealism config = false →
     Material.roughness after = Material.roughness material ∧
     Material.metalness after = Material.metalness material ∧
     Material.aoMapIntensity after = Material.aoMapIntensity material).
Proof.
  cbn zeta. rewrite processSingleMaterial_eq. cbn.
  split_and!.
  - destruct (MaterialConfig.enhanceRealism config); [|done].
    destruct (Material.roughness material) as [r|] eqn:E; [|done]. cbn.
    split; [by eexists|]. intros _. apply js_or_is_Some. by eexists.
  - destruct (MaterialConfig.enhanceRealism config); [|done].
    destruct (Material.metalness material) as [r|] eqn:E; [|done]. cbn.
    split; [by eexists|]. intros _. apply js_or_is_Some. by eexists.
  - destruct (MaterialConfig.enhanceRealism config); [|done].
    apply guarded_or_is_Some. by eexists.
  - destruct (Material.shininess material), (MaterialConfig.shininess config);
      cbn; split; intros [? ?]; by try eexists.
  - done.
  - by intros s s0 -> ->.
  - intros ->. by destruct (Material.shininess material).
  - by intros ->.
Qed.

(** X3.  [enableShadowsOptimized] keeps the shape of the scene graph:
    object by object in traversal order, a mesh casts and receives
    shadows afterwards, any other object keeps its two flags, and
    nothing else changes.  Doing it twice is doing it once. *)
Theorem enableShadowsOptimized_spec (o : object3d nat) :
  Forall2 shadowed (traverse o) (traverse (enableShadowsOptimized o)) ∧
  enableShadowsOptimized (enableShadowsOptimized o) = enableShadowsOptimized o.
Proof.
  induction o as [mesh mat cast recv pos rot scl kids IH] using object3d_forall.
  split.
  - cbn [enableShadowsOptimized traverse]. constructor.
    + unfold shadowed. cbn. by destruct mesh.
    + induction IH as [|c kids [Hc _] _ IHk]; cbn; [constructor|].
      by apply Forall2_app.
  - cbn [enableShadowsOptimized]. f_equal; [by destruct mesh..|].
    induction IH as [|c kids [_ Hc] _ IHk]; cbn; [done|]. by rewrite Hc, IHk.
Qed.

(** ** The material pass as a whole *)

Lemma process_batch_app config b1 b2 ms :
  process_batch config (b1 ++ b2) ms
  = process_batch config b2 (process_batch config b1 ms).
Proof. unfold process_batch. by rewrite foldl_app. Qed.

Lemma process_batch_next config mats i ms :
  process_batch config (drop (i + batchSize) mats)
    (process_batch config (batch_at mats i) ms)
  = process_batch config (drop i mats) ms.
Proof.
  rewrite <-process_batch_app. f_equal. unfold batch_at.
  by rewrite <-drop_drop, take_drop.
Qed.

(** A pass suspended after the batch at [i] comes to its end after
    finitely many resumptions, and has then processed the materials
    from [i + batchSize] on, each once, in order. *)
Lemma pass_runs n :
  ∀ v t a cfg c model config mats i,
    length mats - i ≤ n →
    tasks v !! t = Some a → call a = LoadModel cfg c →
    at_ a = AwaitYield model config mats i → i mod batchSize = 0 →
    ∃ k v',
      run (replicate k (Resume t)) v = Some v' ∧
      tasks v' !! t = Some (Activation (call a) (AwaitMaterials model)) ∧
      materials (mem v')
        = process_batch config (drop (i + batchSize) mats) (materials (mem v)) ∧
      objects (mem v') = objects (mem v) ∧ this v' = this v.
Proof.
  induction n as [n IH] using lt_wf_ind.
  intros v t a cfg c model config mats i Hn Ha Hcall Hat Hi.
  assert (resume t a v
          = Some (set_mem (Heap (objects (mem v))
                             (process_batch config (batch_at mats (i + batchSize))
                                (materials (mem v)))) v,
                  pass_at model config mats (i + batchSize), [])) as Hr.
  { unfold resume. rewrite Hcall, Hat.
    by rewrite processMaterials_from_batch by by apply next_batch. }
  destruct (resume_installed _ _ _ _ _ _ Ha Hr) as (v1&Hstep&Ha1).
  pose proof Hstep as Hstep'. erewrite step_Resume in Hstep' by done.
  apply (inj Some) in Hstep'.
  assert (mem v1 = Heap (objects (mem v))
                     (process_batch config (batch_at mats (i + batchSize))
                        (materials (mem v))) ∧ this v1 = this v) as [Hmem Hthis].
  { by subst v1. }
  clear Hstep'. unfold pass_at in Ha1. case_decide as Hlt.
  - destruct (IH (length mats - (i + batchSize))) with (v := v1) (t := t)
      (a := Activation (call a) (AwaitYield model config mats (i + batchSize)))
      (cfg := cfg) (c := c) (model := model) (config := config) (mats := mats)
      (i := i + batchSize) as (k&v'&Hrun&Ha'&Hms&Hobj&Hth);
      [unfold batchSize in *; lia|lia|done..|by apply next_batch|].
    exists (S k), v'. cbn [replicate run]. rewrite Hstep. cbn.
    split_and!; [done..| | |congruence].
    + rewrite Hms, Hmem. cbn [materials]. apply process_batch_next.
    + by rewrite Hobj, Hmem.
  - exists 1, v1. cbn [replicate run]. rewrite Hstep. cbn.
    split_and!; [done..| | |done].
    + rewrite Hmem. cbn [materials].
      rewrite <-(process_batch_next config mats (i + batchSize)).
      by rewrite (drop_ge mats (i + batchSize + batchSize)) by lia.
    + by rewrite Hmem.
Qed.

(** X4.  The batches add up to the whole pass.  When [loadModel] is
    called for a cached path with [processMaterials] set, then after the
    call and finitely many resumptions of the new activation the
    material pass is over ([processMaterialsAsync] has returned), the
    instance is not yet in the scene, and the materials on the heap are
    those that [clone] left, with every material that [traverse] finds
    in the instance processed once per occurrence, in traversal order:
    what one unbatched [forEach] over [materials] would have given. *)
Theorem material_pass_total (w : world) (cfg : ModelConfig.t) (g : GLTF.t) :
  reachable w →
  modelCache (this w) !! ModelConfig.path cfg = Some g →
  ModelConfig.processMaterials cfg = true →
  ∃ k w' model h0 o,
    clone (GLTF.scene g) (mem w) = Some (model, h0) ∧
    run (Call cfg :: replicate k (Resume (length (tasks w)))) w = Some w' ∧
    tasks w' !! length (tasks w)
      = Some (Activation (LoadModel cfg None) (AwaitMaterials model)) ∧
    objects (mem w') !! model = Some o ∧
    materials (mem w')
      = process_batch
          (default MaterialConfig.empty (ModelConfig.materialConfig cfg))
          (collect_materials o) (materials h0) ∧
    scene (this w') = scene (this w) ∧
    loadedModels (this w') = loadedModels (this w).
Proof.
  intros Hw Hg Hpm.
  pose proof (tables_ok_reachable _ Hw) as Ht.
  pose proof (heap_ok_reachable _ Hw) as Hh.
  set (w0 := set_this (count_hit (count_load (this w))) w).
  assert (loadModel cfg w = createInstance g cfg w0) as Hlm.
  { unfold loadModel. cbn. by rewrite Hg. }
  destruct (createInstance_total g cfg w0) as [[w1 f] Hci].
  { cbn. eapply h_gltf; [done|]. by eapply cached_fulfilled. }
  destruct (createInstance_first_batch _ _ _ _ _ Hpm Hci)
    as (model&h0&o&Hclone&Ho&Hthis&Htasks&Hf&Hms).
  cbn zeta in *. cbn [mem tasks this w0 set_this] in Hclone, Htasks, Hthis.
  set (config := default MaterialConfig.empty (ModelConfig.materialConfig cfg)) in *.
  set (mats := collect_materials o) in *.
  set (v := World (this w1) (mem w1) (promises w1) (requests w1)
              (tasks w1 ++ [Activation (LoadModel cfg None) f])).
  assert (step (Call cfg) w = Some v) as Hstep.
  { apply step_Call. by rewrite Hlm. }
  assert (tasks v !! length (tasks w) = Some (Activation (LoadModel cfg None) f))
    as Hv.
  { cbn. rewrite Htasks. by rewrite lookup_app_r, Nat.sub_diag. }
  unfold pass_at in Hf. case_decide as Hlen.
  - destruct (pass_runs _ v (length (tasks w))
                (Activation (LoadModel cfg None) f) cfg None model config mats 0
                (Nat.le_refl _) Hv eq_refl)
      as (k&w'&Hrun&Ha'&Hms'&Hobj&Hth); [by rewrite Hf|done|].
    exists k, w', model, h0, o. cbn [run]. rewrite Hstep. cbn [mbind option_bind].
    split_and!; [done..| | | |].
    + by rewrite Hobj.
    + rewrite Hms'. cbn [mem v]. rewrite Hms.
      by rewrite (process_batch_next config mats 0).
    + by rewrite Hth; cbn; rewrite Hthis.
    + by rewrite Hth; cbn; rewrite Hthis.
  - exists 0, v, model, h0, o. cbn [replicate run]. rewrite Hstep.
    cbn [mbind option_bind]. split_and!; [done| done| |done| | |].
    + by rewrite Hv, Hf.
    + cbn [mem v]. rewrite Hms.
      assert (collect_materials o = []) as Hnil
        by (apply length_zero_iff_nil; fold mats; lia).
      unfold mats in *. rewrite Hnil in *. reflexivity.
    + by cbn; rewrite Hthis.
    + by cbn; rewrite Hthis.
Qed.

Lemma material_pass_total_witness :
  reachable six_cached ∧
  modelCache (this six_cached) !! ModelConfig.path (enhanced "y")
    = Some (GLTF.mk 0) ∧
  ModelConfig.processMaterials (enhanced "y") = true ∧
  ∃ k w' model h0 o,
    clone (GLTF.scene (GLTF.mk 0)) (mem six_cached) = Some (model, h0) ∧
    run (Call (enhanced "y") :: replicate k (Resume (length (tasks six_cached))))
      six_cached = Some w' ∧
    tasks w' !! length (tasks six_cached)
      = Some (Activation (LoadModel (enhanced "y") None) (AwaitMaterials model)) ∧
    objects (mem w') !! model = Some o ∧
    materials (mem w')
      = process_batch
          (default MaterialConfig.empty (ModelConfig.materialConfig (enhanced "y")))
          (collect_materials o) (materials h0) ∧
    scene (this w') = scene (this six_cached) ∧
    loadedModels (this w') = loadedModels (this six_cached).
Proof.
  assert (reachable six_cached) as Hw.
  { exists [Call (enhanced "x"); OnLoad 0 six_meshes]. vm_compute. reflexivity. }
  assert (modelCache (this six_cached) !! ModelConfig.path (enhanced "y")
          = Some (GLTF.mk 0)) as Hg.
  { vm_compute. reflexivity. }
  split; [exact Hw|]. split; [exact Hg|]. split; [reflexivity|].
  exact (material_pass_total six_cached (enhanced "y") (GLTF.mk 0) Hw Hg eq_refl).
Defined.

Lemma registered_model f m : registered f = Some m → model_of f = Some m.
Proof. by destruct f as [| | | | | | | |[]]. Qed.

Lemma step_registered e w w' t a m :
  step e w = Some w' → tasks w !! t = Some a → registered (at_ a) = Some m →
  ∃ x, tasks w' !! t = Some x ∧ call x = call a ∧ registered (at_ x) = Some m.
Proof.
  intros Hstep Ha Hm.
  destruct (step_tasks _ _ _ _ _ Hstep Ha) as [Ha'|(_&w1&f&sp&Hr&Ha')].
  - by exists a.
  - eexists. split; [done|]. split; [done|]. cbn.
    apply resume_cases in Hr. destruct Hr; subst; try done;
      match goal with H : at_ a = _ |- _ => rewrite H in Hm; try done end.
Qed.

Lemma registry_ok_change w w' :
  (∀ t a m, tasks w !! t = Some a → registered (at_ a) = Some m →
     ∃ x, tasks w' !! t = Some x ∧ call x = call a ∧
          registered (at_ x) = Some m) →
  registry_ok w → reg_change w w' → registry_ok w'.
Proof.
  intros Hkeep Hw [Hs Hl Hts|t cfg c m Hs Hl Ht Hold Hfresh Hts].
  - split; rewrite ?Hs, ?Hl.
    + intros m. rewrite (r_scene _ Hw). split.
      * intros (t&a&Ha&Hm). destruct (Hkeep _ _ _ Ha Hm) as (x&?&?&?). eauto.
      * intros (t&x&Hx&Hm). destruct (Hts _ _ Hx) as [?|(a&?&?&?)];
          [congruence|]. exists t, a. split; [done|congruence].
    + apply Hw.
    + intros name m [t [a [cfg [c (Ha&Hc&Hn&Hm)]]]]%(r_named _ Hw).
      destruct (Hkeep _ _ _ Ha Hm) as (x&?&?&?).
      exists t, x, cfg, c. split_and!; [done|congruence|done..].
    + intros t x cfg c m Hx Hc Hm.
      destruct (Hts _ _ Hx) as [?|(a&?&?&?)]; [congruence|].
      apply (r_known _ Hw t a cfg c m); [done|congruence|congruence].
  - assert (m ∉ scene (this w)) as Hnew.
    { intros (t'&a&Ha&Hm)%(r_scene _ Hw).
      destruct (decide (t' = t)) as [->|Hne].
      - rewrite (Hold _ Ha) in Hm. done.
      - by eapply Hfresh, registered_model. }
    split; rewrite ?Hs, ?Hl.
    + intros m'. rewrite elem_of_app, list_elem_of_singleton, (r_scene _ Hw).
      split.
      * intros [(t'&a&Ha&Hm)| ->].
        -- destruct (Hkeep _ _ _ Ha Hm) as (x&?&?&?). eauto.
        -- by exists t, (Activation (LoadModel cfg c) (AwaitInstance m)).
      * intros (t'&x&Hx&Hm). destruct (decide (t' = t)) as [->|Hne].
        -- right. rewrite Ht in Hx. injection Hx as <-. cbn in Hm. congruence.
        -- left. destruct (Hts _ _ Hx Hne) as [?|(a&?&?&?)]; [congruence|].
           exists t', a. split; [done|congruence].
    + apply NoDup_app. split_and!; [apply Hw| |apply NoDup_singleton].
      intros m' Hm' ->%list_elem_of_singleton. done.
    + intros name m' [[<- <-]|[Hne Hm']]%lookup_insert_Some.
      * by exists t, (Activation (LoadModel cfg c) (AwaitInstance m)), cfg, c.
      * destruct (r_named _ Hw _ _ Hm') as (t'&a&cfg'&c'&Ha&Hc&Hn&Hm).
        destruct (Hkeep _ _ _ Ha Hm) as (x&?&?&?).
        exists t', x, cfg', c'. split_and!; [done|congruence|done..].
    + intros t' x cfg' c' m' Hx Hc Hm. apply lookup_insert_is_Some.
      destruct (decide (ModelConfig.name cfg = ModelConfig.name cfg'));
        [by left|right]. split; [done|].
      destruct (decide (t' = t)) as [->|Hne].
      * rewrite Ht in Hx. injection Hx as <-. cbn in Hc. congruence.
      * destruct (Hts _ _ Hx Hne) as [?|(a&?&?&?)]; [congruence|].
        apply (r_known _ Hw t' a cfg' c' m'); [done|congruence|congruence].
Qed.

Lemma processMaterials_from_unregistered model config mats i w w' f :
  processMaterials_from model config mats i w = Some (w', f) →
  registered f = None.
Proof.
  unfold processMaterials_from.
  destruct (materials_loop _ _ _ _ _) as [[? [j|]]|]; [| |done];
    cbn; intros Hp; by apply (inj Some), pair_equal_spec in Hp as [_ <-].
Qed.

Lemma createInstance_reg g cfg w w1 f :
  createInstance g cfg w = Some (w1, f) →
  model_of f = Some (length (objects (mem w))) ∧ reg_seg cfg w w1 f.
Proof.
  intros Hci.
  destruct (createInstance_transform _ _ _ _ _ Hci) as (_&_&_&Hm&_).
  split; [done|]. revert Hci. unfold createInstance.
  destruct (clone _ _) as [[model h]|]; [|done]. cbn [mbind option_bind].
  destruct (ModelConfig.processMaterials cfg).
  - destruct (objects _ !! model) as [o|]; [|done]. cbn [mbind option_bind].
    intros Hp. left.
    pose proof (processMaterials_from_objects _ _ _ _ _ _ _ Hp) as [_ Hthis].
    cbn [this set_mem] in Hthis. rewrite Hthis. split_and!; [|done..].
    by eapply processMaterials_from_unregistered.
  - intros Heq. apply (inj Some) in Heq. unfold createInstance_finish in Heq.
    apply pair_equal_spec in Heq as [<- <-]. right. by exists model.
Qed.

Lemma loadModel_reg cfg w w1 f :
  loadModel cfg w = Some (w1, f) →
  reg_seg cfg w w1 f ∧
  (∀ m, registered f = Some m → m = length (objects (mem w))).
Proof.
  intros [g Hg Hci|p Hc Hp -> ->|Hc Hp Heq]%loadModel_branches.
  - apply createInstance_reg in Hci as [Hm Hseg]. cbn [mem set_this] in Hm.
    split; [done|]. intros m Hr%registered_model. congruence.
  - split; [by left|done].
  - rewrite loadModelFromDisk_spec in Heq.
    apply pair_equal_spec in Heq as [-> ->]. split; [by left|done].
Qed.

Lemma resume_reg t a cfg c w w1 f sp :
  call a = LoadModel cfg c → resume t a w = Some (w1, f, sp) →
  sp = [] ∧
  ((scene (this w1) = scene (this w) ∧
    loadedModels (this w1) = loadedModels (this w) ∧
    (registered f = None ∨ registered f = registered (at_ a))) ∨
   (∃ m, f = AwaitInstance m ∧ registered (at_ a) = None ∧
         scene (this w1) = scene (this w) ++ [m] ∧
         loadedModels (this w1)
           = <[ModelConfig.name cfg := m]> (loadedModels (this w)) ∧
         (m = length (objects (mem w)) ∨ model_of (at_ a) = Some m))).
Proof.
  intros Hcall Hr. apply resume_cases in Hr.
  destruct Hr as [cfg' c' p g Hc Hat Hp Hci ->
                 |cfg' c' p e Hc Hat Hp -> -> ->
                 |cfg' c' p r Hc Hat Hp -> -> ->
                 |cfg' c' g Hc Hat Hci ->
                 |cfg' c' e Hc Hat -> -> ->
                 |cfg' c' model config mats i Hc Hat Hp ->
                 |cfg' c' model Hc Hat Hfin ->
                 |cfg' c' model Hc Hat -> -> ->
                 | | | | ]; try congruence;
    assert (cfg' = cfg) as -> by congruence; (split; [done|]).
  - apply createInstance_reg in Hci as [Hm [(?&?&?)|(m&->&?&?)]].
    + left. auto.
    + right. exists m. rewrite Hat. split_and!; [done..|]. left.
      cbn in Hm. congruence.
  - left. auto.
  - left. auto.
  - apply createInstance_reg in Hci as [Hm [(?&?&?)|(m&->&?&?)]].
    + left. auto.
    + right. exists m. rewrite Hat. split_and!; [done..|]. left.
      cbn in Hm. congruence.
  - left. auto.
  - left. pose proof (processMaterials_from_objects _ _ _ _ _ _ _ Hp) as [_ ->].
    split_and!; [done..|]. left.
    by eapply processMaterials_from_unregistered.
  - unfold createInstance_finish in Hfin.
    apply pair_equal_spec in Hfin as [<- <-]. right. exists model.
    rewrite Hat. split_and!; [done..|]. by right.
  - left. split_and!; [done..|]. right. by rewrite Hat.
Qed.

Lemma unregistered_moves_refl w : unregistered_moves w (tasks w).
Proof. intros t' x Hx. right. by exists x. Qed.

Lemma unregistered_moves_snoc w ts x :
  unregistered_moves w ts → registered (at_ x) = None →
  unregistered_moves w (ts ++ [x]).
Proof.
  intros Hts Hx t' y [[_ ?]|[_ <-]]%lookup_snoc_Some; [by apply Hts|by left].
Qed.

Lemma unregistered_moves_insert w t a f :
  tasks w !! t = Some a →
  registered f = None ∨ registered f = registered (at_ a) →
  unregistered_moves w (<[t := Activation (call a) f]> (tasks w)).
Proof.
  intros Ha Hf t' y [(->&<-&_)|[_ ?]]%list_lookup_insert_Some.
  - destruct Hf; [by left|]. right. by exists a.
  - right. by exists y.
Qed.

Lemma reg_change_spawn w w' w1 cfg c f base :
  heap_ok w → loadModel cfg w = Some (w1, f) →
  this w' = this w1 →
  tasks w' = base ++ [Activation (LoadModel cfg c) f] →
  length (tasks w) ≤ length base →
  unregistered_moves w base →
  reg_change w w'.
Proof.
  intros Hh Hl Hthis Hts Hlen Hbase.
  destruct (loadModel_reg _ _ _ _ Hl) as [[(Hf&Hs&Hm)|(m&->&Hs&Hm)] Hnew].
  - apply reg_none; rewrite ?Hthis, ?Hts; [done..|].
    by apply unregistered_moves_snoc.
  - specialize (Hnew m eq_refl). subst m.
    apply (reg_one w w' (length base) cfg c (length (objects (mem w))));
      rewrite ?Hthis, ?Hts; [done..| | | |].
    + by rewrite lookup_app_r, Nat.sub_diag.
    + intros a Ha%lookup_lt_Some. lia.
    + intros t' a Ha _ Hm'. pose proof (h_model _ Hh _ _ _ Ha Hm'). lia.
    + intros t' x [[_ ?]|[-> _]]%lookup_snoc_Some Hne; [by apply Hbase|done].
Qed.

(** The view of a step from the scene and [loadedModels]. *)
Lemma step_reg_change e w w' :
  heap_ok w → step e w = Some w' → reg_change w w'.
Proof.
  intros Hh. destruct e as [cfg|cfgs cb|t|rid parsed|rid error]; cbn [step].
  - destruct (loadModel cfg w) as [[w1 f]|] eqn:Hl; [|done]. cbn.
    intros Heq. apply (inj Some) in Heq as <-.
    eapply (reg_change_spawn w _ w1 cfg None f (tasks w)); [done..| | |].
    + cbn. by rewrite (loadModel_tasks _ _ _ _ Hl).
    + done.
    + apply unregistered_moves_refl.
  - destruct (progressive_loop _ _ _ _ _ _) as [[[w1 f] sp]|] eqn:Hl; [|done].
    cbn. intros Heq. apply (inj Some) in Heq as <-.
    pose proof (progressive_loop_tasks _ _ _ _ _ _ _ _ _ Hl) as Hts.
    apply progressive_loop_spec in Hl
      as [(Hcfg&->&->&->)|(cfg&f0&Hcfg&Hl&->&->)].
    + apply reg_none; cbn; [done..|].
      apply unregistered_moves_snoc; [apply unregistered_moves_refl|done].
    + eapply (reg_change_spawn w _ w1 cfg _ f0
                (tasks w ++ [Activation (LoadModelsProgressively cfgs cb)
                               (AwaitModel 0 [] (S (length (tasks w))))]));
        [done..| | |].
      * cbn. by rewrite Hts, <-app_assoc.
      * rewrite length_app. lia.
      * apply unregistered_moves_snoc; [apply unregistered_moves_refl|done].
  - destruct (tasks w !! t) as [a|] eqn:Ha; [|done]. cbn.
    destruct (resume t a w) as [[[w1 f] sp]|] eqn:Hr; [|done]. cbn.
    intros Heq. apply (inj Some) in Heq as <-.
    pose proof (resume_tasks _ _ _ _ _ _ Hr) as Hts.
    destruct (call a) as [cfg c|cfgs cb] eqn:Hcall.
    + destruct (resume_reg _ _ _ _ _ _ _ _ Hcall Hr)
        as [-> [(Hs&Hm&Hf)|(m&->&Hold&Hs&Hm&Hfresh)]].
      * apply reg_none; cbn; rewrite ?app_nil_r, ?Hts; [done..|].
        rewrite <-Hcall. by apply unregistered_moves_insert.
      * apply (reg_one w _ t cfg c m); cbn; rewrite ?app_nil_r, ?Hts; [done..| | | |].
        -- apply list_lookup_insert_eq. by eapply lookup_lt_Some.
        -- intros a' Ha'. congruence.
        -- intros t' a' Ha' Hne Hm'. destruct Hfresh as [-> | Hheld].
           ++ pose proof (h_model _ Hh _ _ _ Ha' Hm'). lia.
           ++ apply Hne. by eapply (h_unique _ Hh).
        -- intros t' x Hx Hne. rewrite list_lookup_insert_ne in Hx by done.
           right. by exists x.
    + apply resume_cases in Hr.
      assert (∀ i rs, progressive_loop t (length (tasks w)) cfgs i rs w
                      = Some (w1, f, sp) → 
              reg_change w
                (World (this w1) (mem w1) (promises w1) (requests w1)
                   (<[t := Activation (LoadModelsProgressively cfgs cb) f]>
                      (tasks w1) ++ sp))) as Hloop.
      { intros i rs Hl.
        apply progressive_loop_spec in Hl
          as [(Hcfg&->&->&->)|(cfg&f0&Hcfg&Hl&->&->)].
        - apply reg_none; cbn; rewrite ?app_nil_r; [done..|].
          rewrite <-Hcall. apply unregistered_moves_insert; [done|by left].
        - eapply (reg_change_spawn w _ w1 cfg _ f0); [done..|cbn; by rewrite Hts| |].
          + by rewrite length_insert.
          + rewrite <-Hcall. apply unregistered_moves_insert; [done|by left]. }
      destruct Hr; try congruence;
        repeat match goal with
               | H : call a = LoadModelsProgressively _ _ |- _ =>
                   rewrite Hcall in H; injection H as <- <-
               end;
        try (by eapply Hloop).
      subst. apply reg_none; cbn; rewrite ?app_nil_r; [done..|].
      rewrite <-Hcall. apply unregistered_moves_insert; [done|by left].
  - destruct (open_request rid w) as [req|]; [|done]. cbn.
    intros Heq. apply (inj Some) in Heq as <-.
    apply reg_none; cbn; [done..|]. apply unregistered_moves_refl.
  - destruct (open_request rid w) as [req|]; [|done]. cbn.
    intros Heq. apply (inj Some) in Heq as <-.
    apply reg_none; cbn; [done..|]. apply unregistered_moves_refl.
Qed.

Lemma registry_ok_reachable w : reachable w → registry_ok w.
Proof.
  intros [es Hrun].
  apply (run_invariant (λ w, heap_ok w ∧ registry_ok w) es init w); [| |done].
  - intros e v v' [Hh Hr] Hstep. split; [by eapply heap_ok_step|].
    eapply registry_ok_change; [|done|by eapply step_reg_change].
    intros t a m. by apply (step_registered e).
  - split; [apply heap_ok_reachable; by exists []|].
    split; cbn.
    + intros m. split; [by intros ?%elem_of_nil|]. by intros (t&a&?&_).
    + constructor.
    + done.
    + done.
Qed.

(** X5.  As long as neither [clearCache] nor [dispose] is called, in
    every state that calls of [loadModel] and of
    [loadModelsProgressively], resumptions and callbacks of [GLTFLoader]
    lead to ([dispose] empties [loadedModels] and leaves the scene as
    it is): no instance is in the scene twice;
    every model that [loadedModels] names is in the scene, and was
    built for a configuration of that name; every model that a call of
    [loadModel] has returned is in the scene, and the name in its
    configuration is bound in [loadedModels] (to it, or to an instance
    registered later under the same name); and what is in the scene are
    clones only: scene graphs on the heap, none of them the scene graph
    of a cached asset. *)
Theorem scene_registry (w : world) :
  reachable w →
  NoDup (scene (this w)) ∧
  (∀ name m, loadedModels (this w) !! name = Some m →
     m ∈ scene (this w) ∧
     ∃ t a cfg c, tasks w !! t = Some a ∧ call a = LoadModel cfg c ∧
       ModelConfig.name cfg = name ∧
       (at_ a = AwaitInstance m ∨ at_ a = Settled (Returned m))) ∧
  (∀ t a cfg c m, tasks w !! t = Some a → call a = LoadModel cfg c →
     at_ a = Settled (Returned m) →
     m ∈ scene (this w) ∧
     is_Some (loadedModels (this w) !! ModelConfig.name cfg)) ∧
  (∀ m, m ∈ scene (this w) →
     m < length (objects (mem w)) ∧
     ∀ k g, modelCache (this w) !! k = Some g → m ≠ GLTF.scene g).
Proof.
  intros Hw.
  pose proof (registry_ok_reachable _ Hw) as Hr.
  pose proof (heap_ok_reachable _ Hw) as Hh.
  pose proof (tables_ok_reachable _ Hw) as Ht.
  split_and!.
  - apply Hr.
  - intros name m Hm.
    destruct (r_named _ Hr _ _ Hm) as (t&a&cfg&c&Ha&Hc&Hn&Hreg).
    split.
    + apply (r_scene _ Hr). by exists t, a.
    + exists t, a, cfg, c. split_and!; [done..|].
      destruct (at_ a) as [| | | | | | | |[]]; try done;
        cbn in Hreg; injection Hreg as ->; auto.
  - intros t a cfg c m Ha Hc Hat. split.
    + apply (r_scene _ Hr). exists t, a. by rewrite Hat.
    + apply (r_known _ Hr t a cfg c m); [done..|]. by rewrite Hat.
  - intros m (t&a&Ha&Hreg%registered_model)%(r_scene _ Hr). split.
    + by eapply h_model.
    + intros k g Hg ->. eapply (h_apart _ Hh); [|done..].
      by eapply cached_fulfilled.
Qed.

Lemma scene_registry_witness :
  reachable (after third_served) ∧
  NoDup (scene (this (after third_served))) ∧
  (∀ name m, loadedModels (this (after third_served)) !! name = Some m →
     m ∈ scene (this (after third_served)) ∧
     ∃ t a cfg c, tasks (after third_served) !! t = Some a ∧
       call a = LoadModel cfg c ∧ ModelConfig.name cfg = name ∧
       (at_ a = AwaitInstance m ∨ at_ a = Settled (Returned m))) ∧
  (∀ t a cfg c m, tasks (after third_served) !! t = Some a →
     call a = LoadModel cfg c → at_ a = Settled (Returned m) →
     m ∈ scene (this (after third_served)) ∧
     is_Some (loadedModels (this (after third_served)) !! ModelConfig.name cfg)) ∧
  (∀ m, m ∈ scene (this (after third_served)) →
     m < length (objects (mem (after third_served))) ∧
     ∀ k g, modelCache (this (after third_served)) !! k = Some g →
            m ≠ GLTF.scene g).
Proof.
  assert (reachable (after third_served)) as H.
  { exists third_served. vm_compute. reflexivity. }
  split; [exact H|]. exact (scene_registry _ H).
Defined.

Lemma load_calls_snoc ts a :
  load_calls (ts ++ [a]) = load_calls ts + (if is_load a then 1 else 0).
Proof.
  unfold load_calls. rewrite filter_app, length_app. f_equal.
  rewrite filter_cons. destruct (is_load a); by case_decide.
Qed.

Lemma load_calls_insert ts t a b :
  ts !! t = Some a → is_load b = is_load a →
  load_calls (<[t := b]> ts) = load_calls ts.
Proof.
  intros Ha Hb. rewrite insert_take_drop by by eapply lookup_lt_Some.
  rewrite <-(take_drop_middle ts t a Ha) at 3.
  unfold load_calls. rewrite !filter_app, !length_app, !filter_cons.
  rewrite Hb. by case_decide.
Qed.

Lemma answers_snoc rs r :
  answered r = false → answers (rs ++ [r]) = answers rs.
Proof.
  intros Hr. unfold answers. rewrite filter_app, length_app, filter_cons.
  rewrite Hr. case_decide; [done|]. cbn. lia.
Qed.

Lemma answers_answer rs rid r :
  rs !! rid = Some r → answered r = false →
  answers (alter (λ r, Request (url r) (cacheKey r) (loadingPromise r) true)
             rid rs)
  = S (answers rs).
Proof.
  intros Hr Hans.
  assert (alter (λ r, Request (url r) (cacheKey r) (loadingPromise r) true) rid rs
          = <[rid := Request (url r) (cacheKey r) (loadingPromise r) true]> rs)
    as ->.
  { apply list_eq. intros i. destruct (decide (i = rid)) as [->|].
    - rewrite list_lookup_alter_eq, Hr.
      by rewrite list_lookup_insert_eq by by eapply lookup_lt_Some.
    - by rewrite list_lookup_alter_ne, list_lookup_insert_ne. }
  rewrite insert_take_drop by by eapply lookup_lt_Some.
  rewrite <-(take_drop_middle rs rid r Hr) at 3.
  unfold answers. rewrite !filter_app, !length_app, !filter_cons. cbn.
  rewrite Hans. repeat case_decide; try done; cbn; lia.
Qed.

(** What a call of [loadModel] does to the counters. *)
Lemma loadModel_counters cfg w w1 f :
  loadModel cfg w = Some (w1, f) →
  loads w1 = S (loads w) ∧
  hits w1 + length (requests w1) ≤ S (hits w + length (requests w)) ∧
  modelCache (this w1) = modelCache (this w) ∧
  answers (requests w1) = answers (requests w) ∧
  tasks w1 = tasks w.
Proof.
  intros Hl. pose proof (loadModel_stats _ _ _ _ Hl) as Hs.
  unfold loads, hits. rewrite Hs. cbn.
  apply loadModel_tables_spec in Hl
    as [Hc _ _ Hr Ht _|Hnone _ Hc _ _ Hr Ht].
  - rewrite Hr. split_and!; [done| |done..].
    destruct (modelCache (this w) !! ModelConfig.path cfg); lia.
  - rewrite Hr, Hnone, length_app. cbn. split_and!; [done|lia|done| |done].
    by apply answers_snoc.
Qed.

Lemma open_request_Some rid w req :
  open_request rid w = Some req →
  requests w !! rid = Some req ∧ answered req = false.
Proof.
  unfold open_request. destruct (requests w !! rid) as [r|]; [|done]. cbn.
  destruct (answered r) eqn:Hr; [done|]. by intros [= <-].
Qed.

Lemma counters_ok_step e w w' :
  counters_ok w → step e w = Some w' → counters_ok w'.
Proof.
  intros [Hl Hf Hc].
  destruct e as [cfg|cfgs cb|t|rid parsed|rid error]; cbn [step].
  - destruct (loadModel cfg w) as [[w1 f]|] eqn:Hlm; [|done]. cbn.
    intros Heq. apply (inj Some) in Heq as <-.
    destruct (loadModel_counters _ _ _ _ Hlm) as (Hl1&Hf1&Hc1&Ha1&Ht1).
    split; unfold loads, hits in *; cbn [this tasks requests].
    + rewrite Hl1, Ht1, load_calls_snoc. cbn. lia.
    + lia.
    + by rewrite Hc1, Ha1.
  - destruct (progressive_loop _ _ _ _ _ _) as [[[w1 f] sp]|] eqn:Hp; [|done].
    cbn. intros Heq. apply (inj Some) in Heq as <-.
    apply progressive_loop_spec in Hp
      as [(_&->&->&->)|(cfg&f0&_&Hlm&->&->)].
    + split; unfold loads, hits in *; cbn [this tasks requests]; [|done..].
      rewrite load_calls_snoc. cbn. lia.
    + destruct (loadModel_counters _ _ _ _ Hlm) as (Hl1&Hf1&Hc1&Ha1&Ht1).
      split; unfold loads, hits in *; cbn [this tasks requests].
      * rewrite Hl1, Ht1.
        change (?x :: [?y]) with ([x] ++ [y]).
        rewrite app_assoc, !load_calls_snoc. cbn. lia.
      * lia.
      * by rewrite Hc1, Ha1.
  - destruct (tasks w !! t) as [a|] eqn:Ha; [|done]. cbn.
    destruct (resume t a w) as [[[w1 f] sp]|] eqn:Hr; [|done]. cbn.
    intros Heq. apply (inj Some) in Heq as <-.
    pose proof (resume_tasks _ _ _ _ _ _ Hr) as Hts.
    assert (load_calls (<[t := Activation (call a) f]> (tasks w))
            = load_calls (tasks w)) as Hsame
      by by eapply load_calls_insert.
    destruct (call a) as [cfg c|cfgs cb] eqn:Hcall.
    + destruct (resume_loadModel _ _ _ _ _ _ _ _ Hcall Hr) as (Hs&Hc1&Hr1&->).
      split; unfold loads, hits in *; cbn [this tasks requests]; rewrite ?app_nil_r, ?Hs, ?Hc1, ?Hr1, ?Hts;
        [by rewrite Hsame|done..].
    + assert (∀ i rs, progressive_loop t (length (tasks w)) cfgs i rs w
                      = Some (w1, f, sp) →
              counters_ok
                (World (this w1) (mem w1) (promises w1) (requests w1)
                   (<[t := Activation (LoadModelsProgressively cfgs cb) f]>
                      (tasks w1) ++ sp))) as Hloop.
      { intros i rs Hp.
        apply progressive_loop_spec in Hp
          as [(_&->&->&->)|(cfg&f0&_&Hlm&->&->)].
        - split; unfold loads, hits in *; cbn [this tasks requests]; rewrite ?app_nil_r; [|done..].
          by rewrite Hsame.
        - destruct (loadModel_counters _ _ _ _ Hlm) as (Hl1&Hf1&Hc1&Ha1&Ht1).
          split; unfold loads, hits in *; cbn [this tasks requests].
          + rewrite Hl1, Ht1, load_calls_snoc, Hsame. cbn. lia.
          + lia.
          + by rewrite Hc1, Ha1. }
      apply resume_cases in Hr.
      destruct Hr; try congruence;
        repeat match goal with
               | H : call a = LoadModelsProgressively _ _ |- _ =>
                   rewrite Hcall in H; injection H as <- <-
               end;
        try (by eapply Hloop).
      subst. split; unfold loads, hits in *; cbn [this tasks requests]; rewrite ?app_nil_r; [|done..].
      by rewrite Hsame.
  - destruct (open_request rid w) as [req|] eqn:Hreq; [|done]. cbn.
    apply open_request_Some in Hreq as [Hreq Hans].
    intros Heq. apply (inj Some) in Heq as <-.
    split; unfold loads, hits, answer, onLoad, onError in *;
      cbn [this tasks requests modelCache loadingStats set_modelCache].
    + done.
    + by rewrite length_alter.
    + rewrite (answers_answer _ _ _ Hreq Hans), map_size_insert.
      destruct (modelCache (this w) !! cacheKey req); cbn; lia.
  - destruct (open_request rid w) as [req|] eqn:Hreq; [|done]. cbn.
    apply open_request_Some in Hreq as [Hreq Hans].
    intros Heq. apply (inj Some) in Heq as <-.
    split; unfold loads, hits, answer, onLoad, onError in *;
      cbn [this tasks requests modelCache loadingStats set_modelCache].
    + done.
    + by rewrite length_alter.
    + rewrite (answers_answer _ _ _ Hreq Hans). lia.
Qed.

(** X6.  In every reachable state [totalLoads] is the number of calls
    of [loadModel] made so far (those made by [loadModelsProgressively]
    included); hits and requests to [GLTFLoader] together are at most as
    many, since a call is a hit, a wait or a request; and there are at
    most as many cached models as answered requests.  So
    [getCacheStats] never reports more hits than loads, nor more cached
    models than misses. *)
Theorem counters (w : world) :
  reachable w →
  CacheStats.totalLoads (getCacheStats (this w)).1 = load_calls (tasks w) ∧
  CacheStats.cacheHits (getCacheStats (this w)).1 + length (requests w)
    ≤ CacheStats.totalLoads (getCacheStats (this w)).1 ∧
  CacheStats.cachedModels (getCacheStats (this w)).1 ≤ answers (requests w) ∧
  answers (requests w) ≤ length (requests w) ∧
  CacheStats.cacheHits (getCacheStats (this w)).1
    + CacheStats.cachedModels (getCacheStats (this w)).1
    ≤ CacheStats.totalLoads (getCacheStats (this w)).1.
Proof.
  intros [es Hrun].
  assert (counters_ok w) as [Hl Hf Hc].
  { apply (run_invariant counters_ok es init w); [|by split|done].
    intros e v v'. apply counters_ok_step. }
  assert (answers (requests w) ≤ length (requests w)) as Hle.
  { unfold answers. apply length_filter. }
  unfold loads, hits in *. cbn. split_and!; [done..|lia].
Qed.

Lemma counters_witness :
  reachable (after third_served) ∧
  CacheStats.totalLoads (getCacheStats (this (after third_served))).1
    = load_calls (tasks (after third_served)) ∧
  CacheStats.cacheHits (getCacheStats (this (after third_served))).1
    + length (requests (after third_served))
    ≤ CacheStats.totalLoads (getCacheStats (this (after third_served))).1 ∧
  CacheStats.cachedModels (getCacheStats (this (after third_served))).1
    ≤ answers (requests (after third_served)) ∧
  answers (requests (after third_served))
    ≤ length (requests (after third_served)) ∧
  CacheStats.cacheHits (getCacheStats (this (after third_served))).1
    + CacheStats.cachedModels (getCacheStats (this (after third_served))).1
    ≤ CacheStats.totalLoads (getCacheStats (this (after third_served))).1.
Proof.
  assert (reachable (after third_served)) as H.
  { exists third_served. vm_compute. reflexivity. }
  split; [exact H|]. exact (counters _ H).
Defined.

(** X7.  [clearCache] and [dispose] leave the scene and the counters
    as they are, and after [clearCache] a call of [loadModel] for any
    path opens a request.  When [clearCache] is called while the load of
    a path is in flight, a new call for that path opens a second request
    beside the first; the answer to the first request still puts its
    asset into the cleared cache; and the first load, when it resumes,
    deletes the entry that the second load has put into
    [loadingPromises], while that second request is still unanswered. *)
Theorem clearCache_in_flight (w : world) (tid : nat) (cfg : ModelConfig.t)
    (c : option (nat * nat)) (p : nat) (again : ModelConfig.t)
    (parsed : object3d Material.t) :
  reachable w →
  tasks w !! tid = Some (Activation (LoadModel cfg c) (AwaitDisk p)) →
  promises w !! p = Some None →
  ModelConfig.path again = ModelConfig.path cfg →
  scene (clearCache (this w)) = scene (this w) ∧
  scene (dispose (this w)) = scene (this w) ∧
  loadingStats (clearCache (this w)) = loadingStats (this w) ∧
  loadingStats (dispose (this w)) = loadingStats (this w) ∧
  (∀ any, ∃ v1, step (Call any) (cleared w) = Some v1 ∧
     length (requests v1) = S (length (requests w))) ∧
  ∃ v1 v2 v3,
    step (Call again) (cleared w) = Some v1 ∧
    requests v1 = requests w ++
      [Request (ModelConfig.path cfg) (ModelConfig.path cfg)
         (length (promises w)) false] ∧
    (∃ req, requests v1 !! p = Some req ∧ answered req = false ∧
            url req = ModelConfig.path cfg) ∧
    step (OnLoad p parsed) v1 = Some v2 ∧
    modelCache (this v2) !! ModelConfig.path cfg
      = Some (GLTF.mk (length (objects (mem w)))) ∧
    loadingPromises (this v2) !! ModelConfig.path cfg
      = Some (length (promises w)) ∧
    step (Resume tid) v2 = Some v3 ∧
    loadingPromises (this v3) !! ModelConfig.path cfg = None ∧
    promises v3 !! length (promises w) = Some None.
Proof.
  intros Hw Ha Hp Hagain.
  pose proof (tables_ok_reachable _ Hw) as Ht.
  destruct (suspended_disk _ _ _ _ _ Ht Ha) as (Hl&req&Hreq&Hurl&Hlp&Hkey).
  assert (answered req = false) as Hans by by apply (t_answered _ Ht _ _ Hreq).
  pose proof (lookup_lt_Some _ _ _ Hp) as Hlt.
  assert (∀ any, step (Call any) (cleared w)
            = Some (World
                (set_loadingPromises
                   {[ModelConfig.path any := length (promises w)]}
                   (count_load (clearCache (this w))))
                (mem w) (promises w ++ [None])
                (requests w ++
                   [Request (ModelConfig.path any) (ModelConfig.path any)
                      (length (promises w)) false])
                (tasks w ++
                   [Activation (LoadModel any None)
                      (AwaitDisk (length (promises w)))]))) as Hcall.
  { intros any. erewrite step_Call; [|by apply loadModel_disk]. done. }
  split_and!; [done..| |].
  { intros any. eexists. split; [apply Hcall|]. cbn. rewrite length_app. cbn. lia. }
  set (v1 := World
               (set_loadingPromises
                  {[ModelConfig.path again := length (promises w)]}
                  (count_load (clearCache (this w))))
               (mem w) (promises w ++ [None])
               (requests w ++
                  [Request (ModelConfig.path again) (ModelConfig.path again)
                     (length (promises w)) false])
               (tasks w ++
                  [Activation (LoadModel again None)
                     (AwaitDisk (length (promises w)))])).
  assert (requests v1 !! p = Some req) as Hreq1.
  { cbn. by apply lookup_app_l_Some. }
  assert (open_request p v1 = Some req) as Hopen.
  { unfold open_request. rewrite Hreq1. cbn. by rewrite Hans. }
  set (v2 := answer p (onLoad req parsed v1)).
  assert (step (OnLoad p parsed) v1 = Some v2) as H2.
  { cbn [step]. by rewrite Hopen. }
  assert (promises v2 !! p
          = Some (Some (Fulfilled (GLTF.mk (length (objects (mem w))))))) as Hp2.
  { cbn. rewrite Hlp. apply settle_lookup_pending. by apply lookup_app_l_Some. }
  assert (tasks v2 !! tid = Some (Activation (LoadModel cfg c) (AwaitDisk p)))
    as Ha2.
  { cbn. by apply lookup_app_l_Some. }
  assert (resume tid (Activation (LoadModel cfg c) (AwaitDisk p)) v2
          = Some (set_this
                    (set_loadingPromises
                       (delete (ModelConfig.path cfg) (loadingPromises (this v2)))
                       (this v2)) v2,
                  AwaitDiskResult
                    (Fulfilled (GLTF.mk (length (objects (mem w))))), [])) as Hr.
  { unfold resume. cbn [call at_]. by rewrite Hp2. }
  exists v1, v2. eexists. split_and!.
  - apply Hcall.
  - cbn. by rewrite Hagain.
  - by exists req.
  - exact H2.
  - cbn. rewrite Hkey. apply lookup_insert_eq.
  - cbn. rewrite Hagain. apply lookup_singleton_eq.
  - by apply (step_Resume _ _ _ _ _ _ Ha2 Hr).
  - cbn. apply lookup_delete_eq.
  - cbn. rewrite Hlp. rewrite settle_lookup_ne by lia.
    by rewrite lookup_app_r, Nat.sub_diag.
Qed.

Lemma clearCache_in_flight_witness :
  reachable one_in_flight ∧
  tasks one_in_flight !! 0
    = Some (Activation (LoadModel (just "x" "a.glb") None) (AwaitDisk 0)) ∧
  promises one_in_flight !! 0 = Some None ∧
  scene (clearCache (this one_in_flight)) = scene (this one_in_flight) ∧
  scene (dispose (this one_in_flight)) = scene (this one_in_flight) ∧
  loadingStats (clearCache (this one_in_flight))
    = loadingStats (this one_in_flight) ∧
  loadingStats (dispose (this one_in_flight))
    = loadingStats (this one_in_flight) ∧
  (∀ any, ∃ v1, step (Call any) (cleared one_in_flight) = Some v1 ∧
     length (requests v1) = S (length (requests one_in_flight))) ∧
  ∃ v1 v2 v3,
    step (Call (just "y" "a.glb")) (cleared one_in_flight) = Some v1 ∧
    requests v1 = requests one_in_flight ++
      [Request (ModelConfig.path (just "x" "a.glb"))
         (ModelConfig.path (just "x" "a.glb"))
         (length (promises one_in_flight)) false] ∧
    (∃ req, requests v1 !! 0 = Some req ∧ answered req = false ∧
            url req = ModelConfig.path (just "x" "a.glb")) ∧
    step (OnLoad 0 one_mesh) v1 = Some v2 ∧
    modelCache (this v2) !! ModelConfig.path (just "x" "a.glb")
      = Some (GLTF.mk (length (objects (mem one_in_flight)))) ∧
    loadingPromises (this v2) !! ModelConfig.path (just "x" "a.glb")
      = Some (length (promises one_in_flight)) ∧
    step (Resume 0) v2 = Some v3 ∧
    loadingPromises (this v3) !! ModelConfig.path (just "x" "a.glb") = None ∧
    promises v3 !! length (promises one_in_flight) = Some None.
Proof.
  assert (reachable one_in_flight) as Hw.
  { exists [Call (just "x" "a.glb")]. vm_compute. reflexivity. }
  assert (tasks one_in_flight !! 0
          = Some (Activation (LoadModel (just "x" "a.glb") None) (AwaitDisk 0)))
    as Ha by (vm_compute; reflexivity).
  assert (promises one_in_flight !! 0 = Some None) as Hp
    by (vm_compute; reflexivity).
  split; [exact Hw|]. split; [exact Ha|]. split; [exact Hp|].
  exact (clearCache_in_flight one_in_flight 0 (just "x" "a.glb") None 0
           (just "y" "a.glb") one_mesh Hw Ha Hp eq_refl).
Defined.

Lemma traced_grows ts ts' t cfgs cb n rs :
  grows ts ts' → traced ts t cfgs cb n rs → traced ts' t cfgs cb n rs.
Proof.
  intros Hg. induction 1 as [|i rs cfg c o _ IH Hcfg Hc Ho]; [constructor|].
  eapply traced_snoc; [done..| |done].
  destruct (Hg _ _ Hc) as (x&Hx&_&Hst). by rewrite (Hst o eq_refl) in Hx.
Qed.

Lemma frame_traced_grows ts ts' t cfgs cb f :
  grows ts ts' → frame_traced ts t cfgs cb f → frame_traced ts' t cfgs cb f.
Proof.
  intros Hg. destruct f as [| | | | | |i rs child|i rs|[]]; cbn; try done;
    by apply traced_grows.
Qed.

Lemma traced_length ts t cfgs cb n rs :
  traced ts t cfgs cb n rs → n ≤ length cfgs ∧ n ≤ length rs ≤ 2 * n.
Proof.
  induction 1 as [|i rs cfg c o _ [IH1 IH2] Hcfg Hc Ho]; [cbn; lia|].
  apply lookup_lt_Some in Hcfg. rewrite length_app. split; [lia|].
  destruct o as [m|all|e]; cbn; [|by destruct (Ho all)|lia].
  destruct (returns _ _ _ _); cbn; lia.
Qed.

Lemma progressive_loop_traced t child cfgs cb i rs w w1 f sp ts' :
  progressive_loop t child cfgs i rs w = Some (w1, f, sp) →
  traced ts' t cfgs cb i rs →
  frame_traced ts' t cfgs cb f.
Proof.
  intros [(Hcfg&_&->&_)|(cfg&f0&Hcfg&_&->&_)]%progressive_loop_spec Htr;
    cbn; [|done].
  destruct (traced_length _ _ _ _ _ _ Htr) as [Hle _].
  apply lookup_ge_None in Hcfg. by replace (length cfgs) with i by lia.
Qed.

Lemma trace_ok_step e w w' :
  calls_ok w → trace_ok w → step e w = Some w' → trace_ok w'.
Proof.
  intros Hc Htr Hstep.
  pose proof (step_grows _ _ _ Hstep) as Hg.
  assert (∀ t a cfgs cb, tasks w !! t = Some a →
            call a = LoadModelsProgressively cfgs cb →
            frame_traced (tasks w') t cfgs cb (at_ a)) as Hold.
  { intros t a cfgs cb Ha Hcall. eapply frame_traced_grows; [done|].
    by apply Htr. }
  destruct e as [cfg|cfgs cb|t|rid parsed|rid error]; cbn [step] in Hstep.
  - destruct (loadModel cfg w) as [[w1 f]|] eqn:Hl; [|done].
    cbn in Hstep. apply (inj Some) in Hstep. subst w'.
    unfold trace_ok. cbn [tasks] in *.
    pose proof (loadModel_tasks _ _ _ _ Hl) as Hts.
    intros t a cfgs cb [[_ Ha]|[_ <-]]%lookup_snoc_Some Hcall; [|done].
    apply Hold; [by rewrite <-Hts|done].
  - destruct (progressive_loop _ _ _ _ _ _) as [[[w1 f] sp]|] eqn:Hl; [|done].
    cbn in Hstep. apply (inj Some) in Hstep. subst w'.
    unfold trace_ok. cbn [tasks] in *.
    pose proof (progressive_loop_tasks _ _ _ _ _ _ _ _ _ Hl) as Hts.
    intros t a cfgs' cb' [Ha|[Hlen Ha]]%lookup_app_Some Hcall.
    + apply Hold; [by rewrite <-Hts|done].
    + apply lookup_cons_Some in Ha as [[Hz <-]|[_ Ha]].
      * cbn in Hcall. injection Hcall as <- <-. cbn [at_].
        assert (t = length (tasks w)) as -> by (rewrite Hts in *; lia).
        eapply progressive_loop_traced; [done|constructor].
      * apply progressive_loop_spec in Hl
          as [(_&_&_&->)|(cfg&f0&_&_&_&->)]; [done|].
        apply list_lookup_singleton_Some in Ha as [_ <-]. done.
  - destruct (tasks w !! t) as [a0|] eqn:Ha0; [|done]. cbn in Hstep.
    destruct (resume t a0 w) as [[[w1 f] sp]|] eqn:Hr; [|done].
    cbn in Hstep. apply (inj Some) in Hstep. subst w'.
    unfold trace_ok. cbn [tasks] in *.
    pose proof (resume_tasks _ _ _ _ _ _ Hr) as Hts.
    set (ts' := <[t := Activation (call a0) f]> (tasks w1) ++ sp) in *.
    assert (∀ cfgs cb, call a0 = LoadModelsProgressively cfgs cb →
              frame_traced ts' t cfgs cb f) as Hnew.
    { intros cfgs cb Hcall.
      pose proof (Hc _ _ Ha0) as Hinv. unfold task_ok in Hinv.
      rewrite Hcall in Hinv.
      pose proof (Htr _ _ _ _ Ha0 Hcall) as Htr0.
      apply (frame_traced_grows _ ts') in Htr0; [|done].
      apply resume_cases in Hr.
      destruct Hr as [| | | | | | |
        |cfgs' cb' i rs child ch config model Hc' Hat Hch Hcfg Hset Hret -> -> ->
        |cfgs' cb' i rs child ch config model Hc' Hat Hch Hcfg Hset Hret Hl
        |cfgs' cb' i rs child ch config err Hc' Hat Hch Hcfg Hset Hl
        |cfgs' cb' i rs Hc' Hat Hl]; try congruence;
        assert (cfgs' = cfgs ∧ cb' = cb) as [-> ->] by (split; congruence);
        rewrite Hat in Hinv, Htr0; cbn in Hinv, Htr0.
      - destruct Hinv as [(cfg0&ch0&Hcfg0&Hch0&Hcall0) _].
        assert (cfg0 = config) as -> by congruence.
        assert (ch0 = ch) as -> by congruence.
        cbn.
        replace [Some model]
          with (pushes cb (length cfgs) i config (Returned model))
          by (cbn; by rewrite Hret).
        eapply traced_snoc; [done..| |done].
        destruct (Hg _ _ Hch) as (x'&Hx'&_&Hst).
        rewrite (Hst _ Hset) in Hx'. fold ts' in Hx'. rewrite Hx'.
        destruct ch as [cl fr]. cbn in *. by subst.
      - destruct Hinv as [(cfg0&ch0&Hcfg0&Hch0&Hcall0) _].
        assert (cfg0 = config) as -> by congruence.
        assert (ch0 = ch) as -> by congruence.
        eapply progressive_loop_traced; [done|].
        rewrite <-app_assoc, Nat.add_1_r.
        replace ([Some model] ++ [None])
          with (pushes cb (length cfgs) i config (Returned model))
          by (cbn; by rewrite Hret).
        eapply traced_snoc; [done..| |done].
        destruct (Hg _ _ Hch) as (x'&Hx'&_&Hst).
        rewrite (Hst _ Hset) in Hx'. fold ts' in Hx'. rewrite Hx'.
        destruct ch as [cl fr]. cbn in *. by subst.
      - destruct Hinv as [(cfg0&ch0&Hcfg0&Hch0&Hcall0) _].
        assert (cfg0 = config) as -> by congruence.
        assert (ch0 = ch) as -> by congruence.
        eapply progressive_loop_traced; [done|].
        rewrite Nat.add_1_r.
        replace [None] with (pushes cb (length cfgs) i config (Threw err))
          by done.
        eapply traced_snoc; [done..| |done].
        destruct (Hg _ _ Hch) as (x'&Hx'&_&Hst).
        rewrite (Hst _ Hset) in Hx'. fold ts' in Hx'. rewrite Hx'.
        destruct ch as [cl fr]. cbn in *. by subst.
      - eapply progressive_loop_traced; [done|]. by rewrite Nat.add_1_r. }
    intros t' a cfgs cb [Ha|[_ Ha]]%lookup_app_Some Hcall.
    + destruct (decide (t' = t)) as [->|Hne].
      * rewrite list_lookup_insert_eq in Ha
          by (rewrite Hts; by eapply lookup_lt_Some).
        apply (inj Some) in Ha as <-. cbn in *. by apply Hnew.
      * rewrite list_lookup_insert_ne in Ha by done.
        apply Hold; [by rewrite <-Hts|done].
    + assert (∃ cfg c, call a = LoadModel cfg c) as (?&?&Hload);
        [|congruence].
      apply resume_cases in Hr.
      destruct Hr; subst; try (by apply elem_of_nil_inv in Ha);
        try (by rewrite lookup_nil in Ha);
        match goal with
        | H : progressive_loop _ _ _ _ _ _ = Some _ |- _ =>
            apply progressive_loop_spec in H
              as [(_&_&_&->)|(cfg&f0&_&_&_&->)];
            [by rewrite lookup_nil in Ha|];
            apply list_lookup_singleton_Some in Ha as [_ <-]; by eexists _, _
        end.
  - destruct (open_request rid w) as [req|]; [|done].
    cbn in Hstep. apply (inj Some) in Hstep. subst w'.
    intros t a cfgs cb Ha Hcall. by apply Hold.
  - destruct (open_request rid w) as [req|]; [|done].
    cbn in Hstep. apply (inj Some) in Hstep. subst w'.
    intros t a cfgs cb Ha Hcall. by apply Hold.
Qed.

Lemma trace_ok_reachable w : reachable w → trace_ok w.
Proof.
  intros [es Hrun].
  apply (run_invariant (λ w, reachable w ∧ trace_ok w) es init w); [| |done].
  - intros e v v' [Hv Htr] Hstep. split.
    + eapply (reachable_run [e]); [done|]. cbn [run]. by rewrite Hstep.
    + eapply trace_ok_step; [by apply calls_ok_reachable|done..].
  - split; [by exists []|]. by intros t a cfgs cb Ha.
Qed.

(** X8.  [loadModelsProgressively] with any progress callback, also one
    that throws: the call never rejects, and the array it returns is,
    position by position of [modelConfigs] and in that order, what
    [pushes] gives for the way the call of [loadModel] for that
    position settled: the model, followed by [null] if [onProgress]
    threw when it was told of that model, or [null] alone if the load
    failed.  So the array has between one and two entries for each
    configuration. *)
Theorem progressive_results (w : world) (t : nat) (a : activation)
    (cfgs : list ModelConfig.t) (cb : option callback) :
  reachable w → tasks w !! t = Some a →
  call a = LoadModelsProgressively cfgs cb →
  (∀ error, at_ a ≠ Settled (Threw error)) ∧
  (∀ results, at_ a = Settled (ReturnedAll results) →
     traced (tasks w) t cfgs cb (length cfgs) results ∧
     length cfgs ≤ length results ≤ 2 * length cfgs).
Proof.
  intros Hw Ha Hcall. split.
  - intros error Hat.
    pose proof (calls_ok_reachable _ Hw _ _ Ha) as Hok.
    unfold task_ok in Hok. by rewrite Hcall, Hat in Hok.
  - intros rs Hat.
    pose proof (trace_ok_reachable _ Hw _ _ _ _ Ha Hcall) as Htr.
    rewrite Hat in Htr. cbn in Htr. split; [done|].
    by apply traced_length in Htr as [_ ?].
Qed.

Lemma progressive_results_witness :
  reachable (after progress_throws) ∧
  tasks (after progress_throws) !! 0 = Some returned_two ∧
  (∀ error, at_ returned_two ≠ Settled (Threw error)) ∧
  (∀ results, at_ returned_two = Settled (ReturnedAll results) →
     traced (tasks (after progress_throws)) 0 [just "x" "a.glb"] throwing
       (length [just "x" "a.glb"]) results ∧
     length [just "x" "a.glb"] ≤ length results
       ≤ 2 * length [just "x" "a.glb"]).
Proof.
  assert (reachable (after progress_throws)) as Hw.
  { exists progress_throws. vm_compute. reflexivity. }
  assert (tasks (after progress_throws) !! 0 = Some returned_two) as Ha.
  { vm_compute. reflexivity. }
  split; [exact Hw|]. split; [exact Ha|].
  exact (progressive_results _ 0 returned_two [just "x" "a.glb"] throwing
           Hw Ha eq_refl).
Defined.

Lemma or_default_overwritten c fallback p :
  truthy (Some fallback) = true →
  overwritten c fallback p (ModelInstance.or_default c fallback p).
Proof.
  intros Hf. unfold overwritten, ModelInstance.or_default, js_or.
  destruct p as [old|]; [|done].
  destruct (truthy c) eqn:Hc.
  - destruct c as [v|]; [|done]. exists v. by split_and!.
  - exists fallback. by split_and!.
Qed.

Lemma apply_rules_no_emissive Color_set rules color ce :
  ModelInstance.apply_rules Color_set (color, None) rules = Done ce →
  ce.2 = None.
Proof.
  revert color. induction rules as [|rule rules IH]; intros color; cbn.
  - by intros [= <-].
  - unfold ModelInstance.apply_rule. cbn.
    destruct (ModelInstance.matchesColorCondition _ _) as [[]|]; cbn; [|apply IH|done].
    destruct (ModelInstance.ColorRule.emissive rule); cbn; [done|apply IH].
Qed.

Lemma applyColorChanges_no_emissive Color_set m rules :
  is_Some (ModelInstance.MeshMaterial.color m) →
  ModelInstance.MeshMaterial.emissive m = None →
  ModelInstance.applyColorChanges Color_set m rules = TypeError.
Proof.
  intros [c Hc] He. unfold ModelInstance.applyColorChanges. rewrite Hc, He.
  destruct (ModelInstance.apply_rules _ _ _) as [ce|] eqn:E; [|done]. cbn.
  by rewrite (apply_rules_no_emissive _ _ _ _ E).
Qed.

(** X12.  [enhanceMaterial] on a material either throws, which takes
    [changeColors] and a material with a colour, or marks the material
    for update, makes it double sided and overwrites each of
    [shininess], [roughness], [metalness] and [aoMapIntensity] that the
    material has: with the configured value when that is truthy, with
    80, 0.5, 0.6 and 0.8 when it is not (a configured 0 included).  The
    value the material had is never kept, and without [changeColors]
    the colours are not touched. *)
Theorem enhanceMaterial_overwrites
    (Color_set : Color.t → float → float → float → Color.t)
    (m : ModelInstance.MeshMaterial.t) (cfg : ModelInstance.EnhanceConfig.t) :
  match ModelInstance.enhanceMaterial Color_set (Some m) cfg with
  | Done r =>
      ∃ m', r = Some m' ∧
        ModelInstance.MeshMaterial.needsUpdate m' = true ∧
        ModelInstance.MeshMaterial.side m' = ModelInstance.DoubleSide ∧
        overwritten (ModelInstance.EnhanceConfig.shininess cfg) 80
          (ModelInstance.MeshMaterial.shininess m)
          (ModelInstance.MeshMaterial.shininess m') ∧
        overwritten (ModelInstance.EnhanceConfig.roughness cfg) 0.5
          (ModelInstance.MeshMaterial.roughness m)
          (ModelInstance.MeshMaterial.roughness m') ∧
        overwritten (ModelInstance.EnhanceConfig.metalness cfg) 0.6
          (ModelInstance.MeshMaterial.metalness m)
          (ModelInstance.MeshMaterial.metalness m') ∧
        overwritten (ModelInstance.EnhanceConfig.aoMapIntensity cfg) 0.8
          (ModelInstance.MeshMaterial.aoMapIntensity m)
          (ModelInstance.MeshMaterial.aoMapIntensity m') ∧
        (ModelInstance.EnhanceConfig.changeColors cfg = false →
           ModelInstance.MeshMaterial.color m'
             = ModelInstance.MeshMaterial.color m ∧
           ModelInstance.MeshMaterial.emissive m'
             = ModelInstance.MeshMaterial.emissive m)
  | TypeError =>
      ModelInstance.EnhanceConfig.changeColors cfg = true ∧
      is_Some (ModelInstance.MeshMaterial.color m)
  end.
Proof.
  unfold ModelInstance.enhanceMaterial.
  destruct (ModelInstance.EnhanceConfig.changeColors cfg) eqn:Hcc.
  - unfold ModelInstance.applyColorChanges.
    cbn [ModelInstance.MeshMaterial.color ModelInstance.MeshMaterial.emissive].
    destruct (ModelInstance.MeshMaterial.color m) as [c|] eqn:Hc.
    + destruct (ModelInstance.apply_rules _ _ _) as [ce|]; cbn [and_then];
        [|by split].
      destruct ce.2; cbn [and_then]; [|by split].
      eexists. split; [done|]. cbn.
      split_and!; try done; by apply or_default_overwritten.
    + cbn [and_then]. eexists. split; [done|]. cbn.
      split_and!; try done; by apply or_default_overwritten.
  - cbn [and_then]. eexists. split; [done|]. cbn.
    split_and!; try done; by apply or_default_overwritten.
Qed.

Lemma enhanceMaterial_no_emissive Color_set m cfg :
  ModelInstance.EnhanceConfig.changeColors cfg = true →
  is_Some (ModelInstance.MeshMaterial.color m) →
  ModelInstance.MeshMaterial.emissive m = None →
  ModelInstance.enhanceMaterial Color_set (Some m) cfg = TypeError.
Proof.
  intros Hcc Hc He. unfold ModelInstance.enhanceMaterial. rewrite Hcc.
  by rewrite applyColorChanges_no_emissive.
Qed.

Lemma enhance_each_no_emissive Color_set m ms cfg :
  ModelInstance.EnhanceConfig.changeColors cfg = true →
  is_Some (ModelInstance.MeshMaterial.color m) →
  ModelInstance.MeshMaterial.emissive m = None →
  Some m ∈ ms →
  ModelInstance.enhance_each Color_set ms cfg = TypeError.
Proof.
  intros Hcc Hc He. induction ms as [|x ms IH]; [by intros ?%elem_of_nil|].
  intros [<-|Hin]%elem_of_cons; cbn [ModelInstance.enhance_each].
  - by rewrite enhanceMaterial_no_emissive.
  - rewrite (IH Hin). by destruct (ModelInstance.enhanceMaterial _ _ _).
Qed.

Lemma process_unfold Color_set cfg mesh mat cast recv pos rot scl kids :
  ModelInstance.process Color_set cfg
    (Object3D mesh mat cast recv pos rot scl kids) =
  and_then
    (if mesh then
       and_then (ModelInstance.enhance_mesh Color_set mat cfg) (λ mat,
         Done (mat, true, true))
     else Done (mat, cast, recv))
    (λ '(mat, cast, recv),
       and_then
         (process_each Color_set cfg kids)
         (λ kids, Done (Object3D mesh mat cast recv pos rot scl kids))).
Proof.
  reflexivity.
Qed.

(** X13.  With [changeColors], [processMaterials] throws a [TypeError]
    on a model one of whose meshes has a material with a colour and no
    [emissive] property, whatever the colour rules are: the default
    emissive is set on [material.emissive] without a test that it
    exists. *)
Theorem changeColors_needs_emissive
    (Color_set : Color.t → float → float → float → Color.t)
    (model o : object3d ModelInstance.mesh_material)
    (m : ModelInstance.MeshMaterial.t) (cfg : ModelInstance.EnhanceConfig.t) :
  ModelInstance.EnhanceConfig.changeColors cfg = true →
  o ∈ traverse model → isMesh o = true → material_of o m →
  is_Some (ModelInstance.MeshMaterial.color m) →
  ModelInstance.MeshMaterial.emissive m = None →
  ModelInstance.processMaterials Color_set model (Some cfg) = TypeError.
Proof.
  intros Hcc Ho Hmesh Hm Hc He. unfold ModelInstance.processMaterials.
  change (default ModelInstance.EnhanceConfig.empty (Some cfg)) with cfg.
  revert Ho.
  induction model as [mesh mat cast recv pos rot scl kids IH]
    using object3d_forall.
  rewrite process_unfold. cbn [traverse].
  intros [->|Hin]%elem_of_cons.
  - cbn in Hmesh. subst mesh. destruct Hm as [Hm|(ms & Hm & Hin)];
      cbn in Hm; subst mat; cbn [ModelInstance.enhance_mesh].
    + by rewrite enhanceMaterial_no_emissive.
    + by rewrite (enhance_each_no_emissive _ m ms cfg).
  - assert (process_each Color_set cfg kids = TypeError) as ->.
    { induction IH as [|c kids Hc' _ IHk]; [by apply elem_of_nil in Hin|].
      cbn [flat_map] in Hin. apply elem_of_app in Hin as [Hin|Hin];
        unfold process_each; cbn [foldr]; fold (process_each Color_set cfg kids).
      - by rewrite (Hc' Hin).
      - rewrite (IHk Hin). by destruct (ModelInstance.process _ _ _). }
    by destruct mesh; [destruct (ModelInstance.enhance_mesh _ _ _)|].
Qed.

(** X14.  When [processMaterials] returns, the scene graph has the shape
    it had, object by object in traversal order; every mesh casts and
    receives shadows, and an object that is no mesh is as it was.  The
    call of [enableShadows] that [createModelInstance] makes after it
    then changes nothing. *)
Theorem processMaterials_shadows
    (Color_set : Color.t → float → float → float → Color.t)
    (model model' : object3d ModelInstance.mesh_material)
    (cfg : option ModelInstance.EnhanceConfig.t) :
  ModelInstance.processMaterials Color_set model cfg = Done model' →
  Forall2 processed (traverse model) (traverse model') ∧
  ModelInstance.enableShadows model' = model'.
Proof.
  unfold ModelInstance.processMaterials.
  generalize (default ModelInstance.EnhanceConfig.empty cfg). clear cfg.
  intros cfg. revert model'.
  induction model as [mesh mat cast recv pos rot scl kids IH]
    using object3d_forall.
  intros model'. rewrite process_unfold.
  destruct (if mesh then _ else _) as [[[mat' cast'] recv']|] eqn:Eh; [|done].
  cbn [and_then].
  destruct (process_each _ _ kids) as [kids'|] eqn:Ek; [|done].
  cbn [and_then]. intros [= <-].
  assert (Forall2 (λ c c', Forall2 processed (traverse c) (traverse c') ∧
                           ModelInstance.enableShadows c' = c') kids kids')
    as Hkids.
  { clear Eh. revert kids' Ek.
    induction IH as [|c kids Hc _ IHk]; intros kids'.
    - intros [= <-]. constructor.
    - unfold process_each; cbn [foldr]; fold (process_each Color_set cfg kids).
      destruct (ModelInstance.process _ _ c) as [c'|] eqn:Ec; [|done].
      cbn [and_then].
      destruct (process_each _ _ kids) as [l|]; [|done]. cbn [and_then].
      intros [= <-].
      constructor; [by apply Hc|by apply IHk]. }
  split.
  - cbn [traverse]. constructor.
    + unfold processed. cbn.
      destruct mesh; [destruct (ModelInstance.enhance_mesh _ _ _); [|done]|];
        cbn in Eh; by simplify_eq.
    + clear Eh Ek IH. induction Hkids as [|c c' kids kids' [Hc _] _ IHk]; cbn;
        [constructor|]. by apply Forall2_app.
  - cbn [ModelInstance.enableShadows].
    assert (map ModelInstance.enableShadows kids' = kids') as ->.
    { clear Eh Ek IH. induction Hkids as [|c c' kids kids' [_ Hc] _ IHk]; cbn;
        [done|]. by rewrite Hc, IHk. }
    destruct mesh; [destruct (ModelInstance.enhance_mesh _ _ _); [|done]|];
      cbn in Eh; by simplify_eq.
Qed.

Lemma changeColors_needs_emissive_witness :
  ModelInstance.processMaterials Color.setRGB unlit_model (Some recolour)
  = TypeError.
Proof.
  apply (changeColors_needs_emissive Color.setRGB unlit_model unlit_mesh
           unlit_material recolour).
  - reflexivity.
  - cbn. right. left.
  - reflexivity.
  - left. reflexivity.
  - eexists. reflexivity.
  - reflexivity.
Defined.

Lemma processMaterials_shadows_witness :
  ∃ model',
    ModelInstance.processMaterials Color.setRGB unlit_model None = Done model' ∧
    Forall2 processed (traverse unlit_model) (traverse model') ∧
    ModelInstance.enableShadows model' = model'.
Proof.
  eexists. split; [vm_compute; reflexivity|].
  apply (processMaterials_shadows Color.setRGB unlit_model _ None).
  vm_compute. reflexivity.
Defined.

Lemma Map_get_set k v m :
  ModelInstance.Map_get k (ModelInstance.Map_set k v m) = Some v.
Proof.
  induction m as [|[k' v'] m IH]; cbn; [by case_decide|].
  case_decide; cbn; by case_decide.
Qed.

Lemma Map_get_set_ne k k' v m :
  k' ≠ k →
  ModelInstance.Map_get k' (ModelInstance.Map_set k v m)
  = ModelInstance.Map_get k' m.
Proof.
  intros Hne. induction m as [|[k0 v0] m IH]; cbn; [by case_decide|].
  case_decide; cbn; repeat case_decide; by simplify_eq.
Qed.

Lemma Map_get_delete_ne k k' m :
  k' ≠ k →
  ModelInstance.Map_get k' (ModelInstance.Map_delete k m)
  = ModelInstance.Map_get k' m.
Proof.
  intros Hne. induction m as [|[k0 v0] m IH]; cbn; [done|].
  case_decide; cbn; repeat case_decide; by simplify_eq.
Qed.

Lemma Map_get_None k m :
  k ∉ m.*1 → ModelInstance.Map_get k m = None.
Proof.
  induction m as [|[k0 v0] m IH]; cbn; [done|].
  intros Hk. case_decide; [subst; destruct Hk; by left|].
  apply IH. intros ?. apply Hk. by right.
Qed.

Lemma Map_get_delete k m :
  NoDup m.*1 →
  ModelInstance.Map_get k (ModelInstance.Map_delete k m) = None.
Proof.
  induction m as [|[k0 v0] m IH]; cbn; [done|].
  intros [Hk Hm]%NoDup_cons. case_decide; cbn.
  - subst. by apply Map_get_None.
  - case_decide; [done|]. by apply IH.
Qed.

Lemma Map_set_keys k v m :
  (ModelInstance.Map_set k v m).*1 = m.*1 ∨
  (k ∉ m.*1 ∧ (ModelInstance.Map_set k v m).*1 = m.*1 ++ [k]).
Proof.
  induction m as [|[k0 v0] m IH]; cbn.
  - right. split; [apply not_elem_of_nil|done].
  - case_decide; cbn; [left; by subst|].
    destruct IH as [->|[Hk ->]]; [by left|right]. split; [|done].
    intros [?|?]%elem_of_cons; by simplify_eq.
Qed.

Lemma Map_set_NoDup k v m :
  NoDup m.*1 → NoDup (ModelInstance.Map_set k v m).*1.
Proof.
  intros Hm. destruct (Map_set_keys k v m) as [->|[Hk ->]]; [done|].
  apply NoDup_app. split_and!; [done| |apply NoDup_singleton].
  intros x Hx ->%list_elem_of_singleton. done.
Qed.

Lemma Map_delete_keys k m x :
  x ∈ (ModelInstance.Map_delete k m).*1 → x ∈ m.*1.
Proof.
  induction m as [|[k0 v0] m IH]; cbn; [done|].
  case_decide; cbn.
  - intros ?. by right.
  - intros [->|?]%elem_of_cons; [by left|right; by apply IH].
Qed.

Lemma Map_delete_NoDup k m :
  NoDup m.*1 → NoDup (ModelInstance.Map_delete k m).*1.
Proof.
  induction m as [|[k0 v0] m IH]; cbn; [done|].
  intros [Hk Hm]%NoDup_cons. case_decide; cbn; [done|].
  apply NoDup_cons. split; [|by apply IH].
  intros ?%Map_delete_keys. done.
Qed.

Lemma registry_sound_empty : registry_sound ModelInstance.empty.
Proof.
  split; cbn; [apply NoDup_nil_2|by intros ? ?%elem_of_nil|apply NoDup_nil_2|done..].
Qed.

Lemma registry_sound_step c reg :
  registry_sound reg → registry_sound (ModelInstance.step c reg).
Proof.
  intros [Hs Hm Hn Hb Ho]. destruct c as [name|name|]; cbn.
  - assert (∀ n, ModelInstance.Map_get n (ModelInstance.loadedModels reg)
                 ≠ Some (ModelInstance.clones reg)) as Hfresh.
    { intros n Hg. apply Hb, Hm in Hg. lia. }
    split; cbn.
    + apply NoDup_app. split_and!; [done| |apply NoDup_singleton].
      intros x Hx ->%list_elem_of_singleton. apply Hm in Hx. lia.
    + intros m [Hin| ->%list_elem_of_singleton]%elem_of_app; [|lia].
      apply Hm in Hin. lia.
    + by apply Map_set_NoDup.
    + intros n m. destruct (decide (n = name)) as [->|Hne].
      * rewrite Map_get_set. intros [= <-]. apply elem_of_app. right.
        by apply list_elem_of_singleton.
      * rewrite Map_get_set_ne by done. intros ?%Hb. apply elem_of_app.
        by left.
    + intros n1 n2 m.
      destruct (decide (n1 = name)) as [->|Hne1],
               (decide (n2 = name)) as [->|Hne2]; [done|..];
        rewrite ?Map_get_set, ?Map_get_set_ne by done.
      * intros [= <-] Hg. by apply Hfresh in Hg.
      * intros Hg [= <-]. by apply Hfresh in Hg.
      * apply Ho.
  - unfold ModelInstance.removeModel.
    destruct (ModelInstance.Map_get name _) as [model|] eqn:E; cbn; [|done].
    split; cbn.
    + by apply NoDup_filter.
    + intros m [_ Hin]%list_elem_of_filter. by apply Hm.
    + by apply Map_delete_NoDup.
    + intros n m. destruct (decide (n = name)) as [->|Hne].
      * by rewrite Map_get_delete.
      * rewrite Map_get_delete_ne by done. intros Hg.
        apply list_elem_of_filter. split; [|by eapply Hb].
        intros ->. by apply Hne, (Ho n name model).
    + intros n1 n2 m.
      destruct (decide (n1 = name)) as [->|Hne1]; [by rewrite Map_get_delete|].
      destruct (decide (n2 = name)) as [->|Hne2]; [by rewrite (Map_get_delete name)|].
      rewrite !Map_get_delete_ne by done. apply Ho.
  - split; cbn; [done|done|apply NoDup_nil_2|done..].
Qed.

Lemma registry_sound_run cs reg :
  registry_sound reg → registry_sound (ModelInstance.run cs reg).
Proof.
  revert reg. induction cs as [|c cs IH]; intros reg Hreg; [done|].
  cbn. by apply IH, registry_sound_step.
Qed.

Lemma orphan_step c m reg :
  registry_sound reg → orphan m reg → orphan m (ModelInstance.step c reg).
Proof.
  intros [Hs Hm Hn Hb Ho] [Hin Hfree]. unfold orphan, ModelInstance.getModel in *.
  destruct c as [name|name|]; cbn.
  - split; [apply elem_of_app; by left|]. intros n.
    destruct (decide (n = name)) as [->|Hne].
    + rewrite Map_get_set. intros [= <-]. apply Hm in Hin. lia.
    + rewrite Map_get_set_ne by done. apply Hfree.
  - unfold ModelInstance.removeModel.
    destruct (ModelInstance.Map_get name _) as [model|] eqn:E; cbn; [|done].
    split.
    + apply list_elem_of_filter. split; [|done]. intros ->. by eapply Hfree.
    + intros n. destruct (decide (n = name)) as [->|Hne].
      * by rewrite Map_get_delete.
      * rewrite Map_get_delete_ne by done. apply Hfree.
  - done.
Qed.

Lemma orphan_run cs m reg :
  registry_sound reg → orphan m reg → orphan m (ModelInstance.run cs reg).
Proof.
  revert reg. induction cs as [|c cs IH]; intros reg Hreg Hm; [done|].
  cbn. apply IH; [by apply registry_sound_step|by apply orphan_step].
Qed.

(** X15.  A model is taken out of the scene by [removeModel] under the
    name it is bound to, and the name is free afterwards.  But an
    instance whose name is given to a later instance, or that was in
    the scene when [dispose] ran, stays in the scene whatever is called
    from then on, and no name ever gives it back. *)
Theorem registry_orphans (cs cs' : list ModelInstance.call) (name : string)
    (m : nat) :
  let reg := ModelInstance.run cs ModelInstance.empty in
  ModelInstance.getModel name reg = Some m →
  ((ModelInstance.removeModel name reg).2 = true ∧
   m ∉ ModelInstance.scene (ModelInstance.removeModel name reg).1 ∧
   ModelInstance.getModel name (ModelInstance.removeModel name reg).1 = None ∧
   (ModelInstance.removeModel name (ModelInstance.removeModel name reg).1).2
     = false) ∧
  orphan m
    (ModelInstance.run cs' (ModelInstance.register name reg).1) ∧
  orphan m (ModelInstance.run cs' (ModelInstance.dispose reg)).
Proof.
  intros reg Hg.
  assert (registry_sound reg) as Hreg
    by apply registry_sound_run, registry_sound_empty.
  pose proof Hreg as [Hs Hm Hn Hb Ho]. unfold ModelInstance.getModel in Hg.
  split_and!.
  - unfold ModelInstance.removeModel. by rewrite Hg.
  - unfold ModelInstance.removeModel. rewrite Hg. cbn.
    by intros [? _]%list_elem_of_filter.
  - unfold ModelInstance.removeModel, ModelInstance.getModel. rewrite Hg. cbn.
    by apply Map_get_delete.
  - unfold ModelInstance.removeModel at 1.
    assert (ModelInstance.Map_get name
              (ModelInstance.loadedModels
                 (ModelInstance.removeModel name reg).1) = None) as ->; [|done].
    unfold ModelInstance.removeModel. rewrite Hg. cbn. by apply Map_get_delete.
  - apply orphan_run.
    + apply (registry_sound_step (ModelInstance.CreateModelInstance name)), Hreg.
    + split; [apply elem_of_app; left; by eapply Hb|].
      intros n. unfold ModelInstance.getModel. cbn.
      destruct (decide (n = name)) as [->|Hne].
      * rewrite Map_get_set. intros [= <-]. apply Hb, Hm in Hg. lia.
      * rewrite Map_get_set_ne by done. intros Hg'.
        by apply Hne, (Ho n name m).
  - apply orphan_run.
    + apply (registry_sound_step ModelInstance.Dispose), Hreg.
    + split; [by eapply Hb|done].
Qed.

Lemma registry_orphans_witness :
  ModelInstance.getModel "egg"
    (ModelInstance.run [ModelInstance.CreateModelInstance "egg"]
       ModelInstance.empty) = Some 0 ∧
  orphan 0
    (ModelInstance.run
       [ModelInstance.RemoveModel "egg"; ModelInstance.RemoveModel "egg"]
       (ModelInstance.register "egg"
          (ModelInstance.run [ModelInstance.CreateModelInstance "egg"]
             ModelInstance.empty)).1).
Proof.
  split; [reflexivity|].
  exact (proj1 (proj2 (registry_orphans
    [ModelInstance.CreateModelInstance "egg"]
    [ModelInstance.RemoveModel "egg"; ModelInstance.RemoveModel "egg"]
    "egg" 0 eq_refl))).
Defined.

Lemma coherent_same st st' :
  same_controls st st' → coherent st → coherent st'.
Proof.
  intros (Hd & Hs & Hi & Hc & Hcam & Hn) [H1 H2 H3 H4 H5].
  split; rewrite ?Hd, ?Hs, ?Hi, ?Hc, ?Hcam; try done.
  intros key. by rewrite Hn.
Qed.

Lemma coherent_removeObjectHighlight st :
  coherent st →
  coherent (ObjectDragControls.state_of
              (ObjectDragControls.removeObjectHighlight st)).
Proof.
  intros Hst. unfold ObjectDragControls.removeObjectHighlight.
  destruct (ObjectDragControls.selectedObject st) as [object|] eqn:E; [|done].
  destruct (ObjectDragControls.restore_each _ _) as [mats []]; cbn;
    by apply (coherent_same st).
Qed.

Lemma coherent_deselectObject st :
  coherent st →
  coherent (ObjectDragControls.state_of (ObjectDragControls.deselectObject st)).
Proof.
  intros Hst. unfold ObjectDragControls.deselectObject.
  destruct (ObjectDragControls.selectedObject st) as [object|] eqn:E.
  - unfold ObjectDragControls.removeObjectHighlight. rewrite E.
    destruct (ObjectDragControls.restore_each _ _) as [mats []]; cbn.
    + by apply (coherent_same st).
    + destruct Hst as [H1 H2 H3 H4 H5].
      by destruct (ObjectDragControls.cameraControls st); split; cbn.
  - cbn. destruct Hst as [H1 H2 H3 H4 H5]. rewrite E in H1, H2.
    by destruct (ObjectDragControls.cameraControls st); split; cbn;
      rewrite ?E.
Qed.

Lemma coherent_selectObject object key st :
  coherent st → coherent (ObjectDragControls.selectObject object key st).
Proof.
  intros [H1 H2 H3 H4 H5]. unfold ObjectDragControls.selectObject. cbn.
  destruct (ObjectDragControls.cameraControls st) eqn:Ec; split; cbn;
    rewrite ?Ec; done.
Qed.

Lemma names_fmap (f : string * option nat → string * option nat)
    (m : gmap string (string * option nat)) key :
  (∀ x, (f x).1 = x.1) →
  fst <$> ((f <$> m) !! key) = fst <$> (m !! key).
Proof.
  intros Hf. rewrite lookup_fmap. destruct (m !! key); cbn; [|done].
  by rewrite Hf.
Qed.

Lemma same_initialize_object st obj :
  same_controls st (ObjectDragControls.initialize_object st obj).
Proof.
  unfold ObjectDragControls.initialize_object, same_controls.
  destruct obj as [obj|]; [|done].
  destruct (ObjectDragControls.userData_name _) as [[name|]|]; [|done..].
  case_decide; [done|]. cbn. split_and!; try done.
  intros key. apply names_fmap. intros [n o].
  unfold ObjectDragControls.map_key. cbn.
  case_decide; [done|]. destruct (_ && _); [|done]. by destruct o.
Qed.

Lemma same_controls_refl st : same_controls st st.
Proof. by unfold same_controls. Qed.

Lemma same_controls_trans st1 st2 st3 :
  same_controls st1 st2 → same_controls st2 st3 → same_controls st1 st3.
Proof.
  unfold same_controls. intros (?&?&?&?&?&Hn) (?&?&?&?&?&Hn').
  split_and!; try congruence; intros key; by rewrite Hn', Hn.
Qed.

Lemma same_foldl_initialize st l :
  same_controls st (foldl ObjectDragControls.initialize_object st l).
Proof.
  revert st. induction l as [|obj l IH]; intros st; [apply same_controls_refl|].
  cbn. eapply same_controls_trans; [apply same_initialize_object|apply IH].
Qed.

Lemma coherent_log_name object st :
  coherent st →
  coherent (ObjectDragControls.state_of (ObjectDragControls.log_name object st)).
Proof.
  unfold ObjectDragControls.log_name.
  by destruct (ObjectDragControls.userData_name _).
Qed.

Lemma coherent_and_then c f :
  coherent (ObjectDragControls.state_of c) →
  (∀ st, coherent st → coherent (ObjectDragControls.state_of (f st))) →
  coherent (ObjectDragControls.state_of (ObjectDragControls.and_then c f)).
Proof. destruct c; cbn; auto. Qed.

Lemma coherent_handleObjectSelection key st :
  coherent st →
  coherent (ObjectDragControls.state_of
              (ObjectDragControls.handleObjectSelection key st)).
Proof.
  intros Hst. unfold ObjectDragControls.handleObjectSelection.
  destruct (_ !! key) as [[name [object|]]|];
    [|done|by case_bool_decide].
  case_decide; [by apply coherent_deselectObject|].
  apply coherent_and_then.
  - destruct (ObjectDragControls.selectedObject st);
      [by apply coherent_deselectObject|done].
  - intros st' Hst'. by apply coherent_selectObject.
Qed.

Lemma coherent_step intersectPlane c st :
  coherent st →
  coherent (ObjectDragControls.state_of
              (ObjectDragControls.step intersectPlane c st)).
Proof.
  intros Hst. destruct c; cbn [ObjectDragControls.step].
  - cbn [ObjectDragControls.state_of].
    unfold ObjectDragControls.initializeDragObjects.
    eapply coherent_same; [|exact Hst].
    apply (same_controls_trans _ (ObjectDragControls.set_allObjects [] st));
      [by unfold same_controls|].
    eapply same_controls_trans; [apply same_foldl_initialize|].
    by unfold same_controls.
  - unfold ObjectDragControls.onKeyDown.
    destruct (ObjectDragControls.isEnabled st); [|done].
    destruct (ObjectDragControls.number_key key); [|done].
    by apply coherent_handleObjectSelection.
  - by apply coherent_handleObjectSelection.
  - by apply coherent_selectObject.
  - by apply coherent_deselectObject.
  - by apply (coherent_same st).
  - by apply coherent_removeObjectHighlight.
  - cbn. unfold ObjectDragControls.onMouseMove.
    destruct (_ || _); [done|].
    unfold ObjectDragControls.updateSelectedObjectPosition. cbn.
    destruct (ObjectDragControls.selectedObject st) eqn:E;
      by apply (coherent_same st).
  - cbn. unfold ObjectDragControls.updateSelectedObjectPosition.
    destruct (ObjectDragControls.selectedObject st) eqn:E;
      by apply (coherent_same st).
  - unfold ObjectDragControls.addDragObject. destruct object as [object|]; [|done].
    case_bool_decide; [done|]. apply coherent_log_name.
    by apply (coherent_same st).
  - unfold ObjectDragControls.removeDragObject.
    destruct (ObjectDragControls.indexOf _ _); [|done].
    apply coherent_and_then.
    + case_decide; [by apply coherent_deselectObject|done].
    + intros st' Hst'. apply coherent_log_name.
      apply (coherent_same st'); [|done]. unfold same_controls. cbn.
      split_and!; try done. intros key. apply names_fmap. intros [nm o].
      unfold ObjectDragControls.unmap. by case_decide.
  - unfold ObjectDragControls.setEnabled.
    destruct (_ && _).
    + apply coherent_deselectObject. by apply (coherent_same st).
    + by apply (coherent_same st).
  - unfold ObjectDragControls.assignObjectToKey.
    destruct (ObjectDragControls.number_key key); [|done].
    destruct object as [object|]; [|done].
    destruct (ObjectDragControls.objectMapping st !! key) as [mapping|] eqn:E;
      [|done].
    apply coherent_log_name. apply (coherent_same st); [|done].
    unfold same_controls. cbn. split_and!; try done. intros key'.
    destruct (decide (key' = key)) as [->|Hne].
    + by rewrite lookup_insert_eq, E.
    + by rewrite lookup_insert_ne.
  - unfold ObjectDragControls.dispose. apply coherent_and_then.
    + destruct (ObjectDragControls.selectedObject st);
        [by apply coherent_deselectObject|done].
    + intros st' Hst'. apply (coherent_same st'); [|done].
      unfold same_controls. cbn. split_and!; try done.
      intros key. by apply names_fmap.
Qed.

Lemma coherent_constructor cameraControls cursor objects materials :
  coherent (ObjectDragControls.constructor cameraControls cursor objects
              materials).
Proof.
  split; cbn; try done; try (split; [done|by intros [? ?]]); by intros [? ?].
Qed.

Lemma ObjectDragControls_run_snoc intersectPlane cs c st :
  ObjectDragControls.run intersectPlane (cs ++ [c]) st
  = ObjectDragControls.state_of
      (ObjectDragControls.step intersectPlane c
         (ObjectDragControls.run intersectPlane cs st)).
Proof. unfold ObjectDragControls.run. by rewrite foldl_app. Qed.

Lemma coherent_run intersectPlane cs st :
  coherent st → coherent (ObjectDragControls.run intersectPlane cs st).
Proof.
  intros Hst. induction cs as [|c cs IH] using rev_ind; [done|].
  rewrite ObjectDragControls_run_snoc. by apply coherent_step.
Qed.


Lemma fixed_refl st : fixed st st.
Proof. by intros o. Qed.

Lemma fixed_trans st1 st2 st3 : fixed st1 st2 → fixed st2 st3 → fixed st1 st3.
Proof.
  intros H12 H23 o. destruct (H12 o) as (?&?&?), (H23 o) as (?&?&?).
  split_and!; congruence.
Qed.

Lemma fixed_objects st st' :
  ObjectDragControls.objects st' = ObjectDragControls.objects st →
  fixed st st'.
Proof. intros H o. by rewrite H. Qed.

Lemma fixed_level st st' : fixed st st' → level st st'.
Proof. intros H o. destruct (H o) as (?&?&?). split_and!; congruence. Qed.

Lemma highlight_each_materials ms mats :
  ObjectDragControls.material_ <$> (ObjectDragControls.highlight_each ms mats).1
  = ObjectDragControls.material_ <$> ms.
Proof.
  revert mats. induction ms as [|m ms IH]; intros mats; [done|].
  cbn. rewrite IH. f_equal. unfold ObjectDragControls.highlight_mesh.
  by destruct (ObjectDragControls.emissive _).
Qed.

Lemma fixed_addObjectHighlight object st :
  fixed st (ObjectDragControls.addObjectHighlight object st).
Proof.
  intros o. unfold ObjectDragControls.addObjectHighlight. cbn.
  unfold ObjectDragControls.store. case_decide; [subst; cbn|done].
  by rewrite highlight_each_materials.
Qed.

Lemma fixed_removeObjectHighlight st :
  fixed st (ObjectDragControls.state_of
              (ObjectDragControls.removeObjectHighlight st)).
Proof.
  unfold ObjectDragControls.removeObjectHighlight.
  destruct (ObjectDragControls.selectedObject st); [|apply fixed_refl].
  destruct (ObjectDragControls.restore_each _ _) as [mats []];
    by apply fixed_objects.
Qed.

Lemma fixed_and_then st c f :
  fixed st (ObjectDragControls.state_of c) →
  (∀ st', fixed st' (ObjectDragControls.state_of (f st'))) →
  fixed st (ObjectDragControls.state_of (ObjectDragControls.and_then c f)).
Proof.
  destruct c as [st'|st']; cbn; [|done].
  intros H Hf. by eapply fixed_trans.
Qed.

Lemma fixed_deselectObject st :
  fixed st (ObjectDragControls.state_of (ObjectDragControls.deselectObject st)).
Proof.
  unfold ObjectDragControls.deselectObject. apply fixed_and_then.
  - destruct (ObjectDragControls.selectedObject st); [|apply fixed_refl].
    apply fixed_and_then; [apply fixed_removeObjectHighlight|].
    intros st'. by apply fixed_objects.
  - intros st'. apply fixed_objects.
    by destruct (ObjectDragControls.cameraControls st').
Qed.

Lemma fixed_selectObject object key st :
  fixed st (ObjectDragControls.selectObject object key st).
Proof.
  unfold ObjectDragControls.selectObject.
  eapply fixed_trans; [|apply fixed_objects].
  - eapply fixed_trans; [|apply fixed_addObjectHighlight].
    by apply fixed_objects.
  - cbn. by destruct (ObjectDragControls.cameraControls _).
Qed.

Lemma fixed_handleObjectSelection key st :
  fixed st (ObjectDragControls.state_of
              (ObjectDragControls.handleObjectSelection key st)).
Proof.
  unfold ObjectDragControls.handleObjectSelection.
  destruct (_ !! key) as [[name [object|]]|];
    [|apply fixed_refl|case_bool_decide; apply fixed_refl].
  case_decide; [apply fixed_deselectObject|].
  apply fixed_and_then.
  - destruct (ObjectDragControls.selectedObject st);
      [apply fixed_deselectObject|apply fixed_refl].
  - intros st'. apply fixed_selectObject.
Qed.

Lemma fixed_foldl_initialize st l :
  fixed st (foldl ObjectDragControls.initialize_object st l).
Proof.
  revert st. induction l as [|obj l IH]; intros st; [apply fixed_refl|].
  cbn. eapply fixed_trans; [|apply IH]. apply fixed_objects.
  unfold ObjectDragControls.initialize_object.
  destruct obj as [obj|]; [|done].
  destruct (ObjectDragControls.userData_name _) as [[name|]|]; [|done..].
  by case_decide.
Qed.

Lemma fixed_log_name object st :
  fixed st (ObjectDragControls.state_of (ObjectDragControls.log_name object st)).
Proof.
  unfold ObjectDragControls.log_name.
  destruct (ObjectDragControls.userData_name _); apply fixed_refl.
Qed.

Lemma level_updateSelectedObjectPosition intersectPlane st :
  level st (ObjectDragControls.updateSelectedObjectPosition intersectPlane st).
Proof.
  unfold ObjectDragControls.updateSelectedObjectPosition.
  destruct (ObjectDragControls.selectedObject st) as [object|] eqn:E;
    [|apply fixed_level, fixed_refl].
  intros o. cbn. unfold ObjectDragControls.store.
  case_decide; [subst; cbn|done]. by split_and!.
Qed.

Lemma level_step intersectPlane c st :
  level st (ObjectDragControls.state_of
              (ObjectDragControls.step intersectPlane c st)).
Proof.
  destruct c; cbn [ObjectDragControls.step].
  - apply fixed_level. cbn. unfold ObjectDragControls.initializeDragObjects.
    eapply fixed_trans; [|by apply fixed_objects].
    eapply fixed_trans; [|apply fixed_foldl_initialize].
    by apply fixed_objects.
  - apply fixed_level. unfold ObjectDragControls.onKeyDown.
    destruct (ObjectDragControls.isEnabled st); [|apply fixed_refl].
    destruct (ObjectDragControls.number_key key); [|apply fixed_refl].
    apply fixed_handleObjectSelection.
  - apply fixed_level, fixed_handleObjectSelection.
  - apply fixed_level, fixed_selectObject.
  - apply fixed_level, fixed_deselectObject.
  - apply fixed_level, fixed_addObjectHighlight.
  - apply fixed_level, fixed_removeObjectHighlight.
  - cbn. unfold ObjectDragControls.onMouseMove.
    destruct (_ || _); [apply fixed_level, fixed_refl|].
    match goal with
    | |- level st (ObjectDragControls.updateSelectedObjectPosition _ ?s) =>
        pose proof (level_updateSelectedObjectPosition intersectPlane s) as H
    end.
    intros o. destruct (H o) as (?&?&?&?). by split_and!.
  - apply level_updateSelectedObjectPosition.
  - apply fixed_level. unfold ObjectDragControls.addDragObject.
    destruct object as [object|]; [|apply fixed_refl].
    case_bool_decide; [apply fixed_refl|].
    eapply fixed_trans; [|apply fixed_log_name]. by apply fixed_objects.
  - apply fixed_level. unfold ObjectDragControls.removeDragObject.
    destruct (ObjectDragControls.indexOf _ _); [|apply fixed_refl].
    apply fixed_and_then.
    + case_decide; [apply fixed_deselectObject|apply fixed_refl].
    + intros st'. eapply fixed_trans; [|apply fixed_log_name].
      by apply fixed_objects.
  - apply fixed_level. unfold ObjectDragControls.setEnabled.
    destruct (_ && _); [|by apply fixed_objects].
    eapply fixed_trans; [|apply fixed_deselectObject]. by apply fixed_objects.
  - apply fixed_level. unfold ObjectDragControls.assignObjectToKey.
    destruct (ObjectDragControls.number_key key); [|apply fixed_refl].
    destruct object as [object|]; [|apply fixed_refl].
    destruct (ObjectDragControls.objectMapping st !! key); [|apply fixed_refl].
    eapply fixed_trans; [|apply fixed_log_name]. by apply fixed_objects.
  - apply fixed_level. unfold ObjectDragControls.dispose.
    apply fixed_and_then.
    + destruct (ObjectDragControls.selectedObject st);
        [apply fixed_deselectObject|apply fixed_refl].
    + intros st'. by apply fixed_objects.
Qed.

(** X17.  No sequence of calls changes the height [position.y] of an
    object, its [userData.name] (or whether it has a [userData]) or
    which materials its meshes have, and a single call leaves the whole
    position of every object but the selected one as it is: of an
    object's position the controls change the [x] and [z] of the
    selected object and nothing else.  The other entries of a
    [userData], [originalColor] and [originalEmissive], are not covered:
    the highlight writes them, for each mesh of the object and so for
    the object itself when it is a mesh. *)
Theorem objects_stay_level
    (intersectPlane : float * float → float → Vector3.t)
    (cs : list ObjectDragControls.call) (st : ObjectDragControls.t)
    (o : nat) :
  let st' := ObjectDragControls.run intersectPlane cs st in
  ObjectDragControls.userData_name (ObjectDragControls.objects st' o)
    = ObjectDragControls.userData_name (ObjectDragControls.objects st o) ∧
  Vector3.y (ObjectDragControls.position (ObjectDragControls.objects st' o))
    = Vector3.y
        (ObjectDragControls.position (ObjectDragControls.objects st o)) ∧
  ObjectDragControls.material_ <$>
      ObjectDragControls.meshes (ObjectDragControls.objects st' o)
    = ObjectDragControls.material_ <$>
      ObjectDragControls.meshes (ObjectDragControls.objects st o) ∧
  ∀ c,
    ObjectDragControls.selectedObject st' ≠ Some o →
    ObjectDragControls.position
      (ObjectDragControls.objects
         (ObjectDragControls.state_of
            (ObjectDragControls.step intersectPlane c st')) o)
    = ObjectDragControls.position (ObjectDragControls.objects st' o).
Proof.
  cbn zeta. split_and!.
  1-3: induction cs as [|c cs IH] using rev_ind; [done|];
    rewrite ObjectDragControls_run_snoc;
    destruct (level_step intersectPlane c
                (ObjectDragControls.run intersectPlane cs st) o)
      as (?&?&?&?); congruence.
  intros c Hsel. by destruct (level_step intersectPlane c
    (ObjectDragControls.run intersectPlane cs st) o) as (?&?&H&?); auto.
Qed.

Lemma highlight_mesh_material m mats :
  ObjectDragControls.material_ (ObjectDragControls.highlight_mesh m mats).1
  = ObjectDragControls.material_ m.
Proof.
  unfold ObjectDragControls.highlight_mesh.
  by destruct (ObjectDragControls.emissive _).
Qed.

Lemma highlight_mesh_store m mats :
  (ObjectDragControls.highlight_mesh m mats).2
  = ObjectDragControls.store (ObjectDragControls.material_ m)
      (highlighted (mats (ObjectDragControls.material_ m))) mats.
Proof.
  unfold ObjectDragControls.highlight_mesh, highlighted.
  by destruct (ObjectDragControls.emissive _).
Qed.

Lemma highlight_mesh_ext m mats mats' :
  mats' (ObjectDragControls.material_ m) = mats (ObjectDragControls.material_ m) →
  (ObjectDragControls.highlight_mesh m mats').1
  = (ObjectDragControls.highlight_mesh m mats).1.
Proof.
  intros H. unfold ObjectDragControls.highlight_mesh. rewrite H.
  by destruct (ObjectDragControls.emissive _).
Qed.

Lemma highlight_each_NoDup ms mats :
  NoDup (ObjectDragControls.material_ <$> ms) →
  (ObjectDragControls.highlight_each ms mats).1
    = (λ m, (ObjectDragControls.highlight_mesh m mats).1) <$> ms ∧
  ∀ j,
    (ObjectDragControls.highlight_each ms mats).2 j
    = if bool_decide (j ∈ ObjectDragControls.material_ <$> ms)
      then highlighted (mats j) else mats j.
Proof.
  revert mats. induction ms as [|m ms IH]; intros mats; [done|].
  rewrite fmap_cons. intros [Hm Hms]%NoDup_cons.
  cbn [ObjectDragControls.highlight_each fst snd].
  destruct (IH (ObjectDragControls.highlight_mesh m mats).2 Hms) as [-> H2].
  split.
  - cbn. f_equal. apply list_fmap_ext. intros k m' Hm'.
    apply highlight_mesh_ext. rewrite highlight_mesh_store.
    unfold ObjectDragControls.store. case_decide as Heq; [|done].
    destruct Hm. rewrite <-Heq. apply list_elem_of_fmap. exists m'.
    split; [done|]. by eapply list_elem_of_lookup_2.
  - intros j. rewrite H2, highlight_mesh_store.
    unfold ObjectDragControls.store.
    destruct (decide (j = ObjectDragControls.material_ m)) as [->|Hne].
    + rewrite (bool_decide_eq_false_2 _ Hm), bool_decide_eq_true_2
        by apply list_elem_of_here. done.
    + destruct (decide (j ∈ ObjectDragControls.material_ <$> ms)) as [Hj|Hj].
      * rewrite !bool_decide_eq_true_2; [done|by right|done].
      * rewrite !bool_decide_eq_false_2; [done| |done].
        by intros [?|?]%elem_of_cons.
Qed.

Lemma restore_highlighted_mesh m mats M :
  clean_mesh mats m →
  M (ObjectDragControls.material_ m)
    = highlighted (mats (ObjectDragControls.material_ m)) →
  ObjectDragControls.restore_mesh
    (ObjectDragControls.highlight_mesh m mats).1 M
  = (ObjectDragControls.store (ObjectDragControls.material_ m)
       (mats (ObjectDragControls.material_ m)) M, false).
Proof.
  intros [Hc He] HM.
  unfold ObjectDragControls.restore_mesh. rewrite highlight_mesh_material, HM.
  unfold ObjectDragControls.highlight_mesh, highlighted.
  destruct (mats (ObjectDragControls.material_ m)) as [c e]. cbn in *.
  destruct e as [e|]; [|rewrite (He eq_refl)]; cbn;
    destruct c as [c|], Hc as [->| ->]; by cbn.
Qed.

Lemma restore_each_highlighted ms mats M :
  NoDup (ObjectDragControls.material_ <$> ms) →
  Forall (clean_mesh mats) ms →
  (∀ j, j ∈ ObjectDragControls.material_ <$> ms → M j = highlighted (mats j)) →
  ∃ M',
    ObjectDragControls.restore_each
      ((λ m, (ObjectDragControls.highlight_mesh m mats).1) <$> ms) M
    = (M', false) ∧
    (∀ j, j ∈ ObjectDragControls.material_ <$> ms → M' j = mats j) ∧
    (∀ j, j ∉ ObjectDragControls.material_ <$> ms → M' j = M j).
Proof.
  revert M. induction ms as [|m ms IH]; intros M.
  - intros _ _ _. exists M. split_and!; [done| |done].
    by intros j ?%elem_of_nil.
  - rewrite !fmap_cons.
    intros [Hm Hms]%NoDup_cons [Hcm Hcms]%Forall_cons HM.
    cbn [ObjectDragControls.restore_each].
    rewrite restore_highlighted_mesh by (try done; apply HM; by left).
    cbn [snd fst].
    destruct (IH (ObjectDragControls.store (ObjectDragControls.material_ m)
                    (mats (ObjectDragControls.material_ m)) M) Hms Hcms)
      as (M' & -> & Hin & Hout).
    { intros j Hj. unfold ObjectDragControls.store.
      case_decide; [by subst|]. apply HM. by right. }
    exists M'. split_and!; [done|..].
    + intros j [->|Hj]%elem_of_cons; [|by apply Hin].
      rewrite (Hout _ Hm). unfold ObjectDragControls.store. by case_decide.
    + intros j Hj. rewrite Hout by (intros ?; apply Hj; by right).
      unfold ObjectDragControls.store. case_decide; [|done].
      subst. destruct Hj. by left.
Qed.

Lemma clean_highlighted_mesh m mats :
  clean_mesh mats m →
  clean_mesh mats (ObjectDragControls.highlight_mesh m mats).1.
Proof.
  intros [Hc He]. unfold clean_mesh. rewrite highlight_mesh_material.
  unfold ObjectDragControls.highlight_mesh.
  destruct (mats (ObjectDragControls.material_ m)) as [c e]. cbn in *.
  destruct e as [e|]; cbn; (split; [|done]);
    destruct c as [c|], Hc as [->| ->]; cbn; auto.
Qed.

(** X18.  Pressing the key of an object selects and highlights it: each
    of its materials is brightened by 1.3 and, if it has an [emissive]
    colour, glows.  Pressing the same key again deselects it and gives
    every material the colours it had, moves nothing, and leaves the
    object ready for the next selection.  This takes an object no two
    of whose meshes share a material and whose [userData] holds no
    colours of an earlier state of its materials. *)
Theorem highlight_round_trip (key name : string) (object : nat)
    (st : ObjectDragControls.t) :
  ObjectDragControls.objectMapping st !! key = Some (name, Some object) →
  ObjectDragControls.selectedObject st = None →
  restorable object st →
  ∃ st1 st2,
    ObjectDragControls.handleObjectSelection key st
      = ObjectDragControls.Normal st1 ∧
    ObjectDragControls.selectedObject st1 = Some object ∧
    (∀ j, ObjectDragControls.materials st1 j
          = if bool_decide
                 (j ∈ ObjectDragControls.material_ <$>
                      ObjectDragControls.meshes
                        (ObjectDragControls.objects st object))
            then highlighted (ObjectDragControls.materials st j)
            else ObjectDragControls.materials st j) ∧
    ObjectDragControls.handleObjectSelection key st1
      = ObjectDragControls.Normal st2 ∧
    ObjectDragControls.selectedObject st2 = None ∧
    (∀ j, ObjectDragControls.materials st2 j
          = ObjectDragControls.materials st j) ∧
    (∀ o, ObjectDragControls.position (ObjectDragControls.objects st2 o)
          = ObjectDragControls.position (ObjectDragControls.objects st o)) ∧
    restorable object st2.
Proof.
  intros Hkey Hsel [Hnd Hclean].
  set (ms := ObjectDragControls.meshes (ObjectDragControls.objects st object))
    in *.
  set (mats := ObjectDragControls.materials st) in *.
  destruct (highlight_each_NoDup ms mats Hnd) as [H1 H2].
  destruct (restore_each_highlighted ms mats
              (ObjectDragControls.highlight_each ms mats).2 Hnd Hclean)
    as (M' & Hrestore & Hin & Hout).
  { intros j Hj. by rewrite H2, bool_decide_eq_true_2. }
  assert (∀ j, M' j = mats j) as HM'.
  { intros j. destruct (decide (j ∈ ObjectDragControls.material_ <$> ms))
      as [Hj|Hj]; [by apply Hin|].
    by rewrite (Hout _ Hj), H2, bool_decide_eq_false_2. }
  set (st1 := ObjectDragControls.selectObject object key st).
  assert (ObjectDragControls.handleObjectSelection key st
          = ObjectDragControls.Normal st1) as Hfirst.
  { unfold ObjectDragControls.handleObjectSelection. rewrite Hkey, Hsel.
    by case_decide. }
  assert (ObjectDragControls.objectMapping st1 !! key
          = Some (name, Some object)) as Hkey1.
  { unfold st1, ObjectDragControls.selectObject. cbn.
    by destruct (ObjectDragControls.cameraControls st). }
  assert (ObjectDragControls.selectedObject st1 = Some object) as Hsel1.
  { unfold st1, ObjectDragControls.selectObject. cbn.
    by destruct (ObjectDragControls.cameraControls st). }
  assert (ObjectDragControls.materials st1
          = (ObjectDragControls.highlight_each ms mats).2) as Hmats1.
  { unfold st1, ObjectDragControls.selectObject. cbn.
    by destruct (ObjectDragControls.cameraControls st). }
  assert (ObjectDragControls.objects st1
          = ObjectDragControls.store object
              (ObjectDragControls.Object
                 (ObjectDragControls.userData_name
                    (ObjectDragControls.objects st object))
                 (ObjectDragControls.position
                    (ObjectDragControls.objects st object))
                 (ObjectDragControls.highlight_each ms mats).1)
              (ObjectDragControls.objects st)) as Hobjs1.
  { unfold st1, ObjectDragControls.selectObject. cbn.
    by destruct (ObjectDragControls.cameraControls st). }
  assert (ObjectDragControls.meshes (ObjectDragControls.objects st1 object)
          = (λ m, (ObjectDragControls.highlight_mesh m mats).1) <$> ms)
    as Hmeshes1.
  { rewrite Hobjs1. unfold ObjectDragControls.store.
    by rewrite decide_True. }
  destruct (ObjectDragControls.handleObjectSelection key st1) as [st2|st2]
    eqn:Hsecond.
  2: { exfalso. revert Hsecond.
       unfold ObjectDragControls.handleObjectSelection.
       rewrite Hkey1, Hsel1, decide_True by done.
       unfold ObjectDragControls.deselectObject,
         ObjectDragControls.removeObjectHighlight.
       rewrite Hsel1, Hmeshes1, Hmats1, Hrestore. cbn.
       by destruct (ObjectDragControls.cameraControls st1). }
  assert (st2 = ObjectDragControls.set_cursor "default"
                  (let s := ObjectDragControls.set_selection None None false
                              (ObjectDragControls.set_materials M' st1) in
                   if ObjectDragControls.cameraControls s
                   then ObjectDragControls.set_cameraControls (Some true) s
                   else s)) as Hst2.
  { revert Hsecond. unfold ObjectDragControls.handleObjectSelection.
    rewrite Hkey1, Hsel1, decide_True by done.
    unfold ObjectDragControls.deselectObject,
      ObjectDragControls.removeObjectHighlight.
    rewrite Hsel1, Hmeshes1, Hmats1, Hrestore. cbn. by intros [= <-]. }
  assert (ObjectDragControls.materials st2 = M') as Hmats2.
  { rewrite Hst2. cbv zeta. by destruct (ObjectDragControls.cameraControls _). }
  assert (ObjectDragControls.objects st2 = ObjectDragControls.objects st1)
    as Hobjs2.
  { rewrite Hst2. cbv zeta. by destruct (ObjectDragControls.cameraControls _). }
  exists st1, st2. split_and!; try done.
  - intros j. by rewrite Hmats1, H2.
  - rewrite Hst2. cbv zeta. by destruct (ObjectDragControls.cameraControls _).
  - intros j. by rewrite Hmats2, HM'.
  - intros o. rewrite Hobjs2, Hobjs1. unfold ObjectDragControls.store.
    by case_decide; subst.
  - unfold restorable. rewrite Hobjs2, Hmeshes1, Hmats2. split.
    + rewrite <-list_fmap_compose.
      erewrite list_fmap_ext; [exact Hnd|].
      intros k m _. cbn. apply highlight_mesh_material.
    + apply Forall_fmap. eapply Forall_impl; [exact Hclean|].
      intros m Hm. cbn.
      destruct (clean_highlighted_mesh m mats Hm) as [Ha Hb].
      split; rewrite HM'; done.
Qed.

Lemma initialize_object_objects st obj :
  ObjectDragControls.objects (ObjectDragControls.initialize_object st obj)
  = ObjectDragControls.objects st.
Proof.
  unfold ObjectDragControls.initialize_object. destruct obj as [obj|]; [|done].
  destruct (ObjectDragControls.userData_name _) as [[name|]|]; [|done..].
  by case_decide.
Qed.

Lemma mapped_object_skip name old o oname es :
  oname ≠ Some name →
  from_option (String.prefix "Egg ") false oname = false →
  mapped_object name old ((o, oname) :: es) = mapped_object name old es.
Proof.
  intros Hne Hp. unfold mapped_object, called, numbered_eggs.
  rewrite !filter_cons. cbn [snd].
  rewrite decide_False by done. rewrite (decide_False (P := _ = true))
    by (by rewrite Hp). done.
Qed.

Lemma mapped_object_exact name old o es :
  mapped_object name old ((o, Some name) :: es)
  = mapped_object name (Some o) es.
Proof.
  unfold mapped_object, called. rewrite filter_cons. cbn [snd].
  rewrite decide_True by done. rewrite last_cons.
  destruct (last _); [done|]. by case_decide.
Qed.

Lemma mapped_object_egg old o s es :
  s ≠ "Egg" → String.prefix "Egg " s = true →
  mapped_object "Egg" old ((o, Some s) :: es)
  = mapped_object "Egg" (if old then old else Some o) es.
Proof.
  intros Hne Hp. unfold mapped_object, called, numbered_eggs.
  rewrite !filter_cons. cbn [snd from_option].
  rewrite decide_False by congruence. rewrite (decide_True (P := _ = true))
    by done.
  destruct (last _); [done|]. cbn. by destruct old.
Qed.

Lemma initialize_object_step st obj key name old :
  ObjectDragControls.objectMapping st !! key = Some (name, old) →
  name ≠ "" →
  let st' := ObjectDragControls.initialize_object st obj in
  ∃ old',
    ObjectDragControls.objectMapping st' !! key = Some (name, old') ∧
    ObjectDragControls.allObjects st'
      = ObjectDragControls.allObjects st
        ++ (draggable (ObjectDragControls.objects st) [obj]).*1 ∧
    ObjectDragControls.listening st' = ObjectDragControls.listening st ∧
    ∀ es,
      mapped_object name old
        (draggable (ObjectDragControls.objects st) [obj] ++ es)
      = mapped_object name old' es.
Proof.
  intros Hkey Hname. cbn zeta.
  unfold ObjectDragControls.initialize_object, draggable.
  cbn [omap list_omap].
  destruct obj as [obj|]; cbn [mbind option_bind].
  2: { exists old. by rewrite app_nil_r. }
  destruct (ObjectDragControls.userData_name (ObjectDragControls.objects st obj))
    as [[objectName|]|] eqn:Eud; cbn [fmap option_fmap option_map].
  - case_decide as Hempty.
    + subst objectName. exists old. cbn. split_and!; [done..|].
      intros es. apply mapped_object_skip; [congruence|done].
    + exists (ObjectDragControls.map_key objectName obj (name, old)).2.
      cbn. split_and!; [|done..|].
      * rewrite lookup_fmap, Hkey. cbn. f_equal.
        unfold ObjectDragControls.map_key. cbn.
        case_decide; [done|]. destruct (_ && _); [|done]. by destruct old.
      * intros es. unfold ObjectDragControls.map_key. cbn [fst snd].
        case_decide as Hn.
        { subst objectName. by rewrite mapped_object_exact. }
        destruct (bool_decide (name = "Egg")) eqn:Hegg.
        -- apply bool_decide_eq_true in Hegg. subst name. cbn [andb].
           destruct (String.prefix "Egg " objectName) eqn:Hp.
           ++ rewrite mapped_object_egg by (try done; congruence).
              by destruct old.
           ++ rewrite mapped_object_skip; [done|congruence|done].
        -- apply bool_decide_eq_false in Hegg. cbn [andb].
           unfold mapped_object, called. rewrite filter_cons. cbn [snd].
           rewrite decide_False by congruence. by rewrite !decide_False.
  - exists old. cbn. split_and!; [done..|].
    intros es. by apply mapped_object_skip.
  - exists old. by rewrite app_nil_r.
Qed.

Lemma draggable_cons objects obj l :
  draggable objects (obj :: l) = draggable objects [obj] ++ draggable objects l.
Proof. unfold draggable. cbn. by destruct (obj ≫= _). Qed.

Lemma foldl_initialize_mapping l st key name old :
  ObjectDragControls.objectMapping st !! key = Some (name, old) →
  name ≠ "" →
  let st' := foldl ObjectDragControls.initialize_object st l in
  ObjectDragControls.allObjects st'
    = ObjectDragControls.allObjects st
      ++ (draggable (ObjectDragControls.objects st) l).*1 ∧
  ObjectDragControls.listening st' = ObjectDragControls.listening st ∧
  ObjectDragControls.objectMapping st' !! key
    = Some (name,
            mapped_object name old (draggable (ObjectDragControls.objects st) l)).
Proof.
  intros Hkey Hname. cbn zeta. revert st old Hkey.
  induction l as [|obj l IH]; intros st old Hkey.
  - cbn. rewrite app_nil_r. split_and!; [done..|].
    rewrite Hkey. unfold mapped_object. cbn. by case_decide; destruct old.
  - cbn [foldl].
    destruct (initialize_object_step st obj key name old Hkey Hname)
      as (old' & Hkey' & Ha & Hl & Hm).
    destruct (IH _ old' Hkey') as (Ha' & Hl' & Hm').
    rewrite initialize_object_objects in Ha', Hm'.
    rewrite (draggable_cons _ obj l), Ha', Hl', Hm', Ha, Hl, Hm, fmap_app,
      app_assoc.
    done.
Qed.

(** X19.  After [initializeDragObjects], [allObjects] holds the elements
    of [foodObjects] that are objects with a [userData], in order.  A
    key whose name some of them have is mapped to the last of these.  A
    key whose name none of them has keeps the object it had before the
    call; only key 9, ['Egg'], takes in that case, if it had none, the
    first object whose name starts with ['Egg '], and an ['Egg Carton']
    is such an object. *)
Theorem initializeDragObjects_mapping (foodObjects : list (option nat))
    (st : ObjectDragControls.t) (key name : string) (old : option nat) :
  ObjectDragControls.objectMapping st !! key = Some (name, old) →
  name ≠ "" →
  let st' := ObjectDragControls.initializeDragObjects foodObjects st in
  let found := draggable (ObjectDragControls.objects st) foodObjects in
  ObjectDragControls.allObjects st' = found.*1 ∧
  ObjectDragControls.listening st' = true ∧
  ObjectDragControls.objectMapping st' !! key
    = Some (name, mapped_object name old found).
Proof.
  intros Hkey Hname. cbn zeta.
  unfold ObjectDragControls.initializeDragObjects.
  destruct (foldl_initialize_mapping foodObjects
              (ObjectDragControls.set_allObjects [] st) key name old)
    as (Ha & Hl & Hm); [done..|].
  cbn in *. by rewrite Ha, Hm.
Qed.

(** ** Taking objects out of the controls *)

Lemma deselectObject_Normal st st' :
  ObjectDragControls.deselectObject st = ObjectDragControls.Normal st' →
  ObjectDragControls.selectedObject st' = None ∧
  ObjectDragControls.isDragging st'
    = (if ObjectDragControls.selectedObject st then false
       else ObjectDragControls.isDragging st) ∧
  ObjectDragControls.allObjects st' = ObjectDragControls.allObjects st ∧
  ObjectDragControls.objectMapping st' = ObjectDragControls.objectMapping st ∧
  ObjectDragControls.listening st' = ObjectDragControls.listening st ∧
  ObjectDragControls.objects st' = ObjectDragControls.objects st.
Proof.
  unfold ObjectDragControls.deselectObject,
    ObjectDragControls.removeObjectHighlight.
  destruct (ObjectDragControls.selectedObject st) as [object|] eqn:E.
  - destruct (ObjectDragControls.restore_each _ _) as [mats []]; cbn; [done|].
    intros [= <-]. by destruct (ObjectDragControls.cameraControls st).
  - cbn. intros [= <-]. by destruct (ObjectDragControls.cameraControls st).
Qed.

Lemma indexOf_None object l :
  ObjectDragControls.indexOf object l = None ↔ object ∉ l.
Proof.
  induction l as [|x l IH]; cbn; [split; [intros _; apply not_elem_of_nil|done]|].
  case_decide as Hx.
  - subst. split; [done|]. intros []. by left.
  - destruct (ObjectDragControls.indexOf object l); cbn.
    + split; [done|]. intros Hn. exfalso. apply Hn. right.
      destruct (decide (object ∈ l)) as [|Hnot]; [done|].
      by apply IH in Hnot.
    + split; [|done]. intros _ [?|?]%elem_of_cons; [done|]. by apply IH.
Qed.

Lemma indexOf_Some object l index :
  ObjectDragControls.indexOf object l = Some index →
  ∃ l1 l2, l = l1 ++ object :: l2 ∧ object ∉ l1 ∧ delete index l = l1 ++ l2.
Proof.
  revert index. induction l as [|x l IH]; intros index; cbn; [done|].
  case_decide as Hx.
  - intros [= <-]. subst. exists [], l. split_and!; [done| |done].
    apply not_elem_of_nil.
  - destruct (ObjectDragControls.indexOf object l) as [i|]; [|done]. cbn.
    intros [= <-]. destruct (IH i eq_refl) as (l1 & l2 & -> & Hl1 & Hd).
    exists (x :: l1), l2. split_and!; [done| |].
    + by intros [?|?]%elem_of_cons.
    + change (x :: delete i (l1 ++ object :: l2) = x :: l1 ++ l2).
      by rewrite Hd.
Qed.

(** X20.  [removeDragObject] that returns, for an object of
    [allObjects]: the object is not selected afterwards, no key is
    mapped to it, and its first occurrence is gone from [allObjects];
    the keys of other objects are as they were.  For an object that is
    not in [allObjects] the call does nothing at all, even if the
    object is selected or a key was assigned to it. *)
Theorem removeDragObject_spec (object : nat) (st st' : ObjectDragControls.t) :
  ObjectDragControls.removeDragObject object st
    = ObjectDragControls.Normal st' →
  (object ∈ ObjectDragControls.allObjects st →
     ObjectDragControls.selectedObject st' ≠ Some object ∧
     (∀ key name,
        ObjectDragControls.objectMapping st' !! key
        ≠ Some (name, Some object)) ∧
     (∃ l1 l2,
        ObjectDragControls.allObjects st = l1 ++ object :: l2 ∧
        object ∉ l1 ∧ ObjectDragControls.allObjects st' = l1 ++ l2) ∧
     (∀ key name o, o ≠ Some object →
        ObjectDragControls.objectMapping st !! key = Some (name, o) →
        ObjectDragControls.objectMapping st' !! key = Some (name, o))) ∧
  (object ∉ ObjectDragControls.allObjects st → st' = st).
Proof.
  unfold ObjectDragControls.removeDragObject.
  destruct (ObjectDragControls.indexOf object _) as [index|] eqn:Ei.
  2: { intros [= <-]. split; [|done]. intros Hin.
       by apply indexOf_None in Ei. }
  intros Hr. split.
  2: { intros Hnot. apply indexOf_None in Hnot. congruence. }
  intros _. destruct (indexOf_Some _ _ _ Ei) as (l1 & l2 & Hl & Hl1 & Hd).
  assert (∃ st1,
    ObjectDragControls.selectedObject st1 ≠ Some object ∧
    ObjectDragControls.allObjects st1 = ObjectDragControls.allObjects st ∧
    ObjectDragControls.objectMapping st1 = ObjectDragControls.objectMapping st ∧
    ObjectDragControls.log_name object
      (ObjectDragControls.set_objectMapping
         (ObjectDragControls.unmap object <$>
            ObjectDragControls.objectMapping
              (ObjectDragControls.set_allObjects
                 (delete index (ObjectDragControls.allObjects st1)) st1))
         (ObjectDragControls.set_allObjects
            (delete index (ObjectDragControls.allObjects st1)) st1))
    = ObjectDragControls.Normal st') as (st1 & Hsel & Ha & Hm & Hlog).
  { case_decide as Hs.
    - destruct (ObjectDragControls.deselectObject st) as [st1|st1] eqn:Ed;
        [|done].
      apply deselectObject_Normal in Ed as (Hsel & _ & Ha & Hm & _).
      exists st1. by rewrite Hsel.
    - by exists st. }
  unfold ObjectDragControls.log_name in Hlog.
  destruct (ObjectDragControls.userData_name _); [|done].
  injection Hlog as <-. cbn. rewrite Ha, Hm. split_and!.
  - done.
  - intros key name. rewrite lookup_fmap.
    destruct (_ !! key) as [[nm ob]|]; cbn; [|done].
    unfold ObjectDragControls.unmap. cbn.
    destruct (decide (ob = Some object)) as [Hob|Hob]; [done|].
    intros [= -> ->]. by apply Hob.
  - exists l1, l2. by rewrite <-Hd.
  - intros key name ob Ho Hk. rewrite lookup_fmap, Hk. cbn.
    unfold ObjectDragControls.unmap. cbn. by rewrite decide_False.
Qed.

(** ** The test for a number key *)

Lemma number_key_shape key :
  ObjectDragControls.number_key key = true →
  key = "9" ∨
  ∃ c rest, key = String c rest ∧
    (49 ≤ Ascii.N_of_ascii c ≤ 56)%N.
Proof.
  unfold ObjectDragControls.number_key, String.leb.
  destruct key as [|c rest]; [done|]. cbn [String.compare].
  unfold Ascii.compare.
  repeat match goal with
  | |- context [Ascii.N_of_ascii (Ascii.Ascii ?a ?b ?c0 ?d ?e ?f ?g ?h)] =>
      let v := eval vm_compute in
        (Ascii.N_of_ascii (Ascii.Ascii a b c0 d e f g h)) in
      change (Ascii.N_of_ascii (Ascii.Ascii a b c0 d e f g h)) with v
  end.
  destruct (N.compare_spec 49 (Ascii.N_of_ascii c)) as [H1|H1|H1];
    destruct (N.compare_spec (Ascii.N_of_ascii c) 57) as [H2|H2|H2];
    try lia; destruct rest; cbn; try done; intros _;
    first [ left; f_equal; rewrite <-(Ascii.ascii_N_embedding c), H2;
            reflexivity
          | right; eexists _, _; split; [reflexivity|lia] ].
Qed.

Lemma initialMapping_keys key :
  is_Some (ObjectDragControls.initialMapping !! key) ↔
  key ∈ ["1"; "2"; "3"; "4"; "5"; "6"; "7"; "8"; "9"].
Proof.
  unfold ObjectDragControls.initialMapping. rewrite <-elem_of_dom.
  rewrite dom_list_to_map_L. cbn. set_solver.
Qed.

(** No key that passes the test for a number key names a property of
    [Object.prototype]. *)
Lemma number_key_inherited key :
  key ∈ ObjectDragControls.Object_prototype →
  ObjectDragControls.number_key key = false.
Proof.
  unfold ObjectDragControls.Object_prototype. intros H.
  repeat (apply elem_of_cons in H as [->|H]; [by vm_compute|]).
  by apply elem_of_nil in H.
Qed.

(** X21.  On controls made by the constructor and used in any way, the
    nine keys ['1'] to ['9'] pass the test for a number key and have a
    mapping.  The test compares strings, so it also lets pass every
    longer string that starts with a digit from 1 to 8; for such a key
    there is no mapping, and [handleObjectSelection], [onKeyDown] on
    enabled controls and [assignObjectToKey] with an object throw a
    [TypeError] and change nothing. *)
Theorem number_key_test
    (intersectPlane : float * float → float → Vector3.t)
    (cameraControls : option bool) (cursor : string)
    (objects : nat → ObjectDragControls.object)
    (materials : nat → ObjectDragControls.material)
    (cs : list ObjectDragControls.call) (key : string) :
  let st :=
    ObjectDragControls.run intersectPlane cs
      (ObjectDragControls.constructor cameraControls cursor objects materials)
  in
  ObjectDragControls.number_key key = true →
  (key ∈ ["1"; "2"; "3"; "4"; "5"; "6"; "7"; "8"; "9"] ∧
   is_Some (ObjectDragControls.objectMapping st !! key)) ∨
  ((∃ c rest, key = String c rest ∧ rest ≠ "" ∧
      (49 ≤ Ascii.N_of_ascii c ≤ 56)%N) ∧
   ObjectDragControls.handleObjectSelection key st
     = ObjectDragControls.Throw st ∧
   (ObjectDragControls.isEnabled st = true →
    ObjectDragControls.onKeyDown key st = ObjectDragControls.Throw st) ∧
   ∀ object,
     ObjectDragControls.assignObjectToKey key (Some object) st
     = ObjectDragControls.Throw st).
Proof.
  intros st Hkey.
  assert (coherent st) as Hst by apply coherent_run, coherent_constructor.
  pose proof (c_names _ Hst key) as Hnames.
  destruct (decide (key ∈ ["1"; "2"; "3"; "4"; "5"; "6"; "7"; "8"; "9"]))
    as [Hin|Hout].
  - left. split; [done|]. apply initialMapping_keys in Hin as [x Hx].
    rewrite Hx in Hnames.
    destruct (ObjectDragControls.objectMapping st !! key); [by eexists|done].
  - right.
    assert (ObjectDragControls.objectMapping st !! key = None) as Hnone.
    { destruct (ObjectDragControls.initialMapping !! key) as [x|] eqn:Ex.
      - destruct Hout. apply initialMapping_keys. by eexists.
      - by destruct (ObjectDragControls.objectMapping st !! key). }
    split_and!.
    + destruct (number_key_shape key Hkey) as [->|(c & rest & -> & Hc)].
      { destruct Hout. set_solver. }
      exists c, rest. split; [done|]. split; [|done].
      intros ->. apply Hout.
      rewrite <-(Ascii.ascii_N_embedding c).
      assert (Ascii.N_of_ascii c = 49 ∨ Ascii.N_of_ascii c = 50 ∨
              Ascii.N_of_ascii c = 51 ∨ Ascii.N_of_ascii c = 52 ∨
              Ascii.N_of_ascii c = 53 ∨ Ascii.N_of_ascii c = 54 ∨
              Ascii.N_of_ascii c = 55 ∨ Ascii.N_of_ascii c = 56)%N
        as Hor by lia.
      destruct Hor as [->|[->|[->|[->|[->|[->|[->| ->]]]]]]];
        vm_compute (Ascii.ascii_of_N _); set_solver.
    + unfold ObjectDragControls.handleObjectSelection. rewrite Hnone.
      rewrite bool_decide_eq_false_2; [done|].
      intros Hp%number_key_inherited. congruence.
    + intros He. unfold ObjectDragControls.onKeyDown,
        ObjectDragControls.handleObjectSelection.
      rewrite He, Hkey, Hnone.
      rewrite bool_decide_eq_false_2; [done|].
      intros Hp%number_key_inherited. congruence.
    + intros object. unfold ObjectDragControls.assignObjectToKey.
      by rewrite Hkey, Hnone.
Qed.

(** X22.  [dispose] that returns leaves nothing selected, no listener
    attached, [allObjects] empty and no key mapped.
    [getObjectMappingStatus] then reports every key as not mapped and,
    [null] being equal to [null], as selected. *)
Theorem dispose_status (st st' : ObjectDragControls.t) :
  ObjectDragControls.dispose st = ObjectDragControls.Normal st' →
  ObjectDragControls.selectedObject st' = None ∧
  ObjectDragControls.listening st' = false ∧
  ObjectDragControls.allObjects st' = [] ∧
  ∀ key name object,
    ObjectDragControls.objectMapping st !! key = Some (name, object) →
    ObjectDragControls.objectMapping st' !! key = Some (name, None) ∧
    ObjectDragControls.getObjectMappingStatus st' !! key
    = Some (name, false, true).
Proof.
  unfold ObjectDragControls.dispose. intros Hd.
  assert (∃ st1,
    ObjectDragControls.selectedObject st1 = None ∧
    ObjectDragControls.objectMapping st1 = ObjectDragControls.objectMapping st ∧
    st' = ObjectDragControls.set_objectMapping
            ((λ mapping : string * option nat, (mapping.1, None)) <$>
               ObjectDragControls.objectMapping st1)
            (ObjectDragControls.set_allObjects []
               (ObjectDragControls.set_listening false st1)))
    as (st1 & Hsel & Hm & ->).
  { destruct (ObjectDragControls.selectedObject st) eqn:E.
    - destruct (ObjectDragControls.deselectObject st) as [st1|st1] eqn:Ed;
        [|done].
      apply deselectObject_Normal in Ed as (Hsel & _ & _ & Hm & _).
      exists st1. cbn in Hd. by injection Hd as <-.
    - exists st. cbn in Hd. by injection Hd as <-. }
  cbn. split_and!; [done..|]. intros key name object Hk.
  unfold ObjectDragControls.getObjectMappingStatus. cbn.
  rewrite !lookup_fmap, Hm, Hk. cbn. rewrite Hsel. split; [done|].
  by rewrite (bool_decide_eq_true_2 (None = None)) by done.
Qed.

Lemma highlight_round_trip_witness :
  ∃ st1 st2,
    ObjectDragControls.handleObjectSelection "3" fridge
      = ObjectDragControls.Normal st1 ∧
    ObjectDragControls.handleObjectSelection "3" st1
      = ObjectDragControls.Normal st2 ∧
    ∀ j, ObjectDragControls.materials st2 j
         = ObjectDragControls.materials fridge j.
Proof.
  destruct (highlight_round_trip "3" "Egg Carton" 0 fridge)
    as (st1 & st2 & H1 & _ & _ & H2 & _ & H3 & _).
  - vm_compute. reflexivity.
  - reflexivity.
  - split.
    + apply NoDup_singleton.
    + apply Forall_singleton. split; [by left|]. intros H. discriminate H.
  - exists st1, st2. split_and!; assumption.
Defined.

Lemma initializeDragObjects_mapping_witness :
  mapped_object "Egg" None (draggable fridge_objects [Some 0; Some 1])
    = Some 0 ∧
  ObjectDragControls.objectMapping fridge !! "9" = Some ("Egg", Some 0).
Proof.
  split; [vm_compute; reflexivity|].
  refine (eq_trans
    (proj2 (proj2 (initializeDragObjects_mapping [Some 0; Some 1]
                     fresh_controls "9" "Egg" None _ _))) _).
  - vm_compute. reflexivity.
  - discriminate.
  - vm_compute. reflexivity.
Defined.

Lemma removeDragObject_spec_witness :
  0 ∈ ObjectDragControls.allObjects fridge ∧
  ∀ key name,
    ObjectDragControls.objectMapping
      (ObjectDragControls.state_of
         (ObjectDragControls.removeDragObject 0 fridge)) !! key
    ≠ Some (name, Some 0).
Proof.
  assert (0 ∈ ObjectDragControls.allObjects fridge) as Hin.
  { vm_compute. left. }
  split; [exact Hin|].
  refine (proj1 (proj2 (proj1
    (removeDragObject_spec 0 fridge
       (ObjectDragControls.state_of
          (ObjectDragControls.removeDragObject 0 fridge)) _) Hin))).
  vm_compute. reflexivity.
Defined.

Lemma number_key_test_witness :
  ObjectDragControls.number_key "10" = true ∧
  ObjectDragControls.assignObjectToKey "10" (Some 0)
    (ObjectDragControls.run no_raycast
       [ObjectDragControls.InitializeDragObjects [Some 0; Some 1]]
       fresh_controls)
  = ObjectDragControls.Throw
      (ObjectDragControls.run no_raycast
         [ObjectDragControls.InitializeDragObjects [Some 0; Some 1]]
         fresh_controls).
Proof.
  split; [reflexivity|].
  destruct (number_key_test no_raycast (Some true) "default" fridge_objects
              fridge_materials
              [ObjectDragControls.InitializeDragObjects [Some 0; Some 1]]
              "10" eq_refl) as [[Hin _]|(_ & _ & _ & H)].
  - exfalso. set_solver.
  - apply H.
Defined.

Lemma dispose_status_witness :
  ObjectDragControls.getObjectMappingStatus
    (ObjectDragControls.state_of (ObjectDragControls.dispose fridge)) !! "9"
  = Some ("Egg", false, true).
Proof.
  refine (proj2 (proj2 (proj2 (proj2
    (dispose_status fridge
       (ObjectDragControls.state_of (ObjectDragControls.dispose fridge)) _)))
    "9" "Egg" (Some 0) _)).
  - vm_compute. reflexivity.
  - vm_compute. reflexivity.
Defined.

(** ** Two meshes with one material *)

Lemma store_same {A} i (a : A) f : ObjectDragControls.store i a f i = a.
Proof. unfold ObjectDragControls.store. by rewrite decide_True. Qed.

Lemma highlight_fresh_mesh i c e mats :
  mats i = ObjectDragControls.Material (Some c) (Some e) →
  ObjectDragControls.highlight_mesh (ObjectDragControls.Mesh i None None) mats
  = (ObjectDragControls.Mesh i (Some c) (Some e),
     ObjectDragControls.store i
       (ObjectDragControls.Material (Some (Color.multiplyScalar c 1.3))
          (Some (Color.setRGB e 0.1 0.1 0.2))) mats).
Proof.
  intros H. unfold ObjectDragControls.highlight_mesh. cbn. by rewrite H.
Qed.

Lemma restore_kept_mesh i c e c' e' M :
  M i = ObjectDragControls.Material (Some c') (Some e') →
  ObjectDragControls.restore_mesh
    (ObjectDragControls.Mesh i (Some c) (Some e)) M
  = (ObjectDragControls.store i
       (ObjectDragControls.Material (Some c) (Some e)) M, false).
Proof.
  intros H. unfold ObjectDragControls.restore_mesh. cbn. by rewrite H.
Qed.

(** X23.  When the two meshes of an object have one material, taking
    the highlight off does not give the material its colours back: the
    second mesh has kept the colours that the first had already
    highlighted.  After the key of the object is pressed twice the
    material is 1.3 times brighter than it was and still glows. *)
Theorem shared_material_stays_highlighted (key name : string)
    (object i : nat) (c e : Color.t) (st : ObjectDragControls.t) :
  ObjectDragControls.objectMapping st !! key = Some (name, Some object) →
  ObjectDragControls.selectedObject st = None →
  ObjectDragControls.meshes (ObjectDragControls.objects st object)
    = [ObjectDragControls.Mesh i None None;
       ObjectDragControls.Mesh i None None] →
  ObjectDragControls.materials st i
    = ObjectDragControls.Material (Some c) (Some e) →
  ∃ st1 st2,
    ObjectDragControls.handleObjectSelection key st
      = ObjectDragControls.Normal st1 ∧
    ObjectDragControls.handleObjectSelection key st1
      = ObjectDragControls.Normal st2 ∧
    ObjectDragControls.selectedObject st2 = None ∧
    ObjectDragControls.materials st2 i
      = ObjectDragControls.Material
          (Some (Color.multiplyScalar c 1.3))
          (Some (Color.setRGB e 0.1 0.1 0.2)).
Proof.
  intros Hkey Hsel Hmeshes Hmat.
  set (st1 := ObjectDragControls.selectObject object key st).
  assert (ObjectDragControls.handleObjectSelection key st
          = ObjectDragControls.Normal st1) as Hfirst.
  { unfold ObjectDragControls.handleObjectSelection. rewrite Hkey, Hsel.
    by case_decide. }
  assert (ObjectDragControls.objectMapping st1 !! key
          = Some (name, Some object)) as Hkey1.
  { unfold st1, ObjectDragControls.selectObject. cbn.
    by destruct (ObjectDragControls.cameraControls st). }
  assert (ObjectDragControls.selectedObject st1 = Some object) as Hsel1.
  { unfold st1, ObjectDragControls.selectObject. cbn.
    by destruct (ObjectDragControls.cameraControls st). }
  set (ms := ObjectDragControls.meshes (ObjectDragControls.objects st object)).
  set (mats := ObjectDragControls.materials st).
  assert (ObjectDragControls.materials st1
          = (ObjectDragControls.highlight_each ms mats).2) as Hmats1.
  { unfold st1, ObjectDragControls.selectObject. cbn.
    by destruct (ObjectDragControls.cameraControls st). }
  assert (ObjectDragControls.meshes (ObjectDragControls.objects st1 object)
          = (ObjectDragControls.highlight_each ms mats).1) as Hmeshes1.
  { unfold st1, ObjectDragControls.selectObject. cbn.
    destruct (ObjectDragControls.cameraControls st); cbn;
      by rewrite store_same. }
  assert (∃ M',
    ObjectDragControls.restore_each
      (ObjectDragControls.highlight_each ms mats).1
      (ObjectDragControls.highlight_each ms mats).2 = (M', false) ∧
    M' i = ObjectDragControls.Material
             (Some (Color.multiplyScalar c 1.3))
             (Some (Color.setRGB e 0.1 0.1 0.2))) as (M' & Hrestore & HM').
  { unfold ms. rewrite Hmeshes.
    cbn [ObjectDragControls.highlight_each fst snd].
    rewrite (highlight_fresh_mesh i c e mats Hmat). cbn [fst snd].
    rewrite (highlight_fresh_mesh i (Color.multiplyScalar c 1.3)
               (Color.setRGB e 0.1 0.1 0.2)) by apply store_same.
    cbn [fst snd ObjectDragControls.restore_each].
    erewrite restore_kept_mesh by apply store_same. cbn [fst snd].
    erewrite restore_kept_mesh by apply store_same. cbn [fst snd].
    eexists. split; [reflexivity|]. by rewrite store_same. }
  destruct (ObjectDragControls.handleObjectSelection key st1) as [st2|st2]
    eqn:Hsecond.
  2: { exfalso. revert Hsecond.
       unfold ObjectDragControls.handleObjectSelection.
       rewrite Hkey1, Hsel1, decide_True by done.
       unfold ObjectDragControls.deselectObject,
         ObjectDragControls.removeObjectHighlight.
       rewrite Hsel1, Hmeshes1, Hmats1, Hrestore. cbn.
       by destruct (ObjectDragControls.cameraControls st1). }
  assert (st2 = ObjectDragControls.set_cursor "default"
                  (let s := ObjectDragControls.set_selection None None false
                              (ObjectDragControls.set_materials M' st1) in
                   if ObjectDragControls.cameraControls s
                   then ObjectDragControls.set_cameraControls (Some true) s
                   else s)) as Hst2.
  { revert Hsecond. unfold ObjectDragControls.handleObjectSelection.
    rewrite Hkey1, Hsel1, decide_True by done.
    unfold ObjectDragControls.deselectObject,
      ObjectDragControls.removeObjectHighlight.
    rewrite Hsel1, Hmeshes1, Hmats1, Hrestore. cbn. by intros [= <-]. }
  exists st1, st2. split_and!; [done..| |].
  - rewrite Hst2. cbv zeta. by destruct (ObjectDragControls.cameraControls _).
  - rewrite <-HM', Hst2. cbv zeta.
    by destruct (ObjectDragControls.cameraControls _).
Qed.

Lemma shared_material_stays_highlighted_witness :
  ∃ st1 st2,
    ObjectDragControls.handleObjectSelection "5" cheese
      = ObjectDragControls.Normal st1 ∧
    ObjectDragControls.handleObjectSelection "5" st1
      = ObjectDragControls.Normal st2 ∧
    ObjectDragControls.materials st2 7
      = ObjectDragControls.Material
          (Some (Color.multiplyScalar (Color.mk 0.5 0.25 0.125) 1.3))
          (Some (Color.setRGB (Color.mk 0 0 0) 0.1 0.1 0.2)).
Proof.
  destruct (shared_material_stays_highlighted "5" "Cheese" 0 7
              (Color.mk 0.5 0.25 0.125) (Color.mk 0 0 0) cheese)
    as (st1 & st2 & H1 & H2 & _ & H3).
  - vm_compute. reflexivity.
  - reflexivity.
  - reflexivity.
  - reflexivity.
  - exists st1, st2. split_and!; assumption.
Defined.

Lemma dispose_dispose l : dispose (dispose l) = dispose l.
Proof. done. Qed.

Lemma cleanup_fold look dispose_of optimizedLoader l items kept w :
  loader_registered look dispose_of optimizedLoader →
  w = l ∨ w = dispose l →
  let r := foldl (MemoryManager.cleanup_item look dispose_of) (kept, w) items in
  (r.2 = l ∨ r.2 = dispose l) ∧
  (w = dispose l → r.2 = dispose l) ∧
  ((∃ n, MemoryManager.Item optimizedLoader n ∈ items) → r.2 = dispose l) ∧
  (∀ n, MemoryManager.Item optimizedLoader n ∈ r.1 →
        MemoryManager.Item optimizedLoader n ∈ kept).
Proof.
  intros [Hf Hp Hd Ho]. cbn zeta. revert kept w.
  induction items as [|it items IH]; intros kept w Hw.
  - cbn. split_and!; try done. by intros [n ?%elem_of_nil].
  - cbn [foldl]. destruct it as [o name].
    destruct (decide (o = optimizedLoader)) as [->|Hne].
    + assert (MemoryManager.cleanup_item look dispose_of (kept, w)
                (MemoryManager.Item optimizedLoader name) = (kept, dispose w))
        as ->.
      { unfold MemoryManager.cleanup_item, MemoryManager.isObjectUnused.
        cbn [fst snd MemoryManager.object]. by rewrite Hf, Hp, Hd. }
      assert (dispose w = dispose l) as Hdw by (by destruct Hw as [->| ->]).
      destruct (IH kept (dispose w)) as (H1 & H2 & H3 & H4); [by right|].
      rewrite Hdw in *. split_and!; [done| | |done]; intros _; by apply H2.
    + assert (∃ kept',
        MemoryManager.cleanup_item look dispose_of (kept, w)
          (MemoryManager.Item o name) = (kept', w) ∧
        (∀ n, MemoryManager.Item optimizedLoader n ∈ kept' →
              MemoryManager.Item optimizedLoader n ∈ kept))
        as (kept' & -> & Hk).
      { unfold MemoryManager.cleanup_item. cbn [fst snd MemoryManager.object].
        pose proof (Ho o w Hne) as Hsame.
        destruct (_ && _).
        - destruct (dispose_of o w) as [w' threw]. cbn in *. subst w'.
          destruct threw; eexists; (split; [done|]); [|done].
          intros n [?|[=]%list_elem_of_singleton]%elem_of_app; done.
        - eexists. split; [done|].
          intros n [?|[=]%list_elem_of_singleton]%elem_of_app; done. }
      destruct (IH kept' w Hw) as (H1 & H2 & H3 & H4).
      split_and!; [done|done| |by intros n ?%H4%Hk].
      intros [n [[=]|Hin]%elem_of_cons]; [done|]. apply H3. by exists n.
Qed.

Lemma force_fold look dispose_of optimizedLoader l items w :
  loader_registered look dispose_of optimizedLoader →
  w = l ∨ w = dispose l →
  let w' := foldl (MemoryManager.force_item look dispose_of) w items in
  (w' = l ∨ w' = dispose l) ∧
  (w = dispose l → w' = dispose l) ∧
  ((∃ n, MemoryManager.Item optimizedLoader n ∈ items) → w' = dispose l).
Proof.
  intros [Hf Hp Hd Ho]. cbn zeta. revert w.
  induction items as [|it items IH]; intros w Hw.
  - cbn. split_and!; try done. by intros [n ?%elem_of_nil].
  - cbn [foldl]. destruct it as [o name].
    destruct (decide (o = optimizedLoader)) as [->|Hne].
    + assert (MemoryManager.force_item look dispose_of w
                (MemoryManager.Item optimizedLoader name) = dispose w) as ->.
      { unfold MemoryManager.force_item. cbn [MemoryManager.object].
        by rewrite Hf, Hd. }
      assert (dispose w = dispose l) as Hdw by (by destruct Hw as [->| ->]).
      destruct (IH (dispose w)) as (H1 & H2 & H3); [by right|].
      rewrite Hdw in *. split_and!; [done|..]; intros _; by apply H2.
    + assert (MemoryManager.force_item look dispose_of w
                (MemoryManager.Item o name) = w) as ->.
      { unfold MemoryManager.force_item. cbn [MemoryManager.object].
        destruct (MemoryManager.dispose_is_function _); [by apply Ho|done]. }
      destruct (IH w Hw) as (H1 & H2 & H3). split_and!; [done..|].
      intros [n [[=]|Hin]%elem_of_cons]; [done|]. apply H3. by exists n.
Qed.

Lemma tick_loader look dispose_of optimizedLoader l high m w :
  loader_registered look dispose_of optimizedLoader →
  w = l ∨ w = dispose l →
  let r := MemoryManager.tick look dispose_of high m w in
  (r.2 = l ∨ r.2 = dispose l) ∧
  (w = dispose l → r.2 = dispose l) ∧
  ((∃ n, MemoryManager.Item optimizedLoader n ∈ MemoryManager.disposables m) →
   r.2 = dispose l ∧
   ∀ n, MemoryManager.Item optimizedLoader n ∉ MemoryManager.disposables r.1).
Proof.
  intros Hreg Hw. cbn zeta.
  unfold MemoryManager.tick, MemoryManager.logMemoryUsage.
  destruct high.
  - unfold MemoryManager.forceCleanup, MemoryManager.cleanupUnused. cbn.
    destruct (force_fold look dispose_of optimizedLoader l
                (MemoryManager.disposables m) w Hreg Hw) as (H1 & H2 & H3).
    split_and!; [done..|]. intros Hin. split; [by apply H3|].
    by intros n ?%elem_of_nil.
  - unfold MemoryManager.cleanupUnused. cbn.
    destruct (cleanup_fold look dispose_of optimizedLoader l
                (MemoryManager.disposables m) [] w Hreg Hw)
      as (H1 & H2 & H3 & H4).
    split_and!; [done..|]. intros Hin. split; [by apply H3|].
    intros n Hn. by apply H4, elem_of_nil in Hn.
Qed.

(** X24.  The memory manager disposes the model loader that main.js
    registers with it.  The loader has no [parent], which is what
    [isObjectUnused] takes for unused; so the first run of the timer
    callback after [startMonitoring], whatever the memory usage, calls
    the [dispose] of the loader and takes it off the list: the cache,
    the table of loads in flight and [loadedModels] are empty
    afterwards, whatever was being loaded, while the scene and the
    counters are as before.  Later runs leave the loader as it is. *)
Theorem monitoring_disposes_the_loader
    (look : nat → loader → MemoryManager.view)
    (dispose_of : nat → loader → loader * bool) (optimizedLoader : nat)
    (high high' : bool) (m : MemoryManager.t) (l : loader) (name : string) :
  loader_registered look dispose_of optimizedLoader →
  MemoryManager.Item optimizedLoader name ∈ MemoryManager.disposables m →
  let r := MemoryManager.tick look dispose_of high m l in
  r.2 = dispose l ∧
  modelCache r.2 = ∅ ∧ loadingPromises r.2 = ∅ ∧ loadedModels r.2 = ∅ ∧
  scene r.2 = scene l ∧ loadingStats r.2 = loadingStats l ∧
  (∀ n, MemoryManager.Item optimizedLoader n
        ∉ MemoryManager.disposables r.1) ∧
  (MemoryManager.tick look dispose_of high' r.1 r.2).2 = r.2.
Proof.
  intros Hreg Hin. cbn zeta.
  destruct (tick_loader look dispose_of optimizedLoader l high m l Hreg)
    as (_ & _ & H3); [by left|].
  destruct H3 as [Hd Hgone]; [by exists name|].
  rewrite Hd. split_and!; try done.
  destruct (tick_loader look dispose_of optimizedLoader l high'
              (MemoryManager.tick look dispose_of high m l).1 (dispose l) Hreg)
    as (_ & H2 & _); [by right|].
  by apply H2.
Qed.

Lemma monitoring_disposes_the_loader_witness :
  modelCache (MemoryManager.tick page_look page_dispose false monitored stocked).2
  = ∅.
Proof.
  refine (proj1 (proj2 (monitoring_disposes_the_loader page_look page_dispose 1
    false false monitored stocked "Optimized Model Loader" _ _))).
  - split; intros; try reflexivity.
    unfold page_dispose. by rewrite decide_False.
  - vm_compute. right. left.
Defined.


(** * [ModelLoader]: the two tables *)

Section ModelLoader_tables.

Import ModelLoader.

Context {S : Type}.
Variable createModelInstance : nat → ModelConfig.t → S → S * outcome.

Local Abbreviation step := (ModelLoader.step createModelInstance).
Local Abbreviation run := (ModelLoader.run createModelInstance).
Local Abbreviation reachable := (ModelLoader.reachable createModelInstance).
Local Abbreviation world := (ModelLoader.world S).

Lemma ModelLoader_settle_length p s ps :
  length (ModelLoader.settle p s ps) = length ps.
Proof. unfold ModelLoader.settle. repeat case_match; by rewrite ?length_insert. Qed.

Lemma ModelLoader_settle_pending p s ps :
  ps !! p = Some None → ModelLoader.settle p s ps !! p = Some (Some s).
Proof.
  intros Hp. unfold ModelLoader.settle. rewrite Hp.
  apply list_lookup_insert_eq. by eapply lookup_lt_Some.
Qed.

Lemma ModelLoader_settle_other p s ps q :
  ps !! p = Some None → q ≠ p →
  ModelLoader.settle p s ps !! q = ps !! q.
Proof.
  intros Hp Hq. unfold ModelLoader.settle. rewrite Hp.
  by apply list_lookup_insert_ne.
Qed.

Lemma ModelLoader_init_ok (s : S) : ModelLoader.tables_ok (init s).
Proof.
  split; cbn; done.
Qed.

Lemma ModelLoader_quiet (w w' : world) :
  modelCache w' = modelCache w → loadingPromises w' = loadingPromises w →
  promises w' = promises w → requests w' = requests w →
  same_files (tasks w) (tasks w') →
  tables_ok w → tables_ok w'.
Proof.
  intros Hc Hl Hp Hr Hts [].
  split; rewrite ?Hc, ?Hl, ?Hp, ?Hr; try done.
  - intros tid a p Ha Hat. apply (Hts _ _ _ Hat) in Ha. eauto.
  - intros k p Hk. destruct (t_owned0 _ _ Hk) as (tid&a&Ha&Hat&?).
    exists tid, a. split_and!; [|done..]. by apply (Hts _ _ _ Hat).
  - intros t1 t2 a1 a2 p Ha1 Hat1 Ha2 Hat2.
    apply (Hts _ _ _ Hat1) in Ha1. apply (Hts _ _ _ Hat2) in Ha2. eauto.
Qed.

Lemma ModelLoader_files_snoc ts a :
  (∀ p, at_ a ≠ AwaitFile p) → same_files ts (ts ++ [a]).
Proof.
  intros Hne tid b p Hat. split.
  - intros [?|[_ [_ <-]%list_lookup_singleton_Some]]%lookup_app_Some; [done|].
    by destruct (Hne p).
  - intros Hb. by apply lookup_app_l_Some.
Qed.

Lemma ModelLoader_files_insert ts t a b :
  ts !! t = Some a → (∀ p, at_ a ≠ AwaitFile p) → (∀ p, at_ b ≠ AwaitFile p) →
  same_files ts (<[t := b]> ts).
Proof.
  intros Ha Hna Hnb tid c p Hat.
  destruct (decide (tid = t)) as [->|Hne].
  - rewrite list_lookup_insert_eq by by eapply lookup_lt_Some.
    rewrite Ha. split; intros [= <-]; [by destruct (Hnb p)|by destruct (Hna p)].
  - by rewrite list_lookup_insert_ne.
Qed.

Lemma ModelLoader_instantiate_ok g cfg (w : world) :
  let r := instantiate createModelInstance g cfg w in
  modelCache r.1 = modelCache w ∧ loadingPromises r.1 = loadingPromises w ∧
  promises r.1 = promises w ∧ requests r.1 = requests w ∧
  tasks r.1 = tasks w ∧ ∃ o, r.2 = Settled o.
Proof. cbn. split_and!; [done..|by eexists]. Qed.

Lemma ModelLoader_owner_bound (w : world) tid a p :
  tables_ok w → tasks w !! tid = Some a → at_ a = AwaitFile p →
  p < length (promises w).
Proof.
  intros Hw Ha Hat. destruct (t_owner _ Hw _ _ _ Ha Hat) as (_&r&Hr&_).
  rewrite (t_lengths _ Hw). by eapply lookup_lt_Some.
Qed.

(** A call that finds its path in neither table. *)
Lemma ModelLoader_file_ok cfg (w : world) :
  tables_ok w →
  modelCache w !! ModelConfig.path cfg = None →
  loadingPromises w !! ModelConfig.path cfg = None →
  tables_ok
    (World (modelCache w)
       (<[ModelConfig.path cfg := length (promises w)]> (loadingPromises w))
       (rest w) (promises w ++ [None])
       (requests w ++ [Request (ModelConfig.path cfg) (length (promises w)) false])
       (tasks w ++ [Activation cfg (AwaitFile (length (promises w)))])).
Proof.
  intros Hw Hc Hl. pose proof (t_lengths _ Hw) as Hlen.
  set (k := ModelConfig.path cfg). set (p := length (promises w)).
  assert (∀ tid a q, tasks w !! tid = Some a → at_ a = AwaitFile q → q ≠ p)
    as Hfresh.
  { intros tid a q Ha Hat.
    pose proof (ModelLoader_owner_bound _ _ _ _ Hw Ha Hat). unfold p. lia. }
  split; cbn [modelCache loadingPromises promises requests tasks].
  - rewrite !length_app. cbn. lia.
  - intros rid r [[_ ?]|[-> <-]]%lookup_snoc_Some; [by eapply t_request|].
    cbn. unfold p. lia.
  - intros rid r [[Hlt Hr]|[-> <-]]%lookup_snoc_Some.
    + rewrite lookup_app_l by lia. by apply (t_answered _ Hw).
    + cbn. rewrite <-Hlen. rewrite lookup_app_r, Nat.sub_diag by done. done.
  - intros k' q [[<- <-]|[Hne Hq]]%lookup_insert_Some; [done|].
    by eapply t_exclusive.
  - intros tid a q [[_ Ha]|[-> <-]]%lookup_snoc_Some Hat.
    + destruct (t_owner _ Hw _ _ _ Ha Hat) as (Hq&r&Hr&Hurl).
      split.
      * rewrite lookup_insert_ne; [done|]. intros Heq. unfold k in Heq.
        rewrite Heq in Hl. congruence.
      * exists r. split; [|done]. by apply lookup_app_l_Some.
    + cbn in Hat. injection Hat as <-. cbn [call]. split.
      * by rewrite lookup_insert_eq.
      * exists (Request k p false). split; [|done]. unfold p. rewrite Hlen.
        by rewrite lookup_app_r, Nat.sub_diag.
  - intros k' q [[<- <-]|[Hne Hq]]%lookup_insert_Some.
    + exists (length (tasks w)), (Activation cfg (AwaitFile p)).
      split_and!; [|done..]. by rewrite lookup_app_r, Nat.sub_diag.
    + destruct (t_owned _ Hw _ _ Hq) as (tid&a&Ha&Hat&Hk).
      exists tid, a. split_and!; [|done..]. by apply lookup_app_l_Some.
  - intros t1 t2 a1 a2 q [[_ Ha1]|[-> <-]]%lookup_snoc_Some Hat1
      [[_ Ha2]|[-> <-]]%lookup_snoc_Some Hat2.
    + by eapply (t_unique _ Hw).
    + cbn in Hat2. injection Hat2 as <-. by destruct (Hfresh _ _ _ Ha1 Hat1).
    + cbn in Hat1. injection Hat1 as <-. by destruct (Hfresh _ _ _ Ha2 Hat2).
    + done.
Qed.

(** The owner of an entry of [loadingPromises] leaves line 466: the
    entry is deleted; the path is cached or not. *)
Lemma ModelLoader_release_ok (w : world) t a p cache' (s' : S) o :
  tables_ok w → tasks w !! t = Some a → at_ a = AwaitFile p →
  (∀ k', k' ≠ ModelConfig.path (call a) → cache' !! k' = modelCache w !! k') →
  tables_ok
    (World cache' (delete (ModelConfig.path (call a)) (loadingPromises w)) s'
       (promises w) (requests w)
       (<[t := Activation (call a) (Settled o)]> (tasks w))).
Proof.
  intros Hw Ha Hat Hcache. set (k := ModelConfig.path (call a)).
  destruct (t_owner _ Hw _ _ _ Ha Hat) as (Hk&_).
  assert (∀ tid b q, tasks w !! tid = Some b → at_ b = AwaitFile q →
            tid ≠ t → ModelConfig.path (call b) ≠ k) as Hother.
  { intros tid b q Hb Hbt Hne Heq.
    destruct (t_owner _ Hw _ _ _ Hb Hbt) as (Hq&_). rewrite Heq in Hq.
    fold k in Hk. assert (q = p) as -> by congruence.
    apply Hne. by eapply (t_unique _ Hw). }
  assert (∀ tid b q,
            <[t := Activation (call a) (Settled o)]> (tasks w) !! tid = Some b →
            at_ b = AwaitFile q → tid ≠ t ∧ tasks w !! tid = Some b) as Hold.
  { intros tid b q [(_&<-&_)|[? ?]]%list_lookup_insert_Some Hbt; done. }
  split; cbn [modelCache loadingPromises promises requests tasks].
  - apply Hw.
  - apply Hw.
  - apply Hw.
  - intros k' q [Hne Hq]%lookup_delete_Some.
    rewrite Hcache by done. by eapply t_exclusive.
  - intros tid b q Hb Hbt. destruct (Hold _ _ _ Hb Hbt) as [Hne Hb'].
    destruct (t_owner _ Hw _ _ _ Hb' Hbt) as (Hq&Hr). split; [|done].
    rewrite lookup_delete_ne; [done|]. intros Heq.
    by eapply Hother.
  - intros k' q [Hne Hq]%lookup_delete_Some.
    destruct (t_owned _ Hw _ _ Hq) as (tid&b&Hb&Hbt&Hbk).
    exists tid, b. split_and!; [|done..].
    rewrite list_lookup_insert_ne; [done|]. intros <-.
    assert (b = a) as -> by congruence. by apply Hne.
  - intros t1 t2 a1 a2 q Ha1 Hat1 Ha2 Hat2.
    destruct (Hold _ _ _ Ha1 Hat1) as [_ ?].
    destruct (Hold _ _ _ Ha2 Hat2) as [_ ?].
    by eapply (t_unique _ Hw).
Qed.

(** A request is answered. *)
Lemma ModelLoader_answer_ok (w : world) rid req s :
  tables_ok w → requests w !! rid = Some req → answered req = false →
  tables_ok (answer rid req s w).
Proof.
  intros Hw Hreq Hans.
  pose proof (t_request _ Hw _ _ Hreq) as Hlp.
  pose proof (proj1 (t_answered _ Hw _ _ Hreq) Hans) as Hp.
  unfold answer. rewrite Hlp.
  split; cbn [modelCache loadingPromises promises requests tasks];
    try apply Hw.
  - rewrite ModelLoader_settle_length, length_alter. apply Hw.
  - intros rid' r Hr. destruct (decide (rid' = rid)) as [->|Hne].
    + rewrite list_lookup_alter_eq, Hreq in Hr. by injection Hr as <-.
    + rewrite list_lookup_alter_ne in Hr by done. by eapply t_request.
  - intros rid' r Hr. destruct (decide (rid' = rid)) as [->|Hne].
    + rewrite list_lookup_alter_eq, Hreq in Hr. injection Hr as <-. cbn.
      rewrite ModelLoader_settle_pending by done. split; discriminate.
    + rewrite list_lookup_alter_ne in Hr by done.
      rewrite ModelLoader_settle_other by done. by apply (t_answered _ Hw).
  - intros tid a p Ha Hat.
    destruct (t_owner _ Hw _ _ _ Ha Hat) as (Hq&r&Hr&Hurl). split; [done|].
    destruct (decide (p = rid)) as [->|Hne].
    + eexists. rewrite list_lookup_alter_eq, Hr. split; [done|]. done.
    + exists r. by rewrite list_lookup_alter_ne.
Qed.

Lemma ModelLoader_open_request (w : world) rid req :
  open_request rid w = Some req ↔
  requests w !! rid = Some req ∧ answered req = false.
Proof.
  unfold open_request. destruct (requests w !! rid) as [r|]; cbn.
  - destruct (answered r) eqn:Hans; split.
    + done.
    + intros [[= <-] ?]. congruence.
    + by intros [= <-].
    + by intros [[= <-] ?].
  - split; [done|]. by intros [? ?].
Qed.

Lemma ModelLoader_step_ok e (w w' : world) :
  tables_ok w → step e w = Some w' → tables_ok w'.
Proof.
  intros Hw. destruct e as [cfg|t|rid|rid error]; cbn [ModelLoader.step].
  - intros Heq. apply (inj Some) in Heq as <-. unfold loadModel.
    destruct (modelCache w !! ModelConfig.path cfg) as [g|] eqn:Hc;
      [|destruct (loadingPromises w !! ModelConfig.path cfg) as [p|] eqn:Hl].
    + apply (ModelLoader_quiet w); [done..| |done].
      by apply ModelLoader_files_snoc.
    + apply (ModelLoader_quiet w); [done..| |done].
      by apply ModelLoader_files_snoc.
    + exact (ModelLoader_file_ok cfg w Hw Hc Hl).
  - destruct (tasks w !! t) as [a|] eqn:Ha; [|done]. cbn [mbind option_bind].
    unfold resume. destruct (at_ a) as [p|p|o] eqn:Hat; [| |done].
    + destruct (promises w !! p) as [[[g|error]|]|]; try done;
        cbn [mbind option_bind]; intros Heq; apply (inj Some) in Heq as <-;
        (apply (ModelLoader_quiet w); [done..| |done]);
        (eapply ModelLoader_files_insert; [done| |done]);
        intros q; by rewrite Hat.
    + destruct (promises w !! p) as [[[g|error]|]|]; try done;
        cbn [mbind option_bind]; intros Heq; apply (inj Some) in Heq as <-.
      * cbn [store_and_instantiate fst snd modelCache loadingPromises rest
               promises requests tasks].
        assert (∀ m : gmap string nat,
                  match (createModelInstance g (call a) (rest w)).2 with
                  | Returned _ => delete (ModelConfig.path (call a)) m
                  | Threw _ =>
                      delete (ModelConfig.path (call a))
                        (delete (ModelConfig.path (call a)) m)
                  end = delete (ModelConfig.path (call a)) m) as ->.
        { intros m. destruct (_.2); [done|apply delete_delete_eq]. }
        eapply ModelLoader_release_ok; [done..|].
        intros k' Hne. by rewrite lookup_insert_ne.
      * cbn [fst snd modelCache loadingPromises rest promises requests tasks].
        by eapply ModelLoader_release_ok.
  - destruct (open_request rid w) as [req|] eqn:Hreq; [|done].
    apply ModelLoader_open_request in Hreq as [? ?].
    cbn [mbind option_bind]. intros Heq. apply (inj Some) in Heq as <-.
    by apply ModelLoader_answer_ok.
  - destruct (open_request rid w) as [req|] eqn:Hreq; [|done].
    apply ModelLoader_open_request in Hreq as [? ?].
    cbn [mbind option_bind]. intros Heq. apply (inj Some) in Heq as <-.
    by apply ModelLoader_answer_ok.
Qed.

Lemma ModelLoader_reachable_ok (s : S) (w : world) :
  reachable s w → tables_ok w.
Proof.
  intros [es Hrun]. revert Hrun.
  generalize (ModelLoader_init_ok s). generalize (init s).
  induction es as [|e es IH]; intros v Hv Hrun.
  - by apply (inj Some) in Hrun as <-.
  - cbn [ModelLoader.run] in Hrun.
    destruct (step e v) as [v1|] eqn:Hstep; [|done].
    apply (IH v1); [by eapply ModelLoader_step_ok|done].
Qed.

(** X10.  In [ModelLoader] the two tables never hold the same path, in
    any reachable state: the continuation after line 466 caches the asset
    and deletes the entry of [loadingPromises] without an [await] in
    between.  A cached path stays cached, with the same asset; an entry
    of [loadingPromises] goes only when its promise has settled, and then
    the path is cached if the promise was fulfilled and uncached if it
    was rejected. *)
Theorem ModelLoader_lifecycle (s : S) (w : world) :
  reachable s w →
  exclusive w ∧
  ∀ e w' k, step e w = Some w' →
    (∀ g, modelCache w !! k = Some g → modelCache w' !! k = Some g) ∧
    (∀ p, loadingPromises w !! k = Some p →
       loadingPromises w' !! k = Some p ∨
       loadingPromises w' !! k = None ∧
       match promises w !! p with
       | Some (Some (Fulfilled g)) => modelCache w' !! k = Some g
       | Some (Some (Rejected _)) => modelCache w' !! k = None
       | _ => False
       end).
Proof.
  intros Hw%ModelLoader_reachable_ok. split.
  - intros k. destruct (loadingPromises w !! k) as [p|] eqn:Hk; [|by right].
    left. by eapply t_exclusive.
  - intros e w' k Hstep.
    destruct e as [cfg|t|rid|rid error]; cbn [ModelLoader.step] in Hstep.
    + apply (inj Some) in Hstep as <-. unfold loadModel.
      destruct (modelCache w !! ModelConfig.path cfg) as [g|] eqn:Hc;
        [|destruct (loadingPromises w !! ModelConfig.path cfg) as [p|] eqn:Hl];
        cbn; (split; [done|]); intros p' Hp'; left; [done..|].
      rewrite lookup_insert_ne; [done|]. intros <-. congruence.
    + destruct (tasks w !! t) as [a|] eqn:Ha; [|done].
      cbn [mbind option_bind] in Hstep.
      unfold resume in Hstep. destruct (at_ a) as [p|p|o] eqn:Hat; [| |done].
      * destruct (promises w !! p) as [[[g|error]|]|]; try done;
          cbn [mbind option_bind] in Hstep; apply (inj Some) in Hstep as <-;
          cbn; (split; [done|]); intros p' Hp'; by left.
      * destruct (t_owner _ Hw _ _ _ Ha Hat) as (Hown&_).
        pose proof (t_exclusive _ Hw _ _ Hown) as Hnone.
        destruct (promises w !! p) as [[[g|error]|]|] eqn:Hp; try done;
          cbn [mbind option_bind] in Hstep; apply (inj Some) in Hstep as <-;
          cbn [store_and_instantiate fst snd modelCache loadingPromises].
        -- split.
           ++ intros g' Hg'. rewrite lookup_insert_ne; [done|].
              intros <-. congruence.
           ++ intros p' Hp'.
              destruct (decide (k = ModelConfig.path (call a))) as [->|Hne].
              ** right. assert (p' = p) as -> by congruence. rewrite Hp.
                 split; [|by rewrite lookup_insert_eq].
                 destruct (_.2); by rewrite ?delete_delete_eq, lookup_delete_eq.
              ** left. destruct (_.2);
                   by rewrite ?delete_delete_eq, lookup_delete_ne.
        -- split; [done|]. intros p' Hp'.
           destruct (decide (k = ModelConfig.path (call a))) as [->|Hne].
           ++ right. assert (p' = p) as -> by congruence. rewrite Hp.
              split; [by rewrite lookup_delete_eq|done].
           ++ left. by rewrite lookup_delete_ne.
    + destruct (open_request rid w) as [req|]; [|done].
      cbn [mbind option_bind] in Hstep. apply (inj Some) in Hstep as <-.
      cbn. split; [done|]. intros p' Hp'. by left.
    + destruct (open_request rid w) as [req|]; [|done].
      cbn [mbind option_bind] in Hstep. apply (inj Some) in Hstep as <-.
      cbn. split; [done|]. intros p' Hp'. by left.
Qed.

(** X11.  In [ModelLoader] a load that fails: [onError] rejects the promise;
    the activation suspended at line 466 resumes in the [catch] block,
    deletes the entry of its path from [loadingPromises] and rethrows;
    nothing is cached; the next [loadModel] of that path starts a new
    request. *)
Theorem ModelLoader_cleanup (s : S) (w : world) (tid : nat)
    (cfg again : ModelConfig.t) (p : nat) (error : string) :
  reachable s w →
  tasks w !! tid = Some (Activation cfg (AwaitFile p)) →
  promises w !! p = Some None →
  ModelConfig.path again = ModelConfig.path cfg →
  ∃ w0 w1 w2,
    step (OnError p error) w = Some w0 ∧
    step (Resume tid) w0 = Some w1 ∧
    step (Call again) w1 = Some w2 ∧
    tasks w1 !! tid = Some (Activation cfg (Settled (Threw error))) ∧
    loadingPromises w0 !! ModelConfig.path cfg = Some p ∧
    loadingPromises w1 = delete (ModelConfig.path cfg) (loadingPromises w) ∧
    modelCache w !! ModelConfig.path cfg = None ∧
    modelCache w1 = modelCache w ∧
    requests w2 = requests w1 ++
      [Request (ModelConfig.path cfg) (length (promises w1)) false] ∧
    tasks w2 = tasks w1 ++
      [Activation again (AwaitFile (length (promises w1)))].
Proof.
  intros Hw%ModelLoader_reachable_ok Ha Hp Hagain.
  destruct (t_owner _ Hw _ _ _ Ha eq_refl) as (Hown&req&Hreq&Hurl).
  cbn [call] in Hown, Hurl.
  pose proof (t_exclusive _ Hw _ _ Hown) as Hnone.
  pose proof (t_request _ Hw _ _ Hreq) as Hlp.
  assert (answered req = false) as Hans by by apply (t_answered _ Hw _ _ Hreq).
  assert (open_request p w = Some req) as Hopen
    by by apply ModelLoader_open_request.
  set (w0 := answer p req (Rejected error) w).
  assert (promises w0 !! p = Some (Some (Rejected error))) as Hp0.
  { cbn. rewrite Hlp. by apply ModelLoader_settle_pending. }
  set (w1 := World (modelCache w)
               (delete (ModelConfig.path cfg) (loadingPromises w))
               (rest w) (promises w0) (requests w0)
               (<[tid := Activation cfg (Settled (Threw error))]> (tasks w))).
  assert (step (Resume tid) w0 = Some w1) as H1.
  { cbn [ModelLoader.step]. change (tasks w0) with (tasks w). rewrite Ha.
    cbn [mbind option_bind]. unfold resume. cbn [call at_]. rewrite Hp0.
    done. }
  exists w0, w1. eexists. split_and!.
  - cbn [ModelLoader.step]. by rewrite Hopen.
  - exact H1.
  - cbn [ModelLoader.step]. reflexivity.
  - cbn. apply list_lookup_insert_eq. by eapply lookup_lt_Some.
  - done.
  - done.
  - done.
  - done.
  - unfold loadModel. rewrite Hagain. cbn [modelCache loadingPromises w1].
    rewrite Hnone, lookup_delete_eq. cbn. by rewrite Hagain.
  - unfold loadModel. rewrite Hagain. cbn [modelCache loadingPromises w1].
    rewrite Hnone, lookup_delete_eq. done.
Qed.

End ModelLoader_tables.

(** * [ModelLoader]: one request for concurrent calls *)

Section ModelLoader_calls.

Import ModelLoader.

Context {St : Type}.
Variable createModelInstance : nat → ModelConfig.t → St → St * outcome.

Local Abbreviation step := (ModelLoader.step createModelInstance).
Local Abbreviation run := (ModelLoader.run createModelInstance).
Local Abbreviation reachable := (ModelLoader.reachable createModelInstance).
Local Abbreviation world := (ModelLoader.world St).

Lemma ModelLoader_run_app es1 es2 (w : world) :
  run (es1 ++ es2) w = w' ← run es1 w; run es2 w'.
Proof.
  revert w. induction es1 as [|e es1 IH]; intros w; [done|].
  cbn [app ModelLoader.run]. destruct (step e w) as [w1|]; [apply IH|done].
Qed.

(** Calls for a path that is being loaded wait for its promise and
    change nothing else. *)
Lemma ModelLoader_calls_wait k p others (w : world) :
  modelCache w !! k = None → loadingPromises w !! k = Some p →
  Forall (λ c, ModelConfig.path c = k) others →
  run (Call <$> others) w =
    Some (World (modelCache w) (loadingPromises w) (rest w) (promises w)
            (requests w)
            (tasks w ++ ((λ c, Activation c (AwaitLoading p)) <$> others))).
Proof.
  intros Hc Hl Hall. revert w Hc Hl.
  induction Hall as [|c others Hk _ IH]; intros w Hc Hl.
  - cbn. rewrite app_nil_r. by destruct w.
  - cbn [fmap list_fmap ModelLoader.run ModelLoader.step].
    unfold loadModel. rewrite Hk, Hc, Hl. cbn [mbind option_bind fst snd].
    rewrite IH by done. cbn. by rewrite <-app_assoc.
Qed.

(** The callers that wait for promise [p], resumed one after the other
    once it has settled. *)
Lemma ModelLoader_waiters_resume r p cs :
  ∀ pre cache pending (s : St) ps rs,
    ps !! p = Some (Some r) →
    run (Resume <$> seq (length pre) (length cs))
      (World cache pending s ps rs
         (pre ++ ((λ c, Activation c (AwaitLoading p)) <$> cs))) =
      Some (World cache pending
              (settle_each createModelInstance r cs s).1 ps rs
              (pre ++ (settle_each createModelInstance r cs s).2)).
Proof.
  induction cs as [|c cs IH]; intros pre cache pending s ps rs Hp; [done|].
  cbn [length seq fmap list_fmap ModelLoader.run ModelLoader.step tasks].
  rewrite list_lookup_middle by done. cbn [mbind option_bind].
  unfold resume. cbn [call at_ promises]. rewrite Hp.
  assert (∀ x : activation,
            <[length pre := x]>
              (pre ++ Activation c (AwaitLoading p)
                 :: ((λ c, Activation c (AwaitLoading p)) <$> cs))
            = (pre ++ [x]) ++ ((λ c, Activation c (AwaitLoading p)) <$> cs))
    as Hins.
  { intros x. rewrite insert_app_r_alt, Nat.sub_diag by done. cbn.
    by rewrite <-app_assoc. }
  assert (∀ x : activation, S (length pre) = length (pre ++ [x])) as Hlen.
  { intros x. rewrite length_app. cbn. lia. }
  destruct r as [g|e]; cbn [mbind option_bind instantiate fst snd
    modelCache loadingPromises rest promises requests tasks call];
    rewrite Hins; erewrite Hlen; rewrite IH by done;
    cbn [settle_each settled_with fst snd]; by rewrite <-app_assoc.
Qed.

Lemma ModelLoader_settle_last r ps :
  settle (length ps) r (ps ++ [None]) = ps ++ [Some r].
Proof.
  unfold settle. rewrite lookup_app_r, Nat.sub_diag by done. cbn.
  rewrite insert_app_r_alt, Nat.sub_diag by done. done.
Qed.

(** X9.  [ModelLoader.loadModel] called several times for a path that
    is neither cached nor being loaded, before the file has arrived:
    the first call makes the one request and puts its promise into
    [loadingPromises] before it suspends; the others find it there and
    wait.  When the request is answered and the callers resume, the
    entry is deleted, the path is cached if and only if the file
    arrived, and every caller settles with what [createModelInstance]
    makes of that one asset, or with the error of the loader. *)
Theorem ModelLoader_one_fetch (s : St) (w : world) (first : ModelConfig.t)
    (others : list ModelConfig.t) :
  let k := ModelConfig.path first in
  let p := length (promises w) in
  let t0 := length (tasks w) in
  reachable s w →
  modelCache w !! k = None → loadingPromises w !! k = None →
  Forall (λ c, ModelConfig.path c = k) others →
  ∃ w',
    run (Call first :: (Call <$> others)) w = Some w' ∧
    requests w' = requests w ++ [Request k p false] ∧
    loadingPromises w' !! k = Some p ∧
    tasks w' = tasks w ++ Activation first (AwaitFile p)
                 :: ((λ c, Activation c (AwaitLoading p)) <$> others) ∧
    ∀ reply r,
      reply = OnLoad p ∧ r = Fulfilled p ∨
      (∃ error, reply = OnError p error ∧ r = Rejected error) →
      ∃ w'',
        run (reply :: (Resume <$> seq t0 (Datatypes.S (length others)))) w'
          = Some w'' ∧
        length (requests w'') = Datatypes.S (length (requests w)) ∧
        loadingPromises w'' !! k = None ∧
        modelCache w'' !! k
          = match r with Fulfilled gltf => Some gltf | Rejected _ => None end ∧
        rest w'' = (settle_each createModelInstance r (first :: others) (rest w)).1 ∧
        tasks w''
          = tasks w ++
              (settle_each createModelInstance r (first :: others) (rest w)).2.
Proof.
  intros k p t0 Hw%ModelLoader_reachable_ok Hc Hl Hall.
  pose proof (t_lengths _ Hw) as Hlen.
  set (w1 := World (modelCache w) (<[k := p]> (loadingPromises w)) (rest w)
               (promises w ++ [None]) (requests w ++ [Request k p false])
               (tasks w ++ [Activation first (AwaitFile p)])).
  assert (step (Call first) w = Some w1) as H1.
  { cbn [ModelLoader.step]. unfold loadModel. fold k. by rewrite Hc, Hl. }
  pose proof (ModelLoader_calls_wait k p others w1 Hc
                (lookup_insert_eq _ _ _) Hall) as Hrun.
  cbn [modelCache loadingPromises rest promises requests tasks w1] in Hrun.
  rewrite <-app_assoc in Hrun. cbn [app] in Hrun.
  eexists. split_and!.
  - cbn [ModelLoader.run]. rewrite H1. cbn [mbind option_bind]. exact Hrun.
  - done.
  - cbn. apply lookup_insert_eq.
  - done.
  - intros reply r Hans.
    set (waiting := (λ c, Activation c (AwaitLoading p)) <$> others).
    set (w' := World (modelCache w) (<[k := p]> (loadingPromises w)) (rest w)
                 (promises w ++ [None]) (requests w ++ [Request k p false])
                 (tasks w ++ Activation first (AwaitFile p) :: waiting)).
    assert (open_request p w' = Some (Request k p false)) as Hopen.
    { unfold open_request. cbn [requests w'].
      unfold p at 1. rewrite Hlen, lookup_app_r, Nat.sub_diag by done. done. }
    set (w2 := World (modelCache w) (<[k := p]> (loadingPromises w)) (rest w)
                 (promises w ++ [Some r])
                 (alter (λ r, Request (url r) (loadingPromise r) true) p
                    (requests w ++ [Request k p false]))
                 (tasks w ++ Activation first (AwaitFile p) :: waiting)).
    assert (step reply w' = Some w2) as H2.
    { destruct Hans as [[-> ->]|(e&->&->)]; cbn [ModelLoader.step];
        rewrite Hopen; cbn [mbind option_bind]; unfold ModelLoader.answer;
        cbn [loadingPromise modelCache loadingPromises rest promises requests
               tasks w'];
        unfold w2, p; by rewrite ModelLoader_settle_last. }
    set (own := settled_with createModelInstance r first (rest w)).
    set (cache' := match r with
                   | Fulfilled g => <[k := g]> (modelCache w)
                   | Rejected _ => modelCache w
                   end).
    assert (∃ pending',
              pending' !! k = None ∧
              step (Resume t0) w2
              = Some (World cache' pending' own.1 (promises w ++ [Some r])
                        (requests w2)
                        ((tasks w ++ [Activation first (Settled own.2)])
                           ++ waiting))) as (pending'&Hk&H3).
    { assert (∀ x : activation,
                <[t0 := x]> (tasks w ++ Activation first (AwaitFile p) :: waiting)
                = (tasks w ++ [x]) ++ waiting) as Hins.
      { intros x. unfold t0. rewrite insert_app_r_alt, Nat.sub_diag by done.
        cbn. by rewrite <-app_assoc. }
      unfold w2. cbn [ModelLoader.step tasks]. unfold t0 at 1.
      rewrite list_lookup_middle by done. cbn [mbind option_bind].
      unfold resume. cbn [call at_ promises].
      unfold p at 1. rewrite lookup_app_r, Nat.sub_diag by done. cbn [lookup].
      unfold own, cache', settled_with. destruct r as [g|e].
      - cbn [list_lookup mbind option_bind store_and_instantiate fst snd
               modelCache loadingPromises rest promises requests tasks call].
        fold k. rewrite Hins.
        eexists. split; [|reflexivity].
        destruct (_.2); by rewrite ?delete_delete_eq, lookup_delete_eq.
      - cbn [list_lookup mbind option_bind fst snd
               modelCache loadingPromises rest promises requests tasks call].
        fold k. rewrite Hins.
        eexists. split; [|reflexivity]. by rewrite lookup_delete_eq. }
    eexists. split_and!.
    + cbn [ModelLoader.run]. fold waiting in w'. fold w'. rewrite H2.
      cbn [mbind option_bind seq fmap list_fmap ModelLoader.run].
      rewrite H3. cbn [mbind option_bind].
      replace (Datatypes.S t0)
        with (length (tasks w ++ [Activation first (Settled own.2)]))
        by (rewrite length_app; cbn; unfold t0; lia).
      apply ModelLoader_waiters_resume.
      unfold p. by rewrite lookup_app_r, Nat.sub_diag.
    + cbn [requests w2]. rewrite length_alter, length_app. cbn. lia.
    + done.
    + cbn [modelCache]. unfold cache'. destruct r; [apply lookup_insert_eq|done].
    + done.
    + cbn [tasks settle_each]. by rewrite <-app_assoc.
Qed.

End ModelLoader_calls.

Lemma ModelLoader_one_fetch_witness :
  ModelLoader.reachable plain_instance () (ModelLoader.init ()) ∧
  ModelLoader.modelCache (ModelLoader.init ())
    !! ModelConfig.path (just "x" "a.glb") = None ∧
  ModelLoader.loadingPromises (ModelLoader.init ())
    !! ModelConfig.path (just "x" "a.glb") = None ∧
  Forall (λ c, ModelConfig.path c = ModelConfig.path (just "x" "a.glb"))
    [just "y" "a.glb"] ∧
  ∃ w',
    ModelLoader.run plain_instance
      (ModelLoader.Call (just "x" "a.glb")
         :: (ModelLoader.Call <$> [just "y" "a.glb"]))
      (ModelLoader.init ()) = Some w' ∧
    ModelLoader.requests w' = [ModelLoader.Request "a.glb" 0 false] ∧
    ModelLoader.loadingPromises w' !! "a.glb" = Some 0 ∧
    ModelLoader.tasks w'
      = [ModelLoader.Activation (just "x" "a.glb") (ModelLoader.AwaitFile 0);
         ModelLoader.Activation (just "y" "a.glb") (ModelLoader.AwaitLoading 0)] ∧
    ∀ reply r,
      reply = ModelLoader.OnLoad 0 ∧ r = ModelLoader.Fulfilled 0 ∨
      (∃ error, reply = ModelLoader.OnError 0 error ∧
                r = ModelLoader.Rejected error) →
      ∃ w'',
        ModelLoader.run plain_instance
          (reply :: (ModelLoader.Resume <$> seq 0 2)) w' = Some w'' ∧
        length (ModelLoader.requests w'') = 1 ∧
        ModelLoader.loadingPromises w'' !! "a.glb" = None ∧
        ModelLoader.modelCache w'' !! "a.glb"
          = match r with
            | ModelLoader.Fulfilled gltf => Some gltf
            | ModelLoader.Rejected _ => None
            end ∧
        ModelLoader.rest w''
          = (ModelLoader.settle_each plain_instance r
               [just "x" "a.glb"; just "y" "a.glb"] ()).1 ∧
        ModelLoader.tasks w''
          = (ModelLoader.settle_each plain_instance r
               [just "x" "a.glb"; just "y" "a.glb"] ()).2.
Proof.
  assert (ModelLoader.reachable plain_instance () (ModelLoader.init ())) as Hw
    by by exists [].
  assert (Forall (λ c, ModelConfig.path c = ModelConfig.path (just "x" "a.glb"))
            [just "y" "a.glb"]) as Hall by by constructor.
  split; [exact Hw|]. split; [reflexivity|]. split; [reflexivity|].
  split; [exact Hall|].
  exact (ModelLoader_one_fetch plain_instance () (ModelLoader.init ())
           (just "x" "a.glb") [just "y" "a.glb"] Hw eq_refl eq_refl Hall).
Defined.

Lemma ModelLoader_lifecycle_witness :
  ModelLoader.reachable plain_instance () ModelLoader_in_flight ∧
  ModelLoader.exclusive ModelLoader_in_flight ∧
  ∀ e w' k,
    ModelLoader.step plain_instance e ModelLoader_in_flight = Some w' →
    (∀ g, ModelLoader.modelCache ModelLoader_in_flight !! k = Some g →
          ModelLoader.modelCache w' !! k = Some g) ∧
    (∀ p, ModelLoader.loadingPromises ModelLoader_in_flight !! k = Some p →
       ModelLoader.loadingPromises w' !! k = Some p ∨
       ModelLoader.loadingPromises w' !! k = None ∧
       match ModelLoader.promises ModelLoader_in_flight !! p with
       | Some (Some (ModelLoader.Fulfilled g)) =>
           ModelLoader.modelCache w' !! k = Some g
       | Some (Some (ModelLoader.Rejected _)) =>
           ModelLoader.modelCache w' !! k = None
       | _ => False
       end).
Proof.
  assert (ModelLoader.reachable plain_instance () ModelLoader_in_flight) as Hw.
  { exists [ModelLoader.Call (just "x" "a.glb")]. vm_compute. reflexivity. }
  split; [exact Hw|].
  exact (ModelLoader_lifecycle plain_instance () ModelLoader_in_flight Hw).
Defined.

Lemma ModelLoader_cleanup_witness :
  ModelLoader.reachable plain_instance () ModelLoader_in_flight ∧
  ModelLoader.tasks ModelLoader_in_flight !! 0
    = Some (ModelLoader.Activation (just "x" "a.glb") (ModelLoader.AwaitFile 0)) ∧
  ModelLoader.promises ModelLoader_in_flight !! 0 = Some None ∧
  ∃ w0 w1 w2,
    ModelLoader.step plain_instance (ModelLoader.OnError 0 "404")
      ModelLoader_in_flight = Some w0 ∧
    ModelLoader.step plain_instance (ModelLoader.Resume 0) w0 = Some w1 ∧
    ModelLoader.step plain_instance (ModelLoader.Call (just "y" "a.glb")) w1
      = Some w2 ∧
    ModelLoader.tasks w1 !! 0
      = Some (ModelLoader.Activation (just "x" "a.glb")
                (ModelLoader.Settled (ModelLoader.Threw "404"))) ∧
    ModelLoader.loadingPromises w0 !! ModelConfig.path (just "x" "a.glb")
      = Some 0 ∧
    ModelLoader.loadingPromises w1
      = delete (ModelConfig.path (just "x" "a.glb"))
          (ModelLoader.loadingPromises ModelLoader_in_flight) ∧
    ModelLoader.modelCache ModelLoader_in_flight
      !! ModelConfig.path (just "x" "a.glb") = None ∧
    ModelLoader.modelCache w1 = ModelLoader.modelCache ModelLoader_in_flight ∧
    ModelLoader.requests w2 = ModelLoader.requests w1 ++
      [ModelLoader.Request (ModelConfig.path (just "x" "a.glb"))
         (length (ModelLoader.promises w1)) false] ∧
    ModelLoader.tasks w2 = ModelLoader.tasks w1 ++
      [ModelLoader.Activation (just "y" "a.glb")
         (ModelLoader.AwaitFile (length (ModelLoader.promises w1)))].
Proof.
  assert (ModelLoader.reachable plain_instance () ModelLoader_in_flight) as Hw.
  { exists [ModelLoader.Call (just "x" "a.glb")]. vm_compute. reflexivity. }
  assert (ModelLoader.tasks ModelLoader_in_flight !! 0
          = Some (ModelLoader.Activation (just "x" "a.glb")
                    (ModelLoader.AwaitFile 0))) as Ha
    by (vm_compute; reflexivity).
  assert (ModelLoader.promises ModelLoader_in_flight !! 0 = Some None) as Hp
    by (vm_compute; reflexivity).
  split; [exact Hw|]. split; [exact Ha|]. split; [exact Hp|].
  exact (ModelLoader_cleanup plain_instance () ModelLoader_in_flight 0
           (just "x" "a.glb") (just "y" "a.glb") 0 "404" Hw Ha Hp eq_refl).
Defined.
